(** * dependency-doctor: conflict classification and solution ranking

    A shallow embedding of the decision logic of the dependency-doctor MCP
    server (detect_conflicts, suggest_solutions, detect_environment and the
    semver helpers of utils/index.ts), followed by the properties of that
    logic.

    Conventions of the embedding.
    - A JavaScript string is a [string]: a sequence of 8-bit characters read
      as ASCII.  Of the line terminators and white space of ECMAScript only
      those below 128 exist in this alphabet.
    - A plain object used as [Record<string, V>] and a [Map<string, V>] are
      association lists with pairwise distinct keys, kept in insertion order;
      a [Set<string>] is a duplicate-free list in insertion order.
    - Where the sources read [o[k]] for a name [k] given from outside, the
      read goes through the prototype of the object ([Js.read]); an
      assignment [o[k] = v] is [Js.put].
    - A call that may throw returns a [Js.result].
    - [Math.random] and the clock are inputs: the identifiers handed out by
      [generateId] come from an oracle that is threaded through the code.
    - The outcome of the external commands and of the registry lookup are
      inputs of the functions that consume them. *)

From Stdlib Require Import List String Ascii Bool Arith NArith ZArith Lia.
From Stdlib Require Import DecimalString Permutation.
Import ListNotations.

Set Warnings "-register-all".

Local Open Scope string_scope.
Local Open Scope list_scope.

(* ===================================================================== *)
(** * The JavaScript runtime, as far as the sources use it *)
(* ===================================================================== *)

Module Js.

(** Completion of a call: a value or an exception. *)
Inductive result (A : Type) : Type :=
| Ret (a : A)
| Throw.

Arguments Ret {A} a.
Arguments Throw {A}.

(** [try { return e } catch { return d }] *)
Definition try_catch {A : Type} (e : result A) (d : A) : A :=
  match e with
  | Ret a => a
  | Throw => d
  end.

(** ** Strings *)

(** A template literal: the concatenation of its pieces. *)
Definition cat (pieces : list string) : string := String.concat "" pieces.

(** [Array.prototype.join] *)
Definition join (sep : string) (l : list string) : string := String.concat sep l.

(** [String(n)] for a non-negative integer. *)
Definition of_nat (n : nat) : string := NilEmpty.string_of_uint (Nat.to_uint n).

(** Truthiness of a string, and of a possibly undefined string. *)
Definition truthy (s : string) : bool := negb (s =? "").

Definition truthy_opt (o : option string) : bool :=
  match o with
  | Some s => truthy s
  | None => false
  end.

(** [a || b] on possibly undefined strings. *)
Definition or_else (a b : option string) : option string :=
  if truthy_opt a then a else b.

(** [a || d] where [d] is a string. *)
Definition or_default (a : option string) (d : string) : string :=
  match a with
  | Some s => if truthy s then s else d
  | None => d
  end.

Definition is_digit (c : ascii) : bool :=
  let n := nat_of_ascii c in ((48 <=? n) && (n <=? 57))%nat.

Definition digit_val (c : ascii) : N := N_of_ascii c - 48.

(** ECMAScript LineTerminator, below 128: LF and CR. *)
Definition is_line_terminator (c : ascii) : bool :=
  let n := nat_of_ascii c in ((n =? 10) || (n =? 13))%nat.

(** ECMAScript WhiteSpace and LineTerminator, below 128. *)
Definition is_space (c : ascii) : bool :=
  let n := nat_of_ascii c in (((9 <=? n) && (n <=? 13)) || (n =? 32))%nat.

(** Canonicalisation of the [i] flag on ASCII: upper case. *)
Definition upcase (c : ascii) : ascii :=
  let n := nat_of_ascii c in
  if ((97 <=? n) && (n <=? 122))%nat then ascii_of_nat (n - 32) else c.

(** [s.split(sep)] for a one-character separator. *)
Fixpoint split_aux (sep : ascii) (cur : string) (s : string) : list string :=
  match s with
  | EmptyString => [cur]
  | String c s' =>
      if Ascii.eqb c sep then cur :: split_aux sep EmptyString s'
      else split_aux sep (cur ++ String c EmptyString)%string s'
  end.

Definition split (sep : ascii) (s : string) : list string :=
  split_aux sep EmptyString s.

Definition rev_string (s : string) : string :=
  string_of_list_ascii (rev (list_ascii_of_string s)).

(** [parseInt(s, 10)]: white space, an optional sign, then the longest run
    of digits; [None] stands for NaN.  The value is exact, where JavaScript
    rounds integers beyond 2^53. *)
Fixpoint skip_space (s : string) : string :=
  match s with
  | String c s' => if is_space c then skip_space s' else s
  | EmptyString => s
  end.

Fixpoint digits_value (acc : N) (s : string) : N :=
  match s with
  | String c s' => if is_digit c then digits_value (10 * acc + digit_val c) s' else acc
  | EmptyString => acc
  end.

(** [s.trim()] *)
Definition trim (s : string) : string :=
  rev_string (skip_space (rev_string (skip_space s))).

Definition starts_with_digit (s : string) : bool :=
  match s with
  | String c _ => is_digit c
  | EmptyString => false
  end.

Definition parseInt (s : string) : option Z :=
  match skip_space s with
  | String "-" r =>
      if starts_with_digit r then Some (- Z.of_N (digits_value 0 r))%Z else None
  | String "+" r =>
      if starts_with_digit r then Some (Z.of_N (digits_value 0 r)) else None
  | r => if starts_with_digit r then Some (Z.of_N (digits_value 0 r)) else None
  end.

(** [a >= b] on numbers, either of which may be NaN. *)
Definition num_ge (a b : option Z) : bool :=
  match a, b with
  | Some x, Some y => (y <=? x)%Z
  | _, _ => false
  end.

Definition num_gt (a b : option Z) : bool :=
  match a, b with
  | Some x, Some y => (y <? x)%Z
  | _, _ => false
  end.

(** ** Regular expressions

    The patterns of the sources are sequences of quantified one-character
    atoms, some of them captured; [RegExp] matching is greedy with
    backtracking, leftmost start first. *)

Inductive atom : Type :=
| Chr (c : ascii)      (* a literal character *)
| Dot                  (* [.] : anything but a line terminator *)
| Digit                (* [\d] *)
| Space.               (* [\s] *)

Inductive quant : Type :=
| One                  (* exactly one *)
| Opt                  (* [?] *)
| Star                 (* [*] *)
| Plus.                (* [+] *)

Record item : Type := mkItem { it_atom : atom; it_quant : quant; it_capture : bool }.

Definition regex : Type := list item.

(** A literal piece of a pattern. *)
Fixpoint lit (s : string) : regex :=
  match s with
  | EmptyString => []
  | String c s' => mkItem (Chr c) One false :: lit s'
  end.

Definition accepts (ignore_case : bool) (a : atom) (c : ascii) : bool :=
  match a with
  | Chr d => if ignore_case then Ascii.eqb (upcase c) (upcase d) else Ascii.eqb c d
  | Dot => negb (is_line_terminator c)
  | Digit => is_digit c
  | Space => is_space c
  end.

Definition push_capture (capture : bool) (text : string) (r : option (list string * string))
  : option (list string * string) :=
  match r with
  | Some (caps, rest) => Some (if capture then text :: caps else caps, rest)
  | None => None
  end.

(** Greedy repetition of an atom: the longest run is tried first and the
    continuation [k] decides; [lo] is the number of occurrences still
    required and [taken] the text consumed so far. *)
Fixpoint repeat_atom (ok : ascii -> bool) (k : string -> option (list string * string))
    (capture : bool) (taken : string) (lo : nat) (s : string)
  : option (list string * string) :=
  let stop :=
    match lo with
    | 0 => push_capture capture taken (k s)
    | S _ => None
    end in
  match s with
  | String c s' =>
      if ok c then
        match repeat_atom ok k capture (taken ++ String c EmptyString)%string (pred lo) s' with
        | Some r => Some r
        | None => stop
        end
      else stop
  | EmptyString => stop
  end.

(** Match a pattern at the start of [s]: the captures, in order, and what
    is left of [s] after the match. *)
Fixpoint match_here (ignore_case : bool) (re : regex) {struct re}
  : string -> option (list string * string) :=
  match re with
  | [] => fun s => Some ([], s)
  | it :: re' =>
      let k := match_here ignore_case re' in
      let ok := accepts ignore_case (it_atom it) in
      match it_quant it with
      | One => fun s =>
          match s with
          | String c s' =>
              if ok c then push_capture (it_capture it) (String c EmptyString) (k s')
              else None
          | EmptyString => None
          end
      | Opt => fun s =>
          match s with
          | String c s' =>
              if ok c then
                match push_capture (it_capture it) (String c EmptyString) (k s') with
                | Some r => Some r
                | None => push_capture (it_capture it) EmptyString (k s)
                end
              else push_capture (it_capture it) EmptyString (k s)
          | EmptyString => push_capture (it_capture it) EmptyString (k s)
          end
      | Star => repeat_atom ok k (it_capture it) EmptyString 0
      | Plus => repeat_atom ok k (it_capture it) EmptyString 1
      end
  end.

(** The text consumed by a match that left [rest] of [s]. *)
Definition matched (s rest : string) : string :=
  substring 0 (String.length s - String.length rest) s.

(** [s.match(re)] without the [g] flag: the leftmost match, as the whole
    match followed by the captures. *)
Fixpoint search (ignore_case : bool) (re : regex) (s : string) : option (list string) :=
  match match_here ignore_case re s with
  | Some (caps, rest) => Some (matched s rest :: caps)
  | None =>
      match s with
      | String _ s' => search ignore_case re s'
      | EmptyString => None
      end
  end.

(** [s.match(re)] for a pattern anchored with [^]. *)
Definition match_anchored (ignore_case : bool) (re : regex) (s : string) : option (list string) :=
  match match_here ignore_case re s with
  | Some (caps, rest) => Some (matched s rest :: caps)
  | None => None
  end.

(** [s.match(re)] with the [g] flag: every match, left to right, each search
    resuming where the previous match ended ([skip] characters further; one
    further after an empty match).  The empty list stands for [null]. *)
Fixpoint match_all_from (ignore_case : bool) (re : regex) (s : string) (skip : nat)
  : list string :=
  match s with
  | EmptyString =>
      match skip, match_here ignore_case re EmptyString with
      | 0, Some _ => [EmptyString]
      | _, _ => []
      end
  | String _ s' =>
      match skip with
      | S n => match_all_from ignore_case re s' n
      | 0 =>
          match match_here ignore_case re s with
          | Some (_, rest) =>
              let m := matched s rest in
              m :: match_all_from ignore_case re s' (pred (String.length m))
          | None => match_all_from ignore_case re s' 0
          end
      end
  end.

Definition match_all (ignore_case : bool) (re : regex) (s : string) : list string :=
  match_all_from ignore_case re s 0.

(** ** Objects and collections *)

(** [Record<string, V>]: the entries in the order [Object.entries] lists
    them.  (The reordering of keys that are array indices is not modelled.) *)
Definition object (V : Type) : Type := list (string * V).

Fixpoint get {V : Type} (k : string) (o : object V) : option V :=
  match o with
  | [] => None
  | (k', v) :: o' => if k' =? k then Some v else get k o'
  end.

(** [o[k] = v]: overwrite in place, or append a new key. *)
Fixpoint set {V : Type} (k : string) (v : V) (o : object V) : object V :=
  match o with
  | [] => [(k, v)]
  | (k', v') :: o' => if k' =? k then (k', v) :: o' else (k', v') :: set k v o'
  end.

(** [Object.assign(target, src)] *)
Definition assign {V : Type} (target src : object V) : object V :=
  fold_left (fun acc kv => set (fst kv) (snd kv) acc) src target.

(** An optional property spread into an object literal: [...undefined]
    contributes nothing. *)
Definition entries_opt {V : Type} (o : option (object V)) : object V :=
  match o with
  | Some e => e
  | None => []
  end.

(** [{ ...a, ...b }] *)
Definition spread2 {V : Type} (a b : option (object V)) : object V :=
  assign (assign [] (entries_opt a)) (entries_opt b).

(** [Set.prototype.add] *)
Definition set_add (x : string) (s : list string) : list string :=
  if existsb (String.eqb x) s then s else s ++ [x].

(** [Array.prototype.sort] with the comparator [(a, b) => key b - key a]:
    the stable arrangement by descending key (an element stays ahead of
    the later elements of equal key). *)
Fixpoint insert_desc {A : Type} (key : A -> Z) (x : A) (l : list A) : list A :=
  match l with
  | [] => [x]
  | y :: l' => if (key y <=? key x)%Z then x :: l else y :: insert_desc key x l'
  end.

Fixpoint sort_desc {A : Type} (key : A -> Z) (l : list A) : list A :=
  match l with
  | [] => []
  | x :: l' => insert_desc key x (sort_desc key l')
  end.

(** ** Numbers

    A JavaScript number is a double.  An integer of magnitude below 2^53 is
    one; a greater integer is read as the nearest double, a tie going to the
    even significand.  What is rounded to 2^1024 or more is Infinity, for
    which 2^1024 stands here: it compares with the doubles, and with itself,
    as Infinity does. *)
Definition round_to_double (n : Z) : Z :=
  if (n <? 2 ^ 53)%Z then n
  else
    let e := (Z.log2 n - 52)%Z in
    let q := Z.shiftr n e in
    let r := (n - Z.shiftl q e)%Z in
    let half := Z.shiftl 1 (e - 1) in
    let q' := if (half <? r)%Z || ((r =? half)%Z && Z.odd q) then (q + 1)%Z else q in
    Z.min (Z.shiftl q' e) (2 ^ 1024).

Definition nearest_double (z : Z) : Z := (Z.sgn z * round_to_double (Z.abs z))%Z.

(** [parseInt(s)] as the number it returns: the integer read, rounded. *)
Definition parseInt_number (s : string) : option Z :=
  match parseInt s with
  | Some z => Some (nearest_double z)
  | None => None
  end.

(** ** Properties read through the prototype

    A plain object (an object literal, a spread, what [JSON.parse] returns)
    inherits from [Object.prototype]: reading [o[k]] gives the own value
    under [k] or, for want of one, what the prototype holds under [k]. *)
Definition prototype_names : list string :=
  ["constructor"; "__defineGetter__"; "__defineSetter__"; "hasOwnProperty";
   "__lookupGetter__"; "__lookupSetter__"; "isPrototypeOf"; "propertyIsEnumerable";
   "toString"; "valueOf"; "__proto__"; "toLocaleString"].

Definition inherited (k : string) : bool := existsb (String.eqb k) prototype_names.

(** What [o[k]] gives: an own value, or an inherited one, which is a
    function or, under [__proto__], the prototype itself: never a string,
    never undefined, and truthy. *)
Inductive property (V : Type) : Type :=
| Own (v : V)
| Inherited.

Arguments Own {V} v.
Arguments Inherited {V}.

Definition read {V : Type} (k : string) (o : object V) : option (property V) :=
  match get k o with
  | Some v => Some (Own v)
  | None => if inherited k then Some Inherited else None
  end.

(** Truthiness of what was read from an object of strings. *)
Definition truthy_property (p : option (property string)) : bool :=
  match p with
  | Some (Own s) => truthy s
  | Some Inherited => true
  | None => false
  end.

(** [a || b] on what was read from objects of strings. *)
Definition or_property (a b : option (property string)) : option (property string) :=
  if truthy_property a then a else b.

(** What was read, when it is a string. *)
Definition own_string (p : option (property string)) : option string :=
  match p with
  | Some (Own s) => Some s
  | _ => None
  end.

(** [o[k] = v] on a plain object, for a value [v] that is not an object: as
    [set], except that under the key [__proto__], when the object has no own
    property of that name, the assignment reaches the setter inherited from
    [Object.prototype], which ignores such a value. *)
Definition put {V : Type} (k : string) (v : V) (o : object V) : object V :=
  match get k o with
  | None => if k =? "__proto__" then o else set k v o
  | Some _ => set k v o
  end.

End Js.

(* ===================================================================== *)
(** * The semver package *)
(* ===================================================================== *)

Module semver.

(** Modelled from the spec: the [semver] package that utils/index.ts imports
    ([semver.satisfies], [semver.maxSatisfying], [semver.validRange]) is an
    external dependency and is not part of the sources.  The model follows
    the specification of the Version Range Oracle: versions are numeric
    major.minor.patch with an optional pre-release tag that sorts below its
    release; a range is a [||]-separated list of white-space separated
    comparators in caret, tilde, comparator ([<], [<=], [>], [>=], [=]),
    x-range and hyphen syntax; building a range from a malformed string
    throws, which [satisfies] turns into [false] and [maxSatisfying] into
    [null].  Where the specification is silent (the grammar of versions, the
    expansion of caret, tilde and x-ranges, the treatment of pre-releases by
    a range) the model follows the published behaviour of the package in its
    default, strict mode. *)

Inductive identifier : Type :=
| Numeric (n : N)
| Alphanumeric (s : string).

Record SemVer : Type := mkSemVer {
  major : N;
  minor : N;
  patch : N;
  prerelease : list identifier
}.

Definition MAX_LENGTH : nat := 256.
Definition MAX_SAFE_INTEGER : N := 9007199254740991.

Definition all_chars (ok : ascii -> bool) (s : string) : bool :=
  forallb ok (list_ascii_of_string s).

Definition is_letter (c : ascii) : bool :=
  let n := nat_of_ascii c in
  (((65 <=? n) && (n <=? 90)) || ((97 <=? n) && (n <=? 122)))%nat.

Definition is_ident_char (c : ascii) : bool :=
  Js.is_digit c || is_letter c || Ascii.eqb c "-".

(** [0|[1-9]\d*], within the safe integers. *)
Definition parse_numeric (s : string) : option N :=
  match s with
  | EmptyString => None
  | String c s' =>
      if all_chars Js.is_digit s && ((s =? "0") || negb (Ascii.eqb c "0")) then
        let n := Js.digits_value 0 s in
        if (n <=? MAX_SAFE_INTEGER)%N then Some n else None
      else None
  end.

(** One pre-release identifier: numeric without leading zeros, or
    alphanumeric with at least one non-digit. *)
Definition parse_identifier (s : string) : option identifier :=
  match s with
  | EmptyString => None
  | String c _ =>
      if all_chars Js.is_digit s then
        if (s =? "0") || negb (Ascii.eqb c "0")
        then Some (Numeric (Js.digits_value 0 s)) else None
      else if all_chars is_ident_char s then Some (Alphanumeric s)
      else None
  end.

Definition valid_build_identifier (s : string) : bool :=
  negb (s =? "") && all_chars is_ident_char s.

Fixpoint parse_all {A B : Type} (f : A -> option B) (l : list A) : option (list B) :=
  match l with
  | [] => Some []
  | x :: l' =>
      match f x, parse_all f l' with
      | Some y, Some ys => Some (y :: ys)
      | _, _ => None
      end
  end.

(** Cut [s] at the first occurrence of [c]. *)
Fixpoint cut (c : ascii) (s : string) : string * option string :=
  match s with
  | EmptyString => (EmptyString, None)
  | String d s' =>
      if Ascii.eqb d c then (EmptyString, Some s')
      else let (l, r) := cut c s' in (String d l, r)
  end.

Definition parse_prerelease (o : option string) : option (list identifier) :=
  match o with
  | None => Some []
  | Some p => parse_all parse_identifier (Js.split "." p)
  end.

Definition valid_build (o : option string) : bool :=
  match o with
  | None => true
  | Some b => forallb valid_build_identifier (Js.split "." b)
  end.

Definition strip_v (s : string) : string :=
  match s with
  | String "v" s' => s'
  | _ => s
  end.

(** Modelled from the spec: [new SemVer(version)] of the semver package;
    [None] where the constructor throws. *)
Definition new_SemVer (version : string) : option SemVer :=
  if (MAX_LENGTH <? String.length version)%nat then None
  else
    let (body, build) := cut "+" (strip_v (Js.trim version)) in
    let (core, pre) := cut "-" body in
    match map parse_numeric (Js.split "." core), parse_prerelease pre with
    | [Some M; Some m; Some p], Some ids =>
        if valid_build build then Some (mkSemVer M m p ids) else None
    | _, _ => None
    end.

(** ** Precedence *)

Definition lex (c d : comparison) : comparison :=
  match c with
  | Eq => d
  | _ => c
  end.

Definition compareIdentifiers (a b : identifier) : comparison :=
  match a, b with
  | Numeric x, Numeric y => N.compare x y
  | Numeric _, Alphanumeric _ => Lt
  | Alphanumeric _, Numeric _ => Gt
  | Alphanumeric x, Alphanumeric y => String.compare x y
  end.

Fixpoint compareIdentifierLists (a b : list identifier) : comparison :=
  match a, b with
  | [], [] => Eq
  | [], _ :: _ => Lt
  | _ :: _, [] => Gt
  | x :: a', y :: b' => lex (compareIdentifiers x y) (compareIdentifierLists a' b')
  end.

Definition compareMain (a b : SemVer) : comparison :=
  lex (N.compare (major a) (major b))
    (lex (N.compare (minor a) (minor b)) (N.compare (patch a) (patch b))).

(** Modelled from the spec: pre-release precedence of the semver package.
    A version with a pre-release tag sorts below the same version without. *)
Definition comparePre (a b : SemVer) : comparison :=
  match prerelease a, prerelease b with
  | [], [] => Eq
  | _ :: _, [] => Lt
  | [], _ :: _ => Gt
  | pa, pb => compareIdentifierLists pa pb
  end.

(** Modelled from the spec: [SemVer.compare] of the semver package, numeric
    on major, minor and patch, then by pre-release. *)
Definition compare (a b : SemVer) : comparison :=
  lex (compareMain a b) (comparePre a b).

(** ** Ranges *)

Inductive operator : Type := OpLt | OpLe | OpGt | OpGe | OpEq.

Inductive Comparator : Type :=
| ANY
| Cmp (op : operator) (v : SemVer).

Definition Range : Type := list (list Comparator).

Definition cmp (a : SemVer) (op : operator) (b : SemVer) : bool :=
  match op, compare a b with
  | OpLt, Lt => true
  | OpLe, (Lt | Eq) => true
  | OpGt, Gt => true
  | OpGe, (Gt | Eq) => true
  | OpEq, Eq => true
  | _, _ => false
  end.

Definition Comparator_test (c : Comparator) (v : SemVer) : bool :=
  match c with
  | ANY => true
  | Cmp op w => cmp v op w
  end.

Definition same_tuple (a b : SemVer) : bool :=
  ((major a =? major b) && (minor a =? minor b) && (patch a =? patch b))%N.

Definition allows_prerelease_of (v : SemVer) (c : Comparator) : bool :=
  match c with
  | ANY => false
  | Cmp _ w =>
      match prerelease w with
      | [] => false
      | _ :: _ => same_tuple w v
      end
  end.

Definition testSet (set : list Comparator) (v : SemVer) : bool :=
  forallb (fun c => Comparator_test c v) set &&
  match prerelease v with
  | [] => true
  | _ :: _ => existsb (allows_prerelease_of v) set
  end.

(** Modelled from the spec: [range.test(version)] of the semver package; a
    version that does not parse meets no range. *)
Definition test (r : Range) (version : string) : bool :=
  match new_SemVer version with
  | Some v => existsb (fun set => testSet set v) r
  | None => false
  end.

(** ** Reading a range *)

(** A possibly partial version; [None] is a missing component or one of
    [x], [X], [*]. *)
Record partial : Type := mkPartial {
  pM : option N;
  pm : option N;
  pp : option N;
  ppre : list identifier
}.

Definition parse_xid (s : string) : option (option N) :=
  if (s =? "x") || (s =? "X") || (s =? "*") then Some None
  else
    match parse_numeric s with
    | Some n => Some (Some n)
    | None => None
    end.

Fixpoint skip_v_eq (s : string) : string :=
  match s with
  | String c s' =>
      if Ascii.eqb c "v" || Ascii.eqb c "=" || Js.is_space c then skip_v_eq s' else s
  | EmptyString => s
  end.

Definition parse_partial (s : string) : option partial :=
  let (body, build) := cut "+" (skip_v_eq s) in
  let (core, pre) := cut "-" body in
  match map parse_xid (Js.split "." core), pre, build with
  | [Some M], None, None => Some (mkPartial M None None [])
  | [Some M; Some m], None, None => Some (mkPartial M m None [])
  | [Some M; Some m; Some p], _, _ =>
      match parse_prerelease pre with
      | Some ids => if valid_build build then Some (mkPartial M m p ids) else None
      | None => None
      end
  | _, _, _ => None
  end.

Inductive range_operator : Type :=
| RCaret | RTilde | RLt | RLe | RGt | RGe | REq | RNone.

Definition split_operator (tok : string) : range_operator * string :=
  match tok with
  | String "^" r => (RCaret, r)
  | String "~" (String ">" r) => (RTilde, r)
  | String "~" r => (RTilde, r)
  | String ">" (String "=" r) => (RGe, r)
  | String "<" (String "=" r) => (RLe, r)
  | String ">" r => (RGt, r)
  | String "<" r => (RLt, r)
  | String "=" r => (REq, r)
  | _ => (RNone, tok)
  end.

(** [>=M.m.p-pre] and [<M.m.p-0] *)
Definition lower (M m p : N) (pre : list identifier) : Comparator :=
  Cmp OpGe (mkSemVer M m p pre).

Definition upper (M m p : N) : Comparator :=
  Cmp OpLt (mkSemVer M m p [Numeric 0]).

Definition nullSet : Comparator := upper 0 0 0.

Definition replaceCaret (v : partial) : list Comparator :=
  match pM v, pm v, pp v with
  | None, _, _ => [ANY]
  | Some M, None, _ => [lower M 0 0 []; upper (M + 1) 0 0]
  | Some M, Some m, None =>
      if (M =? 0)%N then [lower M m 0 []; upper M (m + 1) 0]
      else [lower M m 0 []; upper (M + 1) 0 0]
  | Some M, Some m, Some p =>
      if (M =? 0)%N then
        if (m =? 0)%N then [lower M m p (ppre v); upper M m (p + 1)]
        else [lower M m p (ppre v); upper M (m + 1) 0]
      else [lower M m p (ppre v); upper (M + 1) 0 0]
  end.

Definition replaceTilde (v : partial) : list Comparator :=
  match pM v, pm v, pp v with
  | None, _, _ => [ANY]
  | Some M, None, _ => [lower M 0 0 []; upper (M + 1) 0 0]
  | Some M, Some m, None => [lower M m 0 []; upper M (m + 1) 0]
  | Some M, Some m, Some p => [lower M m p (ppre v); upper M (m + 1) 0]
  end.

Definition plain_operator (op : range_operator) : operator :=
  match op with
  | RLt => OpLt
  | RLe => OpLe
  | RGt => OpGt
  | RGe => OpGe
  | _ => OpEq
  end.

Definition replaceXRange (op : range_operator) (v : partial) : list Comparator :=
  match pM v, pm v, pp v with
  | Some M, Some m, Some p => [Cmp (plain_operator op) (mkSemVer M m p (ppre v))]
  | None, _, _ =>
      match op with
      | RGt | RLt => [nullSet]
      | _ => [ANY]
      end
  | Some M, xm, _ =>
      match op, xm with
      | RGt, None => [lower (M + 1) 0 0 []]
      | RGt, Some m => [lower M (m + 1) 0 []]
      | RLe, None => [upper (M + 1) 0 0]
      | RLe, Some m => [upper M (m + 1) 0]
      | RLt, None => [upper M 0 0]
      | RLt, Some m => [upper M m 0]
      | RGe, None => [lower M 0 0 []]
      | RGe, Some m => [lower M m 0 []]
      | _, None => [lower M 0 0 []; upper (M + 1) 0 0]
      | _, Some m => [lower M m 0 []; upper M (m + 1) 0]
      end
  end.

(** One comparator of a range; a token that is no comparator throws. *)
Definition parseComparator (tok : string) : Js.result (list Comparator) :=
  let (op, rest) := split_operator tok in
  match parse_partial rest with
  | None => Js.Throw
  | Some v =>
      Js.Ret match op with
             | RCaret => replaceCaret v
             | RTilde => replaceTilde v
             | _ => replaceXRange op v
             end
  end.

(** [A - B] *)
Definition hyphenReplace (a b : partial) : list Comparator :=
  let from :=
    match pM a, pm a, pp a with
    | None, _, _ => []
    | Some M, None, _ => [lower M 0 0 []]
    | Some M, Some m, None => [lower M m 0 []]
    | Some M, Some m, Some p => [lower M m p (ppre a)]
    end in
  let to :=
    match pM b, pm b, pp b with
    | None, _, _ => []
    | Some M, None, _ => [upper (M + 1) 0 0]
    | Some M, Some m, None => [upper M (m + 1) 0]
    | Some M, Some m, Some p => [Cmp OpLe (mkSemVer M m p (ppre b))]
    end in
  match from ++ to with
  | [] => [ANY]
  | l => l
  end.

(** The white-space separated words of a string. *)
Fixpoint words_aux (cur : string) (s : string) : list string :=
  match s with
  | EmptyString => if cur =? "" then [] else [cur]
  | String c s' =>
      if Js.is_space c then
        if cur =? "" then words_aux EmptyString s' else cur :: words_aux EmptyString s'
      else words_aux (cur ++ String c EmptyString)%string s'
  end.

Definition words (s : string) : list string := words_aux EmptyString s.

Definition is_bare_operator (tok : string) : bool :=
  existsb (String.eqb tok) ["<"; ">"; "<="; ">="; "="; "~"; "~>"; "^"].

(** An operator separated from its version by white space belongs to it. *)
Fixpoint glue (toks : list string) : list string :=
  match toks with
  | op :: rest =>
      match rest with
      | v :: rest' =>
          if is_bare_operator op then (op ++ v)%string :: glue rest' else op :: glue rest
      | [] => toks
      end
  | [] => []
  end.

Fixpoint sequence {A : Type} (l : list (Js.result (list A))) : Js.result (list A) :=
  match l with
  | [] => Js.Ret []
  | Js.Throw :: _ => Js.Throw
  | Js.Ret x :: l' =>
      match sequence l' with
      | Js.Ret xs => Js.Ret (x ++ xs)
      | Js.Throw => Js.Throw
      end
  end.

Definition parseComparators (toks : list string) : Js.result (list Comparator) :=
  match toks with
  | [] => Js.Ret [ANY]
  | _ => sequence (map parseComparator (glue toks))
  end.

(** One [||]-alternative of a range. *)
Definition parseRange (part : string) : Js.result (list Comparator) :=
  let toks := words part in
  match toks with
  | [a; dash; b] =>
      match dash =? "-", parse_partial a, parse_partial b with
      | true, Some x, Some y => Js.Ret (hyphenReplace x y)
      | _, _, _ => parseComparators toks
      end
  | _ => parseComparators toks
  end.

Fixpoint split_or_aux (cur : string) (s : string) : list string :=
  match s with
  | EmptyString => [cur]
  | String c s' =>
      match s' with
      | String d s'' =>
          if Ascii.eqb c "|" && Ascii.eqb d "|" then cur :: split_or_aux EmptyString s''
          else split_or_aux (cur ++ String c EmptyString)%string s'
      | EmptyString => [(cur ++ String c EmptyString)%string]
      end
  end.

Fixpoint collect {A : Type} (l : list (Js.result A)) : Js.result (list A) :=
  match l with
  | [] => Js.Ret []
  | Js.Throw :: _ => Js.Throw
  | Js.Ret x :: l' =>
      match collect l' with
      | Js.Ret xs => Js.Ret (x :: xs)
      | Js.Throw => Js.Throw
      end
  end.

(** Modelled from the spec: [new Range(range)] of the semver package; it
    throws on a malformed range. *)
Definition new_Range (range : string) : Js.result Range :=
  collect (map (fun part => parseRange (Js.trim part)) (split_or_aux EmptyString range)).

(** ** The functions the sources call *)

(** Modelled from the spec: [semver.satisfies] of the semver package; a
    range that cannot be built is met by nothing. *)
Definition satisfies (version range : string) : Js.result bool :=
  match new_Range range with
  | Js.Throw => Js.Ret false
  | Js.Ret r => Js.Ret (test r version)
  end.

(** Modelled from the spec: one turn of the loop of [semver.maxSatisfying];
    [acc] is the pair [max], [maxSV]. *)
Definition maxSatisfying_step (r : Range) (acc : option (string * SemVer)) (v : string)
  : option (string * SemVer) :=
  if test r v then
    match new_SemVer v, acc with
    | Some sv, None => Some (v, sv)
    | Some sv, Some (_, maxSV) =>
        match compare maxSV sv with
        | Lt => Some (v, sv)
        | _ => acc
        end
    | None, _ => acc
    end
  else acc.

(** Modelled from the spec: [semver.maxSatisfying] of the semver package;
    [null] when the range cannot be built or no version meets it. *)
Definition maxSatisfying (versions : list string) (range : string)
  : Js.result (option string) :=
  match new_Range range with
  | Js.Throw => Js.Ret None
  | Js.Ret r => Js.Ret (option_map fst (fold_left (maxSatisfying_step r) versions None))
  end.

(** Modelled from the spec: [semver.validRange] of the semver package; the
    range, or [null] when it cannot be built. *)
Definition validRange (range : string) : Js.result (option Range) :=
  match new_Range range with
  | Js.Throw => Js.Ret None
  | Js.Ret r => Js.Ret (Some r)
  end.

End semver.

(* ===================================================================== *)
(** * utils/index.ts *)
(* ===================================================================== *)

Module Utils.

(** ** Semver utils *)

Definition satisfiesVersion (version range : string) : bool :=
  Js.try_catch (semver.satisfies version range) false.

Definition getMaxSatisfying (versions : list string) (range : string)
  : Js.result (option string) :=
  semver.maxSatisfying versions range.

Definition isValidRange (range : string) : bool :=
  Js.try_catch
    match semver.validRange range with
    | Js.Ret (Some _) => Js.Ret true
    | Js.Ret None => Js.Ret false
    | Js.Throw => Js.Throw
    end
    false.

(** ** String utils

    [generateId] draws on [Math.random]; the text it returns on its n-th
    call is [ids n], for an oracle [ids] that stands for the random source.
    A computation that generates identifiers reads the oracle and advances
    the call counter. *)

Definition Gen (A : Type) : Type := (nat -> string) -> nat -> A * nat.

Definition ret {A : Type} (a : A) : Gen A := fun _ n => (a, n).

Definition bind {A B : Type} (m : Gen A) (f : A -> Gen B) : Gen B :=
  fun ids n => let (a, n') := m ids n in f a ids n'.

Definition generateId : Gen string := fun ids n => (ids n, S n).

(** The value a computation produces, started at call [n]. *)
Definition run {A : Type} (m : Gen A) (ids : nat -> string) (n : nat) : A :=
  fst (m ids n).

(** Sequencing of computations that may throw: an exception ends the
    sequence. *)
Definition bind_result {A B : Type} (m : Gen (Js.result A))
    (f : A -> Gen (Js.result B)) : Gen (Js.result B) :=
  fun ids n =>
    match m ids n with
    | (Js.Ret a, n') => f a ids n'
    | (Js.Throw, n') => (Js.Throw, n')
    end.

End Utils.

Declare Scope gen_scope.
Delimit Scope gen_scope with gen.
Notation "x <- m ;; k" := (Utils.bind m (fun x => k))
  (at level 61, m at next level, right associativity) : gen_scope.
Notation "x <-- m ;; k" := (Utils.bind_result m (fun x => k))
  (at level 61, m at next level, right associativity) : gen_scope.

Module Loops.
Import Utils.
Local Open Scope gen_scope.

(** [for (const x of l) { ... issues.push(...) ... }]: the records pushed
    while [l] is traversed, where one turn pushes the records of [body x]. *)
Fixpoint for_push {A B : Type} (body : A -> Gen (list B)) (l : list A) : Gen (list B) :=
  match l with
  | [] => ret []
  | x :: l' =>
      here <- body x ;;
      later <- for_push body l' ;;
      ret (here ++ later)
  end.

End Loops.

(* ===================================================================== *)
(** * types/index.ts *)
(* ===================================================================== *)

Module Types.

Inductive OverrideValue : Type :=
| OvString (s : string)
| OvObject (entries : list (string * OverrideValue)).

Record Engines : Type := {
  node : option string;
  npm : option string
}.

Record PnpmField : Type := {
  pnpm_overrides : option (Js.object string)
}.

Record PackageJson : Type := {
  name : string;
  version : string;
  dependencies : option (Js.object string);
  devDependencies : option (Js.object string);
  engines : option Engines;
  overrides : option (list (string * OverrideValue));
  resolutions : option (Js.object string);
  pnpm : option PnpmField
}.

Record WorkspaceInfo : Type := {
  ws_name : string;
  ws_path : string;
  relativePath : string;
  ws_version : string;
  packageJson : PackageJson
}.

Inductive ConflictType : Type :=
| version_conflict
| peer_dependency
| multiple_versions
| workspace_mismatch
| override_risk
| engine_mismatch
| deprecated
| missing_dependency.

Inductive Severity : Type := error | warning | info.

Record PeerDependencyDetail : Type := {
  host : string;
  hostVersion : string;
  peerPackage : string;
  required : string;
  installed : option string
}.

Record MultipleVersionsDetail : Type := {
  mv_version : string;
  mv_paths : list string
}.

Record WorkspaceMismatchDetail : Type := {
  workspace : string;
  localVersion : string;
  usedVersions : list string
}.

Record OverrideRiskDetail : Type := {
  or_package : string;
  forcedVersion : string;
  originalRequirements : list (string * string);
  potentialBreaking : bool
}.

Record EngineMismatchDetail : Type := {
  em_package : string;
  em_required : string;
  em_current : string;
  em_field : string
}.

Record ConflictDetails : Type := {
  peerDependency : option PeerDependencyDetail;
  multipleVersions : option (list MultipleVersionsDetail);
  workspaceMismatch : option (list WorkspaceMismatchDetail);
  overrideRisk : option OverrideRiskDetail;
  engineMismatch : option EngineMismatchDetail
}.

Definition no_details : ConflictDetails :=
  {| peerDependency := None; multipleVersions := None; workspaceMismatch := None;
     overrideRisk := None; engineMismatch := None |}.

Record ConflictIssue : Type := {
  id : string;
  type : ConflictType;
  severity : Severity;
  package : string;
  message : string;
  details : ConflictDetails;
  affectedPaths : list string;
  suggestedAction : string
}.

Definition ConflictType_eqb (a b : ConflictType) : bool :=
  match a, b with
  | version_conflict, version_conflict
  | peer_dependency, peer_dependency
  | multiple_versions, multiple_versions
  | workspace_mismatch, workspace_mismatch
  | override_risk, override_risk
  | engine_mismatch, engine_mismatch
  | deprecated, deprecated
  | missing_dependency, missing_dependency => true
  | _, _ => false
  end.

Definition Severity_eqb (a b : Severity) : bool :=
  match a, b with
  | error, error | warning, warning | info, info => true
  | _, _ => false
  end.

(** The string a conflict type is at run time. *)
Definition ConflictType_name (t : ConflictType) : string :=
  match t with
  | version_conflict => "version_conflict"
  | peer_dependency => "peer_dependency"
  | multiple_versions => "multiple_versions"
  | workspace_mismatch => "workspace_mismatch"
  | override_risk => "override_risk"
  | engine_mismatch => "engine_mismatch"
  | deprecated => "deprecated"
  | missing_dependency => "missing_dependency"
  end.

End Types.

(* ===================================================================== *)
(** * core/package-manager/detector.ts *)
(* ===================================================================== *)

Module PackageManager.
Import Types.

(** [flattenOverrides]: nested override maps become [>]-joined keys.
    [flattenEntry] is one turn of its loop, for the entry [key, value]. *)
Fixpoint flattenEntry (prefix key : string) (value : OverrideValue)
    (result : Js.object string) {struct value} : Js.object string :=
  let fullKey := if Js.truthy prefix then Js.cat [prefix; ">"; key] else key in
  match value with
  | OvString v => Js.set fullKey v result
  | OvObject nested =>
      fold_left (fun r kv => flattenEntry fullKey (fst kv) (snd kv) r) nested result
  end.

Definition flattenOverrides (overrides : list (string * OverrideValue))
    (result : Js.object string) (prefix : string) : Js.object string :=
  fold_left (fun r kv => flattenEntry prefix (fst kv) (snd kv) r) overrides result.

Definition getOverrides (packageJson : PackageJson) (pm : string) : Js.object string :=
  if pm =? "npm" then
    match overrides packageJson with
    | Some o => flattenOverrides o [] ""
    | None => []
    end
  else if pm =? "pnpm" then
    let result :=
      match pnpm packageJson with
      | Some {| pnpm_overrides := Some o |} => Js.assign [] o
      | _ => []
      end in
    match overrides packageJson with
    | Some o => flattenOverrides o result ""
    | None => result
    end
  else if pm =? "yarn" then
    match resolutions packageJson with
    | Some r => Js.assign [] r
    | None => []
    end
  else [].

(** [process.version.replace(/^v/, "")] *)
Definition getCurrentNodeVersion (process_version : string) : string :=
  match process_version with
  | String "v" rest => rest
  | _ => process_version
  end.

End PackageManager.

(* ===================================================================== *)
(** * tools/detect-conflicts.ts *)
(* ===================================================================== *)

Module DetectConflicts.
Import Utils Loops Types.
Local Open Scope gen_scope.

Inductive SeverityFilter : Type := filter_all | filter_error | filter_warning.

Record DetectConflictsInput : Type := {
  checkTypes : list ConflictType;
  severity_filter : SeverityFilter
}.

(** One package of the tree that [npm ls --json] prints. *)
Inductive NpmLsNode : Type :=
  mkNpmLsNode (node_version : option string)
              (node_dependencies : option (list (string * NpmLsNode))).

(** The parsed output of [npm ls --json]. *)
Record NpmLsOutput : Type := {
  problems : option (list string);
  ls_dependencies : option (list (string * NpmLsNode))
}.

(** What [execCommand] returned.  [stdout_json] is [JSON.parse(stdout)]:
    [None] when stdout is empty or is not JSON. *)
Record ExecResult : Type := {
  stdout_json : option NpmLsOutput;
  stderr : string
}.

(** What one invocation reads from the project and the machine. *)
Record Project : Type := {
  root_packageJson : option PackageJson;   (* readJsonFile(package.json) *)
  pmName : string;                         (* detectPackageManager(...).name *)
  workspacePackages : list WorkspaceInfo;  (* getWorkspacePackages(...) *)
  peer_listing : ExecResult;               (* npm ls --json 2>&1, or its like *)
  full_listing : ExecResult;               (* npm ls --json --all, or its like *)
  process_version : string;                (* process.version *)
  clock : string                           (* new Date().toISOString() *)
}.

Record Summary : Type := {
  total : nat;
  errors : nat;
  warnings : nat;
  infos : nat;
  byType : Js.object nat
}.

Record DetectConflictsOutput : Type := {
  hasIssues : bool;
  summary : Summary;
  issues : list ConflictIssue;
  analysisTimestamp : string
}.

(** ** detectPeerDependencyIssues *)

Definition peerListCommand (pm : string) : option string :=
  if pm =? "npm" then Some "npm ls --json 2>&1"
  else if pm =? "pnpm" then Some "pnpm list --json 2>&1"
  else if pm =? "yarn" then Some "yarn list --json 2>&1"
  else None.

Definition group : Js.item := Js.mkItem Js.Dot Js.Plus true.
Definition anything : Js.item := Js.mkItem Js.Dot Js.Star false.

(** [/peer dep missing: (.+)@(.+), required by (.+)/] *)
Definition peerMissingRe : Js.regex :=
  Js.lit "peer dep missing: " ++ [group] ++ Js.lit "@" ++ [group]
  ++ Js.lit ", required by " ++ [group].

(** [/WARN.*peer.*dep.*/gi] *)
Definition peerWarningRe : Js.regex :=
  Js.lit "WARN" ++ [anything] ++ Js.lit "peer" ++ [anything] ++ Js.lit "dep" ++ [anything].

Definition peerProblemIssue (problem : string) : Gen (list ConflictIssue) :=
  match Js.search false peerMissingRe problem with
  | Some [_; peer; range; requiredBy] =>
      i <- generateId ;;
      ret [ {| id := i;
               type := peer_dependency;
               severity := warning;
               package := peer;
               message := problem;
               details :=
                 {| peerDependency :=
                      Some {| host := requiredBy; hostVersion := "";
                              peerPackage := peer; required := range;
                              installed := None |};
                    multipleVersions := None; workspaceMismatch := None;
                    overrideRisk := None; engineMismatch := None |};
               affectedPaths := [requiredBy];
               suggestedAction :=
                 Js.cat ["安装 "; peer; "@"; range; " 或检查版本兼容性"] |} ]
  | _ => ret []
  end.

Definition peerWarningIssue (warning_line : string) : Gen (list ConflictIssue) :=
  i <- generateId ;;
  ret [ {| id := i;
           type := peer_dependency;
           severity := warning;
           package := "unknown";
           message := warning_line;
           details := no_details;
           affectedPaths := [];
           suggestedAction := "检查 peerDependencies 配置" |} ].

Definition detectPeerDependencyIssues (pm : string) (result : ExecResult)
  : Gen (list ConflictIssue) :=
  match peerListCommand pm with
  | None => ret []
  | Some _ =>
      fromProblems <-
        match pm =? "npm", stdout_json result with
        | true, Some {| problems := Some ps |} => for_push peerProblemIssue ps
        | _, _ => ret []
        end ;;
      fromStderr <-
        (if Js.truthy (stderr result)
         then for_push peerWarningIssue (Js.match_all true peerWarningRe (stderr result))
         else ret []) ;;
      ret (fromProblems ++ fromStderr)
  end.

(** ** detectMultipleVersions *)

Definition fullListCommand (pm : string) : option string :=
  if pm =? "npm" then Some "npm ls --json --all"
  else if pm =? "pnpm" then Some "pnpm list --json --depth=Infinity"
  else if pm =? "yarn" then Some "yarn list --json"
  else None.

(** [Map<string, Set<string>>] *)
Definition VersionMap : Type := Js.object (list string).

(** The body of the test [if (info.version)] of [collectNpmVersions]: the
    set of [name] is created on first use and grows in place. *)
Definition addVersion (name v : string) (versionMap : VersionMap) : VersionMap :=
  match Js.get name versionMap with
  | None => Js.set name (Js.set_add v []) versionMap
  | Some versions => Js.set name (Js.set_add v versions) versionMap
  end.

(** One turn of the loop of [collectNpmVersions], for the entry
    [name, info]; the recursive call walks [info.dependencies]. *)
Fixpoint collectEntry (name : string) (info : NpmLsNode) (versionMap : VersionMap)
    {struct info} : VersionMap :=
  match info with
  | mkNpmLsNode v deps =>
      let versionMap :=
        match v with
        | Some v => if Js.truthy v then addVersion name v versionMap else versionMap
        | None => versionMap
        end in
      match deps with
      | Some deps => fold_left (fun m kv => collectEntry (fst kv) (snd kv) m) deps versionMap
      | None => versionMap
      end
  end.

Definition collectNpmVersions (dependencies : option (list (string * NpmLsNode)))
    (versionMap : VersionMap) : VersionMap :=
  match dependencies with
  | None => versionMap
  | Some deps => fold_left (fun m kv => collectEntry (fst kv) (snd kv) m) deps versionMap
  end.

Definition multipleVersionsIssue (entry : string * list string) : Gen (list ConflictIssue) :=
  let (name, versions) := entry in
  if (1 <? List.length versions)%nat then
    let versionList := versions in
    i <- generateId ;;
    ret [ {| id := i;
             type := multiple_versions;
             severity := if (2 <? List.length versionList)%nat then warning else info;
             package := name;
             message :=
               Js.cat ["包 "; name; " 存在 "; Js.of_nat (List.length versions);
                       " 个版本: "; Js.join ", " versionList];
             details :=
               {| peerDependency := None;
                  multipleVersions :=
                    Some (map (fun v => {| mv_version := v; mv_paths := [] |}) versionList);
                  workspaceMismatch := None; overrideRisk := None;
                  engineMismatch := None |};
             affectedPaths := [];
             suggestedAction :=
               Js.cat ["考虑统一 "; name; " 版本，使用 overrides/resolutions 或升级依赖"] |} ]
  else ret [].

(** The version map of the check: filled from the listing of npm only. *)
Definition collectedVersions (pm : string) (result : ExecResult) : VersionMap :=
  match pm =? "npm", stdout_json result with
  | true, Some data => collectNpmVersions (ls_dependencies data) []
  | _, _ => []
  end.

Definition detectMultipleVersions (pm : string) (result : ExecResult)
  : Gen (list ConflictIssue) :=
  match fullListCommand pm with
  | None => ret []
  | Some _ => for_push multipleVersionsIssue (collectedVersions pm result)
  end.

(** ** detectWorkspaceMismatch *)

(** [Map<string, Map<string, string[]>>]: package, then requirement, then
    the members that declare it. *)
Definition DepVersions : Type := Js.object (Js.object (list string)).

(** The body of the inner loop, for the entry [name, version] of the member
    [wsName]: maps and lists are created on first use and grow in place. *)
Definition recordRequirement (wsName : string) (depVersions : DepVersions)
    (entry : string * string) : DepVersions :=
  let (name, version) := entry in
  let pkgMap :=
    match Js.get name depVersions with
    | Some m => m
    | None => []
    end in
  let workspacesList :=
    match Js.get version pkgMap with
    | Some l => l
    | None => []
    end in
  Js.set name (Js.set version (workspacesList ++ [wsName]) pkgMap) depVersions.

Definition allDeps (ws : WorkspaceInfo) : Js.object string :=
  Js.spread2 (dependencies (packageJson ws)) (devDependencies (packageJson ws)).

Definition collectWorkspaceDeps (workspaces : list WorkspaceInfo) : DepVersions :=
  fold_left (fun depVersions ws => fold_left (recordRequirement (ws_name ws)) (allDeps ws) depVersions)
    workspaces [].

(** One turn of the second loop.  (The local array [details] that the
    source fills in this turn is never read.) *)
Definition workspaceMismatchIssue (entry : string * Js.object (list string))
  : Gen (list ConflictIssue) :=
  let (pkgName, versionWorkspaces) := entry in
  if (1 <? List.length versionWorkspaces)%nat then
    i <- generateId ;;
    ret [ {| id := i;
             type := workspace_mismatch;
             severity := warning;
             package := pkgName;
             message := Js.cat ["包 "; pkgName; " 在不同 workspace 中使用了不同版本"];
             details :=
               {| peerDependency := None; multipleVersions := None;
                  workspaceMismatch :=
                    Some (map (fun vw =>
                                 {| workspace := Js.join ", " (snd vw);
                                    localVersion := fst vw;
                                    usedVersions := [fst vw] |})
                              versionWorkspaces);
                  overrideRisk := None; engineMismatch := None |};
             affectedPaths := List.concat (map snd versionWorkspaces);
             suggestedAction := Js.cat ["统一 "; pkgName; " 在所有 workspace 中的版本"] |} ]
  else ret [].

Definition detectWorkspaceMismatch (workspaces : list WorkspaceInfo)
    (_rootPackageJson : PackageJson) : Gen (list ConflictIssue) :=
  for_push workspaceMismatchIssue (collectWorkspaceDeps workspaces).

(** ** detectOverrideRisks *)

(** [pkg.split(">").pop() || pkg] *)
Definition overriddenPackage (pkg : string) : string :=
  let name := last (Js.split ">" pkg) "" in
  if Js.truthy name then name else pkg.

Definition overrideRiskIssue (entry : string * string) : Gen (list ConflictIssue) :=
  let (pkg, forced) := entry in
  let pkgName := overriddenPackage pkg in
  i <- generateId ;;
  ret [ {| id := i;
           type := override_risk;
           severity := info;
           package := pkgName;
           message := Js.cat ["包 "; pkgName; " 被强制覆盖为版本 "; forced];
           details :=
             {| peerDependency := None; multipleVersions := None;
                workspaceMismatch := None;
                overrideRisk :=
                  Some {| or_package := pkgName; forcedVersion := forced;
                          originalRequirements := []; potentialBreaking := true |};
                engineMismatch := None |};
           affectedPaths := [pkg];
           suggestedAction := Js.cat ["定期检查 "; pkgName; " 的 override 是否仍然需要"] |} ].

Definition detectOverrideRisks (overrides : Js.object string) (_packageJson : PackageJson)
  : Gen (list ConflictIssue) :=
  for_push overrideRiskIssue overrides.

(** ** detectEngineMismatch *)

(** [packageJson.engines?.node] *)
Definition enginesNode (packageJson : PackageJson) : option string :=
  match engines packageJson with
  | Some e => node e
  | None => None
  end.

Definition detectEngineMismatch (process_version : string) (packageJson : PackageJson)
  : Gen (list ConflictIssue) :=
  match enginesNode packageJson with
  | Some required =>
      if Js.truthy required then
        let currentNode := PackageManager.getCurrentNodeVersion process_version in
        if negb (satisfiesVersion currentNode required) then
          i <- generateId ;;
          ret [ {| id := i;
                   type := engine_mismatch;
                   severity := error;
                   package := "node";
                   message :=
                     Js.cat ["当前 Node.js 版本 "; currentNode; " 不满足要求 "; required];
                   details :=
                     {| peerDependency := None; multipleVersions := None;
                        workspaceMismatch := None; overrideRisk := None;
                        engineMismatch :=
                          Some {| em_package := "node"; em_required := required;
                                  em_current := currentNode; em_field := "node" |} |};
                   affectedPaths := [];
                   suggestedAction := Js.cat ["升级 Node.js 到满足 "; required; " 的版本"] |} ]
        else ret []
      else ret []
  | None => ret []
  end.

(** ** detectConflicts *)

Definition includes (checkTypes : list ConflictType) (t : ConflictType) : bool :=
  existsb (ConflictType_eqb t) checkTypes.

(** The checks of one pass, in the order they run. *)
Definition collectIssues (checkTypes : list ConflictType) (p : Project)
    (packageJson : PackageJson) : Gen (list ConflictIssue) :=
  peerIssues <-
    (if includes checkTypes peer_dependency
     then detectPeerDependencyIssues (pmName p) (peer_listing p) else ret []) ;;
  multiVersionIssues <-
    (if includes checkTypes multiple_versions
     then detectMultipleVersions (pmName p) (full_listing p) else ret []) ;;
  workspaceIssues <-
    (if includes checkTypes workspace_mismatch && ((0 <? List.length (workspacePackages p))%nat)
     then detectWorkspaceMismatch (workspacePackages p) packageJson else ret []) ;;
  overrideIssues <-
    (if includes checkTypes override_risk
     then detectOverrideRisks (PackageManager.getOverrides packageJson (pmName p)) packageJson
     else ret []) ;;
  engineIssues <-
    (if includes checkTypes engine_mismatch
     then detectEngineMismatch (process_version p) packageJson else ret []) ;;
  ret (peerIssues ++ multiVersionIssues ++ workspaceIssues ++ overrideIssues ++ engineIssues).

Definition has_severity (s : Severity) (i : ConflictIssue) : bool :=
  Severity_eqb (severity i) s.

Definition filterBySeverity (f : SeverityFilter) (issues : list ConflictIssue)
  : list ConflictIssue :=
  match f with
  | filter_error => filter (has_severity error) issues
  | filter_warning => filter (fun i => negb (has_severity info i)) issues
  | filter_all => issues
  end.

(** [byType[issue.type] = (byType[issue.type] || 0) + 1] *)
Definition countType (byType : Js.object nat) (issue : ConflictIssue) : Js.object nat :=
  let key := ConflictType_name (type issue) in
  let seen :=
    match Js.get key byType with
    | Some n => n
    | None => 0
    end in
  Js.set key (seen + 1) byType.

Definition summarize (filteredIssues : list ConflictIssue) (now : string)
  : DetectConflictsOutput :=
  {| hasIssues := (0 <? List.length filteredIssues)%nat;
     summary :=
       {| total := List.length filteredIssues;
          errors := List.length (filter (has_severity error) filteredIssues);
          warnings := List.length (filter (has_severity warning) filteredIssues);
          infos := List.length (filter (has_severity info) filteredIssues);
          byType := fold_left countType filteredIssues [] |};
     issues := filteredIssues;
     analysisTimestamp := now |}.

Definition detectConflicts (input : DetectConflictsInput) (p : Project)
  : Gen (Js.result DetectConflictsOutput) :=
  match root_packageJson p with
  | None => ret Js.Throw
  | Some packageJson =>
      issues <- collectIssues (checkTypes input) p packageJson ;;
      ret (Js.Ret (summarize (filterBySeverity (severity_filter input) issues) (clock p)))
  end.

End DetectConflicts.

(* ===================================================================== *)
(** * tools/detect-environment.ts *)
(* ===================================================================== *)

Module DetectEnvironment.

(** [/^>=?\s*(\d+)/] *)
Definition requiredMajorRe : Js.regex :=
  [ Js.mkItem (Js.Chr ">") Js.One false;
    Js.mkItem (Js.Chr "=") Js.Opt false;
    Js.mkItem Js.Space Js.Star false;
    Js.mkItem Js.Digit Js.Plus true ].

(** The simplified engine check of the environment report. *)
Definition isNodeVersionSatisfied (current required : string) : bool :=
  match Js.match_anchored false requiredMajorRe required with
  | Some [_; digits] =>
      let requiredMajor := Js.parseInt digits in
      let currentMajor := Js.parseInt (hd "" (Js.split "." current)) in
      Js.num_ge currentMajor requiredMajor
  | _ => true
  end.

End DetectEnvironment.

(* ===================================================================== *)
(** * tools/suggest-solutions.ts *)
(* ===================================================================== *)

Module SuggestSolutions.
Import Utils Loops Types.
Local Open Scope gen_scope.

Inductive SolutionAction : Type :=
| upgrade | downgrade | add | remove | override | dedupe | regenerate_lock.

Inductive RiskLevel : Type := low | medium | high.

Inductive EffortLevel : Type := trivial | minor | moderate | major.

Record SolutionStep : Type := {
  action : SolutionAction;
  target : string;
  from : option string;
  to : option string;
  file : string;
  field : option string;
  command : option string;
  manual : option bool
}.

Record Risk : Type := {
  level : RiskLevel;
  factors : list string;
  mitigations : list string
}.

Record Compatibility : Type := {
  breakingChanges : bool;
  affectedPackages : list string;
  testingRequired : list string
}.

Record Recommendation : Type := {
  score : nat;
  reasons : list string
}.

Record Solution : Type := {
  sol_id : string;
  forIssue : string;
  title : string;
  description : string;
  steps : list SolutionStep;
  risk : Risk;
  compatibility : Compatibility;
  recommendation : Recommendation;
  estimatedEffort : EffortLevel
}.

Record MatrixRow : Type := {
  solutionId : string;
  row_title : string;
  row_risk : nat;
  row_effort : nat;
  row_recommendation : nat
}.

Record Comparison : Type := {
  matrix : list MatrixRow;
  recommended : option string;
  reason : string
}.

Record Constraints : Type := {
  allowMajorUpgrade : option bool
}.

(** The registry document of a package, as far as it is read. *)
Record RegistryPackageDocument : Type := {
  dist_tags : Js.object string
}.

(** ** Helpers *)

(** [/\d+/] *)
Definition digitsRe : Js.regex := [Js.mkItem Js.Digit Js.Plus false].

Definition isMajorUpgrade (from : option string) (to : string) : bool :=
  match from with
  | None => false
  | Some from =>
      if negb (Js.truthy from) then false
      else
        match Js.search false digitsRe from, Js.search false digitsRe to with
        | Some (fromMatch :: _), Some (toMatch :: _) =>
            Js.num_gt (Js.parseInt_number toMatch) (Js.parseInt_number fromMatch)
        | _, _ => false
        end
  end.

Definition getOverrideField (pm : string) : string :=
  if pm =? "yarn" then "resolutions" else "overrides".

Definition getLockFileName (pm : string) : string :=
  if pm =? "npm" then "package-lock.json"
  else if pm =? "pnpm" then "pnpm-lock.yaml"
  else if pm =? "yarn" then "yarn.lock"
  else "package-lock.json".

Definition getInstallCommand (pm : string) : string := Js.cat [pm; " install"].

(** [o?.[k]] on an optional record: undefined for an absent record, else
    what reading the property gives, own or inherited. *)
Definition lookup (o : option (Js.object string)) (k : string)
  : option (Js.property string) :=
  match o with
  | Some e => Js.read k e
  | None => None
  end.

(** [isMajorUpgrade(from, to)] as it is called with what a look-up gave.  An
    inherited value is truthy and has no [match] method: [from.match] is
    undefined and calling it throws a TypeError. *)
Definition isMajorUpgradeCall (from : option (Js.property string)) (to : string)
  : Js.result bool :=
  match from with
  | Some Js.Inherited => Js.Throw
  | Some (Js.Own s) => Js.Ret (isMajorUpgrade (Some s) to)
  | None => Js.Ret (isMajorUpgrade None to)
  end.

Definition is_defined {A : Type} (o : option A) : bool :=
  match o with
  | Some _ => true
  | None => false
  end.

(** [a !== b] on possibly undefined strings. *)
Definition differs (a b : option string) : bool :=
  match a, b with
  | Some x, Some y => negb (x =? y)
  | None, None => false
  | _, _ => true
  end.

(** [a !== b] where [a] was read from an object of strings: an inherited
    value is no string and not undefined. *)
Definition differs_read (a : option (Js.property string)) (b : option string) : bool :=
  match a with
  | Some Js.Inherited => true
  | _ => differs (Js.own_string a) b
  end.

Definition findWorkspacesUsingPackage (workspaces : list WorkspaceInfo)
    (packageName : string) : list WorkspaceInfo :=
  filter
    (fun ws =>
       is_defined
         (Js.read packageName
            (Js.spread2 (dependencies (packageJson ws)) (devDependencies (packageJson ws)))))
    workspaces.

Definition riskToNumber (r : RiskLevel) : nat :=
  match r with
  | low => 1
  | medium => 2
  | high => 3
  end.

Definition effortToNumber (e : EffortLevel) : nat :=
  match e with
  | trivial => 1
  | minor => 2
  | moderate => 3
  | major => 4
  end.

Definition generateUpgradeSteps (packageName version : string) (isDirectDep isDev : bool)
    (pm : string) : list SolutionStep :=
  if isDirectDep then
    let command :=
      if pm =? "npm" then
        Js.cat ["npm install "; packageName; "@"; version; " ";
                if isDev then "--save-dev" else "--save"]
      else if pm =? "pnpm" then
        Js.cat ["pnpm add "; packageName; "@"; version; " "; if isDev then "-D" else ""]
      else if pm =? "yarn" then
        Js.cat ["yarn add "; packageName; "@"; version; " "; if isDev then "-D" else ""]
      else Js.cat ["npm install "; packageName; "@"; version] in
    [ {| action := upgrade; target := packageName; from := None; to := Some version;
         file := "package.json";
         field := Some (if isDev then "devDependencies" else "dependencies");
         command := Some command; manual := Some false |} ]
  else
    [ {| action := override; target := packageName; from := None; to := Some version;
         file := "package.json"; field := Some (getOverrideField pm);
         command := None; manual := Some true |} ].

Definition truthy_bool (o : option bool) : bool :=
  match o with
  | Some b => b
  | None => false
  end.

Section Solutions.

(** [path.join] of node:path, which the sources import. *)
Variable path_join : string -> string -> string.

(** ** generatePackageSolutions

    [packageInfo] is what [registryClient.getPackageInfo(packageName)]
    resolved to. *)

(** The candidates below are built after [isMajorUpgrade] has returned, so
    that the current version they print is a string or undefined. *)
Definition upgradeToLatest (packageName : string)
    (currentVersion : option (Js.property string))
    (latestVersion : string) (isDirectDep isDev : bool) (pm strategy : string)
    (constraints : Constraints) : Gen (Js.result (list Solution)) :=
  match isMajorUpgradeCall currentVersion latestVersion with
  | Js.Throw => ret Js.Throw
  | Js.Ret isBreaking =>
  if negb isBreaking || truthy_bool (allowMajorUpgrade constraints)
     || (strategy =? "aggressive") then
    i <- generateId ;;
    ret (Js.Ret
        [ {| sol_id := i;
             forIssue := packageName;
             title := Js.cat ["升级 "; packageName; " 到最新版本"];
             description :=
               Js.cat ["将 "; packageName; " 从 ";
                       Js.or_default (Js.own_string currentVersion) "未安装";
                       " 升级到 "; latestVersion];
             steps := generateUpgradeSteps packageName latestVersion isDirectDep isDev pm;
             risk :=
               {| level := if isBreaking then high else low;
                  factors := if isBreaking then ["主版本升级可能包含破坏性变更"] else [];
                  mitigations := ["运行测试套件"; "检查 changelog"] |};
             compatibility :=
               {| breakingChanges := isBreaking;
                  affectedPackages := [packageName];
                  testingRequired := ["unit tests"; "integration tests"] |};
             recommendation :=
               {| score := if isBreaking then 60 else 90;
                  reasons := if isBreaking then ["最新版本"; "但包含主版本升级"]
                             else ["最新版本"; "非破坏性升级"] |};
             estimatedEffort := if isBreaking then moderate else minor |} ])
  else ret (Js.Ret [])
  end.

Definition upgradeToTarget (packageName : string)
    (currentVersion : option (Js.property string))
    (targetVersion : string) (isDirectDep isDev : bool) (pm : string)
  : Gen (Js.result (list Solution)) :=
  match isMajorUpgradeCall currentVersion targetVersion with
  | Js.Throw => ret Js.Throw
  | Js.Ret isBreaking =>
  i <- generateId ;;
  ret (Js.Ret
      [ {| sol_id := i;
           forIssue := packageName;
           title := Js.cat ["升级 "; packageName; " 到 "; targetVersion];
           description :=
             Js.cat ["将 "; packageName; " 从 ";
                     Js.or_default (Js.own_string currentVersion) "未安装";
                     " 升级到指定版本 "; targetVersion];
           steps := generateUpgradeSteps packageName targetVersion isDirectDep isDev pm;
           risk :=
             {| level := if isBreaking then medium else low;
                factors := if isBreaking then ["主版本变更"] else [];
                mitigations := ["运行测试"] |};
           compatibility :=
             {| breakingChanges := isBreaking;
                affectedPackages := [packageName];
                testingRequired := ["unit tests"] |};
           recommendation := {| score := 75; reasons := ["指定版本"; "可控升级"] |};
           estimatedEffort := minor |} ])
  end.

Definition forceOverride (packageName : string) (targetVersion : option string)
    (latestVersion : string) (pm : string) : Gen (list Solution) :=
  let overrideField := getOverrideField pm in
  i <- generateId ;;
  ret [ {| sol_id := i;
           forIssue := packageName;
           title := Js.cat ["使用 "; overrideField; " 强制 "; packageName; " 版本"];
           description :=
             Js.cat ["在 package.json 中添加 "; overrideField;
                     " 配置，强制所有依赖使用统一版本"];
           steps :=
             [ {| action := override; target := packageName; from := None;
                  to := Some (Js.or_default targetVersion latestVersion);
                  file := "package.json"; field := Some overrideField;
                  command := None; manual := Some true |};
               {| action := regenerate_lock; target := "lock file"; from := None;
                  to := None; file := getLockFileName pm; field := None;
                  command := Some (getInstallCommand pm); manual := Some false |} ];
           risk :=
             {| level := medium;
                factors := ["强制版本可能导致依赖不兼容"; "需要长期维护 override 配置"];
                mitigations := ["定期检查 override 是否仍然需要"; "监控依赖更新"] |};
           compatibility :=
             {| breakingChanges := false;
                affectedPackages := [packageName];
                testingRequired := ["full regression"] |};
           recommendation :=
             {| score := 65; reasons := ["可快速解决多版本问题"; "但需要持续维护"] |};
           estimatedEffort := minor |} ].

Definition unifyWorkspaces (packageName : string) (targetVersion latestVersion : option string)
    (affectedWorkspaces : list WorkspaceInfo) : Gen (list Solution) :=
  i <- generateId ;;
  ret [ {| sol_id := i;
           forIssue := packageName;
           title := Js.cat ["统一 "; packageName; " 在所有 workspace 中的版本"];
           description :=
             Js.cat ["将所有 workspace 中的 "; packageName; " 统一为 ";
                     Js.or_default (Js.or_else targetVersion latestVersion) "最新版本"];
           steps :=
             map (fun ws =>
                    {| action := upgrade; target := packageName; from := None;
                       to := Some (Js.or_default (Js.or_else targetVersion latestVersion)
                                     "latest");
                       file := path_join (relativePath ws) "package.json";
                       field := None; command := None; manual := Some true |})
                 affectedWorkspaces;
           risk := {| level := low; factors := []; mitigations := ["逐个 workspace 测试"] |};
           compatibility :=
             {| breakingChanges := false;
                affectedPackages := map ws_name affectedWorkspaces;
                testingRequired :=
                  map (fun ws => Js.cat [ws_name ws; " tests"]) affectedWorkspaces |};
           recommendation := {| score := 85; reasons := ["统一版本管理"; "减少依赖复杂度"] |};
           estimatedEffort :=
             if (3 <? List.length affectedWorkspaces)%nat then moderate else minor |} ].

Definition generatePackageSolutions (packageName : string) (targetVersion : option string)
    (packageJson : PackageJson) (workspaces : list WorkspaceInfo) (pm strategy : string)
    (constraints : Constraints) (packageInfo : option RegistryPackageDocument)
  : Gen (Js.result (list Solution)) :=
  let latestVersion :=
    match packageInfo with
    | Some doc => Js.get "latest" (dist_tags doc)
    | None => None
    end in
  let currentVersion :=
    Js.or_property (lookup (dependencies packageJson) packageName)
                   (lookup (devDependencies packageJson) packageName) in
  let isDirectDep := is_defined currentVersion in
  let isDev := is_defined (lookup (devDependencies packageJson) packageName) in
  s1 <--
    match latestVersion with
    | Some latest =>
        if Js.truthy latest && differs_read currentVersion latestVersion
        then upgradeToLatest packageName currentVersion latest isDirectDep isDev pm
               strategy constraints
        else ret (Js.Ret [])
    | None => ret (Js.Ret [])
    end ;;
  s2 <--
    match targetVersion with
    | Some target =>
        if Js.truthy target && differs targetVersion latestVersion
        then upgradeToTarget packageName currentVersion target isDirectDep isDev pm
        else ret (Js.Ret [])
    | None => ret (Js.Ret [])
    end ;;
  s3 <-
    match latestVersion with
    | Some latest =>
        if Js.truthy latest && negb isDirectDep
        then forceOverride packageName targetVersion latest pm
        else ret []
    | None => ret []
    end ;;
  s4 <-
    (if (0 <? List.length workspaces)%nat then
       let affectedWorkspaces := findWorkspacesUsingPackage workspaces packageName in
       if (1 <? List.length affectedWorkspaces)%nat
       then unifyWorkspaces packageName targetVersion latestVersion affectedWorkspaces
       else ret []
     else ret []) ;;
  ret (Js.Ret (s1 ++ s2 ++ s3 ++ s4)).

End Solutions.

(** ** generateComparison *)

Definition dquote : string := String (ascii_of_nat 34) EmptyString.

Definition matrixRow (s : Solution) : MatrixRow :=
  {| solutionId := sol_id s;
     row_title := title s;
     row_risk := riskToNumber (level (risk s));
     row_effort := effortToNumber (estimatedEffort s);
     row_recommendation := score (recommendation s) |}.

Definition generateComparison (solutions : list Solution) : Comparison :=
  let matrix := map matrixRow solutions in
  let sorted := Js.sort_desc (fun r => Z.of_nat (row_recommendation r)) matrix in
  let recommended :=
    match sorted with
    | top :: _ => if Js.truthy (solutionId top) then Some (solutionId top) else None
    | [] => None
    end in
  let reason :=
    match recommended, sorted with
    | Some _, top :: _ =>
        Js.cat ["方案 "; dquote; row_title top; dquote; " 综合评分最高 (";
                Js.of_nat (row_recommendation top); "/100)"]
    | _, _ => "无可用方案"
    end in
  {| matrix := matrix; recommended := recommended; reason := reason |}.

End SuggestSolutions.

(* ===================================================================== *)
(** * Notions used to state the properties *)
(* ===================================================================== *)

Module Spec.
Import Utils Types DetectConflicts.

(** A record without its generated identifier. *)
Definition erase_id (i : ConflictIssue) : ConflictIssue :=
  {| id := "";
     type := type i;
     severity := severity i;
     package := package i;
     message := message i;
     details := details i;
     affectedPaths := affectedPaths i;
     suggestedAction := suggestedAction i |}.

(** The records a list holds for one conflict type, and for one package. *)
Definition of_type (t : ConflictType) (l : list ConflictIssue) : list ConflictIssue :=
  filter (fun i => ConflictType_eqb (type i) t) l.

Definition of_package (name : string) (l : list ConflictIssue) : list ConflictIssue :=
  filter (fun i => package i =? name) l.

(** No package twice under one conflict type. *)
Definition deduplicated (l : list ConflictIssue) : Prop :=
  forall t, NoDup (map package (of_type t l)).

(** A computation whose records do not depend on the identifiers drawn. *)
Definition id_blind (m : Gen (list ConflictIssue)) : Prop :=
  forall ids n ids' n', map erase_id (fst (m ids n)) = map erase_id (fst (m ids' n')).

(** The keys of an object or map. *)
Definition keys {V : Type} (o : Js.object V) : list string := map fst o.

(** The issues of a completed invocation; none when it threw. *)
Definition issues_of (r : Js.result DetectConflictsOutput) : list ConflictIssue :=
  match r with
  | Js.Ret o => issues o
  | Js.Throw => []
  end.

(** The pairs (name, resolved version) met in a walk of the installed tree,
    in discovery order; a node without a version contributes none. *)
Fixpoint nodeOccurrences (name : string) (info : NpmLsNode) : list (string * string) :=
  match info with
  | mkNpmLsNode v deps =>
      match v with
      | Some v => if Js.truthy v then [(name, v)] else []
      | None => []
      end
      ++
      match deps with
      | Some deps => flat_map (fun kv => nodeOccurrences (fst kv) (snd kv)) deps
      | None => []
      end
  end.

Definition treeOccurrences (dependencies : option (list (string * NpmLsNode)))
  : list (string * string) :=
  match dependencies with
  | Some deps => flat_map (fun kv => nodeOccurrences (fst kv) (snd kv)) deps
  | None => []
  end.

(** The distinct resolved versions of a package in the installed tree. *)
Definition resolvedVersions (data : NpmLsOutput) (name : string) : list string :=
  nodup string_dec
    (map snd (filter (fun o => fst o =? name) (treeOccurrences (ls_dependencies data)))).

(** The versions a version map holds for a package; none for an absent key. *)
Definition versionsIn (versionMap : VersionMap) (name : string) : list string :=
  match Js.get name versionMap with
  | Some versions => versions
  | None => []
  end.

(** Entering one occurrence into a version map. *)
Definition addOccurrence (versionMap : VersionMap) (o : string * string) : VersionMap :=
  addVersion (fst o) (snd o) versionMap.

(** The requirement string that a field of a manifest ([dependencies] or
    [devDependencies]) holds for a package; should a list of entries hold
    the name twice, the later entry counts, as in a parsed JSON text. *)
Definition declaredUnder (field : option (Js.object string)) (name : string)
  : option string :=
  Js.get name (rev (Js.entries_opt field)).

(** Every requirement string that the manifest of a member holds for a
    package, under [dependencies] and under [devDependencies]. *)
Definition writtenBy (ws : WorkspaceInfo) (name : string) : list string :=
  match declaredUnder (dependencies (packageJson ws)) name with
  | Some requirement => [requirement]
  | None => []
  end
  ++
  match declaredUnder (devDependencies (packageJson ws)) name with
  | Some requirement => [requirement]
  | None => []
  end.

(** The distinct requirement strings written for a package across the
    members. *)
Definition writtenRequirements (workspaces : list WorkspaceInfo) (name : string)
  : list string :=
  nodup string_dec (flat_map (fun ws => writtenBy ws name) workspaces).

(** The one requirement string with which a member counts for a package:
    that under [devDependencies] when there is one, else that under
    [dependencies]. *)
Definition requirementOf (ws : WorkspaceInfo) (name : string) : option string :=
  match declaredUnder (devDependencies (packageJson ws)) name with
  | Some requirement => Some requirement
  | None => declaredUnder (dependencies (packageJson ws)) name
  end.

(** The pairs (member, requirement) for a package: one for each workspace
    member whose manifest declares it. *)
Definition requirementsOf (workspaces : list WorkspaceInfo) (name : string)
  : list (string * string) :=
  flat_map
    (fun ws =>
       match requirementOf ws name with
       | Some requirement => [(ws_name ws, requirement)]
       | None => []
       end)
    workspaces.

(** The workspace members whose manifest declares a package. *)
Definition membersDeclaring (workspaces : list WorkspaceInfo) (name : string)
  : list WorkspaceInfo :=
  filter
    (fun ws =>
       match requirementOf ws name with
       | Some _ => true
       | None => false
       end)
    workspaces.

(** The same pairs, read off the object into which the check merges the
    two fields of a member. *)
Definition mergedRequirements (workspaces : list WorkspaceInfo) (name : string)
  : list (string * string) :=
  flat_map
    (fun ws =>
       match Js.get name (allDeps ws) with
       | Some requirement => [(ws_name ws, requirement)]
       | None => []
       end)
    workspaces.

(** All declarations of the workspace, in the order the check visits them:
    member, then (package, requirement). *)
Definition declarations (workspaces : list WorkspaceInfo)
  : list (string * (string * string)) :=
  flat_map (fun ws => map (fun e => (ws_name ws, e)) (allDeps ws)) workspaces.

Definition recordDeclaration (depVersions : DepVersions) (d : string * (string * string))
  : DepVersions :=
  recordRequirement (fst d) depVersions (snd d).

(** The requirement map a [DepVersions] holds for a package, and the
    members a requirement map holds for a requirement; empty when absent. *)
Definition requirementMap (depVersions : DepVersions) (name : string)
  : Js.object (list string) :=
  match Js.get name depVersions with
  | Some m => m
  | None => []
  end.

Definition membersOf (pkgMap : Js.object (list string)) (requirement : string)
  : list string :=
  match Js.get requirement pkgMap with
  | Some l => l
  | None => []
  end.

(** The distinct requirement strings with which the members count for a
    package. *)
Definition distinctRequirements (workspaces : list WorkspaceInfo) (name : string)
  : list string :=
  nodup string_dec (map snd (requirementsOf workspaces name)).

Definition mergedDistinct (workspaces : list WorkspaceInfo) (name : string)
  : list string :=
  nodup string_dec (map snd (mergedRequirements workspaces name)).

(** [w] does not come after [v] in semver precedence. *)
Definition version_le (w v : string) : Prop :=
  match semver.new_SemVer w, semver.new_SemVer v with
  | Some a, Some b => semver.compare a b <> Gt
  | _, _ => False
  end.

(** What the loop of [semver.maxSatisfying] maintains: after the versions
    [seen], [acc] holds a greatest version of [seen] that meets the range. *)
Definition greatest_so_far (r : semver.Range) (seen : list string)
    (acc : option (string * semver.SemVer)) : Prop :=
  match acc with
  | None => forall w, In w seen -> semver.test r w = false
  | Some (v, sv) =>
      In v seen /\ semver.test r v = true /\ semver.new_SemVer v = Some sv /\
      forall w, In w seen -> semver.test r w = true ->
                exists sw, semver.new_SemVer w = Some sw /\ semver.compare sw sv <> Gt
  end.

End Spec.

(* ===================================================================== *)
(** * Sample inputs *)
(* ===================================================================== *)

Module Samples.
Import Types DetectConflicts.

Definition manifest (name : string) (deps : option (Js.object string))
    (node_range : option string) : PackageJson :=
  {| name := name; version := "1.0.0";
     dependencies := deps; devDependencies := None;
     engines :=
       match node_range with
       | Some r => Some {| node := Some r; npm := None |}
       | None => None
       end;
     overrides := None; resolutions := None; pnpm := None |}.

Definition member (name : string) (deps : Js.object string) : WorkspaceInfo :=
  {| ws_name := name; ws_path := Js.cat ["/repo/packages/"; name];
     relativePath := Js.cat ["packages/"; name]; ws_version := "1.0.0";
     packageJson := manifest name (Some deps) None |}.

Definition silent : ExecResult := {| stdout_json := None; stderr := "" |}.

(** An identifier source: the n-th identifier is "id" followed by n. *)
Definition ids (n : nat) : string := Js.cat ["id"; Js.of_nat n].

(** npm reports the same missing peer for two hosts. *)
Definition two_hosts_one_peer : Project :=
  {| root_packageJson := Some (manifest "app" None None);
     pmName := "npm";
     workspacePackages := [];
     peer_listing :=
       {| stdout_json :=
            Some {| problems :=
                      Some ["peer dep missing: react@^17.0.0, required by a@1.0.0";
                            "peer dep missing: react@^17.0.0, required by b@2.0.0"];
                    ls_dependencies := None |};
          stderr := "" |};
     full_listing := silent;
     process_version := "v18.0.0";
     clock := "2024-01-01T00:00:00.000Z" |}.

Definition leaf (v : string) : NpmLsNode := mkNpmLsNode (Some v) None.

(** lodash is installed in three versions, ms in two, semver in one. *)
Definition tree : NpmLsOutput :=
  {| problems := None;
     ls_dependencies :=
       Some [ ("lodash", leaf "4.17.21");
              ("a", mkNpmLsNode (Some "1.0.0")
                      (Some [("lodash", leaf "3.10.1"); ("ms", leaf "2.0.0")]));
              ("b", mkNpmLsNode (Some "2.0.0")
                      (Some [("lodash", leaf "2.4.2"); ("ms", leaf "2.1.3");
                             ("semver", leaf "7.5.0")]));
              ("c", mkNpmLsNode (Some "1.0.0") (Some [("lodash", leaf "4.17.21")])) ] |}.

Definition listing (data : NpmLsOutput) : ExecResult :=
  {| stdout_json := Some data; stderr := "" |}.

(** Two nested overrides that force the same package. *)
Definition two_overrides_one_package : Project :=
  {| root_packageJson :=
       Some {| name := "app"; version := "1.0.0";
               dependencies := None; devDependencies := None; engines := None;
               overrides :=
                 Some [("a", OvObject [("c", OvString "1.0.0")]);
                       ("b", OvObject [("c", OvString "2.0.0")])];
               resolutions := None; pnpm := None |};
     pmName := "npm";
     workspacePackages := [];
     peer_listing := silent;
     full_listing := silent;
     process_version := "v18.0.0";
     clock := "2024-01-01T00:00:00.000Z" |}.

(** A project whose installed tree is [tree]. *)
Definition with_tree : Project :=
  {| root_packageJson := Some (manifest "app" None None);
     pmName := "npm";
     workspacePackages := [];
     peer_listing := silent;
     full_listing := listing tree;
     process_version := "v18.0.0";
     clock := "2024-01-01T00:00:00.000Z" |}.

Definition check (types : list ConflictType) : DetectConflictsInput :=
  {| checkTypes := types; severity_filter := filter_all |}.

(** Members A and B disagree on lodash. *)
Definition lodash_members : list WorkspaceInfo :=
  [member "A" [("lodash", "^4.0.0")]; member "B" [("lodash", "^3.0.0")]].

(** Member A requires lodash as [^3.0.0] under dependencies and as
    [^4.0.0] under devDependencies; member B requires [^4.0.0]. *)
Definition both_fields_members : list WorkspaceInfo :=
  [ {| ws_name := "A"; ws_path := "/repo/packages/A"; relativePath := "packages/A";
       ws_version := "1.0.0";
       packageJson :=
         {| name := "A"; version := "1.0.0";
            dependencies := Some [("lodash", "^3.0.0")];
            devDependencies := Some [("lodash", "^4.0.0")];
            engines := None; overrides := None; resolutions := None; pnpm := None |} |};
    member "B" [("lodash", "^4.0.0")] ].

(** Members A and B write the same range of lodash in two ways. *)
Definition same_range_members : list WorkspaceInfo :=
  [member "A" [("lodash", "^4.0.0")]; member "B" [("lodash", ">=4.0.0 <5.0.0-0")]].

End Samples.

(* ===================================================================== *)
(** * tools/detect-conflicts.ts: the conflict types of the input schema *)
(* ===================================================================== *)

Module DetectConflictsSchema.
Import Types.

(** [conflictTypes]: the values [checkTypes] may list. *)
Definition conflictTypes : list ConflictType :=
  [ version_conflict; peer_dependency; multiple_versions; workspace_mismatch;
    override_risk; engine_mismatch; deprecated; missing_dependency ].

End DetectConflictsSchema.

(* ===================================================================== *)
(** * tools/suggest-solutions.ts: the general candidates and the tool *)
(* ===================================================================== *)

Module SuggestSolutionsTool.
Import Utils Loops Types SuggestSolutions.
Local Open Scope gen_scope.

Definition getDedupeCommand (pm : string) : string :=
  if pm =? "npm" then "npm dedupe"
  else if pm =? "pnpm" then "pnpm dedupe"
  else if pm =? "yarn" then "yarn dedupe"
  else "npm dedupe".

Definition getNcuCommand (_pm : string) : string := "npx npm-check-updates -u".

(** A step that runs a command: no version and no manifest field. *)
Definition commandStep (a : SolutionAction) (target file command : string) (manual : bool)
  : SolutionStep :=
  {| action := a; target := target; from := None; to := None; file := file;
     field := None; command := Some command; manual := Some manual |}.

(** ** generateGeneralSolutions

    The registry client it is passed is not used. *)

Definition dedupeSolution (pm : string) : Gen (list Solution) :=
  i <- generateId ;;
  ret [ {| sol_id := i;
           forIssue := "general";
           title := "运行依赖去重";
           description := "使用包管理器的 dedupe 命令减少重复依赖";
           steps :=
             [ commandStep dedupe "all dependencies" (getLockFileName pm)
                 (getDedupeCommand pm) false ];
           risk := {| level := low; factors := []; mitigations := ["运行测试验证"] |};
           compatibility :=
             {| breakingChanges := false; affectedPackages := [];
                testingRequired := ["smoke tests"] |};
           recommendation :=
             {| score := 95; reasons := ["安全操作"; "可能减少 node_modules 大小"] |};
           estimatedEffort := trivial |} ].

Definition regenerateLockSolution (pm : string) : Gen (list Solution) :=
  i <- generateId ;;
  ret [ {| sol_id := i;
           forIssue := "general";
           title := "重新生成 lock 文件";
           description := "删除 node_modules 和 lock 文件，重新安装依赖";
           steps :=
             [ commandStep remove "node_modules" "node_modules" "rm -rf node_modules" false;
               commandStep remove "lock file" (getLockFileName pm)
                 (Js.cat ["rm -f "; getLockFileName pm]) false;
               commandStep regenerate_lock "dependencies" "package.json"
                 (getInstallCommand pm) false ];
           risk :=
             {| level := medium;
                factors := ["可能导致依赖版本变化"; "可能引入新的冲突"];
                mitigations :=
                  ["备份当前 lock 文件"; "对比新旧 lock 文件差异"; "运行完整测试套件"] |};
           compatibility :=
             {| breakingChanges := false; affectedPackages := [];
                testingRequired := ["full regression"] |};
           recommendation :=
             {| score := 70; reasons := ["可解决某些 lock 文件损坏问题"; "但存在风险"] |};
           estimatedEffort := minor |} ].

Definition updateAllSolution (pm : string) : Gen (list Solution) :=
  i <- generateId ;;
  ret [ {| sol_id := i;
           forIssue := "general";
           title := "更新所有依赖到最新版本";
           description := "使用 npm-check-updates 或类似工具更新所有依赖";
           steps :=
             [ commandStep upgrade "all dependencies" "package.json" (getNcuCommand pm) true;
               commandStep regenerate_lock "dependencies" (getLockFileName pm)
                 (getInstallCommand pm) false ];
           risk :=
             {| level := high;
                factors := ["可能包含多个破坏性变更"; "需要大量测试工作"];
                mitigations :=
                  ["创建新分支进行测试"; "逐步更新而非一次性更新"; "检查所有 changelog"] |};
           compatibility :=
             {| breakingChanges := true; affectedPackages := [];
                testingRequired := ["full regression"; "manual testing"] |};
           recommendation := {| score := 40; reasons := ["最新依赖"; "但风险较高"] |};
           estimatedEffort := major |} ].

Definition generateGeneralSolutions (_packageJson : PackageJson)
    (_workspaces : list WorkspaceInfo) (pm strategy : string) : Gen (list Solution) :=
  s1 <- dedupeSolution pm ;;
  s2 <- regenerateLockSolution pm ;;
  s3 <- (if strategy =? "aggressive" then updateAllSolution pm else ret []) ;;
  ret (s1 ++ s2 ++ s3).

(** ** suggestSolutions *)

Record SuggestSolutionsInput : Type := {
  targetPackage : option string;
  targetVersion : option string;
  strategy : option string;
  constraints : option Constraints
}.

Record SuggestSolutionsOutput : Type := {
  out_targetPackage : option string;
  solutions : list Solution;
  comparison : Comparison;
  warnings : list string
}.

Section Tool.

Variable path_join : string -> string -> string.

(** [packageJson] is what [readJsonFile] returned for the manifest, [pmName]
    the detected package manager, [workspacePackages] the members found and
    [packageInfo] what the registry client answers for the target package. *)
Definition suggestSolutions (input : SuggestSolutionsInput)
    (packageJson : option PackageJson) (pmName : string)
    (workspacePackages : list WorkspaceInfo)
    (packageInfo : option RegistryPackageDocument)
  : Gen (Js.result SuggestSolutionsOutput) :=
  match packageJson with
  | None => ret Js.Throw
  | Some packageJson =>
      let strategy := Js.or_default (strategy input) "balanced" in
      let general :=
        generateGeneralSolutions packageJson workspacePackages pmName strategy in
      solutions <--
        match targetPackage input with
        | Some package =>
            if Js.truthy package then
              generatePackageSolutions path_join package (targetVersion input) packageJson
                workspacePackages pmName strategy
                match constraints input with
                | Some c => c
                | None => {| allowMajorUpgrade := None |}
                end
                packageInfo
            else s <- general ;; ret (Js.Ret s)
        | None => s <- general ;; ret (Js.Ret s)
        end ;;
      let warnings :=
        if (List.length solutions =? 0)%nat
        then ["未能生成任何解决方案，项目可能已处于最佳状态"] else [] in
      ret (Js.Ret {| out_targetPackage := Js.or_else (targetPackage input) None;
                     solutions := solutions;
                     comparison := generateComparison solutions;
                     warnings := warnings |})
  end.

End Tool.

End SuggestSolutionsTool.

(* ===================================================================== *)
(** * Further notions used to state properties *)
(* ===================================================================== *)

Module Notions.
Import Types DetectConflictsSchema.

(** An entry of byType: a positive count under the name of a conflict type. *)
Definition counted (kv : string * nat) : Prop :=
  0 < snd kv /\ exists t, fst kv = ConflictType_name t /\ In t conflictTypes.

(** The conflict types for which detect_conflicts has a check. *)
Definition checkedTypes : list ConflictType :=
  [peer_dependency; multiple_versions; workspace_mismatch; override_risk; engine_mismatch].

End Notions.

(* ===================================================================== *)
(** * utils/index.ts: string utils *)
(* ===================================================================== *)

Module StringUtils.

(** [s.slice(0, end)] for an integer [end]: a negative [end] counts from
    the end of [s]. *)
Definition slice0 (s : string) (e : Z) : string :=
  let len := Z.of_nat (String.length s) in
  let last := if (e <? 0)%Z then Z.max (len + e) 0 else Z.min e len in
  substring 0 (Z.to_nat last) s.

(** [truncate], for an integer [maxLength]. *)
Definition truncate (str : string) (maxLength : Z) : string :=
  if (Z.of_nat (String.length str) <=? maxLength)%Z then str
  else (slice0 str (maxLength - 3) ++ "...")%string.

End StringUtils.

(* ===================================================================== *)
(** * core/package-manager/detector.ts: what is read from the project *)
(* ===================================================================== *)

Module Detector.

Inductive PackageManagerName : Type := pm_npm | pm_pnpm | pm_yarn.

(** The string a package manager name is at run time. *)
Definition PackageManagerName_text (pm : PackageManagerName) : string :=
  match pm with
  | pm_npm => "npm"
  | pm_pnpm => "pnpm"
  | pm_yarn => "yarn"
  end.

Definition PackageManagerName_eqb (a b : PackageManagerName) : bool :=
  match a, b with
  | pm_npm, pm_npm | pm_pnpm, pm_pnpm | pm_yarn, pm_yarn => true
  | _, _ => false
  end.

(** [LOCK_FILES[pm]], and [Object.entries(LOCK_FILES)]. *)
Definition LOCK_FILES (pm : PackageManagerName) : string :=
  match pm with
  | pm_npm => "package-lock.json"
  | pm_pnpm => "pnpm-lock.yaml"
  | pm_yarn => "yarn.lock"
  end.

Definition LOCK_FILES_entries : list (PackageManagerName * string) :=
  map (fun pm => (pm, LOCK_FILES pm)) [pm_npm; pm_pnpm; pm_yarn].

(** The [workspaces] field of a manifest: an array of patterns, or an
    object with an optional array [packages]. *)
Inductive WorkspacesField : Type :=
| ws_array (patterns : list string)
| ws_object (ws_packages : option (list string)).

(** A manifest with the fields that [Types.PackageJson] leaves out. *)
Record Manifest : Type := {
  core : Types.PackageJson;
  peerDependencies : option (Js.object string);
  packageManager : option string;
  workspaces : option WorkspacesField
}.

Record PackageManagerInfo : Type := {
  name : PackageManagerName;
  version : string;
  lockFile : option string;
  lockFilePath : option string
}.

Record WorkspaceConfig : Type := {
  enabled : bool;
  packages : list string;
  configSource : option string
}.

(** What [execCommand] resolves to. *)
Record CommandResult : Type := {
  stdout : string;
  stderr : string;
  exitCode : Z
}.

(** The document [parseYaml] returns for a pnpm-workspace.yaml, at the
    type the source casts it to. *)
Record PnpmWorkspace : Type := {
  pw_packages : option (list string)
}.

(** One alternative of [/^(npm|pnpm|yarn)@(.+)$/]: the name, [@], and a
    non-empty version that runs to the end of the text.  The greedy [.+]
    stops only at a line terminator or at the end, so the pattern matches
    exactly when nothing is left after it. *)
Definition packageManagerAlternative (pm : PackageManagerName) (s : string) : option string :=
  match Js.match_here false
          (Js.lit (PackageManagerName_text pm) ++ Js.lit "@" ++ [DetectConflicts.group]) s with
  | Some ([version], EmptyString) => Some version
  | _ => None
  end.

(** [s.match(/^(npm|pnpm|yarn)@(.+)$/)]: the alternatives are tried in
    order. *)
Definition packageManagerMatch (s : string) : option (PackageManagerName * string) :=
  match packageManagerAlternative pm_npm s with
  | Some version => Some (pm_npm, version)
  | None =>
      match packageManagerAlternative pm_pnpm s with
      | Some version => Some (pm_pnpm, version)
      | None =>
          match packageManagerAlternative pm_yarn s with
          | Some version => Some (pm_yarn, version)
          | None => None
          end
      end
  end.

Section FileSystem.

(** The project as the detector meets it: [path.join], and what the file
    system, the shell, glob and the YAML parser answer.  Nothing here
    writes, so each is a function of its arguments.  [parseYaml] throws on
    malformed text; [Js.Throw] also stands for a document without
    properties (null), on which the property access of the source throws
    inside the same [try]. *)
Variable path_join : string -> string -> string.
Variable fileExists : string -> bool.
Variable readJsonFile : string -> option Manifest.
Variable readTextFile : string -> option string.
Variable execCommand : string -> string -> CommandResult.
Variable parseYaml : string -> Js.result PnpmWorkspace.
Variable glob : string -> string -> list string.

Definition getPackageManagerVersion (pm : PackageManagerName) (cwd : string) : string :=
  let result := execCommand (Js.cat [PackageManagerName_text pm; " --version"]) cwd in
  if (exitCode result =? 0)%Z then Js.trim (stdout result) else "unknown".

(** The loop over the lock files: the first entry whose file exists. *)
Definition firstLockFile (projectPath : string)
  : option (PackageManagerName * string) :=
  find (fun entry => fileExists (path_join projectPath (snd entry))) LOCK_FILES_entries.

Definition detectPackageManager (projectPath : string) : PackageManagerInfo :=
  let packageJsonPath := path_join projectPath "package.json" in
  let packageJson := readJsonFile packageJsonPath in
  let declared :=
    match packageJson with
    | Some m =>
        match packageManager m with
        | Some field => if Js.truthy field then packageManagerMatch field else None
        | None => None
        end
    | None => None
    end in
  match declared with
  | Some (pmName, version) =>
      let lockFile := LOCK_FILES pmName in
      let lockFilePath := path_join projectPath lockFile in
      {| name := pmName;
         version := version;
         lockFile := if fileExists lockFilePath then Some lockFile else None;
         lockFilePath := if fileExists lockFilePath then Some lockFilePath else None |}
  | None =>
      match firstLockFile projectPath with
      | Some (pmName, lockFile) =>
          {| name := pmName;
             version := getPackageManagerVersion pmName projectPath;
             lockFile := Some lockFile;
             lockFilePath := Some (path_join projectPath lockFile) |}
      | None =>
          {| name := pm_npm;
             version := getPackageManagerVersion pm_npm projectPath;
             lockFile := None;
             lockFilePath := None |}
      end
  end.

Definition disabledWorkspaces : WorkspaceConfig :=
  {| enabled := false; packages := []; configSource := None |}.

(** The second half of [detectWorkspaces]: the [workspaces] field of the
    manifest. *)
Definition workspacesOfManifest (packageJson : option Manifest) : WorkspaceConfig :=
  match packageJson with
  | Some m =>
      match workspaces m with
      | Some field =>
          let packages :=
            match field with
            | ws_array patterns => patterns
            | ws_object (Some patterns) => patterns
            | ws_object None => []
            end in
          if (0 <? List.length packages)%nat then
            {| enabled := true; packages := packages; configSource := Some "package.json" |}
          else disabledWorkspaces
      | None => disabledWorkspaces
      end
  | None => disabledWorkspaces
  end.

Definition detectWorkspaces (projectPath : string) (pm : PackageManagerName)
  : WorkspaceConfig :=
  let packageJsonPath := path_join projectPath "package.json" in
  let packageJson := readJsonFile packageJsonPath in
  let fromManifest := workspacesOfManifest packageJson in
  if PackageManagerName_eqb pm pm_pnpm then
    let pnpmWorkspacePath := path_join projectPath "pnpm-workspace.yaml" in
    match readTextFile pnpmWorkspacePath with
    | Some pnpmWorkspaceContent =>
        if Js.truthy pnpmWorkspaceContent then
          match parseYaml pnpmWorkspaceContent with
          | Js.Ret {| pw_packages := Some patterns |} =>
              if (0 <? List.length patterns)%nat then
                {| enabled := true; packages := patterns;
                   configSource := Some "pnpm-workspace.yaml" |}
              else fromManifest
          | _ => fromManifest
          end
        else fromManifest
    | None => fromManifest
    end
  else fromManifest.

Definition getWorkspacePackages (projectPath : string) (workspaceConfig : WorkspaceConfig)
  : list Types.WorkspaceInfo :=
  if negb (enabled workspaceConfig) then []
  else
    flat_map
      (fun pattern =>
         flat_map
           (fun found =>
              let pkgPath := path_join projectPath found in
              let pkgJsonPath := path_join pkgPath "package.json" in
              match readJsonFile pkgJsonPath with
              | Some pkgJson =>
                  [ {| Types.ws_name := Types.name (core pkgJson);
                       Types.ws_path := pkgPath;
                       Types.relativePath := found;
                       Types.ws_version := Types.version (core pkgJson);
                       Types.packageJson := core pkgJson |} ]
              | None => []
              end)
           (glob pattern projectPath))
      (packages workspaceConfig).

Definition isMonorepo (projectPath : string) (pm : PackageManagerName) : bool :=
  enabled (detectWorkspaces projectPath pm).

End FileSystem.

(** [getNodeVersionConstraint] *)
Definition getNodeVersionConstraint (packageJson : Types.PackageJson) : option string :=
  Js.or_else (DetectConflicts.enginesNode packageJson) None.

End Detector.

(* ===================================================================== *)
(** * core/registry/client.ts *)
(* ===================================================================== *)

Module Registry.

(** The registry document of a package and the entry of one version, as
    far as the client reads them. *)
Record RegistryPackageInfo : Type := {
  peerDependencies : option (Js.object string);
  deprecated : option string;
  engines : option (Js.object string)
}.

Record RegistryPackageDocument : Type := {
  dist_tags : Js.object string;
  versions : Js.object RegistryPackageInfo
}.

Record CacheEntry : Type := {
  data : RegistryPackageDocument;
  timestamp : Z
}.

(** What the client changes: the module-level [cache], and the network, of
    which the URLs requested so far are kept. *)
Record World : Type := {
  cache : Js.object CacheEntry;
  requests : list string
}.

Definition CACHE_TTL : Z := 5 * 60 * 1000.

Record RegistryClientOptions : Type := {
  opt_registry : option string;
  opt_timeout : option Z
}.

Record RegistryClient : Type := {
  registry : string;
  timeout : Z
}.

(** [new RegistryClient(options)] *)
Definition new_RegistryClient (options : RegistryClientOptions) : RegistryClient :=
  {| registry := Js.or_default (opt_registry options) "https://registry.npmjs.org";
     timeout :=
       match opt_timeout options with
       | Some t => if (t =? 0)%Z then 10000%Z else t
       | None => 10000%Z
       end |}.

(** The default client instance. *)
Definition registryClient : RegistryClient :=
  new_RegistryClient {| opt_registry := None; opt_timeout := None |}.

Section Network.

(** [encodeURIComponent], and the network: [fetch url timeout] is the
    document that [fetch] and [response.json()] deliver for [url], [None]
    when the request fails, is aborted after [timeout] milliseconds, is
    answered with a status that is not ok, or carries no JSON. *)
Variable encodeURIComponent : string -> string.

Definition packageUrl (client : RegistryClient) (name : string) : string :=
  Js.cat [registry client; "/"; encodeURIComponent name].

(** [getPackageInfo]: [now] is what [Date.now()] answers when the cache is
    consulted, [later] what it answers when the response is stored. *)
Definition getPackageInfo (fetch : string -> Z -> option RegistryPackageDocument)
    (client : RegistryClient) (now later : Z) (name : string) (w : World)
  : option RegistryPackageDocument * World :=
  let request :=
    let url := packageUrl client name in
    let requested := {| cache := cache w; requests := requests w ++ [url] |} in
    match fetch url (timeout client) with
    | Some doc =>
        (Some doc,
         {| cache := Js.set name {| data := doc; timestamp := later |} (cache w);
            requests := requests requested |})
    | None => (None, requested)
    end in
  match Js.get name (cache w) with
  | Some cached =>
      if (now - timestamp cached <? CACHE_TTL)%Z then (Some (data cached), w) else request
  | None => request
  end.

Definition getVersionInfo (fetch : string -> Z -> option RegistryPackageDocument)
    (client : RegistryClient) (now later : Z) (name version : string) (w : World)
  : option RegistryPackageInfo * World :=
  let (packageInfo, w') := getPackageInfo fetch client now later name w in
  match packageInfo with
  | None => (None, w')
  | Some doc => (Js.get version (versions doc), w')
  end.

Definition getLatestVersion (fetch : string -> Z -> option RegistryPackageDocument)
    (client : RegistryClient) (now later : Z) (name : string) (w : World)
  : option string * World :=
  let (packageInfo, w') := getPackageInfo fetch client now later name w in
  match packageInfo with
  | None => (None, w')
  | Some doc => (Js.or_else (Js.get "latest" (dist_tags doc)) None, w')
  end.

Definition getAllVersions (fetch : string -> Z -> option RegistryPackageDocument)
    (client : RegistryClient) (now later : Z) (name : string) (w : World)
  : list string * World :=
  let (packageInfo, w') := getPackageInfo fetch client now later name w in
  match packageInfo with
  | None => ([], w')
  | Some doc => (map fst (versions doc), w')
  end.

Definition clearCache (w : World) : World :=
  {| cache := []; requests := requests w |}.

End Network.

End Registry.

(* ===================================================================== *)
(** * tools/apply-fix.ts *)
(* ===================================================================== *)

Module ApplyFix.
Import Types Detector.

Inductive FixType : Type := fix_override | fix_install | fix_upgrade.

Record Fix : Type := {
  fix_package : string;
  fix_version : string;
  fix_type : FixType
}.

Record ApplyFixInput : Type := {
  fixes : option (list Fix);
  autoDetect : bool;
  dryRun : bool;
  reinstall : bool
}.

(** [from] is what [getCurrentVersion] returned. *)
Record AppliedFix : Type := {
  applied_package : string;
  action : string;
  from : option (Js.property string);
  to : string
}.

Record FixResult : Type := {
  success : bool;
  appliedFixes : list AppliedFix;
  modifiedFiles : list string;
  commands : list string;
  errors : list string;
  warnings : list string
}.

(** What an invocation does to the project: the commands it executes and
    the files it writes, in order.  (Reads, and requests to the registry,
    are not recorded.)  The content of a written manifest is the object that
    [JSON.stringify] renders. *)
Inductive Effect : Type :=
| Exec (command cwd : string)
| WriteFile (path : string) (content : Manifest).

Record Outcome : Type := {
  result : FixResult;
  effects : list Effect
}.

(** How an invocation ends: with its result, or with an exception, in
    either case after the effects listed. *)
Inductive Completion : Type :=
| Done (o : Outcome)
| Failed (performed : list Effect).

Record PendingCommand : Type := {
  pkg : string;
  pc_version : string;
  isDev : bool
}.

Record Groups : Type := {
  prodPkgs : list string;
  devPkgs : list string
}.

(** ** Helpers *)

Definition isDevDependency (packageJson : Manifest) (pkgName : string) : bool :=
  Js.truthy_property (SuggestSolutions.lookup (devDependencies (core packageJson)) pkgName).

Definition getCurrentVersion (packageJson : Manifest) (pkgName : string)
  : option (Js.property string) :=
  Js.or_property (SuggestSolutions.lookup (dependencies (core packageJson)) pkgName)
    (Js.or_property (SuggestSolutions.lookup (devDependencies (core packageJson)) pkgName)
       (SuggestSolutions.lookup (peerDependencies packageJson) pkgName)).

Definition groupByDevDep (pkgs : list PendingCommand) : Groups :=
  fold_left
    (fun g p =>
       let pkgSpec := Js.cat [pkg p; "@"; pc_version p] in
       if isDev p then {| prodPkgs := prodPkgs g; devPkgs := devPkgs g ++ [pkgSpec] |}
       else {| prodPkgs := prodPkgs g ++ [pkgSpec]; devPkgs := devPkgs g |})
    pkgs {| prodPkgs := []; devPkgs := [] |}.

Definition buildInstallCommand (pm : string) (packages : list string) (isDev : bool)
  : string :=
  let pkgList := Js.join " " packages in
  if pm =? "npm" then
    if isDev then Js.cat ["npm install -D "; pkgList] else Js.cat ["npm install "; pkgList]
  else if pm =? "pnpm" then
    if isDev then Js.cat ["pnpm add -D "; pkgList] else Js.cat ["pnpm add "; pkgList]
  else if pm =? "yarn" then
    if isDev then Js.cat ["yarn add -D "; pkgList] else Js.cat ["yarn add "; pkgList]
  else Js.cat ["npm install "; if isDev then "-D " else ""; pkgList].

(** ** The manifest being prepared *)

Definition with_overrides (pj : PackageJson) (o : option (list (string * OverrideValue)))
  : PackageJson :=
  {| Types.name := Types.name pj; Types.version := Types.version pj;
     dependencies := dependencies pj;
     devDependencies := devDependencies pj; engines := engines pj;
     overrides := o; resolutions := resolutions pj; pnpm := pnpm pj |}.

Definition with_resolutions (pj : PackageJson) (r : option (Js.object string))
  : PackageJson :=
  {| Types.name := Types.name pj; Types.version := Types.version pj;
     dependencies := dependencies pj;
     devDependencies := devDependencies pj; engines := engines pj;
     overrides := overrides pj; resolutions := r; pnpm := pnpm pj |}.

Definition with_pnpm (pj : PackageJson) (p : option PnpmField) : PackageJson :=
  {| Types.name := Types.name pj; Types.version := Types.version pj;
     dependencies := dependencies pj;
     devDependencies := devDependencies pj; engines := engines pj;
     overrides := overrides pj; resolutions := resolutions pj; pnpm := p |}.

(** The initialisation of the override object of the package manager. *)
Definition initOverrides (pm : PackageManagerName) (updatedPackageJson : PackageJson)
  : PackageJson :=
  match pm with
  | pm_pnpm =>
      match pnpm updatedPackageJson with
      | Some {| pnpm_overrides := Some _ |} => updatedPackageJson
      | _ => with_pnpm updatedPackageJson (Some {| pnpm_overrides := Some [] |})
      end
  | pm_yarn =>
      match resolutions updatedPackageJson with
      | Some _ => updatedPackageJson
      | None => with_resolutions updatedPackageJson (Some [])
      end
  | pm_npm =>
      match overrides updatedPackageJson with
      | Some _ => updatedPackageJson
      | None => with_overrides updatedPackageJson (Some [])
      end
  end.

(** The assignment of one override; the object assigned to exists after
    [initOverrides]. *)
Definition addOverride (pm : PackageManagerName) (pkgName version : string)
    (updatedPackageJson : PackageJson) : PackageJson :=
  match pm with
  | pm_pnpm =>
      match pnpm updatedPackageJson with
      | Some {| pnpm_overrides := Some o |} =>
          with_pnpm updatedPackageJson
            (Some {| pnpm_overrides := Some (Js.put pkgName version o) |})
      | _ => updatedPackageJson
      end
  | pm_yarn =>
      match resolutions updatedPackageJson with
      | Some r => with_resolutions updatedPackageJson (Some (Js.put pkgName version r))
      | None => updatedPackageJson
      end
  | pm_npm =>
      match overrides updatedPackageJson with
      | Some o =>
          with_overrides updatedPackageJson (Some (Js.put pkgName (OvString version) o))
      | None => updatedPackageJson
      end
  end.

(** What the loop over the fixes builds. *)
Record Preparation : Type := {
  updatedPackageJson : PackageJson;
  applied : list AppliedFix;
  installCommands : list PendingCommand;
  upgradeCommands : list PendingCommand
}.

(** One turn of the loop over the fixes. *)
Definition applyOne (pm : PackageManagerName) (packageJson : Manifest)
    (st : Preparation) (one : Fix) : Preparation :=
  let pkgName := fix_package one in
  let version := fix_version one in
  match fix_type one with
  | fix_override =>
      {| updatedPackageJson := addOverride pm pkgName version (updatedPackageJson st);
         applied :=
           applied st ++ [ {| applied_package := pkgName; action := "override";
                              from := None; to := version |} ];
         installCommands := installCommands st;
         upgradeCommands := upgradeCommands st |}
  | fix_install =>
      let isDev := isDevDependency packageJson pkgName in
      {| updatedPackageJson := updatedPackageJson st;
         applied :=
           applied st ++ [ {| applied_package := pkgName; action := "install";
                              from := None; to := version |} ];
         installCommands :=
           installCommands st ++ [ {| pkg := pkgName; pc_version := version; isDev := isDev |} ];
         upgradeCommands := upgradeCommands st |}
  | fix_upgrade =>
      let isDev := isDevDependency packageJson pkgName in
      let currentVersion := getCurrentVersion packageJson pkgName in
      {| updatedPackageJson := updatedPackageJson st;
         applied :=
           applied st ++ [ {| applied_package := pkgName; action := "upgrade";
                              from := currentVersion; to := version |} ];
         installCommands := installCommands st;
         upgradeCommands :=
           upgradeCommands st ++ [ {| pkg := pkgName; pc_version := version; isDev := isDev |} ] |}
  end.

(** ** Pushing onto the result *)

Definition pushCommand (cmd : string) (o : Outcome) : Outcome :=
  let r := result o in
  {| result :=
       {| success := success r; appliedFixes := appliedFixes r;
          modifiedFiles := modifiedFiles r; commands := commands r ++ [cmd];
          errors := errors r; warnings := warnings r |};
     effects := effects o |}.

Definition pushWarning (text : string) (o : Outcome) : Outcome :=
  let r := result o in
  {| result :=
       {| success := success r; appliedFixes := appliedFixes r;
          modifiedFiles := modifiedFiles r; commands := commands r;
          errors := errors r; warnings := warnings r ++ [text] |};
     effects := effects o |}.

Definition pushModified (path : string) (o : Outcome) : Outcome :=
  let r := result o in
  {| result :=
       {| success := success r; appliedFixes := appliedFixes r;
          modifiedFiles := modifiedFiles r ++ [path]; commands := commands r;
          errors := errors r; warnings := warnings r |};
     effects := effects o |}.

Definition perform (e : Effect) (o : Outcome) : Outcome :=
  {| result := result o; effects := effects o ++ [e] |}.

Definition emptyResult : FixResult :=
  {| success := true; appliedFixes := []; modifiedFiles := []; commands := [];
     errors := []; warnings := [] |}.

(** [detectPeerDependencyIssues] runs a dry-run installation and reads
    fixes off its output. *)
Definition detectCommand (pm : string) : option string :=
  if pm =? "npm" then Some "npm install --dry-run 2>&1"
  else if pm =? "pnpm" then Some "pnpm install --dry-run 2>&1"
  else if pm =? "yarn" then Some "yarn install --dry-run 2>&1"
  else None.

Section Project.

(** [path.join]; what the file system and the shell answer; whether
    [fs.writeFile] of a content to a path succeeds; and the fixes that
    [detectPeerDependencyIssues] extracts from the output of the dry-run
    installation with its patterns and its registry lookups. *)
Variable path_join : string -> string -> string.
Variable fileExists : string -> bool.
Variable readJsonFile : string -> option Manifest.
Variable execCommand : string -> string -> CommandResult.
Variable writeFile : string -> Manifest -> bool.
Variable fixesIn : string -> list Fix.

(** What [detectPackageManager] executes: nothing when the manifest declares
    the package manager, else the version query of [getPackageManagerVersion]
    for the manager it settles on. *)
Definition detectPackageManagerEffects (projectPath : string) : list Effect :=
  let packageJson := readJsonFile (path_join projectPath "package.json") in
  let declared :=
    match packageJson with
    | Some m =>
        match packageManager m with
        | Some field => if Js.truthy field then packageManagerMatch field else None
        | None => None
        end
    | None => None
    end in
  match declared with
  | Some _ => []
  | None =>
      let pmName :=
        match firstLockFile path_join fileExists projectPath with
        | Some (pmName, _) => pmName
        | None => pm_npm
        end in
      [Exec (Js.cat [PackageManagerName_text pmName; " --version"]) projectPath]
  end.

Definition detectPeerDependencyIssues (projectPath pm : string) : list Fix * list Effect :=
  match detectCommand pm with
  | None => ([], [])
  | Some command =>
      let result := execCommand command projectPath in
      let output := (stdout result ++ stderr result)%string in
      (fixesIn output, [Exec command projectPath])
  end.

(** A command is listed, and executed unless this is a dry run; its
    failure is a warning. *)
Definition runCommand (dryRun : bool) (projectPath cmd failure : string) (o : Outcome)
  : Outcome :=
  let o := pushCommand cmd o in
  if negb dryRun then
    let installResult := execCommand cmd projectPath in
    let o := perform (Exec cmd projectPath) o in
    if negb (exitCode installResult =? 0)%Z
    then pushWarning (Js.cat [failure; stderr installResult]) o
    else o
  else o.

(** The commands of one kind, production packages before development
    packages. *)
Definition runGroups (dryRun : bool) (pm projectPath : string)
    (pending : list PendingCommand) (failure devFailure : string) (o : Outcome) : Outcome :=
  if (0 <? List.length pending)%nat then
    let groups := groupByDevDep pending in
    let o :=
      if (0 <? List.length (prodPkgs groups))%nat
      then runCommand dryRun projectPath
             (buildInstallCommand pm (prodPkgs groups) false) failure o
      else o in
    if (0 <? List.length (devPkgs groups))%nat
    then runCommand dryRun projectPath
           (buildInstallCommand pm (devPkgs groups) true) devFailure o
    else o
  else o.

(** [applyFix]: the package manager is detected before the manifest is
    read; the invocation throws when the manifest cannot be read, and when
    [fs.writeFile] fails. *)
Definition applyFix (input : ApplyFixInput) (projectPath : string) : Completion :=
  let pmInfo := detectPackageManager path_join fileExists readJsonFile execCommand
                  projectPath in
  let probe := detectPackageManagerEffects projectPath in
  let pmName := name pmInfo in
  let pm := PackageManagerName_text pmName in
  let packageJsonPath := path_join projectPath "package.json" in
  match readJsonFile packageJsonPath with
  | None => Failed probe
  | Some packageJson =>
      let given := match fixes input with Some l => l | None => [] end in
      let (fixList, detection) :=
        if autoDetect input && (List.length given =? 0)%nat
        then detectPeerDependencyIssues projectPath pm
        else (given, []) in
      let start := {| result := emptyResult; effects := probe ++ detection |} in
      if (List.length fixList =? 0)%nat then
        Done (pushWarning "未检测到需要修复的问题" start)
      else
        let st :=
          fold_left (applyOne pmName packageJson) fixList
            {| updatedPackageJson := initOverrides pmName (core packageJson);
               applied := []; installCommands := []; upgradeCommands := [] |} in
        let o :=
          {| result :=
               {| success := true; appliedFixes := applied st; modifiedFiles := [];
                  commands := []; errors := []; warnings := [] |};
             effects := probe ++ detection |} in
        let o := runGroups (dryRun input) pm projectPath (installCommands st)
                   "安装命令失败: " "安装 devDependencies 失败: " o in
        let o := runGroups (dryRun input) pm projectPath (upgradeCommands st)
                   "升级命令失败: " "升级 devDependencies 失败: " o in
        if negb (dryRun input) then
          let written :=
            {| core := updatedPackageJson st;
               peerDependencies := peerDependencies packageJson;
               packageManager := packageManager packageJson;
               workspaces := workspaces packageJson |} in
          if writeFile packageJsonPath written then
            let o := pushModified packageJsonPath
                       (perform (WriteFile packageJsonPath written) o) in
            Done (if reinstall input
                  then runCommand false projectPath (Js.cat [pm; " install"])
                         "安装命令返回非零退出码: " o
                  else o)
          else Failed (effects o)
        else
          Done (pushCommand (Js.cat ["# 将执行 "; pm; " install"])
                  (pushCommand (Js.cat ["# 将修改 "; packageJsonPath]) o))
  end.

End Project.

End ApplyFix.

(* ===================================================================== *)
(** * Notions used to state the properties of the detector and of apply_fix *)
(* ===================================================================== *)

Module FixNotions.
Import Types Detector ApplyFix.

(** A manifest without its [overrides] field. *)
Definition without_overrides (pj : PackageJson) : PackageJson := with_overrides pj None.

(** The fixes given with the input. *)
Definition givenFixes (input : ApplyFixInput) : list Fix :=
  match fixes input with
  | Some l => l
  | None => []
  end.

(** Whether an invocation detects the fixes itself. *)
Definition detects (input : ApplyFixInput) : bool :=
  autoDetect input && (List.length (givenFixes input) =? 0)%nat.

(** The fixes an invocation works on: those given, or those detected. *)
Definition fixesInEffect (execCommand : string -> string -> CommandResult)
    (fixesIn : string -> list Fix) (input : ApplyFixInput) (projectPath : string)
    (pm : PackageManagerName) : list Fix :=
  if detects input
  then fst (detectPeerDependencyIssues execCommand fixesIn projectPath
              (PackageManagerName_text pm))
  else givenFixes input.

(** The version that the last override fix for a package asks for. *)
Definition lastOverride (fixList : list Fix) (pkgName : string) : option string :=
  fold_left
    (fun acc one =>
       match fix_type one with
       | fix_override => if fix_package one =? pkgName then Some (fix_version one) else acc
       | _ => acc
       end)
    fixList None.

(** Whether a manifest declares a package manager that the detector
    recognises, and the commands that the detection of the package manager
    executes: the version query, unless the manifest declares the
    manager. *)
Definition declaresManager (m : Manifest) : bool :=
  match packageManager m with
  | Some field =>
      if Js.truthy field
      then match packageManagerMatch field with Some _ => true | None => false end
      else false
  | None => false
  end.

Definition versionQueries (m : option Manifest) (pm : PackageManagerName) : list string :=
  match m with
  | Some m =>
      if declaresManager m then [] else [Js.cat [PackageManagerName_text pm; " --version"]]
  | None => [Js.cat [PackageManagerName_text pm; " --version"]]
  end.

(** The package manager that [detectPackageManager] settles on. *)
Definition detected (path_join : string -> string -> string) (fileExists : string -> bool)
    (readJsonFile : string -> option Manifest)
    (execCommand : string -> string -> CommandResult) (projectPath : string)
  : PackageManagerName :=
  name (detectPackageManager path_join fileExists readJsonFile execCommand projectPath).

(** The manifests written by an invocation. *)
Definition writtenManifests (o : Outcome) : list Manifest :=
  flat_map (fun e => match e with WriteFile _ content => [content] | Exec _ _ => [] end)
    (effects o).

(** The commands executed by an invocation. *)
Definition executedCommands (o : Outcome) : list string :=
  flat_map (fun e => match e with Exec command _ => [command] | WriteFile _ _ => [] end)
    (effects o).

(** An entry of an [overrides] object that nests overrides under the empty
    key. *)
Definition nestsUnderEmptyKey (entry : string * OverrideValue) : Prop :=
  fst entry = "" /\ exists nested, snd entry = OvObject nested.

(** What makes the override of [pkgName] readable after it is written, for
    each package manager: the name is not [__proto__], under which an
    assignment creates no property; an object has no key twice; for pnpm the
    [overrides] field, which [getOverrides] reads after [pnpm.overrides],
    does not set the package; for npm the package name holds no [>] and no
    override is nested under the empty key. *)
Definition readableOverride (pm : PackageManagerName) (pj : PackageJson)
    (pkgName : string) : Prop :=
  pkgName <> "__proto__" /\
  match pm with
  | pm_yarn => NoDup (map fst (Js.entries_opt (resolutions pj)))
  | pm_pnpm =>
      NoDup (map fst (Js.entries_opt
                        match pnpm pj with
                        | Some f => pnpm_overrides f
                        | None => None
                        end)) /\
      Js.get pkgName (PackageManager.getOverrides pj "npm") = None
  | pm_npm =>
      NoDup (map fst (Js.entries_opt (overrides pj))) /\
      ~ In ">"%char (list_ascii_of_string pkgName) /\
      Forall (fun entry => ~ nestsUnderEmptyKey entry) (Js.entries_opt (overrides pj))
  end.

(** The manifest being prepared, after the override fixes of a list. *)
Definition overrideUpdates (pm : PackageManagerName) (fixList : list Fix)
    (pj : PackageJson) : PackageJson :=
  fold_left
    (fun pj one =>
       match fix_type one with
       | fix_override => addOverride pm (fix_package one) (fix_version one) pj
       | _ => pj
       end)
    fixList pj.

(** An override object after the override fixes of a list; [inj] turns a
    version into a value of the object. *)
Definition overridesAssigned {V : Type} (inj : string -> V) (fixList : list Fix)
    (o : Js.object V) : Js.object V :=
  fold_left
    (fun o one =>
       match fix_type one with
       | fix_override => Js.put (fix_package one) (inj (fix_version one)) o
       | _ => o
       end)
    fixList o.

(** A function on objects that only assigns keys, each with a value that
    does not depend on the object: what it yields is what it assigns, laid
    over the object it is given. *)
Definition overlays {V : Type} (f : Js.object V -> Js.object V) : Prop :=
  forall result k,
    Js.get k (f result)
    = match Js.get k (f []) with
      | Some v => Some v
      | None => Js.get k result
      end.

End FixNotions.

(** A sample project: no lock file, a manifest that can be written, no fix
    to detect. *)
Module FixSamples.
Import Detector ApplyFix.

Definition join (dir f : string) : string := Js.cat [dir; "/"; f].
Definition absent (_ : string) : bool := false.
Definition writable (_ : string) (_ : Manifest) : bool := true.
Definition nothing (_ : string) : list Fix := [].

End FixSamples.

(* ===================================================================== *)
(** * tools/analyze-dependencies.ts *)
(* ===================================================================== *)

Module AnalyzeDependencies.

(** [s.includes(sub)] *)
Fixpoint includes (sub s : string) : bool :=
  if String.prefix sub s then true
  else
    match s with
    | String _ s' => includes sub s'
    | EmptyString => false
    end.

(** One package of the tree that [npm ls --json] prints, with all the
    properties the analysis reads. *)
Inductive NpmDependencyEntry : Type :=
  mkNpmDependencyEntry (npm_version npm_resolved : option string)
                       (npm_dev npm_deduped : option bool)
                       (npm_path : option string)
                       (npm_peerDependencies : option (Js.object string))
                       (npm_problems : option (list string))
                       (npm_dependencies : option (list (string * NpmDependencyEntry))).

(** One package of the tree that [pnpm list --json] prints. *)
Inductive PnpmDependencyEntry : Type :=
  mkPnpmDependencyEntry (pnpm_version pnpm_from pnpm_path : option string)
                        (pnpm_dependencies : option (list (string * PnpmDependencyEntry))).

(** One tree of [yarn list --json]. *)
Inductive YarnTreeEntry : Type :=
  mkYarnTreeEntry (yarn_name : string) (yarn_shadow : option bool)
                  (yarn_children : option (list YarnTreeEntry)).

Inductive DependencyType : Type := prod | dev.

Inductive DependencyNode : Type :=
  mkDependencyNode (name version specifier : string) (resolved : option string)
                   (dependencyType : DependencyType) (hoisted deduped : bool)
                   (location : string) (dependencies : list DependencyNode)
                   (peerDependencies : Js.object string)
                   (problems : option (list string)).

Record FlatDependency : Type := {
  flat_name : string;
  versions : list string;
  locations : list string;
  requestedBy : list string
}.

Record DependencyStats : Type := {
  totalPackages : nat;
  uniquePackages : nat;
  duplicatePackages : nat;
  maxDepth : nat;
  prodDependencies : nat;
  devDependencies : nat
}.

Record ParsedList : Type := {
  tree : list DependencyNode;
  flatList : list FlatDependency;
  stats : DependencyStats
}.

(** [Map<string, FlatDependency>] *)
Definition FlatMap : Type := Js.object FlatDependency.

(** What a walk carries along: the flat map, and the greatest depth that
    [onDepth] was told. *)
Definition Walk : Type := (FlatMap * nat)%type.

(** The update of the flat map for one package met: its entry is created
    on first use, and a version not yet listed is added. *)
Definition recordVersion (name version : string) (flatMap : FlatMap) : FlatMap :=
  let flat :=
    match Js.get name flatMap with
    | Some flat => flat
    | None => {| flat_name := name; versions := []; locations := []; requestedBy := [] |}
    end in
  Js.set name
    {| flat_name := flat_name flat;
       versions := Js.set_add version (versions flat);
       locations := locations flat;
       requestedBy := requestedBy flat |}
    flatMap.

(** [onDepth(d)] *)
Definition onDepth (d : nat) (w : Walk) : Walk := (fst w, Nat.max (snd w) d).

(** ** parseNpmDependencies

    [parseNpmEntry] is one turn of its loop, for the entry [name, info]; the
    nodes of [info.dependencies] are collected by the recursive call. *)
Fixpoint parseNpmEntry (name : string) (info : NpmDependencyEntry) (depth : nat)
    (w : Walk) {struct info} : DependencyNode * Walk :=
  match info with
  | mkNpmDependencyEntry v resolved isDev isDeduped path peers problems deps =>
      let version := Js.or_default v "unknown" in
      let w := (recordVersion name version (fst w), snd w) in
      let (children, w) :=
        match deps with
        | Some deps =>
            fold_left
              (fun acc kv =>
                 let (node, w) := parseNpmEntry (fst kv) (snd kv) (depth + 1) (snd acc) in
                 (fst acc ++ [node], w))
              deps ([], onDepth (depth + 1) w)
        | None => ([], w)
        end in
      (mkDependencyNode name version (Js.or_default resolved "") resolved
         (if SuggestSolutions.truthy_bool isDev then dev else prod)
         (match resolved with
          | Some r => negb (includes name r)
          | None => true
          end)
         (SuggestSolutions.truthy_bool isDeduped)
         (Js.or_default path "")
         children
         (Js.entries_opt peers)
         problems,
       w)
  end.

Definition parseNpmDependencies (deps : list (string * NpmDependencyEntry))
    (tree : list DependencyNode) (w : Walk) (depth : nat) : list DependencyNode * Walk :=
  fold_left
    (fun acc kv =>
       let (node, w) := parseNpmEntry (fst kv) (snd kv) depth (snd acc) in
       (fst acc ++ [node], w))
    deps (tree, onDepth depth w).

(** ** parsePnpmDependencies *)

Fixpoint parsePnpmEntry (name : string) (info : PnpmDependencyEntry) (depth : nat)
    (w : Walk) {struct info} : DependencyNode * Walk :=
  match info with
  | mkPnpmDependencyEntry v from path deps =>
      let version := Js.or_default v "unknown" in
      let w := (recordVersion name version (fst w), snd w) in
      let (children, w) :=
        match deps with
        | Some deps =>
            fold_left
              (fun acc kv =>
                 let (node, w) := parsePnpmEntry (fst kv) (snd kv) (depth + 1) (snd acc) in
                 (fst acc ++ [node], w))
              deps ([], onDepth (depth + 1) w)
        | None => ([], w)
        end in
      (mkDependencyNode name version (Js.or_default from "") None prod false false
         (Js.or_default path "") children [] None,
       w)
  end.

Definition parsePnpmDependencies (deps : list (string * PnpmDependencyEntry))
    (tree : list DependencyNode) (w : Walk) (depth : nat) : list DependencyNode * Walk :=
  fold_left
    (fun acc kv =>
       let (node, w) := parsePnpmEntry (fst kv) (snd kv) depth (snd acc) in
       (fst acc ++ [node], w))
    deps (tree, onDepth depth w).

(** ** parseYarnDependencies *)

(** [/^(.+)@(.+)$/]: both runs are greedy and the last one stops only at a
    line terminator or at the end, so the pattern matches exactly when the
    first match found leaves nothing. *)
Definition yarnNameRe : Js.regex :=
  [DetectConflicts.group] ++ Js.lit "@" ++ [DetectConflicts.group].

Definition yarnNameMatch (itemName : string) : option (string * string) :=
  match Js.match_here false yarnNameRe itemName with
  | Some ([name; version], EmptyString) => Some (name, version)
  | _ => None
  end.

(** One turn of the loop: no node for an item whose name does not match. *)
Fixpoint parseYarnEntry (item : YarnTreeEntry) (depth : nat) (w : Walk) {struct item}
  : list DependencyNode * Walk :=
  match item with
  | mkYarnTreeEntry itemName shadow children =>
      match yarnNameMatch itemName with
      | None => ([], w)
      | Some (name, version) =>
          let w := (recordVersion name version (fst w), snd w) in
          let (nodes, w) :=
            match children with
            | Some children =>
                fold_left
                  (fun acc child =>
                     let (found, w) := parseYarnEntry child (depth + 1) (snd acc) in
                     (fst acc ++ found, w))
                  children ([], onDepth (depth + 1) w)
            | None => ([], w)
            end in
          ([ mkDependencyNode name version "" None prod
               (SuggestSolutions.truthy_bool shadow) (SuggestSolutions.truthy_bool shadow)
               "" nodes [] None ],
           w)
      end
  end.

Definition parseYarnDependencies (trees : list YarnTreeEntry)
    (result : list DependencyNode) (w : Walk) (depth : nat) : list DependencyNode * Walk :=
  fold_left
    (fun acc item =>
       let (found, w) := parseYarnEntry item depth (snd acc) in
       (fst acc ++ found, w))
    trees (result, onDepth depth w).

(** ** parseListOutput *)

(** What [JSON.parse] gives for the listing of npm, and for one line of the
    listings of pnpm and of yarn. *)
Record NpmListData : Type := {
  npm_data_dependencies : option (list (string * NpmDependencyEntry))
}.

Record PnpmItem : Type := {
  pnpm_item_dependencies : option (list (string * PnpmDependencyEntry))
}.

Inductive PnpmLine : Type :=
| pnpm_array (items : list PnpmItem)
| pnpm_object (item : PnpmItem).

Record YarnLine : Type := {
  yarn_type : option string;
  yarn_data_trees : option (list YarnTreeEntry)
}.

Definition problemNode (stderr : string) : DependencyNode :=
  mkDependencyNode "PARSE_ERROR" "0.0.0" "" None prod false false "" [] [] (Some [stderr]).

Definition newline : ascii := ascii_of_nat 10.

Section Parsing.

(** [JSON.parse], at the three types the listing is read at.  [Js.Throw]
    stands for text that is not JSON and, for npm, also for a value without
    properties (null), on which the property access throws in the same
    [try]. *)
Variable parseNpmJson : string -> Js.result NpmListData.
Variable parsePnpmJson : string -> Js.result PnpmLine.
Variable parseYarnJson : string -> Js.result YarnLine.

Definition parsePnpmItem (acc : list DependencyNode * Walk) (item : PnpmItem)
  : list DependencyNode * Walk :=
  match pnpm_item_dependencies item with
  | Some deps => parsePnpmDependencies deps (fst acc) (snd acc) 0
  | None => acc
  end.

Definition parsePnpmLine (acc : list DependencyNode * Walk) (line : string)
  : list DependencyNode * Walk :=
  match parsePnpmJson line with
  | Js.Ret (pnpm_array items) => fold_left parsePnpmItem items acc
  | Js.Ret (pnpm_object item) => parsePnpmItem acc item
  | Js.Throw => acc
  end.

Definition parseYarnLine (acc : list DependencyNode * Walk) (line : string)
  : list DependencyNode * Walk :=
  match parseYarnJson line with
  | Js.Ret data =>
      match yarn_type data, yarn_data_trees data with
      | Some t, Some trees =>
          if t =? "tree" then parseYarnDependencies trees (fst acc) (snd acc) 0 else acc
      | _, _ => acc
      end
  | Js.Throw => acc
  end.

(** The tree, the flat map and the greatest depth after the listing is
    read. *)
Definition readListing (stdout stderr pm : string) : list DependencyNode * Walk :=
  let start : list DependencyNode * Walk := ([], ([], 0)) in
  if pm =? "npm" then
    match parseNpmJson stdout with
    | Js.Ret data =>
        match npm_data_dependencies data with
        | Some deps => parseNpmDependencies deps [] ([], 0) 0
        | None => start
        end
    | Js.Throw => (if Js.truthy stderr then [problemNode stderr] else [], ([], 0))
    end
  else if pm =? "pnpm" then
    fold_left parsePnpmLine (Js.split newline (Js.trim stdout)) start
  else if pm =? "yarn" then
    fold_left parseYarnLine (Js.split newline (Js.trim stdout)) start
  else start.

Definition parseListOutput (stdout stderr pm : string) : ParsedList :=
  let (tree, w) := readListing stdout stderr pm in
  let (flatMap, maxDepth) := w in
  let prodCount :=
    fold_left (fun count dep => count + List.length (versions dep)) (map snd flatMap) 0 in
  let devCount := 0 in
  let flatList := map snd flatMap in
  let uniquePackages := List.length flatList in
  let totalPackages :=
    fold_left (fun sum d => sum + List.length (versions d)) flatList 0 in
  let duplicates := filter (fun d => (1 <? List.length (versions d))%nat) flatList in
  {| tree := tree;
     flatList := flatList;
     stats :=
       {| totalPackages := totalPackages;
          uniquePackages := uniquePackages;
          duplicatePackages := List.length duplicates;
          maxDepth := maxDepth;
          prodDependencies := prodCount;
          devDependencies := devCount |} |}.

End Parsing.

End AnalyzeDependencies.

(* ===================================================================== *)
(** * Notions used to state the properties of the analysis *)
(* ===================================================================== *)

Module AnalysisNotions.
Import AnalyzeDependencies.

(** The number of nodes of a tree. *)
Fixpoint nodeSize (node : DependencyNode) : nat :=
  match node with
  | mkDependencyNode _ _ _ _ _ _ _ _ children _ _ =>
      S (fold_right (fun child n => nodeSize child + n) 0 children)
  end.

Definition treeSize (tree : list DependencyNode) : nat :=
  fold_right (fun node n => nodeSize node + n) 0 tree.

(** The tree that detect_conflicts reads off the same listing: it looks at
    the version and the dependencies of a node only. *)
Fixpoint forget (info : NpmDependencyEntry) : DetectConflicts.NpmLsNode :=
  match info with
  | mkNpmDependencyEntry v _ _ _ _ _ _ deps =>
      DetectConflicts.mkNpmLsNode v
        match deps with
        | Some deps => Some (map (fun kv => (fst kv, forget (snd kv))) deps)
        | None => None
        end
  end.

Definition forgetAll (deps : list (string * NpmDependencyEntry))
  : list (string * DetectConflicts.NpmLsNode) :=
  map (fun kv => (fst kv, forget (snd kv))) deps.

(** Every node of a listing carries a version. *)
Fixpoint versioned (info : NpmDependencyEntry) : Prop :=
  match info with
  | mkNpmDependencyEntry v _ _ _ _ _ _ deps =>
      Js.truthy_opt v = true /\
      match deps with
      | Some deps => fold_right (fun kv P => versioned (snd kv) /\ P) True deps
      | None => True
      end
  end.

Definition allVersioned (deps : list (string * NpmDependencyEntry)) : Prop :=
  fold_right (fun kv P => versioned (snd kv) /\ P) True deps.

(** The version map that a flat map amounts to. *)
Definition versionsOf (flatMap : FlatMap) : DetectConflicts.VersionMap :=
  map (fun e => (fst e, versions (snd e))) flatMap.

(** What every walk maintains of the flat map: no name twice, and under
    each name an entry of that name with at least one version, no version
    twice, and no location or requester. *)
Definition wellFormedFlat (entry : string * FlatDependency) : Prop :=
  flat_name (snd entry) = fst entry /\
  versions (snd entry) <> [] /\ NoDup (versions (snd entry)) /\
  locations (snd entry) = [] /\ requestedBy (snd entry) = [].

(** The number of (name, version) pairs of a flat map. *)
Definition pairCount (flatMap : FlatMap) : nat :=
  list_sum (map (fun e => List.length (versions (snd e))) flatMap).

(** A piece of a walk that goes from [w] to [w'] and finds the nodes
    [found] keeps the flat map well formed and adds at most one pair for
    each node found. *)
Definition grows (w : Walk) (found : list DependencyNode) (w' : Walk) : Prop :=
  (NoDup (map fst (fst w)) /\ Forall wellFormedFlat (fst w) ->
   NoDup (map fst (fst w')) /\ Forall wellFormedFlat (fst w')) /\
  pairCount (fst w') <= pairCount (fst w) + treeSize found.

End AnalysisNotions.

(* ===================================================================== *)
(** * tools/trace-dependency.ts: the installed versions *)
(* ===================================================================== *)

Module TraceDependency.
Import AnalyzeDependencies.

Record InstalledVersion : Type := {
  iv_version : string;
  iv_location : string;
  usedBy : list string
}.

(** [s.split(sep)] for a separator of one character or more: [skip]
    characters of a separator just met are still to be passed. *)
Fixpoint splitOn_aux (sep cur : string) (skip : nat) (s : string) : list string :=
  match s with
  | EmptyString => [cur]
  | String c s' =>
      match skip with
      | S k => splitOn_aux sep cur k s'
      | 0 =>
          if String.prefix sep s
          then cur :: splitOn_aux sep EmptyString (String.length sep - 1) s'
          else splitOn_aux sep (cur ++ String c EmptyString)%string 0 s'
      end
  end.

Definition splitOn (sep s : string) : list string := splitOn_aux sep EmptyString 0 s.

(** [currentPath ? [currentPath.split(" > ").pop() || "root"] : ["root"]] *)
Definition userOf (currentPath : string) : list string :=
  if Js.truthy currentPath then
    let parent := last (splitOn " > " currentPath) "" in
    [if Js.truthy parent then parent else "root"]
  else ["root"].

(** ** collectVersionsFromNpmLs

    [collectFromEntry] is one turn of its loop, for the entry
    [name, info] met under [currentPath]. *)
Fixpoint collectFromEntry (targetPackage name : string) (info : NpmDependencyEntry)
    (currentPath : string) (versions : list InstalledVersion) {struct info}
  : list InstalledVersion :=
  match info with
  | mkNpmDependencyEntry v _ _ _ p _ _ deps =>
      let path := if Js.truthy currentPath then Js.cat [currentPath; " > "; name] else name in
      let versions :=
        if (name =? targetPackage) && Js.truthy_opt v then
          versions ++ [ {| iv_version := Js.or_default v "";
                           iv_location := Js.or_default p path;
                           usedBy := userOf currentPath |} ]
        else versions in
      match deps with
      | Some deps =>
          fold_left
            (fun versions kv => collectFromEntry targetPackage (fst kv) (snd kv) path versions)
            deps versions
      | None => versions
      end
  end.

Definition collectVersionsFromNpmLs (data : NpmListData) (targetPackage : string)
    (versions : list InstalledVersion) (currentPath : string) : list InstalledVersion :=
  match npm_data_dependencies data with
  | None => versions
  | Some deps =>
      fold_left
        (fun versions kv =>
           collectFromEntry targetPackage (fst kv) (snd kv) currentPath versions)
        deps versions
  end.

(** ** getInstalledVersions *)

Definition installedCommand (pm packageName : string) : option string :=
  if pm =? "npm" then Some (Js.cat ["npm ls "; packageName; " --json --all"])
  else if pm =? "pnpm" then Some (Js.cat ["pnpm list "; packageName; " --json"])
  else if pm =? "yarn" then
    Some (Js.cat ["yarn list --pattern "; SuggestSolutions.dquote; packageName;
                  SuggestSolutions.dquote; " --json"])
  else None.

(** One turn of the loop that removes duplicates: the first entry of a
    version stays and takes over the users of the later ones. *)
Definition mergeVersion (uniqueVersions : Js.object InstalledVersion) (v : InstalledVersion)
  : Js.object InstalledVersion :=
  match Js.get (iv_version v) uniqueVersions with
  | None => Js.set (iv_version v) v uniqueVersions
  | Some existing =>
      Js.set (iv_version v)
        {| iv_version := iv_version existing;
           iv_location := iv_location existing;
           usedBy := usedBy existing ++ usedBy v |}
        uniqueVersions
  end.

Section Shell.

(** What the shell answers to a command, and [JSON.parse] at the type of
    the listing of npm. *)
Variable execCommand : string -> string -> Detector.CommandResult.
Variable parseNpmJson : string -> Js.result NpmListData.

Definition getInstalledVersions (projectPath packageName pm : string)
  : list InstalledVersion :=
  match installedCommand pm packageName with
  | None => []
  | Some command =>
      let result := execCommand command projectPath in
      let versions :=
        if (pm =? "npm") && Js.truthy (Detector.stdout result) then
          match parseNpmJson (Detector.stdout result) with
          | Js.Ret data => collectVersionsFromNpmLs data packageName [] ""
          | Js.Throw => []
          end
        else [] in
      map snd (fold_left mergeVersion versions [])
  end.

End Shell.

End TraceDependency.

(* ===================================================================== *)
(** * Notions used to state the reading of peer dependency problems *)
(* ===================================================================== *)

Module PeerNotions.
Import Types DetectConflicts.

(** The problem line that npm prints for a missing peer dependency. *)
Definition missingPeerLine (peer range requiredBy : string) : string :=
  Js.cat ["peer dep missing: "; peer; "@"; range; ", required by "; requiredBy].

(** A text on one line, and a text in which a character does not occur. *)
Definition oneLine (s : string) : Prop :=
  forallb (fun c => negb (Js.is_line_terminator c)) (list_ascii_of_string s) = true.

Definition without (c : ascii) (s : string) : Prop :=
  ~ In c (list_ascii_of_string s).

(** The parts of a problem line that can be told apart: none is empty or
    goes over a line, the range holds no [@], and the requiring package
    holds no comma. *)
Definition readableParts (parts : string * string * string) : Prop :=
  let '(peer, range, requiredBy) := parts in
  peer <> "" /\ range <> "" /\ requiredBy <> "" /\
  oneLine peer /\ oneLine range /\ oneLine requiredBy /\
  without "@" range /\ without "," requiredBy.

(** The problem lines that npm listed, and whether a line names a missing
    peer in the expected form. *)
Definition listedProblems (result : ExecResult) : list string :=
  match stdout_json result with
  | Some data => match problems data with Some ps => ps | None => [] end
  | None => []
  end.

Definition namesMissingPeer (line : string) : bool :=
  match Js.search false peerMissingRe line with
  | Some [_; _; _; _] => true
  | _ => false
  end.

(** The line that names the parts, and a record that reports them. *)
Definition lineOf (parts : string * string * string) : string :=
  let '(peer, range, requiredBy) := parts in missingPeerLine peer range requiredBy.

Definition reports (parts : string * string * string) (i : ConflictIssue) : Prop :=
  let '(peer, range, requiredBy) := parts in
  type i = peer_dependency /\ severity i = warning /\
  package i = peer /\ message i = missingPeerLine peer range requiredBy /\
  peerDependency (details i)
  = Some {| host := requiredBy; hostVersion := ""; peerPackage := peer;
            required := range; installed := None |} /\
  affectedPaths i = [requiredBy].

End PeerNotions.

(* ===================================================================== *)
(** * Objects and maps *)
(* ===================================================================== *)

Section ObjectFacts.
Import Spec.
Context {V : Type}.
Implicit Types (o : Js.object V) (k : string) (v : V).

Lemma get_set_eq o k v : Js.get k (Js.set k v o) = Some v.
Proof.
  induction o as [|[k' v'] o IH]; simpl.
  - now rewrite String.eqb_refl.
  - destruct (k' =? k) eqn:E; simpl; rewrite E; auto.
Qed.

Lemma get_set_ne o k k' v : k <> k' -> Js.get k' (Js.set k v o) = Js.get k' o.
Proof.
  intros Hne. induction o as [|[k0 v0] o IH]; simpl.
  - destruct (k =? k') eqn:E; auto. apply String.eqb_eq in E. contradiction.
  - destruct (k0 =? k) eqn:E; simpl.
    + apply String.eqb_eq in E. subst k0.
      destruct (k =? k') eqn:E'; auto. apply String.eqb_eq in E'. contradiction.
    + now rewrite IH.
Qed.

Lemma keys_set_in o k v : In k (keys o) -> keys (Js.set k v o) = keys o.
Proof.
  unfold keys. induction o as [|[k' v'] o IH]; simpl; intros Hin; [contradiction|].
  destruct (k' =? k) eqn:E; simpl; auto.
  destruct Hin as [->|Hin]; [now rewrite String.eqb_refl in E|].
  now rewrite IH.
Qed.

Lemma keys_set_new o k v : ~ In k (keys o) -> keys (Js.set k v o) = keys o ++ [k].
Proof.
  unfold keys. induction o as [|[k' v'] o IH]; simpl; intros Hnin; auto.
  destruct (k' =? k) eqn:E.
  - apply String.eqb_eq in E. exfalso. auto.
  - simpl. rewrite IH; auto.
Qed.

Lemma in_keys_get o k : In k (keys o) <-> Js.get k o <> None.
Proof.
  unfold keys. induction o as [|[k' v'] o IH]; simpl.
  - split; [contradiction | congruence].
  - destruct (k' =? k) eqn:E.
    + apply String.eqb_eq in E. split; [congruence | auto].
    + apply String.eqb_neq in E. rewrite <- IH. split; [intros [H|H]; [contradiction|auto] | auto].
Qed.

Lemma NoDup_keys_set o k v : NoDup (keys o) -> NoDup (keys (Js.set k v o)).
Proof.
  intros Hnd. destruct (in_dec string_dec k (keys o)) as [Hin|Hnin].
  - now rewrite keys_set_in.
  - rewrite keys_set_new by assumption.
    apply NoDup_app; [assumption | repeat constructor; auto | ].
    intros x Hx [<-|[]]. contradiction.
Qed.

Lemma in_keys_set o k k' v : In k' (keys (Js.set k v o)) <-> k' = k \/ In k' (keys o).
Proof.
  destruct (in_dec string_dec k (keys o)) as [Hin|Hnin].
  - rewrite keys_set_in by assumption. split; [auto | intros [->|H]; auto].
  - rewrite keys_set_new by assumption. rewrite in_app_iff. simpl.
    split; [intros [H|[H|[]]]; auto | intros [H|H]; auto].
Qed.

Lemma get_in o k v : Js.get k o = Some v -> In (k, v) o.
Proof.
  induction o as [|[k' v'] o IH]; simpl; [discriminate|].
  destruct (k' =? k) eqn:E.
  - apply String.eqb_eq in E. intros [= ->]. subst. auto.
  - auto.
Qed.

Lemma in_get o k v : NoDup (keys o) -> In (k, v) o -> Js.get k o = Some v.
Proof.
  unfold keys. induction o as [|[k' v'] o IH]; simpl; intros Hnd Hin; [contradiction|].
  inversion Hnd as [|? ? Hnin Hnd']; subst.
  destruct Hin as [[= -> ->]|Hin].
  - now rewrite String.eqb_refl.
  - destruct (k' =? k) eqn:E; auto.
    apply String.eqb_eq in E. subst k'. exfalso. apply Hnin.
    change k with (fst (k, v)). now apply in_map.
Qed.

End ObjectFacts.

(* ===================================================================== *)
(** * Lists *)
(* ===================================================================== *)

Section ListFacts.
Context {A B : Type}.

Lemma NoDup_map_filter (f : A -> B) (keep : A -> bool) (l : list A) :
  NoDup (map f l) -> NoDup (map f (filter keep l)).
Proof.
  induction l as [|x l IH]; simpl; intros Hnd; [constructor|].
  inversion Hnd as [|? ? Hnin Hnd']; subst.
  destruct (keep x); simpl; auto.
  constructor; auto.
  intros Hin. apply Hnin. apply in_map_iff in Hin as (y & Hy & Hin).
  apply filter_In in Hin as [Hin _]. rewrite <- Hy. now apply in_map.
Qed.

Lemma filter_filter_comm (p q : A -> bool) (l : list A) :
  filter p (filter q l) = filter q (filter p l).
Proof.
  induction l as [|x l IH]; simpl; auto.
  destruct (q x) eqn:Eq, (p x) eqn:Ep; simpl; rewrite ?Eq, ?Ep, IH; auto.
Qed.

Lemma filter_none (p : A -> bool) (l : list A) :
  Forall (fun x => p x = false) l -> filter p l = [].
Proof.
  induction 1 as [|x l Hx _ IH]; simpl; auto. now rewrite Hx.
Qed.

Lemma filter_every (p : A -> bool) (l : list A) :
  Forall (fun x => p x = true) l -> filter p l = l.
Proof.
  induction 1 as [|x l Hx _ IH]; simpl; auto. now rewrite Hx, IH.
Qed.

Lemma map_filter_compat (g : A -> A) (p : A -> bool) (l : list A) :
  (forall x, p (g x) = p x) -> map g (filter p l) = filter p (map g l).
Proof.
  intros Hp. induction l as [|x l IH]; simpl; auto.
  rewrite Hp. destruct (p x); simpl; now rewrite IH.
Qed.

Lemma length_filter_map (g : A -> A) (p : A -> bool) (l : list A) :
  (forall x, p (g x) = p x) -> List.length (filter p (map g l)) = List.length (filter p l).
Proof.
  intros Hp. rewrite <- map_filter_compat by assumption. apply length_map.
Qed.

End ListFacts.

(* ===================================================================== *)
(** * Computations that generate identifiers *)
(* ===================================================================== *)

Section GenFacts.
Import Utils Loops Types Spec.
Local Open Scope gen_scope.

Lemma for_push_cons {A B : Type} (body : A -> Gen (list B)) x l ids n :
  fst (for_push body (x :: l) ids n) =
  fst (body x ids n) ++ fst (for_push body l ids (snd (body x ids n))).
Proof.
  simpl. unfold bind, ret.
  destruct (body x ids n) as [here n1]. simpl.
  now destruct (for_push body l ids n1).
Qed.

(** What holds of the records of each turn holds of all pushed records. *)
Lemma for_push_Forall {A B : Type} (body : A -> Gen (list B)) (P : B -> Prop) l :
  (forall x ids n, Forall P (fst (body x ids n))) ->
  forall ids n, Forall P (fst (for_push body l ids n)).
Proof.
  intros Hbody. induction l as [|x l IH]; intros ids n.
  - constructor.
  - rewrite for_push_cons. apply Forall_app. split; auto.
Qed.

Lemma then_Forall {B : Type} (m1 m2 : Gen (list B)) (P : B -> Prop) :
  (forall ids n, Forall P (fst (m1 ids n))) ->
  (forall ids n, Forall P (fst (m2 ids n))) ->
  forall ids n, Forall P (fst ((a <- m1 ;; b <- m2 ;; ret (a ++ b)) ids n)).
Proof.
  intros H1 H2 ids n. unfold bind, ret.
  specialize (H1 ids n). destruct (m1 ids n) as [a k].
  specialize (H2 ids k). destruct (m2 ids k) as [b j].
  simpl in *. apply Forall_app. auto.
Qed.

Lemma id_blind_ret l : id_blind (ret l).
Proof. intros ids n ids' n'. reflexivity. Qed.

Lemma id_blind_fresh (mk : string -> ConflictIssue) :
  (forall i j, erase_id (mk i) = erase_id (mk j)) ->
  id_blind (i <- generateId ;; ret [mk i]).
Proof.
  intros Hmk ids n ids' n'. unfold bind, generateId, ret. simpl. now rewrite (Hmk _ (ids' n')).
Qed.

Lemma id_blind_for_push {A : Type} (body : A -> Gen (list ConflictIssue)) l :
  (forall x, id_blind (body x)) -> id_blind (for_push body l).
Proof.
  intros Hbody. induction l as [|x l IH]; intros ids n ids' n'.
  - reflexivity.
  - rewrite !for_push_cons, !map_app. f_equal; [apply Hbody | apply IH].
Qed.

Lemma id_blind_then (m1 m2 : Gen (list ConflictIssue)) :
  id_blind m1 -> id_blind m2 ->
  id_blind (a <- m1 ;; b <- m2 ;; ret (a ++ b)).
Proof.
  intros H1 H2 ids n ids' n'. unfold bind, ret.
  destruct (m1 ids n) as [a k] eqn:E1. destruct (m1 ids' n') as [a' k'] eqn:E1'.
  destruct (m2 ids k) as [b j] eqn:E2. destruct (m2 ids' k') as [b' j'] eqn:E2'.
  simpl. rewrite !map_app. f_equal.
  - specialize (H1 ids n ids' n'). now rewrite E1, E1' in H1.
  - specialize (H2 ids k ids' k'). now rewrite E2, E2' in H2.
Qed.

Lemma id_blind_if (b : bool) (m : Gen (list ConflictIssue)) :
  id_blind m -> id_blind (if b then m else ret []).
Proof. destruct b; auto using id_blind_ret. Qed.

(** Five checks in a row, as [detectConflicts] runs them. *)
Lemma chain5 {B : Type} (m1 m2 m3 m4 m5 : Gen (list B)) ids n :
  exists n1 n2 n3 n4,
    fst ((a <- m1 ;; b <- m2 ;; c <- m3 ;; d <- m4 ;; e <- m5 ;;
          ret (a ++ b ++ c ++ d ++ e)) ids n) =
    fst (m1 ids n) ++ fst (m2 ids n1) ++ fst (m3 ids n2) ++ fst (m4 ids n3)
    ++ fst (m5 ids n4).
Proof.
  unfold bind, ret.
  destruct (m1 ids n) as [a n1]. exists n1.
  destruct (m2 ids n1) as [b n2]. exists n2.
  destruct (m3 ids n2) as [c n3]. exists n3.
  destruct (m4 ids n3) as [d n4]. exists n4.
  now destruct (m5 ids n4) as [e n5].
Qed.

Lemma id_blind_chain5 (m1 m2 m3 m4 m5 : Gen (list ConflictIssue)) :
  id_blind m1 -> id_blind m2 -> id_blind m3 -> id_blind m4 -> id_blind m5 ->
  id_blind (a <- m1 ;; b <- m2 ;; c <- m3 ;; d <- m4 ;; e <- m5 ;;
            ret (a ++ b ++ c ++ d ++ e)).
Proof.
  intros H1 H2 H3 H4 H5 ids n ids' n'.
  destruct (chain5 m1 m2 m3 m4 m5 ids n) as (k1 & k2 & k3 & k4 & ->).
  destruct (chain5 m1 m2 m3 m4 m5 ids' n') as (j1 & j2 & j3 & j4 & ->).
  rewrite !map_app.
  now rewrite (H1 ids n ids' n'), (H2 ids k1 ids' j1), (H3 ids k2 ids' j2),
    (H4 ids k3 ids' j3), (H5 ids k4 ids' j4).
Qed.

End GenFacts.

(* ===================================================================== *)
(** * The checks of detect_conflicts, one by one *)
(* ===================================================================== *)

Section CheckFacts.
Import Utils Loops Types DetectConflicts Spec.
Local Open Scope gen_scope.

Lemma peerProblemIssue_cases problem ids n :
  fst (peerProblemIssue problem ids n) = [] \/
  exists r, fst (peerProblemIssue problem ids n) = [r] /\ type r = peer_dependency.
Proof.
  unfold peerProblemIssue.
  destruct (Js.search false peerMissingRe problem) as [[|w [|a [|b [|c [|d l]]]]]|];
    simpl; eauto.
Qed.

Lemma peer_issue_types pm result ids n :
  Forall (fun i => type i = peer_dependency) (fst (detectPeerDependencyIssues pm result ids n)).
Proof.
  unfold detectPeerDependencyIssues.
  destruct (peerListCommand pm); [|constructor].
  revert ids n. apply then_Forall; intros ids n.
  - destruct (pm =? "npm"); [|constructor].
    destruct (stdout_json result) as [[[ps|] ?]|]; try constructor.
    apply for_push_Forall. intros x ids0 n0.
    destruct (peerProblemIssue_cases x ids0 n0) as [->|(r & -> & Hr)]; repeat constructor; auto.
  - destruct (Js.truthy (stderr result)); [|constructor].
    apply for_push_Forall. intros x ids0 n0. repeat constructor.
Qed.

(** *** Loops over the entries of a map *)

Section KeyedLoop.
Context {V : Type} (body : string * V -> Gen (list ConflictIssue)).
Hypothesis body_package :
  forall k x ids n, Forall (fun r => package r = k) (fst (body (k, x) ids n)).

Lemma keyed_loop_in_keys (m : Js.object V) ids n r :
  In r (fst (for_push body m ids n)) -> In (package r) (keys m).
Proof.
  revert ids n. induction m as [|[k x] m IH]; intros ids n; [contradiction|].
  rewrite for_push_cons, in_app_iff. intros [Hin|Hin].
  - left. pose proof (body_package k x ids n) as H.
    rewrite Forall_forall in H. symmetry. now apply H.
  - right. eapply IH, Hin.
Qed.

Lemma keyed_loop_NoDup (m : Js.object V) :
  (forall k x ids n, List.length (fst (body (k, x) ids n)) <= 1) ->
  NoDup (keys m) ->
  forall ids n, NoDup (map package (fst (for_push body m ids n))).
Proof.
  intros Hone. induction m as [|[k x] m IH]; intros Hnd ids n; [constructor|].
  inversion Hnd as [|? ? Hnin Hnd']; subst.
  rewrite for_push_cons, map_app.
  pose proof (body_package k x ids n) as Hk. pose proof (Hone k x ids n) as Hl.
  destruct (fst (body (k, x) ids n)) as [|r [|r' l]]; simpl in *; [auto | | lia].
  constructor; auto.
  intros Hin. apply in_map_iff in Hin as (r0 & Hr0 & Hin).
  apply keyed_loop_in_keys in Hin. inversion Hk; subst. apply Hnin. congruence.
Qed.

Lemma of_package_app name (a b : list ConflictIssue) :
  of_package name (a ++ b) = of_package name a ++ of_package name b.
Proof. apply filter_app. Qed.

Lemma of_package_absent (m : Js.object V) name ids n :
  ~ In name (keys m) -> of_package name (fst (for_push body m ids n)) = [].
Proof.
  intros Hnin. apply filter_none. apply Forall_forall. intros r Hr.
  apply keyed_loop_in_keys in Hr. apply String.eqb_neq. congruence.
Qed.

Lemma keyed_loop_of_package (m : Js.object V) name :
  NoDup (keys m) ->
  forall ids n, exists n',
    of_package name (fst (for_push body m ids n)) =
    match Js.get name m with
    | Some x => fst (body (name, x) ids n')
    | None => []
    end.
Proof.
  induction m as [|[k x] m IH]; intros Hnd ids n; [now exists n|].
  inversion Hnd as [|? ? Hnin Hnd']; subst.
  rewrite for_push_cons, of_package_app.
  pose proof (body_package k x ids n) as Hk. simpl Js.get.
  destruct (k =? name) eqn:E.
  - apply String.eqb_eq in E. subst k. exists n.
    rewrite (of_package_absent m) by assumption. rewrite app_nil_r.
    apply filter_every. eapply Forall_impl; [|exact Hk].
    intros r Hr. simpl in Hr. rewrite Hr. apply String.eqb_refl.
  - apply String.eqb_neq in E.
    destruct (IH Hnd' ids (snd (body (k, x) ids n))) as [n' Hn']. exists n'.
    rewrite Hn'. unfold of_package at 1. rewrite filter_none; auto.
    eapply Forall_impl; [|exact Hk].
    intros r Hr. simpl in Hr. rewrite Hr. now apply String.eqb_neq.
Qed.

End KeyedLoop.

(** *** multiple_versions *)

Lemma NpmLsNode_nested_ind (P : NpmLsNode -> Prop) :
  (forall v, P (mkNpmLsNode v None)) ->
  (forall v deps, Forall (fun kv => P (snd kv)) deps -> P (mkNpmLsNode v (Some deps))) ->
  forall info, P info.
Proof.
  intros Hleaf Hnode. fix IH 1. intros [v [deps|]]; [|apply Hleaf].
  apply Hnode. revert deps. fix IHdeps 1. intros [|[k d] deps]; constructor.
  - apply IH.
  - apply IHdeps.
Qed.

Lemma collectEntries_occurrences deps :
  Forall (fun kv => forall name m,
            collectEntry name (snd kv) m =
            fold_left addOccurrence (nodeOccurrences name (snd kv)) m) deps ->
  forall m,
    fold_left (fun m kv => collectEntry (fst kv) (snd kv) m) deps m =
    fold_left addOccurrence (flat_map (fun kv => nodeOccurrences (fst kv) (snd kv)) deps) m.
Proof.
  induction 1 as [|kv deps Hkv _ IH]; intros m; simpl; auto.
  now rewrite fold_left_app, <- Hkv, IH.
Qed.

Lemma collectEntry_occurrences info : forall name m,
  collectEntry name info m = fold_left addOccurrence (nodeOccurrences name info) m.
Proof.
  induction info as [v|v deps IH] using NpmLsNode_nested_ind; intros name m; simpl.
  - rewrite app_nil_r. destruct v as [v|]; auto. destruct (Js.truthy v); auto.
  - rewrite fold_left_app, <- collectEntries_occurrences by assumption.
    destruct v as [v|]; auto. destruct (Js.truthy v); auto.
Qed.

Lemma collectNpmVersions_occurrences deps m :
  collectNpmVersions deps m = fold_left addOccurrence (treeOccurrences deps) m.
Proof.
  destruct deps as [deps|]; simpl; auto.
  apply collectEntries_occurrences. apply Forall_forall.
  intros kv _ name m'. apply collectEntry_occurrences.
Qed.

Lemma in_set_add x y s : In x (Js.set_add y s) <-> x = y \/ In x s.
Proof.
  unfold Js.set_add. destruct (existsb (String.eqb y) s) eqn:E.
  - apply existsb_exists in E as (z & Hz & Ez). apply String.eqb_eq in Ez. subst z.
    split; [auto | intros [->|H]; auto].
  - rewrite in_app_iff. simpl. split; [intros [H|[H|[]]]; auto | intros [H|H]; auto].
Qed.

Lemma NoDup_set_add y s : NoDup s -> NoDup (Js.set_add y s).
Proof.
  intros Hnd. unfold Js.set_add. destruct (existsb (String.eqb y) s) eqn:E; auto.
  apply NoDup_app; [assumption | repeat constructor; auto | ].
  intros x Hx [<-|[]].
  assert (existsb (String.eqb y) s = true); [|congruence].
  apply existsb_exists. exists y. split; auto. apply String.eqb_refl.
Qed.

Lemma versionsIn_addVersion_eq m name v :
  versionsIn (addVersion name v m) name = Js.set_add v (versionsIn m name).
Proof.
  unfold versionsIn, addVersion. destruct (Js.get name m); now rewrite get_set_eq.
Qed.

Lemma versionsIn_addVersion_ne m name name' v :
  name <> name' -> versionsIn (addVersion name v m) name' = versionsIn m name'.
Proof.
  intros Hne. unfold versionsIn, addVersion.
  destruct (Js.get name m); now rewrite get_set_ne.
Qed.

Lemma NoDup_keys_addVersion m name v : NoDup (keys m) -> NoDup (keys (addVersion name v m)).
Proof.
  unfold addVersion. destruct (Js.get name m); apply NoDup_keys_set.
Qed.

Lemma occurrences_keys occs : forall m,
  NoDup (keys m) -> NoDup (keys (fold_left addOccurrence occs m)).
Proof.
  induction occs as [|o occs IH]; intros m Hm; simpl; auto.
  apply IH. now apply NoDup_keys_addVersion.
Qed.

Lemma occurrences_NoDup occs name : forall m,
  NoDup (versionsIn m name) -> NoDup (versionsIn (fold_left addOccurrence occs m) name).
Proof.
  induction occs as [|[k v] occs IH]; intros m Hm; simpl; auto.
  apply IH. unfold addOccurrence. simpl.
  destruct (string_dec k name) as [->|Hne].
  - rewrite versionsIn_addVersion_eq. now apply NoDup_set_add.
  - now rewrite versionsIn_addVersion_ne.
Qed.

Lemma occurrences_In occs name v : forall m,
  In v (versionsIn (fold_left addOccurrence occs m) name) <->
  In v (versionsIn m name) \/ In (name, v) occs.
Proof.
  induction occs as [|[k w] occs IH]; intros m; simpl; [tauto|].
  rewrite IH. unfold addOccurrence. simpl.
  destruct (string_dec k name) as [->|Hne].
  - rewrite versionsIn_addVersion_eq, in_set_add.
    split; [intros [[->|H]|H]; auto | intros [H|[[= ->]|H]]; auto].
  - rewrite versionsIn_addVersion_ne by assumption.
    split; [intros [H|H]; auto | intros [H|[[= -> ->]|H]]; auto].
    contradiction.
Qed.

(** The set the check holds for a package has as many elements as the
    package has distinct resolved versions in the tree. *)
Lemma collected_count result data name :
  stdout_json result = Some data ->
  List.length (versionsIn (collectedVersions "npm" result) name)
  = List.length (resolvedVersions data name).
Proof.
  intros Hdata. unfold collectedVersions. rewrite Hdata. simpl.
  rewrite collectNpmVersions_occurrences.
  apply Permutation_length. apply NoDup_Permutation.
  - apply occurrences_NoDup. constructor.
  - apply NoDup_nodup.
  - intros v. rewrite occurrences_In. unfold resolvedVersions. rewrite nodup_In, in_map_iff.
    split.
    + intros [[]|Hin]. exists (name, v). split; auto.
      apply filter_In. split; auto. apply String.eqb_refl.
    + intros ([k w] & Hw & Hin). simpl in Hw. subst w.
      apply filter_In in Hin as [Hin Hk]. simpl in Hk. apply String.eqb_eq in Hk.
      subst k. auto.
Qed.

Lemma collected_keys pm result : NoDup (keys (collectedVersions pm result)).
Proof.
  unfold collectedVersions.
  destruct (pm =? "npm"); [|constructor].
  destruct (stdout_json result) as [data|]; [|constructor].
  rewrite collectNpmVersions_occurrences. apply occurrences_keys. constructor.
Qed.

Lemma multipleVersionsIssue_package k x ids n :
  Forall (fun r => package r = k) (fst (multipleVersionsIssue (k, x) ids n)).
Proof.
  unfold multipleVersionsIssue. destruct (1 <? List.length x)%nat; repeat constructor.
Qed.

Lemma multipleVersionsIssue_one k x ids n :
  List.length (fst (multipleVersionsIssue (k, x) ids n)) <= 1.
Proof.
  unfold multipleVersionsIssue. destruct (1 <? List.length x)%nat; simpl; lia.
Qed.

Lemma multi_issue_types pm result ids n :
  Forall (fun i => type i = multiple_versions) (fst (detectMultipleVersions pm result ids n)).
Proof.
  unfold detectMultipleVersions. destruct (fullListCommand pm); [|constructor].
  apply for_push_Forall. intros [k x] ids0 n0.
  unfold multipleVersionsIssue. destruct (1 <? List.length x)%nat; repeat constructor.
Qed.

Lemma multi_issue_packages pm result ids n :
  NoDup (map package (fst (detectMultipleVersions pm result ids n))).
Proof.
  unfold detectMultipleVersions. destruct (fullListCommand pm); [|constructor].
  apply keyed_loop_NoDup.
  - apply multipleVersionsIssue_package.
  - apply multipleVersionsIssue_one.
  - apply collected_keys.
Qed.

(** The multiple_versions records of a package, from the size of its set. *)
Lemma multi_of_package pm result name ids k :
  fullListCommand pm <> None ->
  let found := fst (detectMultipleVersions pm result ids k) in
  let n := List.length (versionsIn (collectedVersions pm result) name) in
  (1 < n -> exists r, of_package name found = [r] /\
                      severity r = (if (2 <? n)%nat then warning else info)) /\
  (n <= 1 -> of_package name found = []).
Proof.
  intros Hcmd. unfold detectMultipleVersions.
  destruct (fullListCommand pm); [clear Hcmd | congruence].
  destruct (keyed_loop_of_package multipleVersionsIssue multipleVersionsIssue_package
              (collectedVersions pm result) name (collected_keys pm result) ids k) as [n' Hn'].
  simpl. rewrite Hn'. unfold versionsIn.
  destruct (Js.get name (collectedVersions pm result)) as [vs|]; simpl.
  - unfold multipleVersionsIssue.
    destruct (1 <? List.length vs)%nat eqn:E.
    + apply Nat.ltb_lt in E. split; [|lia]. intros _. simpl. eauto.
    + apply Nat.ltb_ge in E. split; [lia|]. auto.
  - split; [lia | auto].
Qed.

(** *** workspace_mismatch *)

Lemma NoDup_keys_assign {V : Type} (src target : Js.object V) :
  NoDup (keys target) -> NoDup (keys (Js.assign target src)).
Proof.
  unfold Js.assign. revert target.
  induction src as [|[k v] src IH]; intros target Hnd; simpl; auto.
  apply IH. now apply NoDup_keys_set.
Qed.

Lemma NoDup_keys_allDeps ws : NoDup (keys (allDeps ws)).
Proof.
  unfold allDeps, Js.spread2. apply NoDup_keys_assign, NoDup_keys_assign. constructor.
Qed.

Lemma collectWorkspaceDeps_declarations workspaces :
  collectWorkspaceDeps workspaces = fold_left recordDeclaration (declarations workspaces) [].
Proof.
  unfold collectWorkspaceDeps. generalize (@nil (string * Js.object (list string))).
  induction workspaces as [|ws workspaces IH]; intros m; simpl; auto.
  rewrite fold_left_app, IH. f_equal.
  generalize (allDeps ws) m. clear.
  induction o as [|e o IH]; intros m; simpl; auto.
Qed.

Lemma in_declarations workspaces member name requirement :
  In (member, (name, requirement)) (declarations workspaces) <->
  In (member, requirement) (mergedRequirements workspaces name).
Proof.
  unfold declarations, mergedRequirements. rewrite !in_flat_map.
  split; intros (ws & Hws & Hin); exists ws; split; auto.
  - apply in_map_iff in Hin as (e & [= <- ->] & Hin).
    rewrite (in_get _ _ _ (NoDup_keys_allDeps ws) Hin). now left.
  - destruct (Js.get name (allDeps ws)) as [q|] eqn:E; [|contradiction].
    destruct Hin as [[= <- <-]|[]].
    apply in_map_iff. exists (name, q). split; auto. now apply get_in.
Qed.

Lemma requirementMap_record_eq m member name requirement :
  requirementMap (recordRequirement member m (name, requirement)) name =
  Js.set requirement (membersOf (requirementMap m name) requirement ++ [member])
    (requirementMap m name).
Proof.
  unfold requirementMap, membersOf, recordRequirement. now rewrite get_set_eq.
Qed.

Lemma requirementMap_record_ne m member name name' requirement :
  name <> name' ->
  requirementMap (recordRequirement member m (name, requirement)) name' = requirementMap m name'.
Proof.
  intros Hne. unfold requirementMap, recordRequirement. now rewrite get_set_ne.
Qed.

Lemma membersOf_set_eq pkgMap requirement l :
  membersOf (Js.set requirement l pkgMap) requirement = l.
Proof. unfold membersOf. now rewrite get_set_eq. Qed.

Lemma membersOf_set_ne pkgMap requirement requirement' l :
  requirement <> requirement' ->
  membersOf (Js.set requirement l pkgMap) requirement' = membersOf pkgMap requirement'.
Proof. intros Hne. unfold membersOf. now rewrite get_set_ne. Qed.

Lemma declarations_keys decls : forall m,
  NoDup (keys m) -> NoDup (keys (fold_left recordDeclaration decls m)).
Proof.
  induction decls as [|[w [k q]] decls IH]; intros m Hm; simpl; auto.
  apply IH. unfold recordDeclaration, recordRequirement. simpl. now apply NoDup_keys_set.
Qed.

Lemma declarations_requirement_keys decls name : forall m,
  NoDup (keys (requirementMap m name)) ->
  NoDup (keys (requirementMap (fold_left recordDeclaration decls m) name)).
Proof.
  induction decls as [|[w [k q]] decls IH]; intros m Hm; simpl; auto.
  apply IH. unfold recordDeclaration. cbn [fst snd].
  destruct (string_dec k name) as [->|Hne].
  - rewrite requirementMap_record_eq. now apply NoDup_keys_set.
  - now rewrite requirementMap_record_ne.
Qed.

Lemma declarations_requirements decls name q : forall m,
  In q (keys (requirementMap (fold_left recordDeclaration decls m) name)) <->
  In q (keys (requirementMap m name)) \/ exists w, In (w, (name, q)) decls.
Proof.
  induction decls as [|[w [k q']] decls IH]; intros m; simpl.
  - split; [auto | intros [H|[w []]]; auto].
  - rewrite IH. unfold recordDeclaration. cbn [fst snd].
    destruct (string_dec k name) as [->|Hne].
    + rewrite requirementMap_record_eq, in_keys_set.
      split.
      * intros [[->|H]|[w' H]]; eauto.
      * intros [H|[w' [[= -> ->]|H]]]; eauto.
    + rewrite requirementMap_record_ne by assumption.
      split.
      * intros [H|[w' H]]; eauto.
      * intros [H|[w' [[= -> -> ->]|H]]]; eauto. contradiction.
Qed.

Lemma declarations_members decls name q w : forall m,
  In w (membersOf (requirementMap (fold_left recordDeclaration decls m) name) q) <->
  In w (membersOf (requirementMap m name) q) \/ In (w, (name, q)) decls.
Proof.
  induction decls as [|[w' [k q']] decls IH]; intros m; simpl; [tauto|].
  rewrite IH. unfold recordDeclaration. cbn [fst snd].
  destruct (string_dec k name) as [->|Hne].
  - rewrite requirementMap_record_eq.
    destruct (string_dec q' q) as [->|Hq].
    + rewrite membersOf_set_eq, in_app_iff. simpl.
      split; [intros [[H|[->|[]]]|H]; auto | intros [H|[[= ->]|H]]; auto].
    + rewrite membersOf_set_ne by assumption.
      split; [intros [H|H]; auto | intros [H|[[= -> ->]|H]]; auto]. contradiction.
  - rewrite requirementMap_record_ne by assumption.
    split; [intros [H|H]; auto | intros [H|[[= -> -> ->]|H]]; auto]. contradiction.
Qed.

(** The requirement map of a package has one key for each distinct
    requirement string the members declare. *)
Lemma requirement_count workspaces name :
  List.length (requirementMap (collectWorkspaceDeps workspaces) name)
  = List.length (mergedDistinct workspaces name).
Proof.
  rewrite <- (length_map fst). fold (keys (requirementMap (collectWorkspaceDeps workspaces) name)).
  rewrite collectWorkspaceDeps_declarations.
  apply Permutation_length. apply NoDup_Permutation.
  - apply declarations_requirement_keys. constructor.
  - apply NoDup_nodup.
  - intros q. rewrite declarations_requirements. unfold mergedDistinct.
    rewrite nodup_In, in_map_iff. split.
    + intros [[]|[w Hw]]. exists (w, q). split; auto. now apply in_declarations.
    + intros ([w q'] & Hq & Hin). simpl in Hq. subst q'. right. exists w.
      now apply in_declarations.
Qed.

(** What the merged object of a member holds is the requirement with which
    the member counts. *)
Lemma get_assign_rev {V : Type} (src : Js.object V) : forall target k,
  Js.get k (Js.assign target src)
  = match Js.get k (rev src) with
    | Some v => Some v
    | None => Js.get k target
    end.
Proof.
  unfold Js.assign.
  induction src as [|[k' v] src IH] using rev_ind; intros target k; [reflexivity|].
  rewrite fold_left_app, rev_app_distr. cbn [fold_left rev app fst snd Js.get].
  destruct (String.eqb_spec k' k) as [->|Hne].
  - apply get_set_eq.
  - rewrite get_set_ne by exact Hne. apply IH.
Qed.

Lemma get_allDeps ws name : Js.get name (allDeps ws) = requirementOf ws name.
Proof.
  unfold allDeps, Js.spread2, requirementOf, declaredUnder.
  rewrite !get_assign_rev. cbn [Js.get].
  destruct (Js.get name (rev (Js.entries_opt (devDependencies (packageJson ws)))));
    [reflexivity|].
  now destruct (Js.get name (rev (Js.entries_opt (dependencies (packageJson ws))))).
Qed.

Lemma requirementsOf_merged workspaces name :
  requirementsOf workspaces name = mergedRequirements workspaces name.
Proof.
  unfold requirementsOf, mergedRequirements.
  induction workspaces as [|ws workspaces IH]; [reflexivity|].
  cbn [flat_map]. now rewrite IH, get_allDeps.
Qed.

Lemma workspaceMismatchIssue_package k x ids n :
  Forall (fun r => package r = k) (fst (workspaceMismatchIssue (k, x) ids n)).
Proof.
  unfold workspaceMismatchIssue. destruct (1 <? List.length x)%nat; repeat constructor.
Qed.

Lemma workspaceMismatchIssue_one k x ids n :
  List.length (fst (workspaceMismatchIssue (k, x) ids n)) <= 1.
Proof.
  unfold workspaceMismatchIssue. destruct (1 <? List.length x)%nat; simpl; lia.
Qed.

Lemma collectWorkspaceDeps_keys workspaces : NoDup (keys (collectWorkspaceDeps workspaces)).
Proof.
  rewrite collectWorkspaceDeps_declarations. apply declarations_keys. constructor.
Qed.

Lemma workspace_issue_types workspaces root ids n :
  Forall (fun i => type i = workspace_mismatch)
    (fst (detectWorkspaceMismatch workspaces root ids n)).
Proof.
  unfold detectWorkspaceMismatch. apply for_push_Forall. intros [k x] ids0 n0.
  unfold workspaceMismatchIssue. destruct (1 <? List.length x)%nat; repeat constructor.
Qed.

Lemma workspace_issue_packages workspaces root ids n :
  NoDup (map package (fst (detectWorkspaceMismatch workspaces root ids n))).
Proof.
  unfold detectWorkspaceMismatch. apply keyed_loop_NoDup.
  - apply workspaceMismatchIssue_package.
  - apply workspaceMismatchIssue_one.
  - apply collectWorkspaceDeps_keys.
Qed.

(** *** override_risk and engine_mismatch *)

Lemma override_issue_types o pj ids n :
  Forall (fun i => type i = override_risk) (fst (detectOverrideRisks o pj ids n)).
Proof.
  unfold detectOverrideRisks. apply for_push_Forall. intros [k x] ids0 n0.
  repeat constructor.
Qed.

Lemma engine_issue_cases pv pj ids n :
  fst (detectEngineMismatch pv pj ids n) = [] \/
  exists r, fst (detectEngineMismatch pv pj ids n) = [r] /\
            type r = engine_mismatch /\ severity r = error /\ package r = "node".
Proof.
  unfold detectEngineMismatch.
  destruct (enginesNode pj) as [required|]; auto.
  destruct (Js.truthy required); auto.
  destruct (satisfiesVersion _ required); simpl; [auto|].
  right. eexists. repeat split.
Qed.

(** *** The pass as a whole *)

Lemma of_type_app t (a b : list ConflictIssue) :
  of_type t (a ++ b) = of_type t a ++ of_type t b.
Proof. apply filter_app. Qed.

Lemma ConflictType_eqb_eq a b : ConflictType_eqb a b = true <-> a = b.
Proof. destruct a, b; simpl; split; congruence. Qed.

Lemma of_type_same t l : Forall (fun i => type i = t) l -> of_type t l = l.
Proof.
  intros H. apply filter_every. eapply Forall_impl; [|exact H].
  intros i Hi. now apply ConflictType_eqb_eq.
Qed.

Lemma of_type_other t t' l : t <> t' -> Forall (fun i => type i = t') l -> of_type t l = [].
Proof.
  intros Hne H. apply filter_none. eapply Forall_impl; [|exact H].
  intros i Hi. simpl in Hi. destruct (ConflictType_eqb (type i) t) eqn:E; auto.
  apply ConflictType_eqb_eq in E. congruence.
Qed.

(** The records of a pass: the records of the five checks, in order. *)
Lemma collectIssues_parts checkTypes p pj ids n :
  exists a b c d e,
    fst (collectIssues checkTypes p pj ids n) = a ++ b ++ c ++ d ++ e /\
    Forall (fun i => type i = peer_dependency) a /\
    (Forall (fun i => type i = multiple_versions) b /\ NoDup (map package b)) /\
    (Forall (fun i => type i = workspace_mismatch) c /\ NoDup (map package c)) /\
    Forall (fun i => type i = override_risk) d /\
    (Forall (fun i => type i = engine_mismatch) e /\ NoDup (map package e)).
Proof.
  unfold collectIssues.
  match goal with
  | |- context [fst (Utils.bind ?m1 (fun _ => Utils.bind ?m2 (fun _ => Utils.bind ?m3
                  (fun _ => Utils.bind ?m4 (fun _ => Utils.bind ?m5 _)))) ids n)] =>
      destruct (chain5 m1 m2 m3 m4 m5 ids n) as (n1 & n2 & n3 & n4 & H)
  end.
  do 5 eexists. split; [exact H|]. clear H.
  split; [|split; [|split; [|split]]].
  - destruct (includes checkTypes peer_dependency); [apply peer_issue_types | constructor].
  - destruct (includes checkTypes multiple_versions).
    + split; [apply multi_issue_types | apply multi_issue_packages].
    + split; constructor.
  - destruct (includes checkTypes workspace_mismatch && _).
    + split; [apply workspace_issue_types | apply workspace_issue_packages].
    + split; constructor.
  - destruct (includes checkTypes override_risk); [apply override_issue_types | constructor].
  - destruct (includes checkTypes engine_mismatch); [|split; constructor].
    destruct (engine_issue_cases (process_version p) pj ids n4) as [->|(r & -> & Hr & _)].
    + split; constructor.
    + split; repeat constructor; auto.
Qed.

Lemma of_type_filterBySeverity t f l :
  of_type t (filterBySeverity f l) = filterBySeverity f (of_type t l).
Proof. destruct f; simpl; auto; apply filter_filter_comm. Qed.

Lemma NoDup_packages_filterBySeverity f l :
  NoDup (map package l) -> NoDup (map package (filterBySeverity f l)).
Proof. destruct f; simpl; auto; apply NoDup_map_filter. Qed.

(** *** Identifiers do not matter *)

Lemma id_blind_peerProblemIssue problem : id_blind (peerProblemIssue problem).
Proof.
  unfold peerProblemIssue.
  destruct (Js.search false peerMissingRe problem) as [[|w [|a [|b [|c [|d l]]]]]|];
    try apply id_blind_ret.
  apply id_blind_fresh. reflexivity.
Qed.

Lemma id_blind_peer pm result : id_blind (detectPeerDependencyIssues pm result).
Proof.
  unfold detectPeerDependencyIssues.
  destruct (peerListCommand pm); [|apply id_blind_ret].
  apply id_blind_then.
  - destruct (pm =? "npm"); [|apply id_blind_ret].
    destruct (stdout_json result) as [[[ps|] ?]|]; try apply id_blind_ret.
    apply id_blind_for_push, id_blind_peerProblemIssue.
  - apply id_blind_if, id_blind_for_push. intros w.
    unfold peerWarningIssue. apply id_blind_fresh. reflexivity.
Qed.

Lemma id_blind_multi pm result : id_blind (detectMultipleVersions pm result).
Proof.
  unfold detectMultipleVersions.
  destruct (fullListCommand pm); [|apply id_blind_ret].
  apply id_blind_for_push. intros [k x]. unfold multipleVersionsIssue.
  destruct (1 <? List.length x)%nat; [|apply id_blind_ret].
  apply id_blind_fresh. reflexivity.
Qed.

Lemma id_blind_workspace workspaces root : id_blind (detectWorkspaceMismatch workspaces root).
Proof.
  unfold detectWorkspaceMismatch.
  apply id_blind_for_push. intros [k x]. unfold workspaceMismatchIssue.
  destruct (1 <? List.length x)%nat; [|apply id_blind_ret].
  apply id_blind_fresh. reflexivity.
Qed.

Lemma id_blind_override o pj : id_blind (detectOverrideRisks o pj).
Proof.
  unfold detectOverrideRisks.
  apply id_blind_for_push. intros [k x]. unfold overrideRiskIssue.
  apply id_blind_fresh. reflexivity.
Qed.

Lemma id_blind_engine pv pj : id_blind (detectEngineMismatch pv pj).
Proof.
  unfold detectEngineMismatch.
  destruct (enginesNode pj) as [required|]; [|apply id_blind_ret].
  destruct (Js.truthy required); [|apply id_blind_ret].
  destruct (satisfiesVersion _ required); [apply id_blind_ret|].
  apply id_blind_fresh. reflexivity.
Qed.

Lemma id_blind_collectIssues checkTypes p pj : id_blind (collectIssues checkTypes p pj).
Proof.
  unfold collectIssues.
  apply id_blind_chain5; apply id_blind_if.
  - apply id_blind_peer.
  - apply id_blind_multi.
  - apply id_blind_workspace.
  - apply id_blind_override.
  - apply id_blind_engine.
Qed.

End CheckFacts.

(* ===================================================================== *)
(** * Properties of the conflict classifier *)
(* ===================================================================== *)

Section Classifier.
Import Utils Loops Types DetectConflicts Spec Samples.

(** C1, counterexample.  Deduplication by (type, package) fails for two of
    the checks: npm reporting one missing peer for two hosts yields two
    peer_dependency records for that peer, and two override entries for
    one package yield two override_risk records for it. *)
Lemma duplicate_records_for_peers_and_overrides :
  ~ deduplicated
      (issues_of (run (detectConflicts (check [peer_dependency]) two_hosts_one_peer) ids 0)) /\
  ~ deduplicated
      (issues_of (run (detectConflicts (check [override_risk]) two_overrides_one_package) ids 0)).
Proof.
  split.
  - intros H. specialize (H peer_dependency). vm_compute in H.
    inversion H as [|x l Hnin _]. apply Hnin. left. reflexivity.
  - intros H. specialize (H override_risk). vm_compute in H.
    inversion H as [|x l Hnin _]. apply Hnin. left. reflexivity.
Qed.

(** C1, as amended.  In every classification pass and for every conflict
    type other than peer_dependency and override_risk, no package appears
    in more than one emitted record of that type. *)
Theorem one_record_per_type_and_package :
  forall (input : DetectConflictsInput) (p : Project) (ids : nat -> string) (n : nat)
         (o : DetectConflictsOutput) (t : ConflictType),
    run (detectConflicts input p) ids n = Js.Ret o ->
    t <> peer_dependency -> t <> override_risk ->
    NoDup (map package (of_type t (issues o))).
Proof.
  intros input p ids n o t Hrun Hpeer Hover.
  unfold run, detectConflicts in Hrun.
  destruct (root_packageJson p) as [pj|]; [|discriminate].
  unfold bind, ret in Hrun.
  destruct (collectIssues_parts (checkTypes input) p pj ids n)
    as (a & b & c & d & e & Hparts & Ha & [Hb Hb'] & [Hc Hc'] & Hd & [He He']).
  destruct (collectIssues (checkTypes input) p pj ids n) as [l k]. simpl in *.
  injection Hrun as <-. simpl. subst l.
  rewrite of_type_filterBySeverity. apply NoDup_packages_filterBySeverity.
  rewrite !of_type_app.
  rewrite (of_type_other t _ a Hpeer Ha), (of_type_other t _ d Hover Hd). simpl.
  destruct t; try congruence;
    repeat match goal with
           | H : Forall (fun i => type i = ?t') ?l |- context [of_type ?t ?l] =>
               first [ rewrite (of_type_same t l H)
                     | rewrite (of_type_other t t' l ltac:(discriminate) H) ]
           end;
    simpl; rewrite ?app_nil_r; auto; constructor.
Qed.

(** C1, witness: the multiple_versions records of a pass over the sample
    tree. *)
Lemma one_record_per_type_and_package_witness :
  exists o,
    run (detectConflicts (check [peer_dependency; multiple_versions]) with_tree) ids 0
    = Js.Ret o /\
    NoDup (map package (of_type multiple_versions (issues o))).
Proof.
  eexists. split; [reflexivity|].
  eapply (one_record_per_type_and_package
            (check [peer_dependency; multiple_versions]) with_tree ids 0 _ multiple_versions);
    [reflexivity | discriminate | discriminate].
Defined.

(** C4, counterexample.  Under pnpm and under yarn the check runs the
    listing command and reads nothing of what it prints: with lodash
    installed in three versions and ms in two, no multiple_versions record
    is emitted. *)
Lemma several_versions_unseen_outside_npm :
  List.length (resolvedVersions tree "lodash") = 3 /\
  List.length (resolvedVersions tree "ms") = 2 /\
  run (detectMultipleVersions "pnpm" (listing tree)) ids 0 = [] /\
  run (detectMultipleVersions "yarn" (listing tree)) ids 0 = [].
Proof. repeat split. Qed.

(** C4, as amended.  Under npm, for a package with n distinct resolved
    versions in the installed tree that the listing shows, the
    multiple_versions check emits exactly one record when n > 1, of severity
    warning if and only if n > 2 and info otherwise, and no record when n is
    at most one.  Under any other package manager, and when the listing of
    npm is empty or cannot be parsed, the check emits no record.  All its
    records are of type multiple_versions. *)
Theorem multiple_versions_one_record :
  forall (pm : string) (result : ExecResult) (name : string) (ids : nat -> string) (k : nat),
    let found := run (detectMultipleVersions pm result) ids k in
    Forall (fun r => type r = multiple_versions) found /\
    (forall data,
       pm = "npm" -> stdout_json result = Some data ->
       let n := List.length (resolvedVersions data name) in
       (1 < n ->
        exists r, of_package name found = [r] /\
                  (severity r = warning <-> 2 < n) /\
                  (severity r = info <-> n <= 2)) /\
       (n <= 1 -> of_package name found = [])) /\
    (pm <> "npm" -> found = []) /\
    (stdout_json result = None -> found = []).
Proof.
  intros pm result name ids k found.
  split; [apply multi_issue_types|]. split; [|split].
  - intros data -> Hdata n.
    destruct (multi_of_package "npm" result name ids k ltac:(discriminate))
      as [Hmany Hfew].
    cbv zeta in Hmany, Hfew. rewrite (collected_count result data name Hdata) in Hmany, Hfew.
    fold n in Hmany, Hfew. fold found in Hmany, Hfew.
    split; [|exact Hfew].
    intros Hn. destruct (Hmany Hn) as (r & Hr & Hsev). exists r. split; [exact Hr|].
    rewrite Hsev. destruct (2 <? n)%nat eqn:E.
    + apply Nat.ltb_lt in E. split; split; auto; try discriminate; lia.
    + apply Nat.ltb_ge in E. split; split; auto; try discriminate; lia.
  - intros Hpm. subst found. unfold run, detectMultipleVersions, collectedVersions.
    destruct (String.eqb_spec pm "npm") as [|_]; [contradiction|].
    now destruct (fullListCommand pm).
  - intros Hnone. subst found. unfold run, detectMultipleVersions, collectedVersions.
    rewrite Hnone. destruct (pm =? "npm"); now destruct (fullListCommand pm).
Qed.

(** The sample tree: lodash (three versions) gets a warning, ms (two) an
    info record, semver (one) none. *)
Example multiple_versions_sample :
  map (fun r => (package r, severity r))
      (run (detectMultipleVersions "npm" (listing tree)) ids 0)
  = [("lodash", warning); ("ms", info)].
Proof. reflexivity. Qed.

(** C6, counterexample.  Member A writes two requirement strings for
    lodash, [^3.0.0] under dependencies and [^4.0.0] under devDependencies,
    and member B writes [^4.0.0]: two distinct strings are observed across
    the members, and the check emits no record, because it merges the two
    fields of a member and the string under devDependencies replaces the
    other. *)
Lemma requirement_under_dependencies_is_overlooked :
  writtenRequirements both_fields_members "lodash" = ["^3.0.0"; "^4.0.0"] /\
  run (detectWorkspaceMismatch both_fields_members (manifest "root" None None)) ids 0 = [].
Proof. split; reflexivity. Qed.

(** C6, as amended.  A member counts for a package with one requirement
    string, that under devDependencies when its manifest has one and that
    under dependencies otherwise.  For every package, with the members
    grouped by that string: the workspace_mismatch check emits exactly one
    record for the package when more than one distinct string is declared
    and none otherwise; the record lists every (member, requirement) pair
    and no other, the members of one requirement joined in one entry; two
    different strings make a mismatch whatever ranges they denote. *)
Theorem workspace_mismatch_is_textual :
  forall (workspaces : list WorkspaceInfo) (root : PackageJson) (name : string)
         (ids : nat -> string) (k : nat),
    let found := run (detectWorkspaceMismatch workspaces root) ids k in
    let declared := requirementsOf workspaces name in
    let n := List.length (distinctRequirements workspaces name) in
    Forall (fun r => type r = workspace_mismatch) found /\
    (1 < n ->
     exists r entries,
       of_package name found = [r] /\
       workspaceMismatch (details r) = Some entries /\
       (forall member requirement,
          In (member, requirement) declared ->
          In member (affectedPaths r) /\
          exists members,
            In member members /\
            In {| workspace := Js.join ", " members;
                  localVersion := requirement;
                  usedVersions := [requirement] |} entries) /\
       (forall e,
          In e entries ->
          exists members,
            workspace e = Js.join ", " members /\
            forall member, In member members -> In (member, localVersion e) declared)) /\
    (n <= 1 -> of_package name found = []) /\
    (forall m1 q1 m2 q2,
       In (m1, q1) declared -> In (m2, q2) declared -> q1 <> q2 -> 1 < n).
Proof.
  intros workspaces root name ids k found declared n.
  split; [apply workspace_issue_types|].
  assert (Hdeclared : declared = mergedRequirements workspaces name)
    by apply requirementsOf_merged.
  assert (Hdistinct : n = List.length (mergedDistinct workspaces name)).
  { subst n. unfold distinctRequirements, mergedDistinct.
    now rewrite requirementsOf_merged. }
  clearbody declared n. subst declared.
  set (declared := mergedRequirements workspaces name).
  assert (Hn : n = List.length (requirementMap (collectWorkspaceDeps workspaces) name))
    by (rewrite Hdistinct; symmetry; apply requirement_count).
  destruct (keyed_loop_of_package workspaceMismatchIssue workspaceMismatchIssue_package
              (collectWorkspaceDeps workspaces) name (collectWorkspaceDeps_keys workspaces)
              ids k) as [k' Hk'].
  fold (detectWorkspaceMismatch workspaces root) in Hk'.
  change (fst (detectWorkspaceMismatch workspaces root ids k)) with found in Hk'.
  split; [|split].
  - intros Hmany. rewrite Hn in Hmany. unfold requirementMap in Hmany.
    destruct (Js.get name (collectWorkspaceDeps workspaces)) as [pkgMap|] eqn:Eget;
      [|simpl in Hmany; lia].
    unfold workspaceMismatchIssue in Hk'.
    apply Nat.ltb_lt in Hmany. rewrite Hmany in Hk'. simpl in Hk'.
    assert (Hmembers : forall requirement member,
               In member (membersOf pkgMap requirement) <->
               In (member, requirement) declared).
    { intros requirement member.
      pose proof (declarations_members (declarations workspaces) name requirement member [])
        as H. rewrite <- collectWorkspaceDeps_declarations in H.
      unfold requirementMap at 1 in H. rewrite Eget in H. rewrite H.
      rewrite in_declarations. simpl. tauto. }
    assert (Hkeys : NoDup (keys pkgMap)).
    { pose proof (declarations_requirement_keys (declarations workspaces) name [])
        as H. rewrite <- collectWorkspaceDeps_declarations in H.
      unfold requirementMap at 2 in H. rewrite Eget in H. apply H. constructor. }
    eexists. eexists. split; [exact Hk'|]. split; [reflexivity|]. split.
    + intros member requirement Hin. simpl.
      apply Hmembers in Hin. unfold membersOf in Hin.
      destruct (Js.get requirement pkgMap) as [members|] eqn:Ereq; [|contradiction].
      apply get_in in Ereq. split.
      * apply in_concat. exists members. split; auto.
        change members with (snd (requirement, members)). now apply in_map.
      * exists members. split; auto.
        apply in_map_iff. exists (requirement, members). split; auto.
    + intros e He. apply in_map_iff in He as ([requirement members] & <- & Hin).
      exists members. split; [reflexivity|]. simpl.
      intros member Hm. apply Hmembers. unfold membersOf.
      now rewrite (in_get _ _ _ Hkeys Hin).
  - intros Hfew. rewrite Hn in Hfew. unfold requirementMap in Hfew.
    destruct (Js.get name (collectWorkspaceDeps workspaces)) as [pkgMap|]; auto.
    unfold workspaceMismatchIssue in Hk'.
    apply Nat.ltb_ge in Hfew. now rewrite Hfew in Hk'.
  - intros m1 q1 m2 q2 H1 H2 Hne. rewrite Hdistinct. unfold mergedDistinct.
    assert (Hincl : incl [q1; q2] (nodup string_dec (map snd declared))).
    { intros q [<-|[<-|[]]]; apply nodup_In.
      - change q1 with (snd (m1, q1)). now apply in_map.
      - change q2 with (snd (m2, q2)). now apply in_map. }
    apply NoDup_incl_length in Hincl; [exact Hincl|].
    constructor; [intros [H|[]]; congruence | repeat constructor; auto].
Qed.

(** Members A and B require lodash as [^4.0.0] and [^3.0.0]: one record,
    for lodash, naming both members with their requirement strings. *)
Example workspace_mismatch_lodash :
  map (fun r => (type r, package r, workspaceMismatch (details r), affectedPaths r))
      (run (detectWorkspaceMismatch lodash_members (manifest "root" None None)) ids 0)
  = [ (workspace_mismatch, "lodash",
       Some [ {| workspace := "A"; localVersion := "^4.0.0"; usedVersions := ["^4.0.0"] |};
              {| workspace := "B"; localVersion := "^3.0.0"; usedVersions := ["^3.0.0"] |} ],
       ["A"; "B"]) ].
Proof. reflexivity. Qed.

(** Two spellings of one range are a mismatch: the strings differ although
    they denote the same comparators. *)
Example workspace_mismatch_same_range :
  semver.new_Range "^4.0.0" = semver.new_Range ">=4.0.0 <5.0.0-0" /\
  map package
      (run (detectWorkspaceMismatch same_range_members (manifest "root" None None)) ids 0)
  = ["lodash"].
Proof. split; reflexivity. Qed.

(** *** Severity filter and summary *)

Lemma ConflictType_name_inj a b : ConflictType_name a = ConflictType_name b -> a = b.
Proof. destruct a, b; simpl; intros H; try reflexivity; discriminate H. Qed.

Lemma get_countType acc i t :
  Js.get (ConflictType_name t) (countType acc i) =
  if ConflictType_eqb (type i) t
  then Some (match Js.get (ConflictType_name t) acc with Some k => k | None => 0 end + 1)
  else Js.get (ConflictType_name t) acc.
Proof.
  unfold countType. destruct (ConflictType_eqb (type i) t) eqn:E.
  - apply ConflictType_eqb_eq in E. subst t. now rewrite get_set_eq.
  - rewrite get_set_ne; [reflexivity|].
    intros H. apply ConflictType_name_inj in H.
    apply ConflictType_eqb_eq in H. congruence.
Qed.

Lemma get_fold_countType l : forall acc t,
  Js.get (ConflictType_name t) (fold_left countType l acc) =
  match List.length (of_type t l), Js.get (ConflictType_name t) acc with
  | 0, seen => seen
  | S c, Some k => Some (k + S c)
  | S c, None => Some (S c)
  end.
Proof.
  induction l as [|i l IH]; intros acc t; simpl; [reflexivity|].
  rewrite IH, get_countType.
  destruct (ConflictType_eqb (type i) t); simpl;
    destruct (List.length (of_type t l)), (Js.get (ConflictType_name t) acc);
    try reflexivity; f_equal; lia.
Qed.

(** C10.  The filter "error" keeps exactly the issues of severity error,
    "warning" exactly those whose severity is not info (error issues stay),
    "all" keeps every issue; hasIssues and every count of the summary are
    computed over the kept issues. *)
Theorem severity_filter_and_summary :
  forall (input : DetectConflictsInput) (p : Project) (packageJson : PackageJson)
         (ids : nat -> string) (n : nat),
    root_packageJson p = Some packageJson ->
    let detected := run (collectIssues (checkTypes input) p packageJson) ids n in
    exists o,
      run (detectConflicts input p) ids n = Js.Ret o /\
      match severity_filter input with
      | filter_error =>
          issues o = filter (fun i => Severity_eqb (severity i) error) detected /\
          (forall i, In i (issues o) <-> In i detected /\ severity i = error)
      | filter_warning =>
          issues o = filter (fun i => negb (Severity_eqb (severity i) info)) detected /\
          (forall i, In i (issues o) <-> In i detected /\ severity i <> info) /\
          (forall i, In i detected -> severity i = error -> In i (issues o))
      | filter_all => issues o = detected
      end /\
      (hasIssues o = true <-> issues o <> []) /\
      total (summary o) = List.length (issues o) /\
      errors (summary o)
      = List.length (filter (fun i => Severity_eqb (severity i) error) (issues o)) /\
      warnings (summary o)
      = List.length (filter (fun i => Severity_eqb (severity i) warning) (issues o)) /\
      infos (summary o)
      = List.length (filter (fun i => Severity_eqb (severity i) info) (issues o)) /\
      (forall t,
         Js.get (ConflictType_name t) (byType (summary o)) =
         match List.length (of_type t (issues o)) with
         | 0 => None
         | S c => Some (S c)
         end).
Proof.
  intros input p pj ids n Hpj detected. subst detected.
  unfold run, detectConflicts. rewrite Hpj. unfold bind, ret.
  destruct (collectIssues (checkTypes input) p pj ids n) as [l k]. simpl.
  eexists. split; [reflexivity|]. simpl.
  split; [|split; [|split; [|split; [|split; [|split]]]]]; try reflexivity.
  - destruct (severity_filter input); simpl.
    + reflexivity.
    + split; [reflexivity|]. intros i. rewrite filter_In. unfold has_severity.
      destruct (severity i); simpl; intuition congruence.
    + split; [reflexivity|]. split.
      * intros i. rewrite filter_In. unfold has_severity.
        destruct (severity i); simpl; intuition congruence.
      * intros i Hin Hsev. apply filter_In. split; auto.
        unfold has_severity. now rewrite Hsev.
  - destruct (filterBySeverity (severity_filter input) l); simpl; split; intros H;
      try reflexivity; try discriminate; exfalso; now apply H.
  - intros t. rewrite get_fold_countType. simpl.
    now destruct (List.length (of_type t (filterBySeverity (severity_filter input) l))).
Qed.

(** C10, witness: the sample tree, filtered by "warning". *)
Lemma severity_filter_and_summary_witness :
  let input := {| checkTypes := [multiple_versions]; severity_filter := filter_warning |} in
  let packageJson := manifest "app" None None in
  root_packageJson with_tree = Some packageJson /\
  exists o,
    run (detectConflicts input with_tree) ids 0 = Js.Ret o /\
    issues o = filter (fun i => negb (Severity_eqb (severity i) info))
                 (run (collectIssues (checkTypes input) with_tree packageJson) ids 0) /\
    total (summary o) = List.length (issues o) /\
    Js.get "multiple_versions" (byType (summary o))
    = match List.length (of_type multiple_versions (issues o)) with
      | 0 => None
      | S c => Some (S c)
      end.
Proof.
  intros input packageJson. split; [reflexivity|].
  destruct (severity_filter_and_summary input with_tree packageJson ids 0 eq_refl)
    as (o & Hrun & Hfilter & _ & Htotal & _ & _ & _ & HbyType).
  exists o. split; [exact Hrun|]. split; [exact (proj1 Hfilter)|].
  split; [exact Htotal|]. exact (HbyType multiple_versions).
Defined.

(** *** Idempotence *)

Lemma erase_id_filterBySeverity f l :
  map erase_id (filterBySeverity f l) = filterBySeverity f (map erase_id l).
Proof. destruct f; simpl; auto; now apply map_filter_compat. Qed.

Lemma fold_countType_erase l : forall acc,
  fold_left countType (map erase_id l) acc = fold_left countType l acc.
Proof. induction l as [|i l IH]; intros acc; simpl; auto. Qed.

Lemma summarize_erase l now :
  summary (summarize (map erase_id l) now) = summary (summarize l now).
Proof.
  unfold summarize. simpl.
  rewrite length_map, fold_countType_erase, !length_filter_map by reflexivity.
  reflexivity.
Qed.

(** C9.  Two classification passes over the same inputs either both fail
    to read the manifest or return the same records once the generated
    identifiers are disregarded, in the same order and with the same
    summary. *)
Theorem classification_is_idempotent :
  forall (input : DetectConflictsInput) (p : Project)
         (ids1 : nat -> string) (n1 : nat) (ids2 : nat -> string) (n2 : nat),
    match run (detectConflicts input p) ids1 n1, run (detectConflicts input p) ids2 n2 with
    | Js.Ret o1, Js.Ret o2 =>
        map erase_id (issues o1) = map erase_id (issues o2) /\
        hasIssues o1 = hasIssues o2 /\
        summary o1 = summary o2
    | Js.Throw, Js.Throw => True
    | _, _ => False
    end.
Proof.
  intros input p ids1 n1 ids2 n2.
  unfold run, detectConflicts. destruct (root_packageJson p) as [pj|]; [|exact I].
  unfold bind, ret.
  pose proof (id_blind_collectIssues (checkTypes input) p pj ids1 n1 ids2 n2) as H.
  destruct (collectIssues (checkTypes input) p pj ids1 n1) as [l1 k1].
  destruct (collectIssues (checkTypes input) p pj ids2 n2) as [l2 k2].
  simpl in H.
  assert (Hf : map erase_id (filterBySeverity (severity_filter input) l1)
               = map erase_id (filterBySeverity (severity_filter input) l2))
    by (now rewrite !erase_id_filterBySeverity, H).
  assert (Hs : summary (summarize (filterBySeverity (severity_filter input) l1) (clock p))
               = summary (summarize (filterBySeverity (severity_filter input) l2) (clock p))).
  { rewrite <- (summarize_erase (filterBySeverity _ l1)),
            <- (summarize_erase (filterBySeverity _ l2)). now rewrite Hf. }
  simpl fst. split; [exact Hf|]. split; [|exact Hs].
  apply (f_equal (@List.length _)) in Hf. rewrite !length_map in Hf.
  simpl. now rewrite Hf.
Qed.

(** Two passes over the sample tree with different identifier sources. *)
Example two_passes_over_the_sample_tree :
  let again (n : nat) := Js.cat ["other"; Js.of_nat n] in
  map id (issues_of (run (detectConflicts (check [multiple_versions]) with_tree) ids 0))
  <> map id (issues_of (run (detectConflicts (check [multiple_versions]) with_tree) again 7)) /\
  map erase_id (issues_of (run (detectConflicts (check [multiple_versions]) with_tree) ids 0))
  = map erase_id
      (issues_of (run (detectConflicts (check [multiple_versions]) with_tree) again 7)).
Proof. split; [discriminate | reflexivity]. Qed.

End Classifier.

(* ===================================================================== *)
(** * Properties of the version range oracle *)
(* ===================================================================== *)

Section Precedence.
Import semver.

Lemma lex_Eq c d : lex c d = Eq -> c = Eq /\ d = Eq.
Proof. destruct c; simpl; intros H; try discriminate; auto. Qed.

Lemma lex_Lt c d : lex c d = Lt -> c = Lt \/ (c = Eq /\ d = Lt).
Proof. destruct c; simpl; intros H; try discriminate; auto. Qed.

Lemma lex_CompOpp c d : CompOpp (lex c d) = lex (CompOpp c) (CompOpp d).
Proof. now destruct c. Qed.

Lemma N_compare_trans x y z :
  N.compare x y = Lt -> N.compare y z = Lt -> N.compare x z = Lt.
Proof. rewrite !N.compare_lt_iff. lia. Qed.

Lemma ascii_compare_trans a b c :
  Ascii.compare a b = Lt -> Ascii.compare b c = Lt -> Ascii.compare a c = Lt.
Proof. unfold Ascii.compare. apply N_compare_trans. Qed.

Lemma ascii_compare_refl a : Ascii.compare a a = Eq.
Proof. unfold Ascii.compare. apply N.compare_refl. Qed.

Lemma string_compare_refl s : String.compare s s = Eq.
Proof. induction s as [|a s IH]; simpl; auto. now rewrite ascii_compare_refl. Qed.

Lemma string_compare_trans x : forall y z,
  String.compare x y = Lt -> String.compare y z = Lt -> String.compare x z = Lt.
Proof.
  induction x as [|a x IH]; intros [|b y] [|c z]; simpl; try discriminate; auto.
  destruct (Ascii.compare a b) eqn:Eab; try discriminate;
    destruct (Ascii.compare b c) eqn:Ebc; try discriminate; intros Hxy Hyz.
  - apply Ascii.compare_eq_iff in Eab, Ebc. subst. rewrite ascii_compare_refl. eauto.
  - apply Ascii.compare_eq_iff in Eab. subst. now rewrite Ebc.
  - apply Ascii.compare_eq_iff in Ebc. subst. now rewrite Eab.
  - now rewrite (ascii_compare_trans a b c).
Qed.

(** ** Identifiers *)

Lemma compareIdentifiers_refl a : compareIdentifiers a a = Eq.
Proof. destruct a; simpl; [apply N.compare_refl | apply string_compare_refl]. Qed.

Lemma compareIdentifiers_eq a b : compareIdentifiers a b = Eq -> a = b.
Proof.
  destruct a, b; simpl; try discriminate; intros H.
  - apply N.compare_eq in H. congruence.
  - apply String.compare_eq_iff in H. congruence.
Qed.

Lemma compareIdentifiers_antisym a b :
  compareIdentifiers b a = CompOpp (compareIdentifiers a b).
Proof.
  destruct a, b; simpl; auto.
  - apply N.compare_antisym.
  - apply String.compare_antisym.
Qed.

Lemma compareIdentifiers_trans a b c :
  compareIdentifiers a b = Lt -> compareIdentifiers b c = Lt -> compareIdentifiers a c = Lt.
Proof.
  destruct a, b, c; simpl; try discriminate; auto.
  - apply N_compare_trans.
  - apply string_compare_trans.
Qed.

Lemma compareIdentifierLists_refl a : compareIdentifierLists a a = Eq.
Proof. induction a as [|x a IH]; simpl; auto. now rewrite compareIdentifiers_refl. Qed.

Lemma compareIdentifierLists_eq a : forall b, compareIdentifierLists a b = Eq -> a = b.
Proof.
  induction a as [|x a IH]; intros [|y b]; simpl; try discriminate; auto.
  intros H. apply lex_Eq in H as [Hx Ha].
  apply compareIdentifiers_eq in Hx. apply IH in Ha. congruence.
Qed.

Lemma compareIdentifierLists_antisym a : forall b,
  compareIdentifierLists b a = CompOpp (compareIdentifierLists a b).
Proof.
  induction a as [|x a IH]; intros [|y b]; simpl; auto.
  now rewrite lex_CompOpp, <- compareIdentifiers_antisym, <- IH.
Qed.

Lemma compareIdentifierLists_trans a : forall b c,
  compareIdentifierLists a b = Lt -> compareIdentifierLists b c = Lt ->
  compareIdentifierLists a c = Lt.
Proof.
  induction a as [|x a IH]; intros [|y b] [|z c]; simpl; try discriminate; auto.
  intros Hab Hbc. apply lex_Lt in Hab, Hbc.
  destruct Hab as [Hxy|[Hxy Hab]], Hbc as [Hyz|[Hyz Hbc]].
  - now rewrite (compareIdentifiers_trans x y z).
  - apply compareIdentifiers_eq in Hyz. subst. now rewrite Hxy.
  - apply compareIdentifiers_eq in Hxy. subst. now rewrite Hyz.
  - apply compareIdentifiers_eq in Hxy, Hyz. subst.
    rewrite compareIdentifiers_refl. simpl. eauto.
Qed.

(** ** Versions *)

Lemma comparePre_refl a : comparePre a a = Eq.
Proof.
  unfold comparePre. destruct (prerelease a) as [|x l] eqn:E; auto.
  apply compareIdentifierLists_refl.
Qed.

Lemma comparePre_eq a b : comparePre a b = Eq -> prerelease a = prerelease b.
Proof.
  unfold comparePre. destruct (prerelease a), (prerelease b); try discriminate; auto.
  apply compareIdentifierLists_eq.
Qed.

Lemma comparePre_antisym a b : comparePre b a = CompOpp (comparePre a b).
Proof.
  unfold comparePre. destruct (prerelease a), (prerelease b); auto.
  apply compareIdentifierLists_antisym.
Qed.

Lemma comparePre_trans a b c :
  comparePre a b = Lt -> comparePre b c = Lt -> comparePre a c = Lt.
Proof.
  unfold comparePre.
  destruct (prerelease a), (prerelease b), (prerelease c); try discriminate; auto.
  apply compareIdentifierLists_trans.
Qed.

Lemma compareMain_refl a : compareMain a a = Eq.
Proof. unfold compareMain. now rewrite !N.compare_refl. Qed.

Lemma compareMain_eq a b :
  compareMain a b = Eq -> major a = major b /\ minor a = minor b /\ patch a = patch b.
Proof.
  unfold compareMain. intros H.
  apply lex_Eq in H as [HM H]. apply lex_Eq in H as [Hm Hp].
  apply N.compare_eq in HM, Hm, Hp. auto.
Qed.

Lemma compareMain_antisym a b : compareMain b a = CompOpp (compareMain a b).
Proof.
  unfold compareMain. rewrite !lex_CompOpp.
  now rewrite <- !N.compare_antisym.
Qed.

Lemma compareMain_Lt a b :
  compareMain a b = Lt <->
  (major a < major b \/
   (major a = major b /\
    (minor a < minor b \/ (minor a = minor b /\ patch a < patch b))))%N.
Proof.
  unfold compareMain.
  destruct (N.compare_spec (major a) (major b)),
           (N.compare_spec (minor a) (minor b)),
           (N.compare_spec (patch a) (patch b));
    simpl; split; intros; try discriminate; try reflexivity; lia.
Qed.

Lemma compareMain_trans a b c :
  compareMain a b = Lt -> compareMain b c = Lt -> compareMain a c = Lt.
Proof. rewrite !compareMain_Lt. lia. Qed.

Lemma compare_refl a : compare a a = Eq.
Proof. unfold compare. now rewrite compareMain_refl, comparePre_refl. Qed.

Lemma compare_eq a b : compare a b = Eq -> a = b.
Proof.
  unfold compare. intros H. apply lex_Eq in H as [Hmain Hpre].
  apply compareMain_eq in Hmain as (HM & Hm & Hp). apply comparePre_eq in Hpre.
  destruct a, b. simpl in *. congruence.
Qed.

Lemma compare_antisym a b : compare b a = CompOpp (compare a b).
Proof.
  unfold compare. now rewrite lex_CompOpp, <- compareMain_antisym, <- comparePre_antisym.
Qed.

Lemma compare_trans a b c : compare a b = Lt -> compare b c = Lt -> compare a c = Lt.
Proof.
  unfold compare. intros Hab Hbc. apply lex_Lt in Hab, Hbc.
  destruct Hab as [Hab|[Hab Hab']], Hbc as [Hbc|[Hbc Hbc']].
  - now rewrite (compareMain_trans a b c).
  - apply compareMain_eq in Hbc as (HM & Hm & Hp).
    unfold compareMain in *. rewrite <- HM, <- Hm, <- Hp. now rewrite Hab.
  - apply compareMain_eq in Hab as (HM & Hm & Hp).
    unfold compareMain in *. rewrite HM, Hm, Hp. now rewrite Hbc.
  - apply compareMain_eq in Hab as (HM & Hm & Hp).
    apply compareMain_eq in Hbc as (HM' & Hm' & Hp').
    unfold compareMain. rewrite HM, Hm, Hp, HM', Hm', Hp', !N.compare_refl. simpl.
    now apply (comparePre_trans a b c).
Qed.

(** Not above a version that is below another: below that other. *)
Lemma compare_le_lt a b c : compare a b <> Gt -> compare b c = Lt -> compare a c = Lt.
Proof.
  intros Hab Hbc. destruct (compare a b) eqn:E; [| |congruence].
  - apply compare_eq in E. now subst.
  - now apply (compare_trans a b c).
Qed.

End Precedence.

Section Oracle.
Import Utils Spec semver.

Lemma test_parses r v : test r v = true -> exists sv, new_SemVer v = Some sv.
Proof. unfold test. destruct (new_SemVer v); [eauto | discriminate]. Qed.

Lemma maxSatisfying_step_invariant r seen acc x :
  greatest_so_far r seen acc ->
  greatest_so_far r (seen ++ [x]) (maxSatisfying_step r acc x).
Proof.
  intros Hinv. unfold maxSatisfying_step.
  assert (Hlast : In x (seen ++ [x])) by (apply in_or_app; right; now left).
  destruct (test r x) eqn:Et.
  - destruct (test_parses r x Et) as [sx Hsx]. rewrite Hsx.
    destruct acc as [[v sv]|]; simpl in *.
    + destruct Hinv as (Hin & Htest & Hparse & Hmax).
      destruct (compare sv sx) eqn:Ec; simpl.
      * split; [|split; [|split]]; auto using in_or_app.
        intros w Hw Hwt. apply in_app_or in Hw as [Hw|[<-|[]]]; auto.
        exists sx. split; auto. rewrite compare_antisym, Ec. discriminate.
      * split; [|split; [|split]]; auto.
        intros w Hw Hwt. apply in_app_or in Hw as [Hw|[<-|[]]].
        -- destruct (Hmax w Hw Hwt) as (sw & Hsw & Hle). exists sw. split; auto.
           rewrite (compare_le_lt sw sv sx Hle Ec). discriminate.
        -- exists sx. split; auto. rewrite compare_refl. discriminate.
      * split; [|split; [|split]]; auto using in_or_app.
        intros w Hw Hwt. apply in_app_or in Hw as [Hw|[<-|[]]]; auto.
        exists sx. split; auto. rewrite compare_antisym, Ec. discriminate.
    + split; [|split; [|split]]; auto.
      intros w Hw Hwt. apply in_app_or in Hw as [Hw|[<-|[]]].
      * rewrite (Hinv w Hw) in Hwt. discriminate.
      * exists sx. split; auto. rewrite compare_refl. discriminate.
  - destruct acc as [[v sv]|]; simpl in *.
    + destruct Hinv as (Hin & Htest & Hparse & Hmax).
      split; [|split; [|split]]; auto using in_or_app.
      intros w Hw Hwt. apply in_app_or in Hw as [Hw|[<-|[]]]; auto. congruence.
    + intros w Hw. apply in_app_or in Hw as [Hw|[<-|[]]]; auto.
Qed.

Lemma maxSatisfying_loop_invariant r versions : forall seen acc,
  greatest_so_far r seen acc ->
  greatest_so_far r (seen ++ versions) (fold_left (maxSatisfying_step r) versions acc).
Proof.
  induction versions as [|x versions IH]; intros seen acc Hinv; simpl.
  - now rewrite app_nil_r.
  - replace (seen ++ x :: versions) with ((seen ++ [x]) ++ versions)
      by (now rewrite <- app_assoc).
    apply IH. now apply maxSatisfying_step_invariant.
Qed.

Lemma satisfiesVersion_test range r v :
  new_Range range = Js.Ret r -> satisfiesVersion v range = test r v.
Proof. intros H. unfold satisfiesVersion, satisfies. now rewrite H. Qed.

Lemma isValidRange_false range : isValidRange range = false <-> new_Range range = Js.Throw.
Proof.
  unfold isValidRange, validRange. destruct (new_Range range); simpl; split; congruence.
Qed.

Lemma satisfiesVersion_malformed version range :
  new_Range range = Js.Throw -> satisfiesVersion version range = false.
Proof. intros H. unfold satisfiesVersion, satisfies. now rewrite H. Qed.

(** C7.  [satisfiesVersion] is a total function into the booleans, and it
    answers [false] for every version when the range is malformed (when
    [isValidRange] rejects it, that is, when building the range throws). *)
Theorem satisfiesVersion_fails_closed :
  forall version range : string,
    isValidRange range = false -> satisfiesVersion version range = false.
Proof.
  intros version range H. apply isValidRange_false in H.
  now apply satisfiesVersion_malformed.
Qed.

(** C7, witness: a range that is no range. *)
Lemma satisfiesVersion_fails_closed_witness :
  isValidRange "not a range" = false /\ satisfiesVersion "1.0.0" "not a range" = false.
Proof.
  split; [reflexivity|].
  apply (satisfiesVersion_fails_closed "1.0.0" "not a range"). reflexivity.
Defined.

(** What the wrapper adds: were [semver.satisfies] to throw, the answer
    would still be [false]. *)
Example satisfiesVersion_catches : Js.try_catch (@Js.Throw bool) false = false.
Proof. reflexivity. Qed.

(** C3.  The operations of the version range oracle return on every input:
    [getMaxSatisfying] completes with a version or none for every list of
    versions and every range string, and with none when the range is
    malformed; [satisfiesVersion] and [isMajorUpgrade] complete with a
    boolean. *)
Theorem oracle_never_throws :
  forall (versions : list string) (range version : string) (from : option string),
    (exists best, getMaxSatisfying versions range = Js.Ret best) /\
    (isValidRange range = false -> getMaxSatisfying versions range = Js.Ret None) /\
    (exists b, satisfiesVersion version range = b) /\
    (exists b, SuggestSolutions.isMajorUpgrade from version = b).
Proof.
  intros versions range version from.
  unfold getMaxSatisfying, maxSatisfying.
  split; [|split; [|split]]; eauto.
  - destruct (new_Range range); eauto.
  - intros H. apply isValidRange_false in H. now rewrite H.
Qed.

(** C8.  For a well-formed range, [getMaxSatisfying] returns a version of
    the list that meets the range and that no version of the list meeting
    the range exceeds in semver precedence, and none exactly when no version
    of the list meets the range.  Precedence is numeric on major, minor and
    patch, and a pre-release sorts below its release.  The two examples of
    the specification evaluate as stated. *)
Theorem maxSatisfying_is_greatest :
  (forall (versions : list string) (range : string) (r : Range),
     new_Range range = Js.Ret r ->
     match getMaxSatisfying versions range with
     | Js.Ret (Some v) =>
         In v versions /\ satisfiesVersion v range = true /\
         forall w, In w versions -> satisfiesVersion w range = true -> version_le w v
     | Js.Ret None => forall w, In w versions -> satisfiesVersion w range = false
     | Js.Throw => False
     end) /\
  (forall a b : SemVer,
     compare a b = Lt <->
     (major a < major b)%N \/
     (major a = major b /\ (minor a < minor b)%N) \/
     (major a = major b /\ minor a = minor b /\ (patch a < patch b)%N) \/
     (major a = major b /\ minor a = minor b /\ patch a = patch b /\
      comparePre a b = Lt)) /\
  (forall M m p tag tags,
     compare (mkSemVer M m p (tag :: tags)) (mkSemVer M m p []) = Lt) /\
  getMaxSatisfying ["1.2.0"; "1.3.0"; "2.0.0"] "^1.2.0" = Js.Ret (Some "1.3.0") /\
  getMaxSatisfying ["1.0.0"] "^2.0.0" = Js.Ret None.
Proof.
  split; [|split; [|split; [|split]]]; try reflexivity.
  - intros versions range r Hr.
    unfold getMaxSatisfying, maxSatisfying. rewrite Hr.
    pose proof (maxSatisfying_loop_invariant r versions [] None) as Hinv.
    simpl in Hinv. specialize (Hinv (fun w (H : False) => match H with end)).
    destruct (fold_left (maxSatisfying_step r) versions None) as [[v sv]|]; simpl in *.
    + destruct Hinv as (Hin & Htest & Hparse & Hmax).
      rewrite (satisfiesVersion_test range r v Hr). repeat split; auto.
      intros w Hw Hwt. rewrite (satisfiesVersion_test range r w Hr) in Hwt.
      destruct (Hmax w Hw Hwt) as (sw & Hsw & Hle).
      unfold version_le. now rewrite Hsw, Hparse.
    + intros w Hw. rewrite (satisfiesVersion_test range r w Hr). auto.
  - intros a b. unfold compare. split.
    + intros H. apply lex_Lt in H as [H|[H H']].
      * apply compareMain_Lt in H. tauto.
      * apply compareMain_eq in H. tauto.
    + intros H.
      assert (Hcases : compareMain a b = Lt \/ (compareMain a b = Eq /\ comparePre a b = Lt)).
      { destruct H as [H|[H|[H|(HM & Hm & Hp & H)]]].
        - left. apply compareMain_Lt. tauto.
        - left. apply compareMain_Lt. tauto.
        - left. apply compareMain_Lt. tauto.
        - right. split; auto. unfold compareMain. rewrite HM, Hm, Hp.
          now rewrite !N.compare_refl. }
      destruct Hcases as [->|[-> ->]]; reflexivity.
  - intros M m p tag tags. unfold compare, compareMain. simpl.
    now rewrite !N.compare_refl.
Qed.

(** C8, witness: the caret range of the specification's example. *)
Lemma maxSatisfying_is_greatest_witness :
  let versions := ["1.2.0"; "1.3.0"; "2.0.0"] in
  exists r,
    new_Range "^1.2.0" = Js.Ret r /\
    match getMaxSatisfying versions "^1.2.0" with
    | Js.Ret (Some v) =>
        In v versions /\ satisfiesVersion v "^1.2.0" = true /\
        forall w, In w versions -> satisfiesVersion w "^1.2.0" = true -> version_le w v
    | Js.Ret None => forall w, In w versions -> satisfiesVersion w "^1.2.0" = false
    | Js.Throw => False
    end.
Proof.
  intros versions. eexists. split; [reflexivity|].
  eapply (proj1 maxSatisfying_is_greatest versions "^1.2.0"). reflexivity.
Defined.

(** A pre-release is chosen only when the range names one of its version. *)
Example maxSatisfying_prerelease :
  getMaxSatisfying ["1.2.0"; "1.3.0-beta.1"] "^1.2.0" = Js.Ret (Some "1.2.0") /\
  getMaxSatisfying ["1.3.0-beta.1"; "1.3.0-beta.2"] ">=1.3.0-beta.1"
  = Js.Ret (Some "1.3.0-beta.2").
Proof. split; reflexivity. Qed.

End Oracle.

(* ===================================================================== *)
(** * Properties of the engine check *)
(* ===================================================================== *)

Section Engines.
Import Utils Types DetectConflicts DetectEnvironment Spec Samples.

(** C2, counterexample.  [^18.0.0] is not a [>=] range, and the simplified
    comparator of the environment report accepts Node 16.20.0 for it; the
    engine_mismatch check compares by semver and emits a record of severity
    error. *)
Lemma engine_check_compares_by_semver :
  Js.match_anchored false requiredMajorRe "^18.0.0" = None /\
  isNodeVersionSatisfied "16.20.0" "^18.0.0" = true /\
  map (fun r => (type r, severity r, package r))
      (run (detectEngineMismatch "v16.20.0" (manifest "app" None (Some "^18.0.0"))) ids 0)
  = [(engine_mismatch, error, "node")].
Proof. repeat split. Qed.

Lemma isNodeVersionSatisfied_other_syntax current required :
  match required with
  | String ">" _ => False
  | _ => True
  end ->
  isNodeVersionSatisfied current required = true.
Proof.
  intros H. unfold isNodeVersionSatisfied, Js.match_anchored.
  destruct required as [|c rest]; [reflexivity|].
  simpl. destruct (Ascii.eqb c ">") eqn:E; [|reflexivity].
  apply Ascii.eqb_eq in E. subst c. contradiction.
Qed.

Lemma string_app_nil_r s : (s ++ "")%string = s.
Proof. induction s as [|c s IH]; simpl; congruence. Qed.

Lemma string_app_assoc a b c : ((a ++ b) ++ c)%string = (a ++ (b ++ c))%string.
Proof. induction a as [|x a IH]; simpl; congruence. Qed.

(** [\d+] takes a whole run of digits. *)
Lemma digits_run ds : forall taken lo rest,
  forallb Js.is_digit (list_ascii_of_string ds) = true ->
  Js.starts_with_digit rest = false ->
  lo <= String.length ds ->
  Js.repeat_atom Js.is_digit (fun s => Some ([], s)) true taken lo (ds ++ rest)%string
  = Some ([(taken ++ ds)%string], rest).
Proof.
  induction ds as [|d ds IH]; intros taken lo rest Hall Hrest Hlo.
  - simpl in Hlo. assert (lo = 0) by lia. subst lo. rewrite string_app_nil_r.
    destruct rest as [|c rest]; simpl in *; [reflexivity|]. now rewrite Hrest.
  - simpl in Hall. apply andb_prop in Hall as [Hd Hall].
    cbn [append Js.repeat_atom]. rewrite Hd.
    rewrite IH by (simpl in Hlo; auto; lia).
    now rewrite string_app_assoc.
Qed.

Lemma digit_is_no_space c : Js.is_digit c = true -> Js.is_space c = false.
Proof.
  unfold Js.is_digit, Js.is_space. intros H.
  apply andb_prop in H as [H1 H2]. apply Nat.leb_le in H1, H2.
  destruct (nat_of_ascii c <=? 13)%nat eqn:E1; [apply Nat.leb_le in E1; lia|].
  destruct (nat_of_ascii c =? 32)%nat eqn:E2; [apply Nat.eqb_eq in E2; lia|].
  now rewrite andb_false_r.
Qed.

Lemma repeat_atom_miss ok k capture taken c s :
  ok c = false ->
  Js.repeat_atom ok k capture taken 0 (String c s)
  = Js.push_capture capture taken (k (String c s)).
Proof. intros H. simpl. now rewrite H. Qed.

(** [/^>=?\s*(\d+)/] on a text that starts with [>=] and goes on with
    digits. *)
Lemma requiredMajorRe_ge d ds rest :
  forallb Js.is_digit (list_ascii_of_string (String d ds)) = true ->
  Js.starts_with_digit rest = false ->
  Js.match_here false requiredMajorRe (">=" ++ String d ds ++ rest)%string
  = Some ([String d ds], rest).
Proof.
  intros Hall Hrest.
  assert (Hd : Js.is_digit d = true) by (simpl in Hall; now apply andb_prop in Hall).
  set (digits := [Js.mkItem Js.Digit Js.Plus true]).
  set (spaces := Js.mkItem Js.Space Js.Star false :: digits).
  change (Js.match_here false requiredMajorRe (">=" ++ String d ds ++ rest)%string)
    with (Js.push_capture false ">"
            match Js.push_capture false "=" (Js.match_here false spaces (String d (ds ++ rest)))
            with
            | Some r => Some r
            | None =>
                Js.push_capture false ""
                  (Js.match_here false spaces (String "=" (String d (ds ++ rest))))
            end).
  change (Js.match_here false spaces (String d (ds ++ rest)))
    with (Js.repeat_atom Js.is_space (Js.match_here false digits) false "" 0
            (String d (ds ++ rest))).
  rewrite repeat_atom_miss by (now apply digit_is_no_space).
  change (Js.match_here false digits (String d (ds ++ rest)))
    with (Js.repeat_atom Js.is_digit (fun s => Some ([], s)) true "" 1
            (String d ds ++ rest)%string).
  rewrite (digits_run (String d ds) "" 1 rest Hall Hrest) by (simpl; lia).
  reflexivity.
Qed.

Lemma parseInt_digits d ds :
  forallb Js.is_digit (list_ascii_of_string (String d ds)) = true ->
  Js.parseInt (String d ds) = Some (Z.of_N (Js.digits_value 0 (String d ds))).
Proof.
  intros Hall.
  assert (Hd : Js.is_digit d = true) by (simpl in Hall; now apply andb_prop in Hall).
  clear Hall.
  destruct d as [[] [] [] [] [] [] [] []];
    first [ discriminate Hd | reflexivity ].
Qed.

(** The simplified comparator on a range [>=N...]: the current major
    against N. *)
Lemma isNodeVersionSatisfied_ge current d ds rest :
  forallb Js.is_digit (list_ascii_of_string (String d ds)) = true ->
  Js.starts_with_digit rest = false ->
  isNodeVersionSatisfied current (">=" ++ String d ds ++ rest)%string
  = Js.num_ge (Js.parseInt (hd "" (Js.split "." current)))
              (Some (Z.of_N (Js.digits_value 0 (String d ds)))).
Proof.
  intros Hall Hrest.
  unfold isNodeVersionSatisfied, Js.match_anchored.
  rewrite (requiredMajorRe_ge d ds rest Hall Hrest).
  now rewrite (parseInt_digits d ds Hall).
Qed.

(** C2, as amended.  The engine_mismatch check compares the current runtime
    version with the declared engine range through [satisfiesVersion], the
    range semantics of the semver library: it emits one record, of severity
    error and for the package node, exactly when a non-empty range is
    declared and [satisfiesVersion] answers [false] (as it does for a
    malformed range), and no record otherwise.  The simplified comparator
    is [isNodeVersionSatisfied] of the environment report: it compares the
    current major with N for a range [>=N...] and accepts every range that
    does not start with [>]. *)
Theorem engine_mismatch_by_satisfiesVersion :
  forall (process_version : string) (packageJson : PackageJson)
         (ids : nat -> string) (n : nat),
    let current := PackageManager.getCurrentNodeVersion process_version in
    let found := run (detectEngineMismatch process_version packageJson) ids n in
    (forall required,
       enginesNode packageJson = Some required -> required <> "" ->
       satisfiesVersion current required = false ->
       exists r, found = [r] /\ type r = engine_mismatch /\ severity r = error /\
                 package r = "node") /\
    (found <> [] ->
     exists required,
       enginesNode packageJson = Some required /\ required <> "" /\
       satisfiesVersion current required = false) /\
    (forall required,
       enginesNode packageJson = Some required -> isValidRange required = false ->
       required <> "" -> found <> []) /\
    (forall current' required,
       match required with
       | String ">" _ => False
       | _ => True
       end ->
       isNodeVersionSatisfied current' required = true) /\
    (forall current' d ds rest,
       forallb Js.is_digit (list_ascii_of_string (String d ds)) = true ->
       Js.starts_with_digit rest = false ->
       isNodeVersionSatisfied current' (">=" ++ String d ds ++ rest)%string
       = Js.num_ge (Js.parseInt (hd "" (Js.split "." current')))
                   (Some (Z.of_N (Js.digits_value 0 (String d ds))))).
Proof.
  intros pv pj ids n current found. subst current found.
  unfold run, detectEngineMismatch.
  split; [|split; [|split; [|split]]].
  - intros required Hreq Hne Hsat. rewrite Hreq.
    assert (Ht : Js.truthy required = true).
    { unfold Js.truthy. destruct (String.eqb_spec required ""); [contradiction | reflexivity]. }
    rewrite Ht, Hsat. simpl. eexists. repeat split.
  - destruct (enginesNode pj) as [required|]; [|intros H; now contradiction H].
    unfold Js.truthy. destruct (String.eqb_spec required "") as [->|Hne]; simpl;
      [intros H; now contradiction H|].
    destruct (satisfiesVersion _ required) eqn:Hsat; simpl;
      [intros H; now contradiction H|].
    intros _. exists required. auto.
  - intros required Hreq Hbad Hne. rewrite Hreq.
    assert (Ht : Js.truthy required = true).
    { unfold Js.truthy. destruct (String.eqb_spec required ""); [contradiction | reflexivity]. }
    apply isValidRange_false in Hbad.
    rewrite Ht, (satisfiesVersion_malformed _ required Hbad). simpl. discriminate.
  - apply isNodeVersionSatisfied_other_syntax.
  - intros current' d ds rest. apply isNodeVersionSatisfied_ge.
Qed.

(** An engine requirement [>=18] and a runtime of major version 16: exactly
    one engine_mismatch record, of severity error; none for a runtime of
    major version 20. *)
Example engine_mismatch_sample :
  map (fun r => (type r, severity r))
      (run (detectEngineMismatch "v16.20.0" (manifest "app" None (Some ">=18"))) ids 0)
  = [(engine_mismatch, error)] /\
  run (detectEngineMismatch "v20.1.0" (manifest "app" None (Some ">=18"))) ids 0 = [].
Proof. split; reflexivity. Qed.

(** The simplified comparator on the same inputs, and on a range with a
    minor version that it does not look at. *)
Example isNodeVersionSatisfied_sample :
  isNodeVersionSatisfied "16.20.0" ">=18" = false /\
  isNodeVersionSatisfied "20.1.0" ">= 18" = true /\
  isNodeVersionSatisfied "18.0.0" ">=18.5.0" = true /\
  satisfiesVersion "18.0.0" ">=18.5.0" = false.
Proof. repeat split. Qed.

End Engines.

(* ===================================================================== *)
(** * Properties of the solution generator and its ranking *)
(* ===================================================================== *)

Section Ranking.
Import Utils Types SuggestSolutions SuggestSolutionsTool Samples.

(** C5, failing input.  The package constructor is not declared by the root
    manifest, which has dependencies, and the registry knows its latest
    version.  Reading [dependencies["constructor"]] gives the function that
    every object inherits under that name: the package counts as installed,
    [isMajorUpgrade] is called with the function as current version and
    throws, and suggest_solutions fails where the upgrade and the override
    were to be proposed.  Without a [dependencies] object in the manifest
    the same request is answered as for any other package. *)
Lemma inherited_name_is_not_suggested :
  let packageJson := manifest "app" (Some [("react", "^18.0.0")]) None in
  let bare := manifest "app" None None in
  let doc := {| dist_tags := [("latest", "1.0.0")] |} in
  let input := {| targetPackage := Some "constructor"; targetVersion := None;
                  strategy := None; constraints := None |} in
  Js.get "constructor" (Js.entries_opt (dependencies packageJson)) = None /\
  Js.get "constructor" (Js.entries_opt (devDependencies packageJson)) = None /\
  run (generatePackageSolutions (fun dir f => Js.cat [dir; "/"; f]) "constructor" None
         packageJson [] "npm" "balanced" {| allowMajorUpgrade := None |} (Some doc)) ids 0
  = Js.Throw /\
  run (suggestSolutions (fun dir f => Js.cat [dir; "/"; f]) input (Some packageJson)
         "npm" [] (Some doc)) ids 0
  = Js.Throw /\
  exists o,
    run (suggestSolutions (fun dir f => Js.cat [dir; "/"; f]) input (Some bare)
           "npm" [] (Some doc)) ids 0
    = Js.Ret o /\
    map (fun s => score (recommendation s)) (solutions o) = [90; 65].
Proof.
  intros packageJson bare doc input.
  split; [reflexivity|]. split; [reflexivity|]. split; [reflexivity|].
  split; [reflexivity|]. eexists. split; reflexivity.
Qed.

(** X28.  For a package name that no look-up in the root manifest finds
    (the manifest does not declare it and the name is not one that objects
    inherit, or the manifest has neither dependencies nor devDependencies)
    and whose latest published version is known, the generator proposes the
    upgrade to the latest version first, not breaking and with score 90, and
    a force-pin override with score 65; no candidate scores above 90; the
    comparison puts the upgrade at the head of the ranking, ahead of the
    override, and recommends it (by its identifier, when that is not the
    empty string). *)
Theorem upgrade_outranks_override :
  forall (path_join : string -> string -> string)
         (packageName : string) (targetVersion : option string)
         (packageJson : PackageJson) (workspaces : list WorkspaceInfo)
         (pm strategy : string) (constraints : Constraints)
         (doc : RegistryPackageDocument) (latest : string)
         (ids : nat -> string) (n : nat),
    lookup (dependencies packageJson) packageName = None ->
    lookup (devDependencies packageJson) packageName = None ->
    Js.get "latest" (dist_tags doc) = Some latest ->
    latest <> "" ->
    exists solutions up ov,
      run (generatePackageSolutions path_join packageName targetVersion packageJson
             workspaces pm strategy constraints (Some doc)) ids n
      = Js.Ret solutions /\
      hd_error solutions = Some up /\
      In ov solutions /\
      title up = Js.cat ["升级 "; packageName; " 到最新版本"] /\
      score (recommendation up) = 90 /\
      breakingChanges (compatibility up) = false /\
      map action (steps ov) = [override; regenerate_lock] /\
      score (recommendation ov) = 65 /\
      (forall s, In s solutions -> score (recommendation s) <= 90) /\
      (exists others,
         Js.sort_desc (fun r => Z.of_nat (row_recommendation r))
           (matrix (generateComparison solutions))
         = matrixRow up :: others /\
         In (matrixRow ov) others) /\
      sol_id up = ids n /\
      (sol_id up <> "" -> recommended (generateComparison solutions) = Some (sol_id up)).
Proof.
  intros path_join packageName targetVersion pj workspaces pm strategy constraints
         doc latest ids n Hdep Hdev Hlatest Hne.
  assert (Ht : Js.truthy latest = true).
  { unfold Js.truthy. destruct (String.eqb_spec latest ""); [contradiction | reflexivity]. }
  unfold generatePackageSolutions. rewrite Hdep, Hdev, Hlatest, Ht.
  unfold run, upgradeToLatest, upgradeToTarget, forceOverride, unifyWorkspaces.
  cbn [Js.or_property Js.truthy_property Js.own_string is_defined differs differs_read
       isMajorUpgradeCall isMajorUpgrade negb andb orb].
  destruct targetVersion as [target|];
    [destruct (Js.truthy target && differs (Some target) (Some latest))|];
    destruct (0 <? List.length workspaces)%nat;
    try destruct (1 <? List.length (findWorkspacesUsingPackage workspaces packageName))%nat;
    unfold bind_result, bind, ret, generateId; cbn [fst snd app];
    lazymatch goal with
    | |- context [Build_Solution ?a ?b ?c ?d ?e ?f ?g (Build_Recommendation 65 ?h) ?i] =>
        eexists; eexists; exists (Build_Solution a b c d e f g (Build_Recommendation 65 h) i)
    end;
    (split; [reflexivity|];
     split; [reflexivity|];
     split; [cbn [In]; repeat (first [left; reflexivity | right])|];
     split; [reflexivity|];
     split; [reflexivity|];
     split; [reflexivity|];
     split; [reflexivity|];
     split; [reflexivity|];
     split; [intros s Hs; cbn [In] in Hs;
             repeat (destruct Hs as [<-|Hs]; [cbn; lia|]); contradiction|];
     split; [eexists; split;
             [reflexivity | cbn [In]; repeat (first [left; reflexivity | right])]|];
     split; [reflexivity|];
     intros Hid; unfold generateComparison; cbn -[Js.cat Js.truthy];
     unfold Js.truthy; destruct (String.eqb_spec (ids n) ""); [contradiction | reflexivity]).
Qed.

(** X28, witness: lodash, installed only transitively, latest 4.17.21. *)
Lemma upgrade_outranks_override_witness :
  let packageJson := manifest "app" (Some [("react", "^18.0.0")]) None in
  let doc := {| dist_tags := [("latest", "4.17.21")] |} in
  lookup (dependencies packageJson) "lodash" = None /\
  lookup (devDependencies packageJson) "lodash" = None /\
  Js.get "latest" (dist_tags doc) = Some "4.17.21" /\
  exists solutions up ov,
    run (generatePackageSolutions (fun dir f => Js.cat [dir; "/"; f]) "lodash" None
           packageJson [] "npm" "balanced" {| allowMajorUpgrade := None |} (Some doc))
        ids 0
    = Js.Ret solutions /\
    hd_error solutions = Some up /\ In ov solutions /\
    score (recommendation up) = 90 /\ score (recommendation ov) = 65 /\
    recommended (generateComparison solutions) = Some (sol_id up).
Proof.
  intros packageJson doc.
  split; [reflexivity|]. split; [reflexivity|]. split; [reflexivity|].
  destruct (upgrade_outranks_override (fun dir f => Js.cat [dir; "/"; f]) "lodash" None
              packageJson [] "npm" "balanced" {| allowMajorUpgrade := None |} doc
              "4.17.21" ids 0 eq_refl eq_refl eq_refl)
    as (solutions & up & ov & Hrun & Hhd & Hin & _ & Hup & _ & _ & Hov & _ & _ & Hid & Hrec);
    [discriminate|].
  exists solutions, up, ov. repeat split; auto.
  apply Hrec. rewrite Hid. discriminate.
Defined.

End Ranking.

(* ===================================================================== *)
(** * Further properties of detect_conflicts *)
(* ===================================================================== *)

Section SummaryInvariants.
Import Utils Loops Types DetectConflicts DetectConflictsSchema Spec Notions.
Local Open Scope gen_scope.

Lemma length_by_severity (l : list ConflictIssue) :
  List.length l =
  List.length (filter (has_severity error) l)
  + List.length (filter (has_severity warning) l)
  + List.length (filter (has_severity info) l).
Proof.
  induction l as [|i l IH]; simpl; [reflexivity|].
  unfold has_severity in *. destruct (severity i); simpl; lia.
Qed.

Lemma sum_set (o : Js.object nat) k v :
  list_sum (map snd (Js.set k v o))
  + match Js.get k o with Some x => x | None => 0 end
  = list_sum (map snd o) + v.
Proof.
  induction o as [|[k' x] o IH]; simpl; [lia|].
  destruct (k' =? k); simpl; lia.
Qed.

Lemma sum_countType acc i :
  list_sum (map snd (countType acc i)) = S (list_sum (map snd acc)).
Proof.
  unfold countType.
  pose proof (sum_set acc (ConflictType_name (type i))
                (match Js.get (ConflictType_name (type i)) acc with
                 | Some k => k | None => 0 end + 1)) as H.
  lia.
Qed.

Lemma sum_fold_countType l : forall acc,
  list_sum (map snd (fold_left countType l acc)) = List.length l + list_sum (map snd acc).
Proof.
  induction l as [|i l IH]; intros acc; simpl; [reflexivity|].
  rewrite IH, sum_countType. lia.
Qed.

Lemma Forall_set {V : Type} (P : string * V -> Prop) (o : Js.object V) k v :
  (forall k' v', k' = k -> P (k', v') -> P (k', v)) ->
  P (k, v) -> Forall P o -> Forall P (Js.set k v o).
Proof.
  intros Hsame Hnew. induction 1 as [|[k' v'] o Hx Ho IH]; simpl.
  - repeat constructor. exact Hnew.
  - destruct (String.eqb_spec k' k); constructor; eauto.
Qed.

Lemma all_types_listed t : In t conflictTypes.
Proof. destruct t; cbn; tauto. Qed.

Lemma counted_fold l : forall acc,
  NoDup (keys acc) -> Forall counted acc ->
  NoDup (keys (fold_left countType l acc)) /\ Forall counted (fold_left countType l acc).
Proof.
  induction l as [|i l IH]; intros acc Hnd Hacc; simpl; [auto|].
  apply IH.
  - now apply NoDup_keys_set.
  - unfold countType. apply Forall_set; auto.
    + intros k' v' -> [_ Ht]. split; [simpl; lia | exact Ht].
    + split; [simpl; lia|]. exists (type i). split; [reflexivity | apply all_types_listed].
Qed.

(** X1.  The summary of a completed invocation is consistent with the
    issues it reports: the total is their number, the sum of the error,
    warning and info counts, and the sum of the per-type counts; byType has
    exactly one entry for each conflict type that occurs among the issues,
    under the name of the type and with the number of issues of that type,
    and no other entry: no key twice, never a zero count, and only names of
    the schema's conflict types as keys.  The invocation throws only when
    the manifest could not be read. *)
Theorem summary_counts_add_up :
  forall (input : DetectConflictsInput) (p : Project) (ids : nat -> string) (n : nat),
    match run (detectConflicts input p) ids n with
    | Js.Ret o =>
        let s := summary o in
        total s = List.length (issues o) /\
        total s = errors s + warnings s + infos s /\
        list_sum (map snd (byType s)) = total s /\
        (forall t,
           Js.get (ConflictType_name t) (byType s)
           = match List.length (of_type t (issues o)) with
             | 0 => None
             | S c => Some (S c)
             end) /\
        NoDup (keys (byType s)) /\
        Forall (fun kv => 0 < snd kv /\
                          exists t, fst kv = ConflictType_name t /\ In t conflictTypes)
               (byType s)
    | Js.Throw => root_packageJson p = None
    end.
Proof.
  intros input p ids n. unfold run, detectConflicts.
  destruct (root_packageJson p) as [pj|]; [|reflexivity].
  unfold bind, ret. destruct (collectIssues (checkTypes input) p pj ids n) as [l k].
  cbn [fst summarize summary total errors warnings infos byType issues].
  split; [reflexivity|].
  split; [apply length_by_severity|].
  split; [rewrite sum_fold_countType; simpl; lia|].
  split.
  - intros t. rewrite get_fold_countType. cbn [Js.get].
    now destruct (List.length (of_type t (filterBySeverity (severity_filter input) l))).
  - apply (counted_fold _ []); constructor.
Qed.

Lemma includes_In checkTypes t : includes checkTypes t = true -> In t checkTypes.
Proof.
  unfold includes. rewrite existsb_exists. intros (x & Hin & Heq).
  apply ConflictType_eqb_eq in Heq. now subst x.
Qed.

Lemma Forall_filterBySeverity (P : ConflictIssue -> Prop) f l :
  Forall P l -> Forall P (filterBySeverity f l).
Proof.
  intros H. destruct f; simpl; auto; apply Forall_forall; intros x Hx;
    apply filter_In in Hx; destruct Hx as [Hx _];
    rewrite Forall_forall in H; auto.
Qed.

Lemma guarded_types (b : bool) (m : Gen (list ConflictIssue)) checkTypes t ids n :
  In t checkedTypes ->
  (b = true -> includes checkTypes t = true) ->
  (forall ids n, Forall (fun i => type i = t) (fst (m ids n))) ->
  Forall (fun i => In (type i) checkTypes /\ In (type i) checkedTypes)
         (fst ((if b then m else ret []) ids n)).
Proof.
  intros Hin Hb Hm. destruct b; [|constructor].
  eapply Forall_impl; [|apply Hm]. intros i ->. split; auto using includes_In.
Qed.

(** X2.  Every record of an invocation has a conflict type that the
    caller listed in checkTypes, and one of the five types that have a
    check: version_conflict, deprecated and missing_dependency are accepted
    as input but never reported. *)
Theorem records_have_requested_types :
  forall (input : DetectConflictsInput) (p : Project) (ids : nat -> string) (n : nat),
    Forall (fun i => In (type i) (checkTypes input) /\
                     In (type i) [peer_dependency; multiple_versions; workspace_mismatch;
                                  override_risk; engine_mismatch])
           (issues_of (run (detectConflicts input p) ids n)).
Proof.
  intros input p ids n. unfold run, detectConflicts.
  destruct (root_packageJson p) as [pj|]; [|constructor].
  unfold bind, ret.
  destruct (collectIssues (checkTypes input) p pj ids n) as [l k] eqn:E.
  cbn [fst issues_of summarize issues].
  apply Forall_filterBySeverity.
  change l with (fst (l, k)). rewrite <- E. clear E l k.
  unfold collectIssues.
  match goal with
  | |- context [fst (Utils.bind ?m1 (fun _ => Utils.bind ?m2 (fun _ => Utils.bind ?m3
                  (fun _ => Utils.bind ?m4 (fun _ => Utils.bind ?m5 _)))) ids n)] =>
      destruct (chain5 m1 m2 m3 m4 m5 ids n) as (n1 & n2 & n3 & n4 & ->)
  end.
  repeat (apply Forall_app; split).
  - apply guarded_types with (t := peer_dependency);
      [cbn; tauto | auto | apply peer_issue_types].
  - apply guarded_types with (t := multiple_versions);
      [cbn; tauto | auto | apply multi_issue_types].
  - apply guarded_types with (t := workspace_mismatch);
      [cbn; tauto | | apply workspace_issue_types].
    intros H. now apply andb_prop in H.
  - apply guarded_types with (t := override_risk);
      [cbn; tauto | auto | apply override_issue_types].
  - apply guarded_types with (t := engine_mismatch); [cbn; tauto | auto |].
    intros ids0 n0.
    destruct (engine_issue_cases (process_version p) pj ids0 n0) as [->|(r & -> & Hr & _)];
      repeat constructor; auto.
Qed.

End SummaryInvariants.

Section PeerAndOverrideChecks.
Import Utils Loops Types DetectConflicts Spec.
Local Open Scope gen_scope.

Lemma peerWarningIssue_loop lines : forall ids n,
  map message (fst (for_push peerWarningIssue lines ids n)) = lines /\
  Forall (fun i => package i = "unknown" /\ severity i = warning /\
                   details i = no_details /\ affectedPaths i = [])
         (fst (for_push peerWarningIssue lines ids n)).
Proof.
  induction lines as [|x lines IH]; intros ids n.
  - split; [reflexivity | constructor].
  - rewrite for_push_cons. cbn [peerWarningIssue bind generateId ret fst snd app map].
    destruct (IH ids (S n)) as [Hm Hf]. split.
    + simpl. now rewrite Hm.
    + constructor; [repeat split | exact Hf].
Qed.

Lemma peerProblemIssue_line x ids n :
  if PeerNotions.namesMissingPeer x
  then exists r, peerProblemIssue x ids n = ([r], S n) /\ message r = x /\
                 severity r = warning
  else peerProblemIssue x ids n = ([], n).
Proof.
  unfold PeerNotions.namesMissingPeer, peerProblemIssue.
  destruct (Js.search false peerMissingRe x) as [[|w [|a [|b [|c [|d l]]]]]|];
    try reflexivity.
  eexists. split; [reflexivity|]. split; reflexivity.
Qed.

Lemma peerProblemIssue_loop lines : forall ids n,
  map message (fst (for_push peerProblemIssue lines ids n))
  = filter PeerNotions.namesMissingPeer lines /\
  Forall (fun i => severity i = warning) (fst (for_push peerProblemIssue lines ids n)).
Proof.
  induction lines as [|x lines IH]; intros ids n; [split; [reflexivity | constructor]|].
  rewrite for_push_cons. cbn [filter].
  pose proof (peerProblemIssue_line x ids n) as Hx.
  destruct (PeerNotions.namesMissingPeer x).
  - destruct Hx as (r & -> & Hm & Hs). cbn [fst snd app map].
    destruct (IH ids (S n)) as [Hm' Hs']. rewrite Hm, Hm'. split; [reflexivity|].
    now constructor.
  - rewrite Hx. cbn [fst snd app]. apply IH.
Qed.

(** X3.  Every listing command of the peer check ends in [2>&1], which
    has the shell send the error output to stdout, so that the check
    receives an empty error output.  It then reports nothing for a package
    manager other than npm, whatever the listing prints; for npm it reports
    one warning for each problem line that names a missing peer in the
    expected form, in the order of the lines and with the line as message,
    and nothing for any other problem line. *)
Theorem peer_issues_with_merged_output :
  forall (pm : string) (result : ExecResult) (ids : nat -> string) (n : nat),
    stderr result = "" ->
    let found := run (detectPeerDependencyIssues pm result) ids n in
    (pm <> "npm" -> found = []) /\
    (pm = "npm" ->
     map message found
     = filter PeerNotions.namesMissingPeer (PeerNotions.listedProblems result)) /\
    Forall (fun i => type i = peer_dependency /\ severity i = warning) found.
Proof.
  intros pm result ids n Herr found. subst found. unfold run.
  pose proof (peer_issue_types pm result ids n) as Htypes.
  assert (Hshape : fst (detectPeerDependencyIssues pm result ids n)
                   = if pm =? "npm"
                     then fst (for_push peerProblemIssue (PeerNotions.listedProblems result)
                                 ids n)
                     else []).
  { unfold detectPeerDependencyIssues, PeerNotions.listedProblems.
    rewrite Herr. cbn [Js.truthy String.eqb negb].
    destruct (peerListCommand pm) eqn:Ecmd.
    - destruct (pm =? "npm"); [|reflexivity].
      destruct (stdout_json result) as [[[ps|] deps]|]; cbn [problems];
        unfold bind, ret; try reflexivity.
      destruct (for_push peerProblemIssue ps ids n) as [l k]. cbn [fst snd].
      apply app_nil_r.
    - destruct (String.eqb_spec pm "npm") as [->|_]; [discriminate Ecmd | reflexivity]. }
  rewrite Hshape in *.
  destruct (String.eqb_spec pm "npm") as [->|Hpm].
  - pose proof (peerProblemIssue_loop (PeerNotions.listedProblems result) ids n) as [Hm Hs].
    split; [contradiction|]. split; [intros _; exact Hm|].
    apply Forall_forall. intros i Hi. rewrite Forall_forall in Htypes, Hs. auto.
  - split; [reflexivity|]. split; [contradiction | constructor].
Qed.

(** X3, witness: pnpm lists a tree, and npm two problems of which one
    names a missing peer. *)
Lemma peer_issues_with_merged_output_witness :
  let listing :=
    {| stdout_json :=
         Some {| problems :=
                   Some ["peer dep missing: react@^17.0.0, required by a@1.0.0";
                         "extraneous: left-pad@1.3.0 /repo/node_modules/left-pad"];
                 ls_dependencies := None |};
       stderr := "" |} in
  run (detectPeerDependencyIssues "pnpm" listing) Samples.ids 0 = [] /\
  map message (run (detectPeerDependencyIssues "npm" listing) Samples.ids 0)
  = ["peer dep missing: react@^17.0.0, required by a@1.0.0"].
Proof.
  intros listing. split.
  - exact (proj1 (peer_issues_with_merged_output "pnpm" listing Samples.ids 0 eq_refl)
             ltac:(discriminate)).
  - exact (proj1 (proj2 (peer_issues_with_merged_output "npm" listing Samples.ids 0 eq_refl))
             eq_refl).
Defined.

(** *** The package an override key names *)

Lemma split_aux_plain sep k : forall cur,
  ~ In sep (list_ascii_of_string k) ->
  Js.split_aux sep cur k = [(cur ++ k)%string].
Proof.
  induction k as [|c k IH]; intros cur Hk; simpl.
  - now rewrite string_app_nil_r.
  - destruct (Ascii.eqb_spec c sep) as [->|Hc].
    + exfalso. apply Hk. now left.
    + rewrite IH.
      * now rewrite string_app_assoc.
      * intros H. apply Hk. now right.
Qed.

Lemma split_aux_not_nil sep s : forall cur, Js.split_aux sep cur s <> [].
Proof.
  induction s as [|c s IH]; intros cur; simpl; [discriminate|].
  destruct (Ascii.eqb c sep); [discriminate | apply IH].
Qed.

Lemma last_cons_not_nil {A : Type} (x d : A) l : l <> [] -> last (x :: l) d = last l d.
Proof. destruct l; [contradiction | reflexivity]. Qed.

Lemma last_split_aux_app sep p k d : forall cur,
  last (Js.split_aux sep cur (p ++ String sep k)%string) d
  = last (Js.split_aux sep EmptyString k) d.
Proof.
  induction p as [|c p IH]; intros cur; simpl.
  - rewrite Ascii.eqb_refl. apply last_cons_not_nil, split_aux_not_nil.
  - destruct (Ascii.eqb c sep); [|apply IH].
    rewrite last_cons_not_nil by apply split_aux_not_nil. apply IH.
Qed.

Lemma overriddenPackage_plain k :
  ~ In ">"%char (list_ascii_of_string k) -> overriddenPackage k = k.
Proof.
  intros Hk. unfold overriddenPackage, Js.split. rewrite split_aux_plain by exact Hk.
  simpl. now destruct (Js.truthy k).
Qed.

Lemma overriddenPackage_nested parent k :
  k <> "" -> ~ In ">"%char (list_ascii_of_string k) ->
  overriddenPackage (Js.cat [parent; ">"; k]) = k.
Proof.
  intros Hne Hk. unfold overriddenPackage, Js.split, Js.cat. cbn [String.concat].
  change (parent ++ "" ++ ">" ++ "" ++ k)%string with (parent ++ String ">" k)%string.
  rewrite last_split_aux_app, split_aux_plain by exact Hk. simpl.
  unfold Js.truthy. now destruct (String.eqb_spec k "").
Qed.

Lemma overrideRisk_loop l : forall ids n i key forced,
  nth_error l i = Some (key, forced) ->
  List.length (fst (for_push overrideRiskIssue l ids n)) = List.length l /\
  exists r, nth_error (fst (for_push overrideRiskIssue l ids n)) i = Some r /\
            fst (overrideRiskIssue (key, forced) ids (n + i)) = [r].
Proof.
  assert (Hlen : forall l ids n,
             List.length (fst (for_push overrideRiskIssue l ids n)) = List.length l).
  { clear. induction l as [|[k f] l IH]; intros ids n; [reflexivity|].
    rewrite for_push_cons. cbn [overrideRiskIssue bind generateId ret fst snd app List.length].
    now rewrite IH. }
  induction l as [|[k f] l IH]; intros ids n i key forced Hi.
  - destruct i; discriminate.
  - split; [apply Hlen|].
    rewrite for_push_cons. cbn [overrideRiskIssue bind generateId ret fst snd app].
    destruct i as [|i]; simpl in Hi.
    + injection Hi as -> ->. rewrite Nat.add_0_r. eexists. split; reflexivity.
    + destruct (IH ids (S n) i key forced Hi) as [_ (r & Hr & Hmk)].
      exists r. split; [exact Hr|]. now rewrite <- Nat.add_succ_comm.
Qed.

(** X4.  The override check reports one info record for each entry of
    the flattened override map, in the order of the entries and without
    merging entries.  The record of an entry names the innermost package of
    its key: the key itself when it holds no [>], and the part after the
    last [>] of a nested key parent>k; it carries the whole key as its
    affected path and the forced version. *)
Theorem override_risk_names_innermost_package :
  forall (overrides : Js.object string) (pj : PackageJson) (ids : nat -> string)
         (n i : nat) (key k forced : string),
    nth_error overrides i = Some (key, forced) ->
    (key = k \/ exists parent, key = Js.cat [parent; ">"; k] /\ k <> "") ->
    ~ In ">"%char (list_ascii_of_string k) ->
    let found := run (detectOverrideRisks overrides pj) ids n in
    List.length found = List.length overrides /\
    exists r,
      nth_error found i = Some r /\
      type r = override_risk /\ severity r = info /\ package r = k /\
      affectedPaths r = [key] /\
      overrideRisk (details r)
      = Some {| or_package := k; forcedVersion := forced;
                originalRequirements := []; potentialBreaking := true |}.
Proof.
  intros overrides pj ids n i key k forced Hi Hkey Hk found. subst found.
  unfold run, detectOverrideRisks.
  destruct (overrideRisk_loop overrides ids n i key forced Hi) as [Hlen (r & Hr & Hmk)].
  split; [exact Hlen|]. exists r. split; [exact Hr|].
  assert (Hpkg : overriddenPackage key = k).
  { destruct Hkey as [->|(parent & -> & Hne)].
    - now apply overriddenPackage_plain.
    - now apply overriddenPackage_nested. }
  cbn [overrideRiskIssue bind generateId ret fst] in Hmk.
  injection Hmk as <-. cbn [type severity package affectedPaths details overrideRisk].
  rewrite Hpkg. repeat split.
Qed.

(** X4, witness: the nested override a > c, flattened by getOverrides. *)
Lemma override_risk_names_innermost_package_witness :
  let pj := {| name := "app"; version := "1.0.0";
               dependencies := None; devDependencies := None; engines := None;
               overrides := Some [("b", OvString "2.0.0");
                                  ("a", OvObject [("c", OvString "1.0.0")])];
               resolutions := None; pnpm := None |} in
  let overrides := PackageManager.getOverrides pj "npm" in
  let found := run (detectOverrideRisks overrides pj) Samples.ids 0 in
  nth_error overrides 1 = Some ("a>c", "1.0.0") /\
  List.length found = 2 /\
  exists r, nth_error found 1 = Some r /\ package r = "c" /\ affectedPaths r = ["a>c"].
Proof.
  intros pj overrides found.
  split; [reflexivity|].
  destruct (override_risk_names_innermost_package overrides pj Samples.ids 0 1
              "a>c" "c" "1.0.0" eq_refl)
    as [Hlen (r & Hr & _ & _ & Hp & Ha & _)].
  - right. exists "a". split; [reflexivity | discriminate].
  - simpl. intros [H|[]]. discriminate H.
  - split; [exact Hlen|]. exists r. auto.
Defined.

End PeerAndOverrideChecks.

(* ===================================================================== *)
(** * Further properties of suggest_solutions *)
(* ===================================================================== *)

Section RankingInGeneral.
Import Utils Loops Types SuggestSolutions SuggestSolutionsTool.
Local Open Scope gen_scope.

Lemma insert_desc_map {A B : Type} (f : A -> B) (key : B -> Z) x l :
  Js.insert_desc key (f x) (map f l) = map f (Js.insert_desc (fun a => key (f a)) x l).
Proof.
  induction l as [|y l IH]; simpl; [reflexivity|].
  destruct (key (f y) <=? key (f x))%Z; simpl; [reflexivity | now rewrite IH].
Qed.

Lemma sort_desc_map {A B : Type} (f : A -> B) (key : B -> Z) l :
  Js.sort_desc key (map f l) = map f (Js.sort_desc (fun a => key (f a)) l).
Proof.
  induction l as [|x l IH]; simpl; [reflexivity|].
  now rewrite IH, insert_desc_map.
Qed.

(** The head of the stable descending arrangement: the first element of
    greatest key. *)
Lemma sort_desc_head {A : Type} (key : A -> Z) (l : list A) :
  l <> [] ->
  exists earlier best later rest,
    l = earlier ++ best :: later /\
    Js.sort_desc key l = best :: rest /\
    (forall x, In x earlier -> (key x < key best)%Z) /\
    (forall x, In x later -> (key x <= key best)%Z).
Proof.
  induction l as [|x l IH]; intros Hne; [contradiction|].
  destruct l as [|y l].
  - exists [], x, [], []. repeat split; simpl; intros ? [].
  - destruct IH as (earlier & best & later & rest & Hl & Hs & He & Hl'); [discriminate|].
    cbn [Js.sort_desc] in *. rewrite Hs. cbn [Js.insert_desc].
    destruct (Z.leb_spec (key best) (key x)) as [Hle|Hlt].
    + exists [], x, (y :: l), (best :: rest). split; [reflexivity|]. split; [reflexivity|].
      split; [intros ? []|]. intros z Hz. rewrite Hl in Hz.
      apply in_app_or in Hz. destruct Hz as [Hz|[<-|Hz]].
      * specialize (He z Hz). lia.
      * exact Hle.
      * specialize (Hl' z Hz). lia.
    + exists (x :: earlier), best, later, (Js.insert_desc key x rest).
      split; [simpl; now rewrite Hl|]. split; [reflexivity|].
      split; [|exact Hl']. intros z [<-|Hz]; auto.
Qed.

(** X5.  The comparison lists the candidates in generation order and
    recommends the first candidate, in that order, among those of the
    highest score: every earlier candidate scores strictly less and no later
    candidate scores more.  The recommendation is the identifier of that
    candidate, or null when the identifier is the empty string; without
    candidates nothing is recommended and the reason says so. *)
Theorem comparison_recommends_first_best :
  forall solutions : list Solution,
    let c := generateComparison solutions in
    matrix c = map matrixRow solutions /\
    match solutions with
    | [] => recommended c = None /\ reason c = "无可用方案"
    | _ :: _ =>
        exists earlier best later,
          solutions = earlier ++ best :: later /\
          (forall s, In s earlier ->
                     score (recommendation s) < score (recommendation best)) /\
          (forall s, In s later ->
                     score (recommendation s) <= score (recommendation best)) /\
          recommended c = (if Js.truthy (sol_id best) then Some (sol_id best) else None)
    end.
Proof.
  intros solutions c. subst c. split; [reflexivity|].
  destruct solutions as [|s0 l]; [split; reflexivity|].
  destruct (sort_desc_head (fun s => Z.of_nat (row_recommendation (matrixRow s))) (s0 :: l))
    as (earlier & best & later & rest & Hl & Hs & He & Hl'); [discriminate|].
  exists earlier, best, later. split; [exact Hl|].
  split; [intros s Hin; specialize (He s Hin); simpl in He; lia|].
  split; [intros s Hin; specialize (Hl' s Hin); simpl in Hl'; lia|].
  unfold generateComparison. cbn [recommended].
  rewrite sort_desc_map, Hs. reflexivity.
Qed.

Lemma updateAllSolution_one pm ids k :
  exists c,
    updateAllSolution pm ids k = ([c], S k) /\
    sol_id c = ids k /\ score (recommendation c) = 40 /\ level (risk c) = high /\
    breakingChanges (compatibility c) = true.
Proof. eexists. split; [reflexivity|]. repeat split. Qed.

Lemma general_candidates pj ws pm strategy ids n :
  exists a b c,
    run (generateGeneralSolutions pj ws pm strategy) ids n
    = a :: b :: (if strategy =? "aggressive" then [c] else []) /\
    (sol_id a = ids n /\ score (recommendation a) = 95 /\ level (risk a) = low /\
     breakingChanges (compatibility a) = false /\
     map command (steps a) = [Some (getDedupeCommand pm)]) /\
    (sol_id b = ids (S n) /\ score (recommendation b) = 70 /\ level (risk b) = medium /\
     breakingChanges (compatibility b) = false) /\
    (sol_id c = ids (S (S n)) /\ score (recommendation c) = 40 /\ level (risk c) = high /\
     breakingChanges (compatibility c) = true).
Proof.
  destruct (updateAllSolution_one pm ids (S (S n))) as (c & Hc & Hprops).
  unfold run, generateGeneralSolutions, dedupeSolution, regenerateLockSolution, bind,
    generateId, ret.
  cbn [fst snd app].
  destruct (strategy =? "aggressive"); [rewrite Hc|]; cbn [fst snd app];
    eexists _, _, c; (split; [reflexivity|]); repeat split; apply Hprops.
Qed.

(** X6.  Without a target package (none given, or the empty string)
    suggest_solutions proposes the general candidates whatever the project:
    deduplication first (score 95, low risk, the dedupe command of the
    package manager), then regeneration of the lock file (70, medium), and
    the update of all dependencies (40, high risk, breaking) exactly when
    the strategy is "aggressive".  Deduplication is the recommended one, the
    reported target is null and there is no warning. *)
Theorem general_advice_recommends_dedupe :
  forall (path_join : string -> string -> string) (input : SuggestSolutionsInput)
         (packageJson : PackageJson) (pm : string) (workspaces : list WorkspaceInfo)
         (packageInfo : option RegistryPackageDocument) (ids : nat -> string) (n : nat),
    Js.truthy_opt (targetPackage input) = false ->
    exists o dedupeCandidate regenerate updateAll,
      run (suggestSolutions path_join input (Some packageJson) pm workspaces packageInfo)
          ids n = Js.Ret o /\
      solutions o
      = dedupeCandidate :: regenerate ::
        (if Js.or_default (strategy input) "balanced" =? "aggressive"
         then [updateAll] else []) /\
      (sol_id dedupeCandidate = ids n /\ score (recommendation dedupeCandidate) = 95 /\
       level (risk dedupeCandidate) = low /\
       breakingChanges (compatibility dedupeCandidate) = false /\
       map command (steps dedupeCandidate) = [Some (getDedupeCommand pm)]) /\
      (sol_id regenerate = ids (S n) /\ score (recommendation regenerate) = 70 /\
       level (risk regenerate) = medium /\
       breakingChanges (compatibility regenerate) = false) /\
      (sol_id updateAll = ids (S (S n)) /\ score (recommendation updateAll) = 40 /\
       level (risk updateAll) = high /\
       breakingChanges (compatibility updateAll) = true) /\
      recommended (comparison o) = (if Js.truthy (ids n) then Some (ids n) else None) /\
      out_targetPackage o = None /\
      warnings o = [].
Proof.
  intros path_join input pj pm ws info ids n Htarget.
  destruct (general_candidates pj ws pm (Js.or_default (strategy input) "balanced") ids n)
    as (a & b & c & Hrun & Ha & Hb & Hc).
  assert (Hsol :
    run (suggestSolutions path_join input (Some pj) pm ws info) ids n
    = Js.Ret
        (let sols := a :: b :: (if Js.or_default (strategy input) "balanced" =? "aggressive"
                                then [c] else []) in
         {| out_targetPackage := None; solutions := sols;
            comparison := generateComparison sols; warnings := [] |})).
  { unfold run in *. unfold suggestSolutions. cbv zeta. unfold Js.or_else. rewrite Htarget.
    destruct (targetPackage input) as [t|]; cbn [Js.truthy_opt] in Htarget;
      [rewrite Htarget|]; unfold bind_result, bind, ret;
      destruct (generateGeneralSolutions pj ws pm _ ids n) as [sols k];
      cbn [fst] in Hrun; subst sols; reflexivity. }
  eexists _, a, b, c. split; [exact Hsol|]. cbn [solutions comparison out_targetPackage warnings].
  split; [reflexivity|]. split; [exact Ha|]. split; [exact Hb|]. split; [exact Hc|].
  split; [|split; reflexivity].
  destruct Ha as (Hida & Hsa & _). destruct Hb as (_ & Hsb & _). destruct Hc as (_ & Hsc & _).
  clear Hsol Hrun.
  destruct a as [ida ? ? ? ? ? ? [sa ?] ?], b as [idb ? ? ? ? ? ? [sb ?] ?],
    c as [idc ? ? ? ? ? ? [sc ?] ?].
  cbn [sol_id score recommendation] in *. subst ida sa sb sc.
  unfold generateComparison. cbn [recommended].
  now destruct (Js.or_default (strategy input) "balanced" =? "aggressive").
Qed.

(** X6, witness: the balanced default and an empty target. *)
Lemma general_advice_recommends_dedupe_witness :
  let input := {| targetPackage := Some ""; targetVersion := None;
                  strategy := None; constraints := None |} in
  exists o,
    run (suggestSolutions (fun dir f => Js.cat [dir; "/"; f]) input
           (Some (Samples.manifest "app" None None)) "pnpm" [] None) Samples.ids 0
    = Js.Ret o /\
    map (fun s => score (recommendation s)) (solutions o) = [95; 70] /\
    recommended (comparison o) = Some "id0" /\
    warnings o = [].
Proof.
  intros input.
  destruct (general_advice_recommends_dedupe (fun dir f => Js.cat [dir; "/"; f]) input
              (Samples.manifest "app" None None) "pnpm" [] None Samples.ids 0 eq_refl)
    as (o & a & b & c & Hrun & Hsol & (_ & Ha & _) & (_ & Hb & _) & _ & Hrec & _ & Hw).
  exists o. split; [exact Hrun|]. split; [|split; [exact Hrec | exact Hw]].
  rewrite Hsol. simpl. now rewrite Ha, Hb.
Defined.

(** The generator throws only on a current version that was inherited. *)
Lemma generatePackageSolutions_throws path_join pkg tv pj ws pm strategy c info ids n :
  fst (generatePackageSolutions path_join pkg tv pj ws pm strategy c info ids n) = Js.Throw ->
  Js.or_property (lookup (dependencies pj) pkg) (lookup (devDependencies pj) pkg)
  = Some Js.Inherited.
Proof.
  unfold generatePackageSolutions. cbv zeta.
  set (current := Js.or_property _ _).
  set (latest := match info with Some doc => Js.get "latest" (dist_tags doc) | None => None end).
  destruct current as [[s|]|]; [|reflexivity|]; intros H; exfalso; revert H;
    unfold bind_result, bind, ret, upgradeToLatest, upgradeToTarget, isMajorUpgradeCall,
      forceOverride, unifyWorkspaces, generateId;
    destruct latest as [l|]; destruct tv as [t|];
    repeat match goal with
           | |- context [if ?b then _ else _] => destruct b
           end;
    cbn [fst snd]; discriminate.
Qed.

Lemma inherited_current pj pkg :
  Js.or_property (lookup (dependencies pj) pkg) (lookup (devDependencies pj) pkg)
  = Some Js.Inherited ->
  Js.inherited pkg = true /\ (dependencies pj <> None \/ devDependencies pj <> None).
Proof.
  unfold Js.or_property, lookup, Js.read.
  destruct (dependencies pj) as [deps|], (devDependencies pj) as [dev|];
    repeat match goal with
           | |- context [Js.get ?k ?o] => destruct (Js.get k o)
           end;
    destruct (Js.inherited pkg); cbn; try discriminate;
    repeat match goal with
           | |- context [Js.truthy ?x] => destruct (Js.truthy x)
           end;
    try discriminate; intros _; split; auto; first [left; discriminate | right; discriminate].
Qed.

(** X7.  suggest_solutions throws when the manifest cannot be read, and
    otherwise only when the target package bears a name that every object
    inherits (such as constructor) and the manifest has a dependencies or a
    devDependencies object.  When it answers, it warns exactly when it has
    no candidate to offer, with the one warning line, and then recommends
    nothing; the matrix has one row for each candidate, and the reported
    target is the requested package, or null for none or the empty
    string. *)
Theorem no_candidate_is_warned :
  forall (path_join : string -> string -> string) (input : SuggestSolutionsInput)
         (packageJson : option PackageJson) (pm : string)
         (workspaces : list WorkspaceInfo)
         (packageInfo : option RegistryPackageDocument) (ids : nat -> string) (n : nat),
    match run (suggestSolutions path_join input packageJson pm workspaces packageInfo)
              ids n with
    | Js.Throw =>
        packageJson = None \/
        exists pj package,
          packageJson = Some pj /\ targetPackage input = Some package /\
          Js.inherited package = true /\
          (dependencies pj <> None \/ devDependencies pj <> None)
    | Js.Ret o =>
        packageJson <> None /\
        warnings o
        = (match solutions o with
           | [] => ["未能生成任何解决方案，项目可能已处于最佳状态"]
           | _ :: _ => []
           end) /\
        (solutions o = [] -> recommended (comparison o) = None) /\
        List.length (matrix (comparison o)) = List.length (solutions o) /\
        out_targetPackage o
        = (if Js.truthy_opt (targetPackage input) then targetPackage input else None)
    end.
Proof.
  intros path_join input [pj|] pm ws info ids n; [|left; reflexivity].
  unfold run, suggestSolutions. cbv zeta. unfold bind_result.
  match goal with |- context [?m ids n] =>
    match type of m with Gen (Js.result (list Solution)) =>
      destruct (m ids n) as [[sols|] k] eqn:E end end.
  - unfold ret. cbn [fst solutions warnings comparison out_targetPackage].
    split; [discriminate|]. split; [now destruct sols|].
    split; [intros ->; reflexivity|]. split; [|reflexivity].
    unfold generateComparison. cbn [matrix]. apply length_map.
  - cbn [fst]. right.
    destruct (targetPackage input) as [package|];
      [destruct (Js.truthy package)|];
      try (unfold bind, ret in E;
           destruct (generateGeneralSolutions pj ws pm _ ids n); discriminate E).
    exists pj, package. split; [reflexivity|]. split; [reflexivity|].
    apply inherited_current.
    apply (generatePackageSolutions_throws path_join package (targetVersion input) pj ws pm
             (Js.or_default (strategy input) "balanced")
             match constraints input with
             | Some c => c
             | None => {| allowMajorUpgrade := None |}
             end info ids n).
    now rewrite E.
Qed.

(** For a name that objects do not inherit, the members that the generator
    finds are those whose manifest declares the package. *)
Lemma findWorkspaces_declaring workspaces package :
  Js.inherited package = false ->
  findWorkspacesUsingPackage workspaces package = Spec.membersDeclaring workspaces package.
Proof.
  intros Hown. unfold findWorkspacesUsingPackage, Spec.membersDeclaring.
  apply filter_ext. intros ws. unfold Js.read.
  change (Js.spread2 (dependencies (packageJson ws)) (devDependencies (packageJson ws)))
    with (DetectConflicts.allDeps ws).
  rewrite get_allDeps, Hown. now destruct (Spec.requirementOf ws package).
Qed.

(** X8.  For a target package of which the registry tells no latest
    version, with no target version given and fewer than two workspace
    members declaring the package, suggest_solutions has nothing to offer: no
    candidate, an empty matrix, no recommendation, and the warning.  This is
    so for a package name that objects do not inherit; a name such as
    constructor is read from every member. *)
Theorem unknown_package_yields_no_candidate :
  forall (path_join : string -> string -> string) (input : SuggestSolutionsInput)
         (packageJson : PackageJson) (pm : string) (workspaces : list WorkspaceInfo)
         (packageInfo : option RegistryPackageDocument) (ids : nat -> string) (n : nat)
         (package : string),
    targetPackage input = Some package ->
    package <> "" ->
    Js.inherited package = false ->
    match packageInfo with
    | Some doc => Js.get "latest" (dist_tags doc)
    | None => None
    end = None ->
    Js.truthy_opt (targetVersion input) = false ->
    List.length (Spec.membersDeclaring workspaces package) <= 1 ->
    run (suggestSolutions path_join input (Some packageJson) pm workspaces packageInfo)
        ids n
    = Js.Ret {| out_targetPackage := Some package;
                solutions := [];
                comparison := {| matrix := []; recommended := None;
                                 reason := "无可用方案" |};
                warnings := ["未能生成任何解决方案，项目可能已处于最佳状态"] |}.
Proof.
  intros path_join input pj pm ws info ids n package Htarget Hne Hown Hlatest Hversion Hws.
  unfold run, suggestSolutions. cbv zeta. rewrite Htarget.
  assert (Htruthy : Js.truthy package = true).
  { unfold Js.truthy. now destruct (String.eqb_spec package ""). }
  rewrite Htruthy. unfold generatePackageSolutions. cbv zeta. rewrite Hlatest.
  set (current := Js.or_property (lookup (dependencies pj) package)
                    (lookup (devDependencies pj) package)).
  assert (H2 : match targetVersion input with
               | Some target =>
                   if Js.truthy target && differs (targetVersion input) None
                   then upgradeToTarget package current target (is_defined current)
                          (is_defined (lookup (devDependencies pj) package)) pm
                   else ret (Js.Ret [])
               | None => ret (Js.Ret [])
               end = ret (Js.Ret [])).
  { destruct (targetVersion input) as [t|]; [|reflexivity].
    simpl in Hversion. now rewrite Hversion. }
  rewrite H2.
  assert (H4 : (1 <? List.length (findWorkspacesUsingPackage ws package))%nat = false).
  { rewrite findWorkspaces_declaring by exact Hown. apply Nat.ltb_ge. exact Hws. }
  rewrite H4. destruct (0 <? List.length ws)%nat; unfold bind_result, bind, ret; cbn;
    unfold Js.or_else; cbn; now rewrite Htruthy.
Qed.

(** X8, witness: the registry cannot be reached for left-pad. *)
Lemma unknown_package_yields_no_candidate_witness :
  let input := {| targetPackage := Some "left-pad"; targetVersion := None;
                  strategy := Some "conservative"; constraints := None |} in
  run (suggestSolutions (fun dir f => Js.cat [dir; "/"; f]) input
         (Some (Samples.manifest "app" (Some [("left-pad", "^1.3.0")]) None)) "npm"
         [Samples.member "A" [("left-pad", "^1.3.0")]] None) Samples.ids 0
  = Js.Ret {| out_targetPackage := Some "left-pad";
              solutions := [];
              comparison := {| matrix := []; recommended := None;
                               reason := "无可用方案" |};
              warnings := ["未能生成任何解决方案，项目可能已处于最佳状态"] |}.
Proof.
  intros input.
  apply (unknown_package_yields_no_candidate (fun dir f => Js.cat [dir; "/"; f]) input
           (Samples.manifest "app" (Some [("left-pad", "^1.3.0")]) None) "npm"
           [Samples.member "A" [("left-pad", "^1.3.0")]] None Samples.ids 0 "left-pad");
    [reflexivity | discriminate | reflexivity | reflexivity | reflexivity | simpl; lia].
Defined.

End RankingInGeneral.

Section MajorUpgrade.
Import Utils Types SuggestSolutions.

Lemma digits_run_uncaptured ds : forall taken lo rest,
  forallb Js.is_digit (list_ascii_of_string ds) = true ->
  Js.starts_with_digit rest = false ->
  lo <= String.length ds ->
  Js.repeat_atom Js.is_digit (fun s => Some ([], s)) false taken lo (ds ++ rest)%string
  = Some ([], rest).
Proof.
  induction ds as [|d ds IH]; intros taken lo rest Hall Hrest Hlo.
  - simpl in Hlo. assert (lo = 0) by lia. subst lo.
    destruct rest as [|c rest]; simpl in *; [reflexivity|]. now rewrite Hrest.
  - simpl in Hall. apply andb_prop in Hall as [Hd Hall].
    cbn [append Js.repeat_atom]. rewrite Hd.
    now rewrite IH by (simpl in Hlo; auto; lia).
Qed.

Lemma matched_app a rest : Js.matched (a ++ rest) rest = a.
Proof.
  unfold Js.matched.
  assert (Hlen : forall x y, String.length (x ++ y) = String.length x + String.length y).
  { induction x as [|c x IH]; intros y; simpl; [reflexivity | now rewrite IH]. }
  rewrite Hlen, Nat.add_sub.
  induction a as [|c a IH]; simpl.
  - now destruct rest.
  - now rewrite IH.
Qed.

Lemma digitsRe_miss c s :
  Js.is_digit c = false -> Js.match_here false digitsRe (String c s) = None.
Proof. intros H. simpl. now rewrite H. Qed.

(** [/\d+/] finds the first run of digits. *)
Lemma search_digitsRe p d ds rest :
  forallb (fun c => negb (Js.is_digit c)) (list_ascii_of_string p) = true ->
  forallb Js.is_digit (list_ascii_of_string (String d ds)) = true ->
  Js.starts_with_digit rest = false ->
  Js.search false digitsRe (p ++ String d ds ++ rest) = Some [String d ds].
Proof.
  intros Hp Hall Hrest. induction p as [|c p IH].
  - change (Js.search false digitsRe ("" ++ String d ds ++ rest))
      with (match Js.repeat_atom Js.is_digit (fun s => Some ([], s)) false "" 1
                    (String d ds ++ rest)%string with
            | Some (caps, rest') => Some (Js.matched (String d ds ++ rest) rest' :: caps)
            | None => Js.search false digitsRe (ds ++ rest)
            end).
    rewrite (digits_run_uncaptured (String d ds) "" 1 rest Hall Hrest) by (simpl; lia).
    now rewrite matched_app.
  - simpl in Hp. apply andb_prop in Hp as [Hc Hp]. apply negb_true_iff in Hc.
    change (Js.search false digitsRe (String c p ++ String d ds ++ rest))
      with (match Js.match_here false digitsRe (String c (p ++ String d ds ++ rest)) with
            | Some (caps, rest') =>
                Some (Js.matched (String c (p ++ String d ds ++ rest)) rest' :: caps)
            | None => Js.search false digitsRe (p ++ String d ds ++ rest)
            end).
    rewrite digitsRe_miss by exact Hc. now apply IH.
Qed.

Lemma num_gt_irrefl x : Js.num_gt x x = false.
Proof. destruct x as [z|]; simpl; [apply Z.ltb_irrefl | reflexivity]. Qed.

Lemma parseInt_number_digits d ds :
  forallb Js.is_digit (list_ascii_of_string (String d ds)) = true ->
  Js.parseInt_number (String d ds)
  = Some (Js.nearest_double (Z.of_N (Js.digits_value 0 (String d ds)))).
Proof. intros H. unfold Js.parseInt_number. now rewrite (parseInt_digits d ds H). Qed.

Lemma nearest_double_exact z : (0 <= z < 2 ^ 53)%Z -> Js.nearest_double z = z.
Proof.
  intros [Hlo Hhi]. unfold Js.nearest_double, Js.round_to_double.
  rewrite Z.abs_eq by exact Hlo.
  destruct (Z.ltb_spec z (2 ^ 53)) as [_|Hge]; [|lia].
  destruct (Z.eq_dec z 0) as [->|Hz]; [reflexivity|].
  rewrite Z.sgn_pos by lia. lia.
Qed.

(** A run of digits denotes a number below ten to its length. *)
Lemma digits_value_bound s : forall acc,
  (Js.digits_value acc s < (acc + 1) * 10 ^ N.of_nat (String.length s))%N.
Proof.
  induction s as [|c s IH]; intros acc.
  - cbn. lia.
  - cbn [Js.digits_value String.length]. rewrite Nat2N.inj_succ, N.pow_succ_r'.
    destruct (Js.is_digit c) eqn:Hc.
    + specialize (IH (10 * acc + Js.digit_val c)%N).
      assert (Hd : (Js.digit_val c <= 9)%N).
      { unfold Js.is_digit in Hc. apply andb_prop in Hc as [_ Hc].
        apply Nat.leb_le in Hc. unfold Js.digit_val.
        unfold nat_of_ascii in Hc. lia. }
      assert (Hp : (0 < 10 ^ N.of_nat (String.length s))%N)
        by (apply N.neq_0_lt_0, N.pow_nonzero; discriminate).
      nia.
    + assert (Hp : (0 < 10 ^ N.of_nat (String.length s))%N)
        by (apply N.neq_0_lt_0, N.pow_nonzero; discriminate).
      nia.
Qed.

Lemma short_run_exact s :
  String.length s <= 15 ->
  Js.nearest_double (Z.of_N (Js.digits_value 0 s)) = Z.of_N (Js.digits_value 0 s).
Proof.
  intros Hlen. apply nearest_double_exact. split; [apply N2Z.is_nonneg|].
  pose proof (digits_value_bound s 0) as Hb.
  assert (Hp : (10 ^ N.of_nat (String.length s) <= 10 ^ 15)%N).
  { apply N.pow_le_mono_r; [discriminate | lia]. }
  assert (Hv : (Js.digits_value 0 s < 10 ^ 15)%N) by lia.
  apply N2Z.inj_lt in Hv. change (Z.of_N (10 ^ 15)) with 1000000000000000%Z in Hv.
  assert (1000000000000000 < 2 ^ 53)%Z by reflexivity. lia.
Qed.

(** X9.  isMajorUpgrade compares the first run of digits of each text,
    whatever stands before it and whatever follows: a range operator in
    front of the current requirement does not count, and neither do the
    minor and patch numbers.  The runs are compared as the numbers that
    parseInt returns, that is, rounded to doubles; for runs of at most 15
    digits these are the decimal numbers themselves.  isMajorUpgrade answers
    false when the current requirement is absent, and for a version against
    itself. *)
Theorem major_upgrade_compares_first_numbers :
  forall (before1 after1 before2 after2 : string) (d1 d2 : ascii) (ds1 ds2 : string),
    forallb (fun c => negb (Js.is_digit c)) (list_ascii_of_string before1) = true ->
    forallb Js.is_digit (list_ascii_of_string (String d1 ds1)) = true ->
    Js.starts_with_digit after1 = false ->
    forallb (fun c => negb (Js.is_digit c)) (list_ascii_of_string before2) = true ->
    forallb Js.is_digit (list_ascii_of_string (String d2 ds2)) = true ->
    Js.starts_with_digit after2 = false ->
    let current := Z.of_N (Js.digits_value 0 (String d1 ds1)) in
    let wanted := Z.of_N (Js.digits_value 0 (String d2 ds2)) in
    let answer :=
      isMajorUpgrade (Some (before1 ++ String d1 ds1 ++ after1)%string)
                     (before2 ++ String d2 ds2 ++ after2)%string in
    answer = (Js.nearest_double current <? Js.nearest_double wanted)%Z /\
    (String.length (String d1 ds1) <= 15 -> String.length (String d2 ds2) <= 15 ->
     answer = (current <? wanted)%Z) /\
    (forall to, isMajorUpgrade None to = false) /\
    (forall v, isMajorUpgrade (Some v) v = false).
Proof.
  intros before1 after1 before2 after2 d1 d2 ds1 ds2 Hb1 Hd1 Ha1 Hb2 Hd2 Ha2
         current wanted answer.
  assert (Hanswer : answer
                    = (Js.nearest_double current <? Js.nearest_double wanted)%Z).
  { subst answer. unfold isMajorUpgrade.
    assert (Ht : Js.truthy (before1 ++ String d1 ds1 ++ after1) = true)
      by (now destruct before1).
    rewrite Ht. cbn [negb].
    rewrite (search_digitsRe before1 d1 ds1 after1 Hb1 Hd1 Ha1).
    rewrite (search_digitsRe before2 d2 ds2 after2 Hb2 Hd2 Ha2).
    rewrite (parseInt_number_digits d1 ds1 Hd1), (parseInt_number_digits d2 ds2 Hd2).
    reflexivity. }
  split; [exact Hanswer|]. split; [|split].
  - intros H1 H2. rewrite Hanswer. subst current wanted.
    now rewrite (short_run_exact _ H1), (short_run_exact _ H2).
  - reflexivity.
  - intros v. unfold isMajorUpgrade. destruct (negb (Js.truthy v)); [reflexivity|].
    destruct (Js.search false digitsRe v) as [[|m l]|]; try reflexivity.
    apply num_gt_irrefl.
Qed.

(** X9, witness: from the caret range ^1.9.0 to version 2.0.0, and from
    ^0.9.0 to 0.10.0. *)
Lemma major_upgrade_compares_first_numbers_witness :
  isMajorUpgrade (Some "^1.9.0") "2.0.0" = true /\
  isMajorUpgrade (Some "^0.9.0") "0.10.0" = false.
Proof.
  split.
  - exact (proj1 (major_upgrade_compares_first_numbers "^" ".9.0" "" ".0.0" "1" "2" "" ""
                    eq_refl eq_refl eq_refl eq_refl eq_refl eq_refl)).
  - exact (proj1 (major_upgrade_compares_first_numbers "^" ".9.0" "" ".10.0" "0" "0" "" ""
                    eq_refl eq_refl eq_refl eq_refl eq_refl eq_refl)).
Defined.

(** Beyond 2^53 the comparison is that of the rounded numbers: 2^53 + 1 is
    read as 2^53, and 2^53 + 3 as 2^53 + 4. *)
Example major_upgrade_rounds :
  isMajorUpgrade (Some "9007199254740992") "9007199254740993" = false /\
  isMajorUpgrade (Some "9007199254740993") "9007199254740994" = true /\
  Js.nearest_double 9007199254740995 = 9007199254740996%Z /\
  Js.nearest_double (10 ^ 23) = 99999999999999991611392%Z /\
  Js.nearest_double (2 ^ 1024 - 2 ^ 970 - 1) = (2 ^ 1024 - 2 ^ 971)%Z /\
  Js.nearest_double (2 ^ 1024 - 2 ^ 970) = (2 ^ 1024)%Z.
Proof. repeat split; vm_compute; reflexivity. Qed.

End MajorUpgrade.

(* ===================================================================== *)
(** * Properties of the string utilities *)
(* ===================================================================== *)

Section Truncation.
Import StringUtils.

Lemma string_length_app a b :
  String.length (a ++ b) = String.length a + String.length b.
Proof. induction a as [|c a IH]; simpl; [reflexivity | now rewrite IH]. Qed.

Lemma string_length_substring0 n : forall s,
  String.length (substring 0 n s) = Nat.min n (String.length s).
Proof.
  induction n as [|n IH]; intros [|c s]; simpl; try reflexivity.
  now rewrite IH.
Qed.

(** X10.  truncate leaves a text of at most maxLength characters as it
    is.  A longer text is cut to exactly maxLength characters, the last three
    being the dots, when maxLength is at least 3; for a smaller maxLength the
    result is longer than maxLength. *)
Theorem truncate_fits_from_three :
  forall (str : string) (maxLength : Z),
    let len s := Z.of_nat (String.length s) in
    if (len str <=? maxLength)%Z then truncate str maxLength = str
    else if (3 <=? maxLength)%Z then
      truncate str maxLength
      = (substring 0 (Z.to_nat (maxLength - 3)) str ++ "...")%string /\
      len (truncate str maxLength) = maxLength
    else (maxLength < len (truncate str maxLength))%Z.
Proof.
  intros str m len. subst len. unfold truncate.
  destruct (Z.leb_spec (Z.of_nat (String.length str)) m) as [Hshort|Hlong]; [reflexivity|].
  unfold slice0.
  destruct (Z.leb_spec 3 m) as [H3|H3].
  - destruct (Z.ltb_spec (m - 3) 0) as [Hneg|_]; [lia|].
    rewrite Z.min_l by lia. split; [reflexivity|].
    rewrite string_length_app, string_length_substring0. simpl. lia.
  - rewrite string_length_app. simpl. lia.
Qed.

End Truncation.

(* ===================================================================== *)
(** * Properties of the package manager detector *)
(* ===================================================================== *)

Section Detection.
Import Detector.

Variable path_join : string -> string -> string.
Variable fileExists : string -> bool.
Variable readJsonFile : string -> option Manifest.
Variable readTextFile : string -> option string.
Variable execCommand : string -> string -> CommandResult.
Variable parseYaml : string -> Js.result PnpmWorkspace.
Variable glob : string -> string -> list string.

Lemma find_lock_file (exists_ : string -> bool) pm f :
  find (fun entry : PackageManagerName * string => exists_ (snd entry)) LOCK_FILES_entries
  = Some (pm, f) ->
  f = LOCK_FILES pm /\ exists_ f = true.
Proof.
  intros H. apply find_some in H. destruct H as [Hin Hex]. split; [|exact Hex].
  cbn in Hin. destruct Hin as [H|[H|[H|[]]]]; injection H as <- <-; reflexivity.
Qed.

(** X11.  Whatever the project, the package manager reported is one of
    npm, pnpm and yarn, and a lock file is reported only if it is the lock
    file of that manager and exists in the project directory; its path is
    then the project path joined with it, and no path is reported without a
    lock file. *)
Theorem reported_lock_file_belongs_and_exists :
  forall projectPath : string,
    let info := detectPackageManager path_join fileExists readJsonFile execCommand
                  projectPath in
    match lockFile info with
    | Some f =>
        f = LOCK_FILES (name info) /\
        fileExists (path_join projectPath f) = true /\
        lockFilePath info = Some (path_join projectPath f)
    | None => lockFilePath info = None
    end.
Proof.
  intros projectPath info. subst info. unfold detectPackageManager.
  destruct (match readJsonFile (path_join projectPath "package.json") with
            | Some m => _
            | None => None
            end) as [[pm v]|].
  - cbn [lockFile lockFilePath name].
    destruct (fileExists (path_join projectPath (LOCK_FILES pm))) eqn:E; auto.
  - unfold firstLockFile.
    destruct (find _ LOCK_FILES_entries) as [[pm f]|] eqn:E; cbn; [|reflexivity].
    apply (find_lock_file (fun f => fileExists (path_join projectPath f))) in E.
    destruct E as [-> E]. auto.
Qed.

Lemma run_to_end (ok : ascii -> bool) v : forall taken lo,
  forallb ok (list_ascii_of_string v) = true ->
  lo <= String.length v ->
  Js.repeat_atom ok (fun s => Some ([], s)) true taken lo v = Some ([(taken ++ v)%string], "").
Proof.
  induction v as [|c v IH]; intros taken lo Hall Hlo.
  - simpl in Hlo. assert (lo = 0) by lia. subst lo. simpl. now rewrite string_app_nil_r.
  - simpl in Hall. apply andb_prop in Hall as [Hc Hall].
    cbn [Js.repeat_atom]. rewrite Hc.
    rewrite IH by (simpl in Hlo; auto; lia).
    now rewrite string_app_assoc.
Qed.

Lemma packageManagerMatch_declared pm v :
  v <> "" ->
  forallb (fun c => negb (Js.is_line_terminator c)) (list_ascii_of_string v) = true ->
  packageManagerMatch (PackageManagerName_text pm ++ "@" ++ v) = Some (pm, v).
Proof.
  intros Hne Hall.
  assert (Hrun : Js.repeat_atom (Js.accepts false Js.Dot) (fun s => Some ([], s)) true "" 1 v
                 = Some ([v], "")).
  { apply (run_to_end _ v "" 1 Hall). destruct v; [contradiction | simpl; lia]. }
  unfold packageManagerMatch, packageManagerAlternative.
  destruct pm; cbn -[Js.repeat_atom]; now rewrite Hrun.
Qed.

(** X12.  A packageManager field of the form name@version in the
    manifest, with name one of npm, pnpm and yarn and a non-empty version on
    one line, decides the package manager and its version, whichever lock
    files the project holds; the lock file of that manager is reported when
    it exists. *)
Theorem declared_package_manager_wins :
  forall (projectPath : string) (m : Manifest) (pm : PackageManagerName) (v : string),
    readJsonFile (path_join projectPath "package.json") = Some m ->
    packageManager m = Some (PackageManagerName_text pm ++ "@" ++ v)%string ->
    v <> "" ->
    forallb (fun c => negb (Js.is_line_terminator c)) (list_ascii_of_string v) = true ->
    let info := detectPackageManager path_join fileExists readJsonFile execCommand
                  projectPath in
    name info = pm /\ version info = v /\
    lockFile info
    = (if fileExists (path_join projectPath (LOCK_FILES pm))
       then Some (LOCK_FILES pm) else None).
Proof.
  intros projectPath m pm v Hread Hfield Hne Hall info. subst info.
  unfold detectPackageManager. rewrite Hread, Hfield.
  assert (Ht : Js.truthy (PackageManagerName_text pm ++ "@" ++ v) = true)
    by (now destruct pm).
  rewrite Ht, (packageManagerMatch_declared pm v Hne Hall). repeat split.
Qed.

(** X13.  Without a packageManager field (or without a readable
    manifest) the lock files decide, in the order npm, pnpm, yarn: the
    manager is the first whose lock file exists, and npm when none exists, in
    which case no lock file is reported.  The version is then what the
    command "<name> --version" prints, trimmed, or "unknown" when it exits
    with a non-zero code. *)
Theorem lock_files_decide_in_order :
  forall projectPath : string,
    match readJsonFile (path_join projectPath "package.json") with
    | Some m => packageManager m
    | None => None
    end = None ->
    let info := detectPackageManager path_join fileExists readJsonFile execCommand
                  projectPath in
    let present pm := fileExists (path_join projectPath (LOCK_FILES pm)) in
    name info
    = (if present pm_npm then pm_npm
       else if present pm_pnpm then pm_pnpm
       else if present pm_yarn then pm_yarn
       else pm_npm) /\
    lockFile info
    = (if present pm_npm || present pm_pnpm || present pm_yarn
       then Some (LOCK_FILES (name info)) else None) /\
    version info
    = (let result := execCommand (PackageManagerName_text (name info) ++ " --version")%string
                       projectPath in
       if (exitCode result =? 0)%Z then Js.trim (stdout result) else "unknown").
Proof.
  intros projectPath Hfield info present. subst info present.
  unfold detectPackageManager.
  assert (Hdecl : match readJsonFile (path_join projectPath "package.json") with
                  | Some m =>
                      match packageManager m with
                      | Some field =>
                          if Js.truthy field then packageManagerMatch field else None
                      | None => None
                      end
                  | None => None
                  end = None).
  { destruct (readJsonFile (path_join projectPath "package.json")) as [m|]; [|reflexivity].
    now rewrite Hfield. }
  rewrite Hdecl. unfold firstLockFile, LOCK_FILES_entries. cbn [map find snd LOCK_FILES].
  destruct (fileExists (path_join projectPath "package-lock.json"));
    [repeat split|].
  destruct (fileExists (path_join projectPath "pnpm-lock.yaml"));
    [repeat split|].
  destruct (fileExists (path_join projectPath "yarn.lock")); repeat split.
Qed.

(** X14.  The workspace configuration is consistent: it is enabled
    exactly when it lists at least one pattern and names its source, which is
    pnpm-workspace.yaml only for pnpm and package.json otherwise; a disabled
    configuration has no pattern and no source, and yields no workspace
    member. *)
Theorem workspace_config_is_consistent :
  forall (projectPath : string) (pm : PackageManagerName),
    let config := detectWorkspaces path_join readJsonFile readTextFile parseYaml
                    projectPath pm in
    match configSource config with
    | None =>
        enabled config = false /\ packages config = [] /\
        getWorkspacePackages path_join readJsonFile glob projectPath config = []
    | Some source =>
        enabled config = true /\ packages config <> [] /\
        ((source = "pnpm-workspace.yaml" /\ pm = pm_pnpm) \/ source = "package.json")
    end.
Proof.
  intros projectPath pm config. subst config.
  assert (Hm : forall pj,
             match configSource (workspacesOfManifest pj) with
             | None =>
                 enabled (workspacesOfManifest pj) = false /\
                 packages (workspacesOfManifest pj) = [] /\
                 getWorkspacePackages path_join readJsonFile glob projectPath
                   (workspacesOfManifest pj) = []
             | Some source =>
                 enabled (workspacesOfManifest pj) = true /\
                 packages (workspacesOfManifest pj) <> [] /\
                 ((source = "pnpm-workspace.yaml" /\ pm = pm_pnpm) \/ source = "package.json")
             end).
  { intros [m|]; unfold workspacesOfManifest; [|cbn; auto].
    destruct (workspaces m) as [[l|[l|]]|]; try (cbn; now auto);
      destruct l; cbn; auto; repeat split; auto; discriminate. }
  unfold detectWorkspaces.
  destruct pm; cbn [PackageManagerName_eqb]; try apply Hm.
  destruct (readTextFile _) as [content|]; [|apply Hm].
  destruct (Js.truthy content); [|apply Hm].
  destruct (parseYaml content) as [[[l|]]|]; try apply Hm.
  destruct l; cbn [List.length Nat.ltb Nat.leb]; [apply Hm|].
  cbn. repeat split; auto. discriminate.
Qed.

(** X15.  The workspace members of an enabled configuration are exactly
    the glob matches of its patterns whose manifest can be read: each member
    carries the match as its relative path, the project path joined with it
    as its path, and the name, version and manifest read there.  A match
    without a readable manifest is left out. *)
Theorem members_are_readable_matches :
  forall (projectPath : string) (config : WorkspaceConfig) (ws : Types.WorkspaceInfo),
    In ws (getWorkspacePackages path_join readJsonFile glob projectPath config) <->
    enabled config = true /\
    exists pattern m,
      In pattern (packages config) /\
      In (Types.relativePath ws) (glob pattern projectPath) /\
      Types.ws_path ws = path_join projectPath (Types.relativePath ws) /\
      readJsonFile (path_join (Types.ws_path ws) "package.json") = Some m /\
      Types.packageJson ws = core m /\
      Types.ws_name ws = Types.name (core m) /\
      Types.ws_version ws = Types.version (core m).
Proof.
  intros projectPath config ws. unfold getWorkspacePackages.
  destruct (enabled config); cbn [negb].
  2:{ split; [intros [] | intros [H _]; discriminate H]. }
  rewrite in_flat_map. split.
  - intros (pattern & Hp & Hin). apply in_flat_map in Hin.
    destruct Hin as (found & Hf & Hin).
    destruct (readJsonFile (path_join (path_join projectPath found) "package.json"))
      as [m|] eqn:E; [|contradiction].
    destruct Hin as [<-|[]]. cbn. split; [reflexivity|].
    exists pattern, m. repeat split; auto.
  - intros (_ & pattern & m & Hp & Hf & Hpath & Hread & Hpj & Hname & Hver).
    exists pattern. split; [exact Hp|]. apply in_flat_map.
    exists (Types.relativePath ws). split; [exact Hf|].
    rewrite <- Hpath, Hread. left.
    destruct ws as [n p r v pj]. cbn in *. now subst.
Qed.

End Detection.

Section DetectionSamples.
Import Detector.

(** X12, witness: the manifest declares pnpm while only the lock file of
    npm is present. *)
Lemma declared_package_manager_wins_witness :
  let path_join := fun dir f => Js.cat [dir; "/"; f] in
  let m := {| core := Samples.manifest "app" None None; peerDependencies := None;
              packageManager := Some "pnpm@8.6.0"; workspaces := None |} in
  let readJsonFile := fun p => if p =? "/repo/package.json" then Some m else None in
  let fileExists := fun p => p =? "/repo/package-lock.json" in
  let execCommand := fun _ _ => {| stdout := ""; stderr := ""; exitCode := 1 |} in
  let info := detectPackageManager path_join fileExists readJsonFile execCommand "/repo" in
  name info = pm_pnpm /\ version info = "8.6.0" /\ lockFile info = None.
Proof.
  intros path_join m readJsonFile fileExists execCommand info.
  exact (declared_package_manager_wins path_join fileExists readJsonFile execCommand
           "/repo" m pm_pnpm "8.6.0" eq_refl eq_refl ltac:(discriminate) eq_refl).
Defined.

(** X13, witness: no manifest, and yarn.lock alone. *)
Lemma lock_files_decide_in_order_witness :
  let path_join := fun dir f => Js.cat [dir; "/"; f] in
  let readJsonFile := fun _ : string => @None Manifest in
  let fileExists := fun p => p =? "/repo/yarn.lock" in
  let execCommand :=
    fun (_ _ : string) => {| stdout := " 1.22.19 "; stderr := ""; exitCode := 0 |} in
  let info := detectPackageManager path_join fileExists readJsonFile execCommand "/repo" in
  name info = pm_yarn /\ lockFile info = Some "yarn.lock" /\ version info = "1.22.19".
Proof.
  intros path_join readJsonFile fileExists execCommand info.
  exact (lock_files_decide_in_order path_join fileExists readJsonFile execCommand
           "/repo" eq_refl).
Defined.

End DetectionSamples.

(* ===================================================================== *)
(** * Properties of the registry client *)
(* ===================================================================== *)

Section RegistryCache.
Import Registry.

(** X16.  A document fetched for a package is served from the cache to
    every lookup of that package that starts less than five minutes after it
    was stored: such a lookup makes no request, leaves the cache as it is
    and answers the stored document whatever the network would answer, also
    for a client of another registry, the cache being keyed by the package
    name alone. *)
Theorem cache_serves_within_ttl :
  forall (encodeURIComponent : string -> string)
         (fetch fetch' : string -> Z -> option RegistryPackageDocument)
         (client client' : RegistryClient) (now later now' later' : Z)
         (name : string) (w : World) (doc : RegistryPackageDocument),
    match Js.get name (cache w) with
    | Some cached => (CACHE_TTL <= now - timestamp cached)%Z
    | None => True
    end ->
    fetch (packageUrl encodeURIComponent client name) (timeout client) = Some doc ->
    (now' - later < CACHE_TTL)%Z ->
    let first := getPackageInfo encodeURIComponent fetch client now later name w in
    let second := getPackageInfo encodeURIComponent fetch' client' now' later' name
                    (snd first) in
    fst first = Some doc /\
    requests (snd first) = requests w ++ [packageUrl encodeURIComponent client name] /\
    second = (Some doc, snd first).
Proof.
  intros enc fetch fetch' client client' now later now' later' name w doc
    Hstale Hfetch Hfresh first second.
  assert (Hfirst : first
                   = (Some doc,
                      {| cache := Js.set name {| data := doc; timestamp := later |} (cache w);
                         requests := requests w ++ [packageUrl enc client name] |})).
  { subst first. unfold getPackageInfo. rewrite Hfetch.
    destruct (Js.get name (cache w)) as [cached|]; [|reflexivity].
    destruct (Z.ltb_spec (now - timestamp cached) CACHE_TTL); [lia | reflexivity]. }
  subst second. rewrite Hfirst. cbn [fst snd requests].
  split; [reflexivity|]. split; [reflexivity|].
  unfold getPackageInfo. cbn [cache]. rewrite get_set_eq. cbn [timestamp data].
  destruct (Z.ltb_spec (now' - later) CACHE_TTL); [reflexivity | lia].
Qed.

(** X16, witness: a second lookup two minutes after the first, while the
    registry is down. *)
Lemma cache_serves_within_ttl_witness :
  let doc := {| dist_tags := [("latest", "4.17.21")]; versions := [] |} in
  let up := fun (_ : string) (_ : Z) => Some doc in
  let down := fun (_ : string) (_ : Z) => @None RegistryPackageDocument in
  let w := {| cache := []; requests := [] |} in
  let first := getPackageInfo (fun s => s) up registryClient 1000 1200 "lodash" w in
  let second := getPackageInfo (fun s => s) down registryClient 121200 121300 "lodash"
                  (snd first) in
  fst first = Some doc /\
  requests (snd first) = ["https://registry.npmjs.org/lodash"] /\
  second = (Some doc, snd first).
Proof.
  intros doc up down w first second.
  exact (cache_serves_within_ttl (fun s => s) up down registryClient registryClient
           1000 1200 121200 121300 "lodash" w doc I eq_refl eq_refl).
Defined.

(** X17.  A lookup that finds no entry younger than five minutes and
    whose request fails answers null and leaves the cache as it was: a stale
    document is not served in place of the failed request, and the failure
    is not remembered, so that the next lookup, at the same time or later,
    asks the network again. *)
Theorem failed_lookup_is_not_cached :
  forall (encodeURIComponent : string -> string)
         (fetch fetch' : string -> Z -> option RegistryPackageDocument)
         (client : RegistryClient) (now later now' later' : Z)
         (name : string) (w : World),
    match Js.get name (cache w) with
    | Some cached => (CACHE_TTL <= now - timestamp cached)%Z
    | None => True
    end ->
    fetch (packageUrl encodeURIComponent client name) (timeout client) = None ->
    (now <= now')%Z ->
    let first := getPackageInfo encodeURIComponent fetch client now later name w in
    let second := getPackageInfo encodeURIComponent fetch' client now' later' name
                    (snd first) in
    fst first = None /\
    cache (snd first) = cache w /\
    fst second = fetch' (packageUrl encodeURIComponent client name) (timeout client) /\
    requests (snd second)
    = requests w ++ [packageUrl encodeURIComponent client name;
                     packageUrl encodeURIComponent client name].
Proof.
  intros enc fetch fetch' client now later now' later' name w Hstale Hfetch Hnow
    first second.
  assert (Hfirst : first
                   = (None, {| cache := cache w;
                               requests := requests w ++ [packageUrl enc client name] |})).
  { subst first. unfold getPackageInfo. rewrite Hfetch.
    destruct (Js.get name (cache w)) as [cached|]; [|reflexivity].
    destruct (Z.ltb_spec (now - timestamp cached) CACHE_TTL); [lia | reflexivity]. }
  subst second. rewrite Hfirst. cbn [fst snd cache].
  split; [reflexivity|]. split; [reflexivity|].
  unfold getPackageInfo. cbn [cache requests].
  assert (Hmiss : match Js.get name (cache w) with
                  | Some cached => (now' - timestamp cached <? CACHE_TTL)%Z = false
                  | None => True
                  end).
  { destruct (Js.get name (cache w)) as [cached|]; [|exact I].
    apply Z.ltb_ge. lia. }
  destruct (Js.get name (cache w)) as [cached|]; [rewrite Hmiss|];
    destruct (fetch' (packageUrl enc client name) (timeout client));
    cbn [fst snd requests]; rewrite <- app_assoc; split; reflexivity.
Qed.

(** X17, witness: the registry is down, then up again. *)
Lemma failed_lookup_is_not_cached_witness :
  let doc := {| dist_tags := [("latest", "4.17.21")]; versions := [] |} in
  let up := fun (_ : string) (_ : Z) => Some doc in
  let down := fun (_ : string) (_ : Z) => @None RegistryPackageDocument in
  let w := {| cache := []; requests := [] |} in
  let first := getPackageInfo (fun s => s) down registryClient 1000 1200 "lodash" w in
  let second := getPackageInfo (fun s => s) up registryClient 1300 1500 "lodash"
                  (snd first) in
  fst first = None /\
  cache (snd first) = [] /\
  fst second = Some doc /\
  requests (snd second)
  = ["https://registry.npmjs.org/lodash"; "https://registry.npmjs.org/lodash"].
Proof.
  intros doc up down w first second.
  exact (failed_lookup_is_not_cached (fun s => s) down up registryClient
           1000 1200 1300 1500 "lodash" w I eq_refl ltac:(discriminate)).
Defined.

End RegistryCache.

(* ===================================================================== *)
(** * Properties of overrides: reading and writing *)
(* ===================================================================== *)

Section Overlay.
Import Types PackageManager Spec FixNotions.

Lemma overlays_set {V : Type} key (v : V) : overlays (Js.set key v).
Proof.
  intros result k. cbn [Js.set Js.get].
  destruct (String.eqb_spec key k) as [->|Hne].
  - apply get_set_eq.
  - now apply get_set_ne.
Qed.

Lemma overlays_compose {V : Type} (f g : Js.object V -> Js.object V) :
  overlays f -> overlays g -> overlays (fun r => g (f r)).
Proof.
  intros Hf Hg result k. rewrite Hg, Hf, (Hg (f [])).
  now destruct (Js.get k (g [])), (Js.get k (f [])).
Qed.

Lemma overlays_fold {A V : Type} (step : A -> Js.object V -> Js.object V) l :
  Forall (fun a => overlays (step a)) l ->
  overlays (fun r => fold_left (fun r a => step a r) l r).
Proof.
  induction 1 as [|a l Ha Hl IH]; simpl.
  - intros result k. simpl. now destruct (Js.get k result).
  - apply (overlays_compose (step a) (fun r => fold_left (fun r a => step a r) l r));
      assumption.
Qed.

Lemma OverrideValue_nested_ind (P : OverrideValue -> Prop) :
  (forall s, P (OvString s)) ->
  (forall entries, Forall (fun e => P (snd e)) entries -> P (OvObject entries)) ->
  forall v, P v.
Proof.
  intros Hs Ho. fix IH 1. intros [s|entries]; [apply Hs|].
  apply Ho. induction entries as [|[k v] entries IHe]; constructor; [apply IH | exact IHe].
Qed.

Lemma overlays_flattenEntry value : forall prefix key,
  overlays (flattenEntry prefix key value).
Proof.
  induction value as [v|nested IH] using OverrideValue_nested_ind; intros prefix key.
  - apply overlays_set.
  - cbn [flattenEntry].
    apply (overlays_fold (fun kv r => flattenEntry _ (fst kv) (snd kv) r)).
    eapply Forall_impl; [|exact IH]. intros [k v] Hv. apply Hv.
Qed.

Lemma overlays_flattenOverrides o prefix : overlays (fun r => flattenOverrides o r prefix).
Proof.
  unfold flattenOverrides.
  apply (overlays_fold (fun kv r => flattenEntry prefix (fst kv) (snd kv) r)).
  apply Forall_forall. intros [k v] _. apply overlays_flattenEntry.
Qed.

(** X18.  For pnpm, getOverrides lays the overrides field of the
    manifest, flattened as for npm, over pnpm.overrides: a key that the
    overrides field sets has the value given there, and pnpm.overrides
    decides only the keys that the overrides field does not set. *)
Theorem pnpm_overrides_field_wins :
  forall (packageJson : PackageJson) (k : string),
    Js.get k (getOverrides packageJson "pnpm")
    = match Js.get k (getOverrides packageJson "npm") with
      | Some v => Some v
      | None => Js.get k (getOverrides (without_overrides packageJson) "pnpm")
      end.
Proof.
  intros pj k. unfold getOverrides, without_overrides. cbn [String.eqb Ascii.eqb Bool.eqb].
  cbn [overrides pnpm ApplyFix.with_overrides].
  destruct (overrides pj) as [o|]; [|reflexivity].
  apply (overlays_flattenOverrides o "").
Qed.

(** *** Keys of nested overrides *)

Lemma prefix_app_false a : forall b k,
  String.prefix a k = false -> String.prefix (a ++ b) k = false.
Proof.
  induction a as [|c a IH]; intros b k H; [destruct k; discriminate H|].
  destruct k as [|d k]; [reflexivity|]. cbn -[ascii_dec] in *.
  destruct (ascii_dec c d); [now apply IH | reflexivity].
Qed.

Lemma prefix_app_refl a b : String.prefix a (a ++ b) = true.
Proof.
  induction a as [|c a IH]; cbn -[ascii_dec]; [now destruct b|].
  destruct (ascii_dec c c); [exact IH | contradiction].
Qed.

Lemma prefix_gt_false a : forall k,
  ~ In ">"%char (list_ascii_of_string k) -> String.prefix (a ++ ">") k = false.
Proof.
  induction a as [|c a IH]; intros k Hk; destruct k as [|d k]; try reflexivity;
    cbn -[ascii_dec].
  - destruct (ascii_dec ">" d) as [<-|]; [|reflexivity].
    exfalso. apply Hk. now left.
  - destruct (ascii_dec c d); [|reflexivity].
    apply IH. intros H. apply Hk. now right.
Qed.

Lemma truthy_app_gt a b : Js.truthy (a ++ String ">" b) = true.
Proof. now destruct a. Qed.

(** Under a prefix, every key assigned starts with the prefix and [>]. *)
Lemma flattenEntry_prefixed value : forall prefix key k result,
  Js.truthy prefix = true ->
  String.prefix (prefix ++ ">") k = false ->
  Js.get k (flattenEntry prefix key value result) = Js.get k result.
Proof.
  induction value as [v|nested IH] using OverrideValue_nested_ind;
    intros prefix key k result Ht Hk; cbn [flattenEntry]; rewrite Ht;
    unfold Js.cat; cbn [String.concat];
    change (prefix ++ "" ++ ">" ++ "" ++ key)%string with (prefix ++ String ">" key)%string.
  - apply get_set_ne. intros <-.
    change (prefix ++ String ">" key)%string with (prefix ++ ">" ++ key)%string in Hk.
    rewrite <- string_app_assoc, prefix_app_refl in Hk. discriminate Hk.
  - revert result. induction IH as [|[k' v'] nested Hv Hn IHn]; intros result; [reflexivity|].
    cbn [fold_left fst snd]. rewrite IHn. apply Hv; [apply truthy_app_gt|].
    change ((prefix ++ String ">" key) ++ ">")%string
      with ((prefix ++ ">" ++ key) ++ ">")%string.
    rewrite <- (string_app_assoc prefix ">" key), string_app_assoc.
    now apply prefix_app_false.
Qed.

Lemma flattenEntry_top_nested key nested k result :
  key <> "" ->
  ~ In ">"%char (list_ascii_of_string k) ->
  Js.get k (flattenEntry "" key (OvObject nested) result) = Js.get k result.
Proof.
  intros Hkey Hk. cbn [flattenEntry Js.truthy String.eqb negb].
  revert result. induction nested as [|[k' v'] nested IH]; intros result; [reflexivity|].
  cbn [fold_left fst snd]. rewrite IH. apply flattenEntry_prefixed.
  - unfold Js.truthy. now destruct (String.eqb_spec key "").
  - now apply prefix_gt_false.
Qed.

(** What npm reads for a key without [>] is the string set for it at the
    top of the overrides object. *)
Lemma flattenOverrides_top k o : forall result,
  NoDup (keys o) ->
  ~ In ">"%char (list_ascii_of_string k) ->
  Forall (fun entry => ~ nestsUnderEmptyKey entry) o ->
  Js.get k (flattenOverrides o result "")
  = match Js.get k o with
    | Some (OvString v) => Some v
    | _ => Js.get k result
    end.
Proof.
  unfold flattenOverrides.
  induction o as [|[k' val] o IH]; intros result Hnd Hk Hflat; [reflexivity|].
  cbn [keys map fst] in Hnd. apply NoDup_cons_iff in Hnd as [Hnew Hnd].
  apply Forall_cons_iff in Hflat as [Hval Hflat].
  cbn [fold_left fst snd Js.get]. rewrite (IH _ Hnd Hk Hflat).
  assert (Hstep : k' <> k ->
                  Js.get k (flattenEntry "" k' val result) = Js.get k result).
  { intros Hne. destruct val as [v|nested].
    - cbn [flattenEntry Js.truthy String.eqb negb]. now apply get_set_ne.
    - apply flattenEntry_top_nested; [|exact Hk].
      intros ->. apply Hval. split; [reflexivity | eexists; reflexivity]. }
  destruct (String.eqb_spec k' k) as [->|Hne].
  - assert (Hrest : Js.get k o = None).
    { destruct (Js.get k o) eqn:E; [|reflexivity].
      exfalso. apply Hnew. apply in_keys_get. congruence. }
    rewrite Hrest. destruct val as [v|nested].
    + cbn [flattenEntry Js.truthy String.eqb negb]. apply get_set_eq.
    + apply flattenEntry_top_nested; [|exact Hk].
      intros ->. apply Hval. split; [reflexivity | eexists; reflexivity].
  - rewrite (Hstep Hne). reflexivity.
Qed.

Lemma get_assign_NoDup {V : Type} (src : Js.object V) : forall target k,
  NoDup (keys src) ->
  Js.get k (Js.assign target src)
  = match Js.get k src with
    | Some v => Some v
    | None => Js.get k target
    end.
Proof.
  unfold Js.assign.
  induction src as [|[k' v] src IH]; intros target k Hnd; [reflexivity|].
  cbn [keys map fst] in Hnd. apply NoDup_cons_iff in Hnd as [Hnew Hnd].
  cbn [fold_left fst snd Js.get]. rewrite (IH _ _ Hnd).
  destruct (String.eqb_spec k' k) as [->|Hne].
  - assert (Hrest : Js.get k src = None).
    { destruct (Js.get k src) eqn:E; [|reflexivity].
      exfalso. apply Hnew. apply in_keys_get. congruence. }
    rewrite Hrest. apply get_set_eq.
  - rewrite get_set_ne by exact Hne. reflexivity.
Qed.

End Overlay.

(* ===================================================================== *)
(** * Properties of apply_fix *)
(* ===================================================================== *)

Section ApplyingFixes.
Import Types Detector ApplyFix FixNotions Spec.

Variable path_join : string -> string -> string.
Variable fileExists : string -> bool.
Variable readJsonFile : string -> option Manifest.
Variable execCommand : string -> string -> CommandResult.
Variable writeFile : string -> Manifest -> bool.
Variable fixesIn : string -> list Fix.

Lemma fold_applyOne pm m l : forall st,
  updatedPackageJson (fold_left (applyOne pm m) l st)
  = overrideUpdates pm l (updatedPackageJson st) /\
  map (fun a => (applied_package a, to a)) (applied (fold_left (applyOne pm m) l st))
  = map (fun a => (applied_package a, to a)) (applied st)
    ++ map (fun one => (fix_package one, fix_version one)) l.
Proof.
  unfold overrideUpdates.
  induction l as [|one l IH]; intros st; cbn [fold_left map].
  - now rewrite app_nil_r.
  - destruct (IH (applyOne pm m st one)) as [-> ->]. unfold applyOne.
    destruct (fix_type one); cbn [updatedPackageJson applied];
      rewrite map_app, <- app_assoc; split; reflexivity.
Qed.

Lemma runCommand_facts dry p cmd failure o :
  let o' := runCommand execCommand dry p cmd failure o in
  commands (result o') = commands (result o) ++ [cmd] /\
  effects o' = effects o ++ (if dry then [] else [Exec cmd p]) /\
  modifiedFiles (result o') = modifiedFiles (result o) /\
  appliedFixes (result o') = appliedFixes (result o) /\
  (dry = true -> warnings (result o') = warnings (result o)).
Proof.
  unfold runCommand. destruct dry; cbn [negb].
  - cbn. rewrite app_nil_r. repeat split.
  - destruct (negb (exitCode (execCommand cmd p) =? 0)%Z); cbn; repeat split;
      intros H; discriminate H.
Qed.

Lemma runGroups_facts dry pm p pending failure devFailure o :
  let o' := runGroups execCommand dry pm p pending failure devFailure o in
  exists cmds,
    commands (result o') = commands (result o) ++ cmds /\
    effects o' = effects o ++ (if dry then [] else map (fun c => Exec c p) cmds) /\
    modifiedFiles (result o') = modifiedFiles (result o) /\
    appliedFixes (result o') = appliedFixes (result o) /\
    (dry = true -> warnings (result o') = warnings (result o)).
Proof.
  unfold runGroups.
  assert (Hnone : exists cmds : list string,
             commands (result o) = commands (result o) ++ cmds /\
             effects o = effects o ++ (if dry then [] else map (fun c => Exec c p) cmds) /\
             modifiedFiles (result o) = modifiedFiles (result o) /\
             appliedFixes (result o) = appliedFixes (result o) /\
             (dry = true -> warnings (result o) = warnings (result o))).
  { exists []. rewrite !app_nil_r. destruct dry; rewrite ?app_nil_r; repeat split. }
  destruct (0 <? List.length pending)%nat; [|exact Hnone].
  set (g := groupByDevDep pending).
  destruct (0 <? List.length (prodPkgs g))%nat, (0 <? List.length (devPkgs g))%nat;
    try exact Hnone.
  - set (c1 := buildInstallCommand pm (prodPkgs g) false).
    set (c2 := buildInstallCommand pm (devPkgs g) true).
    destruct (runCommand_facts dry p c1 failure o) as (H1 & H2 & H3 & H4 & H5).
    destruct (runCommand_facts dry p c2 devFailure
                (runCommand execCommand dry p c1 failure o)) as (K1 & K2 & K3 & K4 & K5).
    exists [c1; c2]. cbv zeta in *.
    rewrite K1, K2, K3, K4, H1, H2, H3, H4, <- !app_assoc.
    split; [reflexivity|]. split; [now destruct dry|]. split; [reflexivity|].
    split; [reflexivity|]. intros Hd. now rewrite K5, H5.
  - set (c1 := buildInstallCommand pm (prodPkgs g) false).
    destruct (runCommand_facts dry p c1 failure o) as (H1 & H2 & H3 & H4 & H5).
    exists [c1]. cbv zeta in *. rewrite H1, H2, H3, H4.
    split; [reflexivity|]. split; [now destruct dry|]. auto.
  - set (c2 := buildInstallCommand pm (devPkgs g) true).
    destruct (runCommand_facts dry p c2 devFailure o) as (H1 & H2 & H3 & H4 & H5).
    exists [c2]. cbv zeta in *. rewrite H1, H2, H3, H4.
    split; [reflexivity|]. split; [now destruct dry|]. auto.
Qed.

Lemma detection_facts p pm :
  detectPeerDependencyIssues execCommand fixesIn p (PackageManagerName_text pm)
  = (let r := execCommand (Js.cat [PackageManagerName_text pm; " install --dry-run 2>&1"]) p in
     (fixesIn (stdout r ++ stderr r),
      [Exec (Js.cat [PackageManagerName_text pm; " install --dry-run 2>&1"]) p])).
Proof. destruct pm; reflexivity. Qed.

(** The fixes in effect and the effects of the detection, as [applyFix]
    computes them together. *)
Lemma fixes_and_detection input p pm :
  (if autoDetect input
      && (List.length match fixes input with Some l => l | None => [] end =? 0)%nat
   then detectPeerDependencyIssues execCommand fixesIn p (PackageManagerName_text pm)
   else (match fixes input with Some l => l | None => [] end, []))
  = (fixesInEffect execCommand fixesIn input p pm,
     if detects input
     then [Exec (Js.cat [PackageManagerName_text pm; " install --dry-run 2>&1"]) p]
     else []).
Proof.
  unfold fixesInEffect, detects, givenFixes.
  destruct (autoDetect input && _); [|reflexivity].
  now rewrite detection_facts.
Qed.

(** What the detection of the package manager executes. *)
Lemma probe_facts p :
  detectPackageManagerEffects path_join fileExists readJsonFile p
  = map (fun c => Exec c p)
      (versionQueries (readJsonFile (path_join p "package.json"))
         (detected path_join fileExists readJsonFile execCommand p)).
Proof.
  unfold detectPackageManagerEffects, versionQueries, declaresManager, detected,
    detectPackageManager.
  destruct (readJsonFile (path_join p "package.json")) as [m|].
  - destruct (packageManager m) as [field|].
    + destruct (Js.truthy field).
      * now destruct (packageManagerMatch field) as [[pmName version]|];
          [|destruct (firstLockFile path_join fileExists p) as [[pmName lockFile]|]].
      * now destruct (firstLockFile path_join fileExists p) as [[pmName lockFile]|].
    + now destruct (firstLockFile path_join fileExists p) as [[pmName lockFile]|].
  - now destruct (firstLockFile path_join fileExists p) as [[pmName lockFile]|].
Qed.

Lemma executed_commands p cmds :
  flat_map (fun e => match e with Exec command _ => [command] | WriteFile _ _ => [] end)
    (map (fun c => Exec c p) cmds) = cmds.
Proof. induction cmds as [|c cmds IH]; [reflexivity | cbn; now rewrite IH]. Qed.

Lemma written_by_commands p cmds :
  flat_map (fun e => match e with WriteFile _ content => [content] | Exec _ _ => [] end)
    (map (fun c => Exec c p) cmds) = [].
Proof. induction cmds as [|c cmds IH]; [reflexivity | exact IH]. Qed.

(** X19.  A dry run of apply_fix on a readable manifest writes no file and
    reports no modified file.  It executes at most two commands: the version
    query by which the package manager is detected, unless the manifest
    declares its package manager, and then the dry-run installation by which
    fixes are detected, when it is asked to detect and no fix is given.  The
    install and upgrade commands are listed without being executed, so that
    no failure is ever warned about. *)
Theorem dry_run_changes_nothing :
  forall (input : ApplyFixInput) (projectPath : string) (m : Manifest),
    dryRun input = true ->
    readJsonFile (path_join projectPath "package.json") = Some m ->
    let pm := detected path_join fileExists readJsonFile execCommand projectPath in
    exists o,
      applyFix path_join fileExists readJsonFile execCommand writeFile fixesIn
        input projectPath = Done o /\
      writtenManifests o = [] /\
      modifiedFiles (result o) = [] /\
      executedCommands o
      = versionQueries (Some m) pm
        ++ (if detects input
            then [Js.cat [PackageManagerName_text pm; " install --dry-run 2>&1"]]
            else []) /\
      warnings (result o)
      = (match fixesInEffect execCommand fixesIn input projectPath pm with
         | [] => ["未检测到需要修复的问题"]
         | _ :: _ => []
         end).
Proof.
  intros input p m Hdry Hread pm. unfold applyFix. cbv zeta.
  rewrite probe_facts, Hread.
  fold (detected path_join fileExists readJsonFile execCommand p). fold pm.
  rewrite fixes_and_detection, Hdry. cbn [negb].
  set (fixList := fixesInEffect execCommand fixesIn input p pm).
  set (query := versionQueries (Some m) pm).
  set (detection := if detects input then _ else _).
  assert (Hw : flat_map (fun e => match e with
                                  | WriteFile _ content => [content]
                                  | Exec _ _ => []
                                  end) (map (fun c => Exec c p) query ++ detection) = []).
  { rewrite flat_map_app, written_by_commands. subst detection.
    now destruct (detects input). }
  assert (Hx : flat_map (fun e => match e with
                                  | Exec command _ => [command]
                                  | WriteFile _ _ => []
                                  end) (map (fun c => Exec c p) query ++ detection)
               = query
                 ++ (if detects input
                     then [Js.cat [PackageManagerName_text pm; " install --dry-run 2>&1"]]
                     else [])).
  { rewrite flat_map_app, executed_commands. subst detection.
    now destruct (detects input). }
  destruct fixList as [|one l] eqn:E.
  - cbn [List.length Nat.eqb]. eexists. split; [reflexivity|].
    unfold writtenManifests, executedCommands.
    cbn [pushWarning result effects modifiedFiles warnings emptyResult app].
    auto.
  - cbn [List.length Nat.eqb]. rewrite <- E. eexists. split; [reflexivity|].
    match goal with
    | |- context [runGroups _ true ?pm' p ?pending2 ?f2 ?d2
                    (runGroups _ true ?pm' p ?pending1 ?f1 ?d1 ?o0)] =>
        destruct (runGroups_facts true pm' p pending1 f1 d1 o0)
          as (c1 & H1 & H2 & H3 & H4 & H5);
        destruct (runGroups_facts true pm' p pending2 f2 d2
                    (runGroups execCommand true pm' p pending1 f1 d1 o0))
          as (c2 & K1 & K2 & K3 & K4 & K5)
    end.
    cbv zeta in *. rewrite app_nil_r in H2, K2.
    unfold writtenManifests, executedCommands.
    cbn [pushCommand result effects modifiedFiles warnings].
    rewrite K2, H2, K3, H3, (K5 eq_refl), (H5 eq_refl). cbn [effects result modifiedFiles warnings].
    auto.
Qed.

(** A run that is not a dry run, with at least one fix, on a manifest that
    can be read and written. *)
Lemma real_run_shape input p m :
  dryRun input = false ->
  readJsonFile (path_join p "package.json") = Some m ->
  (forall content, writeFile (path_join p "package.json") content = true) ->
  fixesInEffect execCommand fixesIn input p
    (detected path_join fileExists readJsonFile execCommand p) <> [] ->
  exists o installs,
    applyFix path_join fileExists readJsonFile execCommand writeFile fixesIn
        input p = Done o /\
    let pm := detected path_join fileExists readJsonFile execCommand p in
    let fixList := fixesInEffect execCommand fixesIn input p pm in
    let path := path_join p "package.json" in
    let final :=
      if reinstall input then [Js.cat [PackageManagerName_text pm; " install"]] else [] in
    let detection :=
      if detects input
      then [Js.cat [PackageManagerName_text pm; " install --dry-run 2>&1"]]
      else [] in
    let written :=
      {| core := overrideUpdates pm fixList (initOverrides pm (core m));
         peerDependencies := peerDependencies m;
         packageManager := packageManager m;
         workspaces := workspaces m |} in
    commands (result o) = installs ++ final /\
    effects o
    = map (fun c => Exec c p) (versionQueries (Some m) pm ++ detection ++ installs)
      ++ [WriteFile path written] ++ map (fun c => Exec c p) final /\
    modifiedFiles (result o) = [path] /\
    map (fun a => (applied_package a, to a)) (appliedFixes (result o))
    = map (fun one => (fix_package one, fix_version one)) fixList.
Proof.
  intros Hdry Hread Hwrite Hfix. unfold applyFix. cbv zeta.
  rewrite probe_facts, Hread. fold (detected path_join fileExists readJsonFile execCommand p).
  set (pm := detected path_join fileExists readJsonFile execCommand p) in *.
  rewrite fixes_and_detection, Hdry, Hwrite. cbn [negb].
  set (fixList := fixesInEffect execCommand fixesIn input p pm) in *.
  set (query := versionQueries (Some m) pm).
  assert (Hdet : (if detects input
                  then [Exec (Js.cat [PackageManagerName_text pm; " install --dry-run 2>&1"]) p]
                  else [])
                 = map (fun c => Exec c p)
                     (if detects input
                      then [Js.cat [PackageManagerName_text pm; " install --dry-run 2>&1"]]
                      else [])) by (now destruct (detects input)).
  rewrite Hdet. clear Hdet.
  set (detection := if detects input then _ else _).
  destruct (List.length fixList =? 0)%nat eqn:E.
  { apply Nat.eqb_eq in E. destruct fixList; [contradiction | discriminate E]. }
  set (start := {| updatedPackageJson := initOverrides pm (core m); applied := [];
                   installCommands := []; upgradeCommands := [] |}).
  destruct (fold_applyOne pm m fixList start) as [Hupd Happ].
  set (st := fold_left (applyOne pm m) fixList start) in *.
  match goal with
  | |- context [runGroups _ false ?pm' p ?pending2 ?f2 ?d2
                  (runGroups _ false ?pm' p ?pending1 ?f1 ?d1 ?o0)] =>
      destruct (runGroups_facts false pm' p pending1 f1 d1 o0)
        as (c1 & H1 & H2 & H3 & H4 & _);
      destruct (runGroups_facts false pm' p pending2 f2 d2
                  (runGroups execCommand false pm' p pending1 f1 d1 o0))
        as (c2 & K1 & K2 & K3 & K4 & _);
      set (o2 := runGroups execCommand false pm' p pending2 f2 d2
                   (runGroups execCommand false pm' p pending1 f1 d1 o0)) in *
  end.
  cbv zeta in *. cbn [result effects commands modifiedFiles appliedFixes] in *.
  rewrite H1 in K1. rewrite H2 in K2. rewrite H3 in K3. rewrite H4 in K4.
  cbn [app] in K1. rewrite Hupd. cbn [updatedPackageJson start].
  destruct (reinstall input).
  - eexists. exists (c1 ++ c2). split; [reflexivity|].
    match goal with
    | |- context [runCommand _ false p ?cmd ?f ?o0] =>
        destruct (runCommand_facts false p cmd f o0) as (R1 & R2 & R3 & R4 & _)
    end.
    cbv zeta in R1, R2, R3, R4. rewrite R1, R2, R3, R4.
    cbn [pushModified perform result effects commands modifiedFiles appliedFixes].
    rewrite K1, K2, K3, K4, Happ. cbn [applied start map app].
    rewrite !map_app, <- !app_assoc. repeat split.
  - eexists. exists (c1 ++ c2). split; [reflexivity|].
    cbn [pushModified perform result effects commands modifiedFiles appliedFixes].
    rewrite K1, K2, K3, K4, Happ. cbn [applied start map app].
    rewrite !map_app, <- !app_assoc, !app_nil_r. repeat split.
Qed.

Lemma put_cases {V : Type} k (v : V) o : Js.put k v o = o \/ Js.put k v o = Js.set k v o.
Proof. unfold Js.put. destruct (Js.get k o); [auto|]. destruct (k =? "__proto__"); auto. Qed.

Lemma get_put_eq {V : Type} k (v : V) o :
  k <> "__proto__" -> Js.get k (Js.put k v o) = Some v.
Proof.
  intros Hk. unfold Js.put. destruct (Js.get k o); [apply get_set_eq|].
  destruct (String.eqb_spec k "__proto__"); [contradiction | apply get_set_eq].
Qed.

Lemma get_put_ne {V : Type} k k' (v : V) o :
  k <> k' -> Js.get k' (Js.put k v o) = Js.get k' o.
Proof.
  intros Hne. destruct (put_cases k v o) as [->| ->]; [reflexivity|].
  now apply get_set_ne.
Qed.

Lemma overrideUpdates_frame pm l : forall pj,
  Types.name (overrideUpdates pm l pj) = Types.name pj /\
  Types.version (overrideUpdates pm l pj) = Types.version pj /\
  dependencies (overrideUpdates pm l pj) = dependencies pj /\
  devDependencies (overrideUpdates pm l pj) = devDependencies pj /\
  engines (overrideUpdates pm l pj) = engines pj.
Proof.
  unfold overrideUpdates.
  induction l as [|one l IH]; intros pj; cbn [fold_left]; [repeat split|].
  destruct (fix_type one); try apply IH.
  destruct (IH (addOverride pm (fix_package one) (fix_version one) pj))
    as (-> & -> & -> & -> & ->).
  unfold addOverride.
  destruct pm; [destruct (overrides pj) | destruct (pnpm pj) as [[[o|]]|]
                | destruct (resolutions pj)]; repeat split.
Qed.

Lemma initOverrides_frame pm pj :
  Types.name (initOverrides pm pj) = Types.name pj /\
  Types.version (initOverrides pm pj) = Types.version pj /\
  dependencies (initOverrides pm pj) = dependencies pj /\
  devDependencies (initOverrides pm pj) = devDependencies pj /\
  engines (initOverrides pm pj) = engines pj.
Proof.
  unfold initOverrides.
  destruct pm; [destruct (overrides pj) | destruct (pnpm pj) as [[[o|]]|]
                | destruct (resolutions pj)]; repeat split.
Qed.

(** X20.  A run of apply_fix that is not a dry run and has a fix to
    apply, on a manifest that can be read and written, executes first the
    version query by which the package manager is detected (unless the
    manifest declares its package manager) and the dry-run installation of
    the detection (when it detects), then every command it lists, in the
    order listed; it writes the manifest exactly once, after the install and
    upgrade commands and before the final installation (which runs only when
    reinstall is set), and reports that one file as modified.  It reports
    one applied fix for each fix, in order, and the manifest it writes has
    the name, version, dependencies, devDependencies, peerDependencies and
    engines of the manifest it read: only the override object of the package
    manager is changed. *)
Theorem real_run_installs_then_writes_once :
  forall (input : ApplyFixInput) (projectPath : string) (m : Manifest),
    dryRun input = false ->
    readJsonFile (path_join projectPath "package.json") = Some m ->
    (forall content, writeFile (path_join projectPath "package.json") content = true) ->
    fixesInEffect execCommand fixesIn input projectPath (detected path_join fileExists readJsonFile execCommand projectPath) <> [] ->
    exists o installs written,
      applyFix path_join fileExists readJsonFile execCommand writeFile fixesIn
        input projectPath = Done o /\
      let pm := detected path_join fileExists readJsonFile execCommand projectPath in
      let path := path_join projectPath "package.json" in
      let final :=
        if reinstall input then [Js.cat [PackageManagerName_text pm; " install"]] else [] in
      let detection :=
        if detects input
        then [Js.cat [PackageManagerName_text pm; " install --dry-run 2>&1"]]
        else [] in
      commands (result o) = installs ++ final /\
      effects o
      = map (fun c => Exec c projectPath)
          (versionQueries (Some m) pm ++ detection ++ installs)
        ++ [WriteFile path written] ++ map (fun c => Exec c projectPath) final /\
      modifiedFiles (result o) = [path] /\
      map (fun a => (applied_package a, to a)) (appliedFixes (result o))
      = map (fun one => (fix_package one, fix_version one))
          (fixesInEffect execCommand fixesIn input projectPath pm) /\
      Types.name (core written) = Types.name (core m) /\
      Types.version (core written) = Types.version (core m) /\
      dependencies (core written) = dependencies (core m) /\
      devDependencies (core written) = devDependencies (core m) /\
      engines (core written) = engines (core m) /\
      peerDependencies written = peerDependencies m.
Proof.
  intros input p m Hdry Hread Hwrite Hfix.
  destruct (real_run_shape input p m Hdry Hread Hwrite Hfix) as (o & installs & Hrun & H).
  cbv zeta in H. destruct H as (Hc & He & Hm & Ha).
  eexists o, installs, _. split; [exact Hrun|]. cbv zeta.
  split; [exact Hc|]. split; [exact He|]. split; [exact Hm|]. split; [exact Ha|].
  cbn [core peerDependencies].
  set (pm := detected path_join fileExists readJsonFile execCommand p).
  destruct (overrideUpdates_frame pm (fixesInEffect execCommand fixesIn input p pm)
              (initOverrides pm (core m))) as (-> & -> & -> & -> & ->).
  destruct (initOverrides_frame pm (core m)) as (-> & -> & -> & -> & ->).
  repeat split.
Qed.

(** *** Reading back what was written *)

Lemma get_overridesAssigned {V : Type} (inj : string -> V) k l : forall o,
  k <> "__proto__" ->
  Js.get k (overridesAssigned inj l o)
  = match lastOverride l k with
    | Some v => Some (inj v)
    | None => Js.get k o
    end.
Proof.
  unfold overridesAssigned, lastOverride. intros o Hk. revert o.
  induction l as [|one l IH] using rev_ind; intros o; [reflexivity|].
  rewrite !fold_left_app. cbn [fold_left].
  destruct (fix_type one); try apply IH.
  destruct (String.eqb_spec (fix_package one) k) as [->|Hne].
  - now apply get_put_eq.
  - rewrite get_put_ne by exact Hne. apply IH.
Qed.

Lemma NoDup_overridesAssigned {V : Type} (inj : string -> V) l : forall o,
  NoDup (keys o) -> NoDup (keys (overridesAssigned inj l o)).
Proof.
  unfold overridesAssigned.
  induction l as [|one l IH]; intros o Hnd; cbn [fold_left]; [exact Hnd|].
  destruct (fix_type one); apply IH; auto.
  destruct (put_cases (fix_package one) (inj (fix_version one)) o) as [->| ->];
    [exact Hnd | now apply NoDup_keys_set].
Qed.

Lemma flat_overridesAssigned l : forall o,
  Forall (fun entry => ~ nestsUnderEmptyKey entry) o ->
  Forall (fun entry => ~ nestsUnderEmptyKey entry) (overridesAssigned OvString l o).
Proof.
  unfold overridesAssigned.
  induction l as [|one l IH]; intros o Ho; cbn [fold_left]; [exact Ho|].
  destruct (fix_type one); apply IH; auto.
  destruct (put_cases (fix_package one) (OvString (fix_version one)) o) as [->| ->];
    [exact Ho|].
  apply Forall_set; auto; intros; intros [_ [nested Hn]]; discriminate Hn.
Qed.

Lemma overrideUpdates_npm l : forall pj o,
  overrides pj = Some o ->
  overrides (overrideUpdates pm_npm l pj) = Some (overridesAssigned OvString l o).
Proof.
  unfold overrideUpdates, overridesAssigned.
  induction l as [|one l IH]; intros pj o Ho; cbn [fold_left]; [exact Ho|].
  destruct (fix_type one); try (now apply IH).
  apply IH. unfold addOverride. now rewrite Ho.
Qed.

Lemma overrideUpdates_yarn l : forall pj r,
  resolutions pj = Some r ->
  resolutions (overrideUpdates pm_yarn l pj) = Some (overridesAssigned (fun v => v) l r).
Proof.
  unfold overrideUpdates, overridesAssigned.
  induction l as [|one l IH]; intros pj r Hr; cbn [fold_left]; [exact Hr|].
  destruct (fix_type one); try (now apply IH).
  apply IH. unfold addOverride. now rewrite Hr.
Qed.

Lemma overrideUpdates_pnpm l : forall pj o,
  pnpm pj = Some {| pnpm_overrides := Some o |} ->
  pnpm (overrideUpdates pm_pnpm l pj)
  = Some {| pnpm_overrides := Some (overridesAssigned (fun v => v) l o) |} /\
  overrides (overrideUpdates pm_pnpm l pj) = overrides pj.
Proof.
  unfold overrideUpdates, overridesAssigned.
  induction l as [|one l IH]; intros pj o Ho; cbn [fold_left]; [auto|].
  destruct (fix_type one); try (now apply IH).
  destruct (IH (addOverride pm_pnpm (fix_package one) (fix_version one) pj)
               (Js.put (fix_package one) (fix_version one) o)) as [-> ->].
  - unfold addOverride. now rewrite Ho.
  - unfold addOverride. rewrite Ho. auto.
Qed.

Lemma initOverrides_npm pj :
  overrides (initOverrides pm_npm pj) = Some (Js.entries_opt (overrides pj)).
Proof. unfold initOverrides. destruct (overrides pj) eqn:E; [exact E | reflexivity]. Qed.

Lemma initOverrides_yarn pj :
  resolutions (initOverrides pm_yarn pj) = Some (Js.entries_opt (resolutions pj)).
Proof. unfold initOverrides. destruct (resolutions pj) eqn:E; [exact E | reflexivity]. Qed.

Lemma initOverrides_pnpm pj :
  pnpm (initOverrides pm_pnpm pj)
  = Some {| pnpm_overrides :=
              Some (Js.entries_opt match pnpm pj with
                                   | Some f => pnpm_overrides f
                                   | None => None
                                   end) |} /\
  overrides (initOverrides pm_pnpm pj) = overrides pj.
Proof.
  unfold initOverrides. destruct (pnpm pj) as [[[o|]]|] eqn:E; split; auto.
Qed.

Lemma written_override_is_read pm pj l k v :
  lastOverride l k = Some v ->
  readableOverride pm pj k ->
  Js.get k (PackageManager.getOverrides (overrideUpdates pm l (initOverrides pm pj))
              (PackageManagerName_text pm)) = Some v.
Proof.
  intros Hlast [Hproto Hread]. unfold PackageManager.getOverrides.
  destruct pm; cbn [PackageManagerName_text String.eqb Ascii.eqb Bool.eqb].
  - (* npm *)
    destruct Hread as (Hnd & Hk & Hflat).
    rewrite (overrideUpdates_npm l _ _ (initOverrides_npm pj)).
    rewrite flattenOverrides_top.
    + now rewrite get_overridesAssigned, Hlast.
    + now apply NoDup_overridesAssigned.
    + exact Hk.
    + now apply flat_overridesAssigned.
  - (* pnpm *)
    destruct Hread as (Hnd & Hfield).
    destruct (initOverrides_pnpm pj) as [Hp0 Ho0].
    destruct (overrideUpdates_pnpm l _ _ Hp0) as [Hp Ho].
    rewrite Hp, Ho, Ho0.
    assert (Hres : Js.get k (Js.assign []
                               (overridesAssigned (fun v => v) l
                                  (Js.entries_opt match pnpm pj with
                                                  | Some f => pnpm_overrides f
                                                  | None => None
                                                  end))) = Some v).
    { rewrite get_assign_NoDup by (now apply NoDup_overridesAssigned).
      now rewrite get_overridesAssigned, Hlast. }
    unfold PackageManager.getOverrides in Hfield.
    cbn [String.eqb Ascii.eqb Bool.eqb] in Hfield.
    destruct (overrides pj) as [o|]; [|exact Hres].
    rewrite (overlays_flattenOverrides o ""), Hfield. exact Hres.
  - (* yarn *)
    rewrite (overrideUpdates_yarn l _ _ (initOverrides_yarn pj)).
    rewrite get_assign_NoDup by (now apply NoDup_overridesAssigned).
    now rewrite get_overridesAssigned, Hlast.
Qed.

(** X21.  What apply_fix writes is what getOverrides reads: after a run
    that is not a dry run, on a manifest that can be read and written, the
    one manifest written gives, for a package with an override fix, the
    version of the last such fix when it is read back with getOverrides for
    the same package manager.  This holds for a package name other than
    [__proto__] (under which the assignment creates no entry) when the
    override object has no key twice and, for pnpm, the overrides field of
    the manifest does not set the package (that field is read after
    pnpm.overrides and wins) and, for npm, the package name holds no [>] and
    nothing is nested under the empty key. *)
Theorem applied_override_is_read_back :
  forall (input : ApplyFixInput) (projectPath : string) (m : Manifest)
         (pkgName v : string),
    dryRun input = false ->
    readJsonFile (path_join projectPath "package.json") = Some m ->
    (forall content, writeFile (path_join projectPath "package.json") content = true) ->
    let pm := detected path_join fileExists readJsonFile execCommand projectPath in
    lastOverride (fixesInEffect execCommand fixesIn input projectPath pm) pkgName = Some v ->
    readableOverride pm (core m) pkgName ->
    exists o written,
      applyFix path_join fileExists readJsonFile execCommand writeFile fixesIn
        input projectPath = Done o /\
      writtenManifests o = [written] /\
      Js.get pkgName (PackageManager.getOverrides (core written) (PackageManagerName_text pm))
      = Some v.
Proof.
  intros input p m k v Hdry Hread Hwrite pm Hlast Hreadable.
  assert (Hfix : fixesInEffect execCommand fixesIn input p pm <> []).
  { intros E. rewrite E in Hlast. discriminate Hlast. }
  destruct (real_run_shape input p m Hdry Hread Hwrite Hfix) as (o & installs & Hrun & H).
  cbv zeta in H. destruct H as (_ & He & _ & _).
  eexists o, _. split; [exact Hrun|]. split.
  - unfold writtenManifests. rewrite He, !flat_map_app, !written_by_commands. reflexivity.
  - cbn [core]. now apply written_override_is_read.
Qed.

End ApplyingFixes.

Section ApplyingFixesSamples.
Import Types Detector ApplyFix FixNotions FixSamples.

(** X19, witness: a dry run with one override and one installation; the
    manifest does not declare its package manager. *)
Lemma dry_run_changes_nothing_witness :
  let input := {| fixes := Some [ {| fix_package := "lodash"; fix_version := "4.17.21";
                                      fix_type := fix_override |};
                                   {| fix_package := "react"; fix_version := "18.2.0";
                                      fix_type := fix_install |} ];
                  autoDetect := true; dryRun := true; reinstall := true |} in
  let m := {| core := Samples.manifest "app" None None; peerDependencies := None;
              packageManager := None; workspaces := None |} in
  let answer := {| stdout := ""; stderr := "boom"; exitCode := 1 |} in
  exists o,
    applyFix join absent (fun _ => Some m) (fun _ _ => answer) writable nothing
      input "/repo" = Done o /\
    writtenManifests o = [] /\
    executedCommands o = ["npm --version"] /\
    commands (result o)
    = ["npm install react@18.2.0"; "# 将修改 /repo/package.json"; "# 将执行 npm install"] /\
    warnings (result o) = [].
Proof.
  intros input m answer.
  destruct (dry_run_changes_nothing join absent (fun _ => Some m) (fun _ _ => answer)
              writable nothing input "/repo" m eq_refl eq_refl)
    as (o & Hrun & Hw & _ & Hx & Hwarn).
  exists o. split; [exact Hrun|]. split; [exact Hw|]. split; [exact Hx|].
  split; [|exact Hwarn].
  cbv in Hrun. injection Hrun as <-. reflexivity.
Defined.

(** X20, witness: one override and one installation, with the final
    installation; the manifest declares pnpm. *)
Lemma real_run_installs_then_writes_once_witness :
  let input := {| fixes := Some [ {| fix_package := "lodash"; fix_version := "4.17.21";
                                      fix_type := fix_override |};
                                   {| fix_package := "react"; fix_version := "18.2.0";
                                      fix_type := fix_install |} ];
                  autoDetect := true; dryRun := false; reinstall := true |} in
  let m := {| core := Samples.manifest "app" (Some [("express", "^4.18.0")]) None;
              peerDependencies := None; packageManager := Some "pnpm@8.15.0";
              workspaces := None |} in
  let answer := {| stdout := ""; stderr := ""; exitCode := 0%Z |} in
  exists o written,
    applyFix join absent (fun _ => Some m) (fun _ _ => answer) writable nothing
      input "/repo" = Done o /\
    commands (result o) = ["pnpm add react@18.2.0"; "pnpm install"] /\
    effects o = [Exec "pnpm add react@18.2.0" "/repo";
                 WriteFile "/repo/package.json" written;
                 Exec "pnpm install" "/repo"] /\
    modifiedFiles (result o) = ["/repo/package.json"] /\
    dependencies (core written) = Some [("express", "^4.18.0")].
Proof.
  intros input m answer.
  destruct (real_run_installs_then_writes_once join absent (fun _ => Some m)
              (fun _ _ => answer) writable nothing input "/repo" m eq_refl eq_refl
              (fun _ => eq_refl) ltac:(discriminate))
    as (o & installs & written & Hrun & Hc & He & Hm & _ & _ & _ & Hd & _).
  exists o, written. split; [exact Hrun|].
  assert (Hi : installs = ["pnpm add react@18.2.0"]).
  { cbv in Hrun. injection Hrun as <-. cbv in Hc.
    destruct installs as [|c [|c' l]]; try discriminate Hc;
      [now injection Hc as <- | destruct l; discriminate Hc]. }
  subst installs. split; [exact Hc|]. split; [exact He|]. split; [exact Hm|]. exact Hd.
Defined.

(** X21, witness: npm, lodash overridden twice, beside an override
    nested under another package. *)
Lemma applied_override_is_read_back_witness :
  let input := {| fixes := Some [ {| fix_package := "lodash"; fix_version := "4.17.20";
                                      fix_type := fix_override |};
                                   {| fix_package := "lodash"; fix_version := "4.17.21";
                                      fix_type := fix_override |} ];
                  autoDetect := false; dryRun := false; reinstall := false |} in
  let m := {| core :=
                {| Types.name := "app"; Types.version := "1.0.0";
                   dependencies := None; devDependencies := None; engines := None;
                   overrides := Some [("a", OvObject [("lodash", OvString "3.10.1")])];
                   resolutions := None; pnpm := None |};
              peerDependencies := None; packageManager := None; workspaces := None |} in
  let answer := {| stdout := "10.2.4"; stderr := ""; exitCode := 0%Z |} in
  exists o written,
    applyFix join absent (fun _ => Some m) (fun _ _ => answer) writable nothing
      input "/repo" = Done o /\
    writtenManifests o = [written] /\
    Js.get "lodash" (PackageManager.getOverrides (core written) "npm") = Some "4.17.21".
Proof.
  intros input m answer.
  apply (applied_override_is_read_back join absent (fun _ => Some m) (fun _ _ => answer)
           writable nothing input "/repo" m "lodash" "4.17.21" eq_refl eq_refl
           (fun _ => eq_refl) eq_refl).
  split; [discriminate|]. split; [|split].
  - repeat constructor. intros [].
  - cbn. intros H. repeat (destruct H as [H|H]; [discriminate H|]). exact H.
  - repeat constructor. intros [H _]. discriminate H.
Defined.

End ApplyingFixesSamples.

(* ===================================================================== *)
(** * Properties of analyze_dependencies *)
(* ===================================================================== *)

Section Analysis.
Import AnalyzeDependencies AnalysisNotions Spec.

Lemma sum_set_measure {V : Type} (f : V -> nat) (o : Js.object V) k v :
  list_sum (map (fun e => f (snd e)) (Js.set k v o))
  + match Js.get k o with Some x => f x | None => 0 end
  = list_sum (map (fun e => f (snd e)) o) + f v.
Proof.
  induction o as [|[k' x] o IH]; simpl; [lia|].
  destruct (k' =? k); simpl; lia.
Qed.

Lemma length_set_add x s : List.length (Js.set_add x s) <= S (List.length s).
Proof.
  unfold Js.set_add. destruct (existsb (String.eqb x) s); [lia|].
  rewrite length_app. simpl. lia.
Qed.

Lemma set_add_not_nil x s : Js.set_add x s <> [].
Proof.
  unfold Js.set_add. destruct (existsb (String.eqb x) s) eqn:E.
  - intros ->. discriminate E.
  - destruct s; discriminate.
Qed.

Lemma treeSize_app a b : treeSize (a ++ b) = treeSize a + treeSize b.
Proof. unfold treeSize. induction a as [|x a IH]; simpl; [reflexivity | rewrite IH; lia]. Qed.

Lemma grows_refl w : grows w [] w.
Proof. split; [auto | simpl; lia]. Qed.

Lemma grows_trans w1 f1 w2 f2 w3 :
  grows w1 f1 w2 -> grows w2 f2 w3 -> grows w1 (f1 ++ f2) w3.
Proof.
  intros [H1 L1] [H2 L2]. split; [auto|]. rewrite treeSize_app. lia.
Qed.

Lemma grows_onDepth d w : grows w [] (onDepth d w).
Proof. split; [auto | simpl; lia]. Qed.

Lemma wellFormed_recorded fm name version :
  Forall wellFormedFlat fm ->
  wellFormedFlat
    (name,
     let flat :=
       match Js.get name fm with
       | Some flat => flat
       | None => {| flat_name := name; versions := []; locations := []; requestedBy := [] |}
       end in
     {| flat_name := flat_name flat;
        versions := Js.set_add version (versions flat);
        locations := locations flat;
        requestedBy := requestedBy flat |}).
Proof.
  intros Hall. unfold wellFormedFlat. cbn [fst snd flat_name versions locations requestedBy].
  destruct (Js.get name fm) as [flat|] eqn:E.
  - apply get_in in E. rewrite Forall_forall in Hall.
    destruct (Hall _ E) as (Hn & Hv & Hd & Hl & Hr). cbn [fst snd] in *.
    split; [exact Hn|]. split; [apply set_add_not_nil|].
    split; [now apply NoDup_set_add|]. split; assumption.
  - cbn [flat_name versions locations requestedBy].
    split; [reflexivity|]. split; [apply set_add_not_nil|].
    split; [apply NoDup_set_add; constructor|]. split; reflexivity.
Qed.

Lemma pairCount_recorded fm name version :
  pairCount (recordVersion name version fm) <= S (pairCount fm).
Proof.
  unfold pairCount, recordVersion.
  match goal with
  | |- context [Js.set name ?v fm] =>
      pose proof (sum_set_measure (fun d => List.length (versions d)) fm name v) as Hs
  end.
  cbn [versions] in Hs.
  destruct (Js.get name fm) as [flat|].
  - pose proof (length_set_add version (versions flat)). lia.
  - pose proof (length_set_add version []). cbn [versions List.length] in *. lia.
Qed.

(** One package met: its version is recorded, then its dependencies are
    walked, then its node is there. *)
Lemma grows_entry name version w children w' mk :
  grows (recordVersion name version (fst w), snd w) children w' ->
  (forall c, nodeSize (mk c) = S (treeSize c)) ->
  grows w [mk children] w'.
Proof.
  intros [Hwf Hcount] Hmk. split.
  - intros [Hnd Hall]. apply Hwf. cbn [fst]. unfold recordVersion. split.
    + now apply NoDup_keys_set.
    + pose proof (wellFormed_recorded (fst w) name version Hall) as Hnew.
      cbv zeta in Hnew. apply Forall_set; [| exact Hnew | exact Hall].
      intros k' v' -> _. exact Hnew.
  - cbn [fst] in Hcount. unfold treeSize at 1. cbn [fold_right]. rewrite Hmk.
    pose proof (pairCount_recorded (fst w) name version). lia.
Qed.

(** *** The three walks *)

Lemma grows_fold_nodes {A : Type} (step : A -> Walk -> DependencyNode * Walk) l :
  Forall (fun a => forall w, grows w [fst (step a w)] (snd (step a w))) l ->
  forall nodes w0,
    let r := fold_left (fun acc a => let (node, w) := step a (snd acc) in
                                     (fst acc ++ [node], w)) l (nodes, w0) in
    exists found, fst r = nodes ++ found /\ grows w0 found (snd r).
Proof.
  induction 1 as [|a l Ha Hl IH]; intros nodes w0; cbn [fold_left].
  - exists []. rewrite app_nil_r. split; [reflexivity | apply grows_refl].
  - cbn [fst snd]. specialize (Ha w0). destruct (step a w0) as [node w1]. cbn [fst snd] in Ha.
    destruct (IH (nodes ++ [node]) w1) as (found & Hf & Hg).
    exists (node :: found). split.
    + rewrite Hf, <- app_assoc. reflexivity.
    + exact (grows_trans _ _ _ _ _ Ha Hg).
Qed.

Lemma grows_fold_lists {A : Type} (step : A -> Walk -> list DependencyNode * Walk) l :
  Forall (fun a => forall w, grows w (fst (step a w)) (snd (step a w))) l ->
  forall nodes w0,
    let r := fold_left (fun acc a => let (found, w) := step a (snd acc) in
                                     (fst acc ++ found, w)) l (nodes, w0) in
    exists found, fst r = nodes ++ found /\ grows w0 found (snd r).
Proof.
  induction 1 as [|a l Ha Hl IH]; intros nodes w0; cbn [fold_left].
  - exists []. rewrite app_nil_r. split; [reflexivity | apply grows_refl].
  - cbn [fst snd]. specialize (Ha w0). destruct (step a w0) as [here w1]. cbn [fst snd] in Ha.
    destruct (IH (nodes ++ here) w1) as (found & Hf & Hg).
    exists (here ++ found). split.
    + rewrite Hf, <- app_assoc. reflexivity.
    + exact (grows_trans _ _ _ _ _ Ha Hg).
Qed.

Lemma NpmDependencyEntry_nested_ind (P : NpmDependencyEntry -> Prop) :
  (forall v r d dd p pe pr deps,
     match deps with
     | Some l => Forall (fun kv => P (snd kv)) l
     | None => True
     end -> P (mkNpmDependencyEntry v r d dd p pe pr deps)) ->
  forall info, P info.
Proof.
  intros H. fix IH 1. intros [v r d dd p pe pr [l|]]; apply H; [|exact I].
  induction l as [|[k x] l IHl]; constructor; [apply IH | exact IHl].
Qed.

Lemma PnpmDependencyEntry_nested_ind (P : PnpmDependencyEntry -> Prop) :
  (forall v f p deps,
     match deps with
     | Some l => Forall (fun kv => P (snd kv)) l
     | None => True
     end -> P (mkPnpmDependencyEntry v f p deps)) ->
  forall info, P info.
Proof.
  intros H. fix IH 1. intros [v f p [l|]]; apply H; [|exact I].
  induction l as [|[k x] l IHl]; constructor; [apply IH | exact IHl].
Qed.

Lemma YarnTreeEntry_nested_ind (P : YarnTreeEntry -> Prop) :
  (forall n s children,
     match children with
     | Some l => Forall P l
     | None => True
     end -> P (mkYarnTreeEntry n s children)) ->
  forall item, P item.
Proof.
  intros H. fix IH 1. intros [n s [l|]]; apply H; [|exact I].
  induction l as [|x l IHl]; constructor; [apply IH | exact IHl].
Qed.

Lemma grows_parseNpmEntry info : forall name depth w,
  grows w [fst (parseNpmEntry name info depth w)] (snd (parseNpmEntry name info depth w)).
Proof.
  induction info as [v r d dd p pe pr deps IH] using NpmDependencyEntry_nested_ind.
  intros name depth w. cbn [parseNpmEntry].
  destruct deps as [deps|].
  - destruct (grows_fold_nodes
                (fun kv w => parseNpmEntry (fst kv) (snd kv) (depth + 1) w) deps
                ltac:(eapply Forall_impl; [|exact IH]; intros kv Hkv w0; apply Hkv)
                [] (onDepth (depth + 1)
                      (recordVersion name (Js.or_default v "unknown") (fst w), snd w)))
      as (found & Hf & Hg).
    cbv zeta in Hf, Hg.
    destruct (fold_left _ deps _) as [children w2]. cbn [fst snd] in *. subst children.
    apply (grows_entry name (Js.or_default v "unknown") w found w2
             (fun c => mkDependencyNode name _ _ _ _ _ _ _ c _ _)); [|reflexivity].
    exact (grows_trans _ [] _ _ _ (grows_onDepth _ _) Hg).
  - cbn [fst snd].
    apply (grows_entry name (Js.or_default v "unknown") w [] _
             (fun c => mkDependencyNode name _ _ _ _ _ _ _ c _ _)); [|reflexivity].
    apply grows_refl.
Qed.

Lemma grows_parsePnpmEntry info : forall name depth w,
  grows w [fst (parsePnpmEntry name info depth w)] (snd (parsePnpmEntry name info depth w)).
Proof.
  induction info as [v f p deps IH] using PnpmDependencyEntry_nested_ind.
  intros name depth w. cbn [parsePnpmEntry].
  destruct deps as [deps|].
  - destruct (grows_fold_nodes
                (fun kv w => parsePnpmEntry (fst kv) (snd kv) (depth + 1) w) deps
                ltac:(eapply Forall_impl; [|exact IH]; intros kv Hkv w0; apply Hkv)
                [] (onDepth (depth + 1)
                      (recordVersion name (Js.or_default v "unknown") (fst w), snd w)))
      as (found & Hf & Hg).
    cbv zeta in Hf, Hg.
    destruct (fold_left _ deps _) as [children w2]. cbn [fst snd] in *. subst children.
    apply (grows_entry name (Js.or_default v "unknown") w found w2
             (fun c => mkDependencyNode name _ _ _ _ _ _ _ c _ _)); [|reflexivity].
    exact (grows_trans _ [] _ _ _ (grows_onDepth _ _) Hg).
  - cbn [fst snd].
    apply (grows_entry name (Js.or_default v "unknown") w [] _
             (fun c => mkDependencyNode name _ _ _ _ _ _ _ c _ _)); [|reflexivity].
    apply grows_refl.
Qed.

Lemma grows_parseYarnEntry item : forall depth w,
  grows w (fst (parseYarnEntry item depth w)) (snd (parseYarnEntry item depth w)).
Proof.
  induction item as [n s children IH] using YarnTreeEntry_nested_ind.
  intros depth w. cbn [parseYarnEntry].
  destruct (yarnNameMatch n) as [[name version]|]; [|apply grows_refl].
  destruct children as [children|].
  - destruct (grows_fold_lists
                (fun child w => parseYarnEntry child (depth + 1) w) children
                ltac:(eapply Forall_impl; [|exact IH]; intros kv Hkv w0; apply Hkv)
                [] (onDepth (depth + 1) (recordVersion name version (fst w), snd w)))
      as (found & Hf & Hg).
    cbv zeta in Hf, Hg.
    destruct (fold_left _ children _) as [nodes w2]. cbn [fst snd] in *. subst nodes.
    apply (grows_entry name version w found w2
             (fun c => mkDependencyNode name _ _ _ _ _ _ _ c _ _)); [|reflexivity].
    exact (grows_trans _ [] _ _ _ (grows_onDepth _ _) Hg).
  - cbn [fst snd].
    apply (grows_entry name version w [] _
             (fun c => mkDependencyNode name _ _ _ _ _ _ _ c _ _)); [|reflexivity].
    apply grows_refl.
Qed.

Lemma grows_parseNpmDependencies deps nodes w depth :
  exists found,
    fst (parseNpmDependencies deps nodes w depth) = nodes ++ found /\
    grows w found (snd (parseNpmDependencies deps nodes w depth)).
Proof.
  unfold parseNpmDependencies.
  destruct (grows_fold_nodes (fun kv w => parseNpmEntry (fst kv) (snd kv) depth w) deps
              ltac:(apply Forall_forall; intros kv _ w0; apply grows_parseNpmEntry)
              nodes (onDepth depth w)) as (found & Hf & Hg).
  exists found. split; [exact Hf|].
  exact (grows_trans _ [] _ _ _ (grows_onDepth _ _) Hg).
Qed.

Lemma grows_parsePnpmDependencies deps nodes w depth :
  exists found,
    fst (parsePnpmDependencies deps nodes w depth) = nodes ++ found /\
    grows w found (snd (parsePnpmDependencies deps nodes w depth)).
Proof.
  unfold parsePnpmDependencies.
  destruct (grows_fold_nodes (fun kv w => parsePnpmEntry (fst kv) (snd kv) depth w) deps
              ltac:(apply Forall_forall; intros kv _ w0; apply grows_parsePnpmEntry)
              nodes (onDepth depth w)) as (found & Hf & Hg).
  exists found. split; [exact Hf|].
  exact (grows_trans _ [] _ _ _ (grows_onDepth _ _) Hg).
Qed.

Lemma grows_parseYarnDependencies trees nodes w depth :
  exists found,
    fst (parseYarnDependencies trees nodes w depth) = nodes ++ found /\
    grows w found (snd (parseYarnDependencies trees nodes w depth)).
Proof.
  unfold parseYarnDependencies.
  destruct (grows_fold_lists (fun item w => parseYarnEntry item depth w) trees
              ltac:(apply Forall_forall; intros kv _ w0; apply grows_parseYarnEntry)
              nodes (onDepth depth w)) as (found & Hf & Hg).
  exists found. split; [exact Hf|].
  exact (grows_trans _ [] _ _ _ (grows_onDepth _ _) Hg).
Qed.

(** A step of the reading of a listing that extends the tree and keeps the
    flat map in order. *)
Lemma extends_fold {A : Type}
    (step : list DependencyNode * Walk -> A -> list DependencyNode * Walk) l :
  (forall acc a, exists found,
      fst (step acc a) = fst acc ++ found /\ grows (snd acc) found (snd (step acc a))) ->
  forall acc, exists found,
    fst (fold_left step l acc) = fst acc ++ found /\
    grows (snd acc) found (snd (fold_left step l acc)).
Proof.
  intros Hstep. induction l as [|a l IH]; intros acc; cbn [fold_left].
  - exists []. rewrite app_nil_r. split; [reflexivity | apply grows_refl].
  - destruct (Hstep acc a) as (f1 & Hf1 & Hg1).
    destruct (IH (step acc a)) as (f2 & Hf2 & Hg2).
    exists (f1 ++ f2). split.
    + rewrite Hf2, Hf1, <- app_assoc. reflexivity.
    + exact (grows_trans _ _ _ _ _ Hg1 Hg2).
Qed.

Section Listing.

Variable parseNpmJson : string -> Js.result NpmListData.
Variable parsePnpmJson : string -> Js.result PnpmLine.
Variable parseYarnJson : string -> Js.result YarnLine.

Lemma parsePnpmItem_extends acc item :
  exists found,
    fst (parsePnpmItem acc item) = fst acc ++ found /\
    grows (snd acc) found (snd (parsePnpmItem acc item)).
Proof.
  unfold parsePnpmItem. destruct (pnpm_item_dependencies item) as [deps|].
  - apply grows_parsePnpmDependencies.
  - exists []. rewrite app_nil_r. split; [reflexivity | apply grows_refl].
Qed.

Lemma parsePnpmLine_extends acc line :
  exists found,
    fst (parsePnpmLine parsePnpmJson acc line) = fst acc ++ found /\
    grows (snd acc) found (snd (parsePnpmLine parsePnpmJson acc line)).
Proof.
  unfold parsePnpmLine. destruct (parsePnpmJson line) as [[items|item]|].
  - apply extends_fold. apply parsePnpmItem_extends.
  - apply parsePnpmItem_extends.
  - exists []. rewrite app_nil_r. split; [reflexivity | apply grows_refl].
Qed.

Lemma parseYarnLine_extends acc line :
  exists found,
    fst (parseYarnLine parseYarnJson acc line) = fst acc ++ found /\
    grows (snd acc) found (snd (parseYarnLine parseYarnJson acc line)).
Proof.
  assert (Hnone : exists found : list DependencyNode,
             fst acc = fst acc ++ found /\ grows (snd acc) found (snd acc)).
  { exists []. rewrite app_nil_r. split; [reflexivity | apply grows_refl]. }
  unfold parseYarnLine. destruct (parseYarnJson line) as [data|]; [|exact Hnone].
  destruct (yarn_type data) as [t|]; [|exact Hnone].
  destruct (yarn_data_trees data) as [trees|]; [|exact Hnone].
  destruct (t =? "tree"); [|exact Hnone].
  apply grows_parseYarnDependencies.
Qed.

Lemma readListing_grows stdout stderr pm :
  grows ([], 0)
    (fst (readListing parseNpmJson parsePnpmJson parseYarnJson stdout stderr pm))
    (snd (readListing parseNpmJson parsePnpmJson parseYarnJson stdout stderr pm)).
Proof.
  unfold readListing.
  destruct (pm =? "npm").
  { destruct (parseNpmJson stdout) as [data|].
    - destruct (npm_data_dependencies data) as [deps|]; [|apply grows_refl].
      destruct (grows_parseNpmDependencies deps [] ([], 0) 0) as (found & Hf & Hg).
      rewrite Hf. exact Hg.
    - cbn [fst snd]. split; [auto|]. cbn. lia. }
  destruct (pm =? "pnpm").
  { destruct (extends_fold (parsePnpmLine parsePnpmJson)
                (Js.split newline (Js.trim stdout)) parsePnpmLine_extends ([], ([], 0)))
      as (found & Hf & Hg).
    rewrite Hf. exact Hg. }
  destruct (pm =? "yarn"); [|apply grows_refl].
  destruct (extends_fold (parseYarnLine parseYarnJson)
              (Js.split newline (Js.trim stdout)) parseYarnLine_extends ([], ([], 0)))
    as (found & Hf & Hg).
  rewrite Hf. exact Hg.
Qed.

Lemma fold_sum_versions l : forall a,
  fold_left (fun sum d => sum + List.length (versions d)) l a
  = a + list_sum (map (fun d => List.length (versions d)) l).
Proof.
  induction l as [|d l IH]; intros a; simpl; [lia|].
  rewrite IH. lia.
Qed.

Lemma duplicates_bound (l : list FlatDependency) :
  Forall (fun d => versions d <> []) l ->
  List.length l + List.length (filter (fun d => (1 <? List.length (versions d))%nat) l)
  <= list_sum (map (fun d => List.length (versions d)) l).
Proof.
  induction 1 as [|d l Hd Hl IH]; simpl; [lia|].
  destruct (versions d) as [|v [|v' vs]] eqn:E; [contradiction| |]; simpl in *; lia.
Qed.

(** X22.  The statistics of analyze_dependencies are consistent for
    every listing and package manager: the flat list names no package twice
    and gives each at least one version, none twice; uniquePackages is its
    length, totalPackages the number of its (package, version) pairs, and a
    package with several versions counts once more, so that uniquePackages +
    duplicatePackages <= totalPackages <= number of nodes of the tree.
    prodDependencies always equals totalPackages, devDependencies is always
    0, and no location or requester is ever filled in. *)
Theorem listing_stats_are_consistent :
  forall stdout stderr pm : string,
    let parsed := parseListOutput parseNpmJson parsePnpmJson parseYarnJson
                    stdout stderr pm in
    let s := stats parsed in
    NoDup (map flat_name (flatList parsed)) /\
    Forall (fun d => versions d <> [] /\ NoDup (versions d) /\
                     locations d = [] /\ requestedBy d = [])
           (flatList parsed) /\
    uniquePackages s = List.length (flatList parsed) /\
    totalPackages s = list_sum (map (fun d => List.length (versions d)) (flatList parsed)) /\
    duplicatePackages s <= uniquePackages s /\
    uniquePackages s + duplicatePackages s <= totalPackages s /\
    totalPackages s <= treeSize (tree parsed) /\
    prodDependencies s = totalPackages s /\
    devDependencies s = 0.
Proof.
  intros stdout stderr pm parsed s. subst s parsed. unfold parseListOutput.
  pose proof (readListing_grows stdout stderr pm) as [Hwf Hcount].
  destruct (readListing parseNpmJson parsePnpmJson parseYarnJson stdout stderr pm)
    as [t [fm depth]].
  cbn [fst snd] in Hwf, Hcount.
  destruct Hwf as [Hnd Hall]; [split; constructor|].
  cbn [flatList stats tree uniquePackages totalPackages duplicatePackages
       prodDependencies devDependencies].
  rewrite !fold_sum_versions. cbn [Nat.add].
  assert (Hnames : map flat_name (map snd fm) = map fst fm).
  { rewrite map_map. apply map_ext_in. intros e He.
    rewrite Forall_forall in Hall. now destruct (Hall e He). }
  assert (Hvers : Forall (fun d => versions d <> [] /\ NoDup (versions d) /\
                                   locations d = [] /\ requestedBy d = [])
                    (map snd fm)).
  { apply Forall_map. eapply Forall_impl; [|exact Hall].
    intros e (_ & H1 & H2 & H3 & H4). auto. }
  assert (Hsum : list_sum (map (fun d => List.length (versions d)) (map snd fm))
                 = pairCount fm).
  { unfold pairCount. now rewrite map_map. }
  pose proof (duplicates_bound (map snd fm)
                ltac:(eapply Forall_impl; [|exact Hvers]; intros d Hd; apply Hd)) as Hdup.
  pose proof (filter_length_le (fun d => (1 <? List.length (versions d))%nat) (map snd fm))
    as Hle.
  rewrite Hnames. change (pairCount []) with 0 in Hcount.
  split; [exact Hnd|]. split; [exact Hvers|]. split; [reflexivity|].
  split; [reflexivity|]. split; [exact Hle|]. split; [exact Hdup|].
  split; [rewrite Hsum; lia|]. split; reflexivity.
Qed.

(** *** Agreement with detect_conflicts *)

Lemma versionsOf_get fm k :
  Js.get k (versionsOf fm) = option_map versions (Js.get k fm).
Proof.
  unfold versionsOf. induction fm as [|[k' x] fm IH]; simpl; [reflexivity|].
  now destruct (k' =? k).
Qed.

Lemma versionsOf_set fm k x :
  versionsOf (Js.set k x fm) = Js.set k (versions x) (versionsOf fm).
Proof.
  unfold versionsOf. induction fm as [|[k' y] fm IH]; simpl; [reflexivity|].
  destruct (k' =? k); simpl; [reflexivity | now rewrite IH].
Qed.

Lemma versionsOf_record name version fm :
  versionsOf (recordVersion name version fm)
  = DetectConflicts.addVersion name version (versionsOf fm).
Proof.
  unfold recordVersion, DetectConflicts.addVersion.
  rewrite versionsOf_set, versionsOf_get.
  now destruct (Js.get name fm).
Qed.

Lemma agrees_fold deps depth :
  Forall (fun kv => versioned (snd kv) ->
                    forall name depth w,
                      versionsOf (fst (snd (parseNpmEntry name (snd kv) depth w)))
                      = DetectConflicts.collectEntry name (forget (snd kv))
                          (versionsOf (fst w))) deps ->
  allVersioned deps ->
  forall nodes w,
    versionsOf
      (fst (snd (fold_left
                   (fun acc kv =>
                      let (node, w) := parseNpmEntry (fst kv) (snd kv) depth (snd acc) in
                      (fst acc ++ [node], w))
                   deps (nodes, w))))
    = fold_left (fun m kv => DetectConflicts.collectEntry (fst kv) (snd kv) m)
        (forgetAll deps) (versionsOf (fst w)).
Proof.
  induction 1 as [|[k x] deps Hx Hdeps IH]; intros Hall nodes w; [reflexivity|].
  destruct Hall as [Hv Hall]. cbn [fold_left forgetAll map fst snd].
  specialize (Hx Hv k depth w). cbn [snd] in Hx.
  destruct (parseNpmEntry k x depth w) as [node w1]. cbn [fst snd] in Hx.
  rewrite <- Hx. apply (IH Hall).
Qed.

Lemma agrees_entry info :
  versioned info ->
  forall name depth w,
    versionsOf (fst (snd (parseNpmEntry name info depth w)))
    = DetectConflicts.collectEntry name (forget info) (versionsOf (fst w)).
Proof.
  induction info as [v r d dd p pe pr deps IH] using NpmDependencyEntry_nested_ind.
  intros [Hv Hdeps] name depth w.
  destruct v as [s|]; [|discriminate Hv]. cbn [Js.truthy_opt] in Hv.
  cbn [parseNpmEntry forget DetectConflicts.collectEntry Js.or_default]. rewrite Hv.
  destruct deps as [deps|].
  - pose proof (agrees_fold deps (depth + 1) IH Hdeps []
                  (onDepth (depth + 1) (recordVersion name s (fst w), snd w))) as H.
    destruct (fold_left _ deps ([], onDepth _ _)) as [children w2].
    cbn [fst snd onDepth] in *. rewrite H, versionsOf_record. reflexivity.
  - cbn [fst snd]. apply versionsOf_record.
Qed.

Lemma multipleVersions_count vm : forall ids n,
  List.length (fst (Loops.for_push DetectConflicts.multipleVersionsIssue vm ids n))
  = List.length (filter (fun e => (1 <? List.length (snd e))%nat) vm).
Proof.
  induction vm as [|[k x] vm IH]; intros ids n; [reflexivity|].
  rewrite for_push_cons, length_app, IH. cbn [filter snd DetectConflicts.multipleVersionsIssue].
  destruct (1 <? List.length x)%nat; reflexivity.
Qed.

(** X23.  On a listing of npm in which every node carries a version,
    analyze_dependencies and detect_conflicts agree: the flat list holds the
    same packages, in the same order and with the same versions, as the
    version map of the multiple-versions check, and duplicatePackages is the
    number of multiple_versions records that the check reports. *)
Theorem analysis_agrees_with_conflict_check :
  forall (stdout stderr : string) (data : NpmListData) (problems : option (list string)),
    parseNpmJson stdout = Js.Ret data ->
    allVersioned (Js.entries_opt (npm_data_dependencies data)) ->
    let parsed := parseListOutput parseNpmJson parsePnpmJson parseYarnJson
                    stdout stderr "npm" in
    let listing :=
      {| DetectConflicts.stdout_json :=
           Some {| DetectConflicts.problems := problems;
                   DetectConflicts.ls_dependencies :=
                     option_map forgetAll (npm_data_dependencies data) |};
         DetectConflicts.stderr := stderr |} in
    map (fun d => (flat_name d, versions d)) (flatList parsed)
    = DetectConflicts.collectedVersions "npm" listing /\
    forall ids n,
      duplicatePackages (stats parsed)
      = List.length (Utils.run (DetectConflicts.detectMultipleVersions "npm" listing) ids n).
Proof.
  intros stdout stderr data problems Hparse Hall parsed listing.
  pose proof (readListing_grows stdout stderr "npm") as [Hwf _].
  assert (Hmap : versionsOf
                   (fst (snd (readListing parseNpmJson parsePnpmJson parseYarnJson
                                stdout stderr "npm")))
                 = DetectConflicts.collectedVersions "npm" listing).
  { unfold readListing, DetectConflicts.collectedVersions. subst listing.
    cbn [String.eqb Ascii.eqb Bool.eqb DetectConflicts.stdout_json
         DetectConflicts.ls_dependencies]. rewrite Hparse.
    destruct (npm_data_dependencies data) as [deps|]; [|reflexivity].
    cbn [option_map DetectConflicts.collectNpmVersions Js.entries_opt] in *.
    unfold parseNpmDependencies.
    apply (agrees_fold deps 0); [|exact Hall].
    apply Forall_forall. intros kv _ Hv. now apply agrees_entry. }
  subst parsed. unfold parseListOutput.
  destruct (readListing parseNpmJson parsePnpmJson parseYarnJson stdout stderr "npm")
    as [t [fm depth]].
  cbn [fst snd] in Hwf, Hmap.
  destruct Hwf as [_ Hflat]; [split; constructor|].
  cbn [flatList stats duplicatePackages].
  assert (Hlist : map (fun d => (flat_name d, versions d)) (map snd fm) = versionsOf fm).
  { unfold versionsOf. rewrite map_map. apply map_ext_in. intros e He.
    rewrite Forall_forall in Hflat. destruct (Hflat e He) as [Hn _]. now rewrite Hn. }
  split; [now rewrite Hlist|].
  intros ids n. unfold Utils.run, DetectConflicts.detectMultipleVersions.
  cbn [DetectConflicts.fullListCommand String.eqb Ascii.eqb Bool.eqb].
  rewrite multipleVersions_count, <- Hmap. unfold versionsOf.
  clear. induction fm as [|[k x] fm IH]; cbn [map filter snd]; [reflexivity|].
  destruct (1 <? List.length (versions x))%nat; cbn [List.length]; now rewrite IH.
Qed.

End Listing.

End Analysis.

Section AnalysisSamples.
Import AnalyzeDependencies AnalysisNotions.

(** X23, witness: lodash is installed twice, at two versions. *)
Lemma analysis_agrees_with_conflict_check_witness :
  let package v deps := mkNpmDependencyEntry (Some v) None None None None None None deps in
  let data :=
    {| npm_data_dependencies :=
         Some [ ("lodash", package "4.17.21" None);
                ("a", package "1.0.0" (Some [("lodash", package "3.10.1" None)])) ] |} in
  let parsed := parseListOutput (fun _ => Js.Ret data) (fun _ => Js.Throw)
                  (fun _ => Js.Throw) "{...}" "" "npm" in
  let listing :=
    {| DetectConflicts.stdout_json :=
         Some {| DetectConflicts.problems := None;
                 DetectConflicts.ls_dependencies :=
                   option_map forgetAll (npm_data_dependencies data) |};
       DetectConflicts.stderr := "" |} in
  map (fun d => (flat_name d, versions d)) (flatList parsed)
  = [("lodash", ["4.17.21"; "3.10.1"]); ("a", ["1.0.0"])] /\
  duplicatePackages (stats parsed) = 1 /\
  List.length (Utils.run (DetectConflicts.detectMultipleVersions "npm" listing)
                 Samples.ids 0) = 1.
Proof.
  intros package data parsed listing.
  destruct (analysis_agrees_with_conflict_check (fun _ => Js.Ret data) (fun _ => Js.Throw)
              (fun _ => Js.Throw) "{...}" "" data None eq_refl)
    as [Hlist Hcount].
  - cbn. repeat split.
  - split; [exact Hlist|]. split; [reflexivity|].
    etransitivity; [symmetry; apply (Hcount Samples.ids 0) | reflexivity].
Defined.

End AnalysisSamples.

(* ===================================================================== *)
(** * Properties of trace_dependency *)
(* ===================================================================== *)

Section Tracing.
Import AnalyzeDependencies AnalysisNotions TraceDependency Spec.

Lemma collected_fold target deps path :
  Forall (fun kv => forall name path versions,
            map iv_version (collectFromEntry target name (snd kv) path versions)
            = map iv_version versions
              ++ map snd (filter (fun o => fst o =? target)
                            (nodeOccurrences name (forget (snd kv)))) /\
            (Forall (fun v => List.length (usedBy v) = 1) versions ->
             Forall (fun v => List.length (usedBy v) = 1)
                    (collectFromEntry target name (snd kv) path versions))) deps ->
  forall versions,
    map iv_version
      (fold_left (fun versions kv => collectFromEntry target (fst kv) (snd kv) path versions)
         deps versions)
    = map iv_version versions
      ++ map snd (filter (fun o => fst o =? target)
                    (flat_map (fun kv => nodeOccurrences (fst kv) (snd kv)) (forgetAll deps))) /\
    (Forall (fun v => List.length (usedBy v) = 1) versions ->
     Forall (fun v => List.length (usedBy v) = 1)
            (fold_left
               (fun versions kv => collectFromEntry target (fst kv) (snd kv) path versions)
               deps versions)).
Proof.
  induction 1 as [|[k x] deps Hx Hdeps IH]; intros versions; cbn [fold_left forgetAll map].
  - cbn. rewrite app_nil_r. auto.
  - cbn [fst snd flat_map] in *. destruct (Hx k path versions) as [Hm Hu].
    destruct (IH (collectFromEntry target k x path versions)) as [IHm IHu].
    split; [|auto].
    rewrite IHm, Hm, filter_app, map_app, <- app_assoc. reflexivity.
Qed.

Lemma userOf_one path : List.length (userOf path) = 1.
Proof. unfold userOf. now destruct (Js.truthy path). Qed.

Lemma collected_entry target info : forall name path versions,
  map iv_version (collectFromEntry target name info path versions)
  = map iv_version versions
    ++ map snd (filter (fun o => fst o =? target) (nodeOccurrences name (forget info))) /\
  (Forall (fun v => List.length (usedBy v) = 1) versions ->
   Forall (fun v => List.length (usedBy v) = 1)
          (collectFromEntry target name info path versions)).
Proof.
  induction info as [v r d dd p pe pr deps IH] using NpmDependencyEntry_nested_ind.
  intros name path versions. cbn [collectFromEntry forget nodeOccurrences].
  set (here := if Js.truthy path then Js.cat [path; " > "; name] else name).
  set (found := if (name =? target) && Js.truthy_opt v
                then versions ++ [ {| iv_version := Js.or_default v "";
                                      iv_location := Js.or_default p here;
                                      usedBy := userOf path |} ]
                else versions).
  assert (Hfound :
    map iv_version found
    = map iv_version versions
      ++ map snd (filter (fun o => fst o =? target)
                    match v with
                    | Some v => if Js.truthy v then [(name, v)] else []
                    | None => []
                    end) /\
    (Forall (fun v => List.length (usedBy v) = 1) versions ->
     Forall (fun v => List.length (usedBy v) = 1) found)).
  { subst found. destruct v as [s|]; cbn [Js.truthy_opt Js.or_default].
    - destruct (Js.truthy s); cbn [filter fst].
      + destruct (name =? target); cbn [andb map snd].
        * rewrite map_app. split; [reflexivity|].
          intros H. apply Forall_app. split; [exact H|].
          repeat constructor. apply userOf_one.
        * rewrite app_nil_r. auto.
      + rewrite andb_false_r. cbn. rewrite app_nil_r. auto.
    - rewrite andb_false_r. cbn. rewrite app_nil_r. auto. }
  destruct Hfound as [Hm Hu].
  destruct deps as [deps|].
  - destruct (collected_fold target deps here IH found) as [Fm Fu].
    split; [|auto].
    rewrite Fm, Hm, filter_app, map_app, <- app_assoc. reflexivity.
  - rewrite app_nil_r. auto.
Qed.

Lemma keys_mergeVersion u v :
  keys (mergeVersion u v) = Js.set_add (iv_version v) (keys u).
Proof.
  unfold mergeVersion, Js.set_add.
  destruct (Js.get (iv_version v) u) as [existing|] eqn:E.
  - assert (Hin : In (iv_version v) (keys u)) by (apply in_keys_get; congruence).
    rewrite keys_set_in by exact Hin.
    assert (Hex : existsb (String.eqb (iv_version v)) (keys u) = true).
    { apply existsb_exists. exists (iv_version v). split; [exact Hin | apply String.eqb_refl]. }
    now rewrite Hex.
  - assert (Hnin : ~ In (iv_version v) (keys u)).
    { intros H. apply in_keys_get in H. contradiction. }
    rewrite keys_set_new by exact Hnin.
    destruct (existsb (String.eqb (iv_version v)) (keys u)) eqn:Hex; [|reflexivity].
    apply existsb_exists in Hex as (x & Hx & Heq). apply String.eqb_eq in Heq.
    subst x. contradiction.
Qed.

Lemma users_set (o : Js.object InstalledVersion) k v :
  list_sum (map (fun e => List.length (usedBy (snd e))) (Js.set k v o))
  + match Js.get k o with Some x => List.length (usedBy x) | None => 0 end
  = list_sum (map (fun e => List.length (usedBy (snd e))) o) + List.length (usedBy v).
Proof.
  induction o as [|[k' x] o IH]; simpl; [lia|].
  destruct (k' =? k); simpl; lia.
Qed.

(** What the removal of duplicates maintains. *)
Lemma merged vs : forall u,
  Forall (fun e => iv_version (snd e) = fst e /\ usedBy (snd e) <> []) u ->
  Forall (fun v => List.length (usedBy v) = 1) vs ->
  Forall (fun e => iv_version (snd e) = fst e /\ usedBy (snd e) <> [])
         (fold_left mergeVersion vs u) /\
  keys (fold_left mergeVersion vs u)
  = fold_left (fun s x => Js.set_add x s) (map iv_version vs) (keys u) /\
  list_sum (map (fun e => List.length (usedBy (snd e))) (fold_left mergeVersion vs u))
  = list_sum (map (fun e => List.length (usedBy (snd e))) u) + List.length vs.
Proof.
  induction vs as [|v vs IH]; intros u Hu Hvs; cbn [fold_left map List.length].
  - split; [exact Hu|]. split; [reflexivity | lia].
  - apply Forall_cons_iff in Hvs as [Hv Hvs].
    assert (Hstep : Forall (fun e => iv_version (snd e) = fst e /\ usedBy (snd e) <> [])
                      (mergeVersion u v)).
    { unfold mergeVersion. destruct (Js.get (iv_version v) u) as [existing|] eqn:E.
      - apply get_in in E. rewrite Forall_forall in Hu. destruct (Hu _ E) as [He Hne].
        cbn [fst snd] in *.
        apply Forall_set; [| |apply Forall_forall; exact Hu];
          intros; cbn [fst snd iv_version usedBy]; (split; [congruence|]);
          (destruct (usedBy existing); [contradiction | discriminate]).
      - apply Forall_set; [| |exact Hu];
          intros; cbn [fst snd]; (split; [congruence|]);
          (destruct (usedBy v); [discriminate Hv | discriminate]). }
    destruct (IH (mergeVersion u v) Hstep Hvs) as (H1 & H2 & H3).
    split; [exact H1|]. split; [now rewrite H2, keys_mergeVersion|].
    rewrite H3. unfold mergeVersion.
    destruct (Js.get (iv_version v) u) as [existing|] eqn:E.
    + pose proof (users_set u (iv_version v)
                    {| iv_version := iv_version existing;
                       iv_location := iv_location existing;
                       usedBy := usedBy existing ++ usedBy v |}) as Hs.
      rewrite E in Hs. cbn [usedBy] in Hs. rewrite length_app, Hv in Hs. lia.
    + pose proof (users_set u (iv_version v) v) as Hs. rewrite E, Hv in Hs. lia.
Qed.

Lemma versionsIn_occurrences target occs : forall m,
  versionsIn (fold_left addOccurrence occs m) target
  = fold_left (fun s x => Js.set_add x s)
      (map snd (filter (fun o => fst o =? target) occs)) (versionsIn m target).
Proof.
  induction occs as [|[k v] occs IH]; intros m; cbn [fold_left filter fst]; [reflexivity|].
  rewrite IH. unfold addOccurrence. cbn [fst snd].
  destruct (String.eqb_spec k target) as [->|Hne]; cbn [map fold_left snd].
  - now rewrite versionsIn_addVersion_eq.
  - now rewrite versionsIn_addVersion_ne.
Qed.

Lemma NoDup_fold_set_add l : forall s,
  NoDup s -> NoDup (fold_left (fun s x => Js.set_add x s) l s).
Proof.
  induction l as [|x l IH]; intros s Hs; cbn [fold_left]; [exact Hs|].
  apply IH. now apply NoDup_set_add.
Qed.

Section Shell.

Variable execCommand : string -> string -> Detector.CommandResult.
Variable parseNpmJson : string -> Js.result NpmListData.

(** X24.  For npm, the installed versions that trace_dependency reports
    for a package are the versions that the multiple-versions check of
    detect_conflicts holds for it on the same listing, in the same order:
    each version once, in the order in which the tree first shows it.  No
    user is lost when duplicates are merged: every reported version has at
    least one user, and the usedBy lists together have one entry for each
    node of the tree that carries the package with a version. *)
Theorem installed_versions_agree_with_conflict_check :
  forall (projectPath packageName : string) (data : NpmListData)
         (problems : option (list string)),
    let result := execCommand (Js.cat ["npm ls "; packageName; " --json --all"])
                    projectPath in
    Detector.stdout result <> "" ->
    parseNpmJson (Detector.stdout result) = Js.Ret data ->
    let installed := getInstalledVersions execCommand parseNpmJson projectPath
                       packageName "npm" in
    let parsed :=
      {| DetectConflicts.problems := problems;
         DetectConflicts.ls_dependencies :=
           option_map forgetAll (npm_data_dependencies data) |} in
    let listing := {| DetectConflicts.stdout_json := Some parsed;
                      DetectConflicts.stderr := Detector.stderr result |} in
    map iv_version installed
    = versionsIn (DetectConflicts.collectedVersions "npm" listing) packageName /\
    NoDup (map iv_version installed) /\
    Forall (fun v => usedBy v <> []) installed /\
    list_sum (map (fun v => List.length (usedBy v)) installed)
    = List.length (filter (fun o => fst o =? packageName)
                     (treeOccurrences (DetectConflicts.ls_dependencies parsed))).
Proof.
  intros projectPath packageName data problems result Hout Hparse installed parsed listing.
  subst installed. unfold getInstalledVersions.
  cbn [installedCommand String.eqb Ascii.eqb Bool.eqb andb]. fold result.
  assert (Ht : Js.truthy (Detector.stdout result) = true).
  { unfold Js.truthy. now destruct (String.eqb_spec (Detector.stdout result) ""). }
  rewrite Ht, Hparse.
  set (occs := filter (fun o => fst o =? packageName)
                 (treeOccurrences (DetectConflicts.ls_dependencies parsed))).
  set (vs := collectVersionsFromNpmLs data packageName [] "").
  assert (Hvs : map iv_version vs = map snd occs /\
                Forall (fun v => List.length (usedBy v) = 1) vs).
  { subst vs occs parsed. unfold collectVersionsFromNpmLs.
    cbn [DetectConflicts.ls_dependencies].
    destruct (npm_data_dependencies data) as [deps|]; [|split; [reflexivity | constructor]].
    cbn [option_map treeOccurrences].
    destruct (collected_fold packageName deps ""
                ltac:(apply Forall_forall; intros kv _ name path versions;
                      apply collected_entry) []) as [Hm Hu].
    split; [exact Hm | apply Hu; constructor]. }
  destruct Hvs as [Hm Hone].
  destruct (merged vs [] ltac:(constructor) Hone) as (Hwf & Hkeys & Husers).
  assert (Hversions : map iv_version (map snd (fold_left mergeVersion vs []))
                      = keys (fold_left mergeVersion vs [])).
  { unfold keys. rewrite map_map. apply map_ext_in. intros e He.
    rewrite Forall_forall in Hwf. now destruct (Hwf e He). }
  rewrite Hversions, Hkeys, Hm. cbn [keys map].
  split; [|split; [|split]].
  - subst listing. unfold DetectConflicts.collectedVersions.
    cbn [String.eqb Ascii.eqb Bool.eqb DetectConflicts.stdout_json].
    rewrite collectNpmVersions_occurrences, versionsIn_occurrences. reflexivity.
  - apply NoDup_fold_set_add. constructor.
  - apply Forall_map. eapply Forall_impl; [|exact Hwf]. intros e [_ H]. exact H.
  - rewrite map_map, Husers. cbn [map list_sum].
    rewrite <- (length_map iv_version vs), Hm, length_map. reflexivity.
Qed.

End Shell.

End Tracing.

Section TracingSamples.
Import AnalyzeDependencies AnalysisNotions TraceDependency Spec.

(** X24, witness: lodash under the root and, at another version, under
    two packages. *)
Lemma installed_versions_agree_with_conflict_check_witness :
  let package v deps := mkNpmDependencyEntry (Some v) None None None None None None deps in
  let data :=
    {| npm_data_dependencies :=
         Some [ ("lodash", package "4.17.21" None);
                ("a", package "1.0.0" (Some [("lodash", package "3.10.1" None)]));
                ("b", package "2.0.0" (Some [("lodash", package "3.10.1" None)])) ] |} in
  let execCommand :=
    fun (_ _ : string) =>
      {| Detector.stdout := "{...}"; Detector.stderr := ""; Detector.exitCode := 0 |} in
  let installed := getInstalledVersions execCommand (fun _ => Js.Ret data) "/repo"
                     "lodash" "npm" in
  map (fun v => (iv_version v, usedBy v)) installed
  = [("4.17.21", ["root"]); ("3.10.1", ["a"; "b"])] /\
  NoDup (map iv_version installed) /\
  list_sum (map (fun v => List.length (usedBy v)) installed) = 3.
Proof.
  intros package data execCommand installed.
  destruct (installed_versions_agree_with_conflict_check execCommand (fun _ => Js.Ret data)
              "/repo" "lodash" data None ltac:(discriminate) eq_refl)
    as (_ & Hnd & _ & Hsum).
  split; [reflexivity|]. split; [exact Hnd | exact Hsum].
Defined.

End TracingSamples.

(* ===================================================================== *)
(** * The strategy of suggest_solutions *)
(* ===================================================================== *)

Section Strategies.
Import Utils Loops Types SuggestSolutions SuggestSolutionsTool.
Local Open Scope gen_scope.

Lemma isMajorUpgrade_differs current latest :
  isMajorUpgrade current latest = true -> differs current (Some latest) = true.
Proof.
  intros H. destruct current as [c|]; [|discriminate H]. cbn [differs].
  destruct (String.eqb_spec c latest) as [->|_]; [|reflexivity].
  unfold isMajorUpgrade in H. destruct (negb (Js.truthy latest)); [discriminate H|].
  destruct (Js.search false digitsRe latest) as [[|m l]|]; try discriminate H.
  rewrite num_gt_irrefl in H. discriminate H.
Qed.

Lemma isMajorUpgrade_truthy current latest :
  isMajorUpgrade current latest = true -> Js.truthy latest = true.
Proof.
  intros H. unfold isMajorUpgrade in H.
  destruct current as [c|]; [|discriminate H].
  destruct (negb (Js.truthy c)); [discriminate H|].
  destruct (Js.search false digitsRe c) as [[|m l]|]; try discriminate H.
  destruct (Js.search false digitsRe latest) as [[|m' l']|] eqn:E; try discriminate H.
  unfold Js.truthy. destruct (String.eqb_spec latest "") as [->|_]; [|reflexivity].
  discriminate E.
Qed.

(** The scores of the candidates other than the upgrade to the latest
    version. *)
Lemma other_scores (m2 : Gen (Js.result (list Solution))) (m3 m4 : Gen (list Solution))
    (s1 : list Solution) ids k :
  (forall ids n, exists l, fst (m2 ids n) = Js.Ret l /\
                           Forall (fun s => score (recommendation s) = 75) l) ->
  (forall ids n, Forall (fun s => score (recommendation s) = 65) (fst (m3 ids n))) ->
  (forall ids n, Forall (fun s => score (recommendation s) = 85) (fst (m4 ids n))) ->
  exists rest,
    fst ((s2 <-- m2 ;; s3 <- m3 ;; s4 <- m4 ;; ret (Js.Ret (s1 ++ s2 ++ s3 ++ s4))) ids k)
    = Js.Ret (s1 ++ rest) /\
    Forall (fun s => score (recommendation s) = 75 \/ score (recommendation s) = 65 \/
                     score (recommendation s) = 85) rest.
Proof.
  intros H2 H3 H4. unfold bind_result, bind, ret.
  destruct (H2 ids k) as (s2 & E2 & F2). destruct (m2 ids k) as [r2 k2].
  cbn [fst] in E2. subst r2.
  specialize (H3 ids k2). destruct (m3 ids k2) as [s3 k3].
  specialize (H4 ids k3). destruct (m4 ids k3) as [s4 k4].
  cbn [fst] in *. exists (s2 ++ s3 ++ s4). split; [reflexivity|].
  repeat (apply Forall_app; split);
    (eapply Forall_impl; [|eassumption]); intros s Hs; cbn in Hs; auto.
Qed.

(** X25.  When the root manifest requires the target package (the look-up
    gives a string of the manifest, not a value that objects inherit) and
    the latest version is a major upgrade of that requirement,
    suggest_solutions offers the upgrade to the latest version exactly when
    the constraints allow major upgrades or the strategy is "aggressive"; it
    is then the first candidate, marked as breaking, of high risk and with
    score 60, and every other candidate scores 75, 65 or 85. *)
Theorem major_upgrade_needs_permission :
  forall (path_join : string -> string -> string) (packageName : string)
         (targetVersion : option string) (packageJson : PackageJson)
         (workspaces : list WorkspaceInfo) (pm strategy : string)
         (constraints : Constraints) (doc : RegistryPackageDocument)
         (current latest : string) (ids : nat -> string) (n : nat),
    Js.get "latest" (dist_tags doc) = Some latest ->
    Js.or_property (lookup (dependencies packageJson) packageName)
                   (lookup (devDependencies packageJson) packageName)
    = Some (Js.Own current) ->
    isMajorUpgrade (Some current) latest = true ->
    let solutions :=
      run (generatePackageSolutions path_join packageName targetVersion packageJson
             workspaces pm strategy constraints (Some doc)) ids n in
    let allowed := truthy_bool (allowMajorUpgrade constraints) || (strategy =? "aggressive") in
    exists rest,
      Forall (fun s => score (recommendation s) = 75 \/ score (recommendation s) = 65 \/
                       score (recommendation s) = 85) rest /\
      if allowed then
        exists up,
          solutions = Js.Ret (up :: rest) /\
          sol_id up = ids n /\
          score (recommendation up) = 60 /\
          level (risk up) = high /\
          breakingChanges (compatibility up) = true
      else solutions = Js.Ret rest.
Proof.
  intros path_join pkg tv pj ws pm strategy constraints doc current latest ids n
    Hlatest Hcurrent Hmajor solutions allowed.
  subst solutions allowed. unfold run, generatePackageSolutions. cbv zeta.
  rewrite Hlatest, Hcurrent.
  cbn [differs_read Js.own_string].
  rewrite (isMajorUpgrade_truthy _ _ Hmajor), (isMajorUpgrade_differs _ _ Hmajor).
  cbn [andb]. unfold upgradeToLatest. cbn [isMajorUpgradeCall]. rewrite Hmajor.
  cbn [negb orb is_defined].
  assert (H2 : forall ids n,
             exists l,
               fst (match tv with
                    | Some target =>
                        if Js.truthy target && differs tv (Some latest)
                        then upgradeToTarget pkg (Some (Js.Own current)) target true
                               (is_defined (lookup (devDependencies pj) pkg)) pm
                        else ret (Js.Ret [])
                    | None => ret (Js.Ret [])
                    end ids n) = Js.Ret l /\
               Forall (fun s => score (recommendation s) = 75) l).
  { intros ids0 n0. destruct tv as [t|]; [|eexists; split; [reflexivity | constructor]].
    destruct (Js.truthy t && differs (Some t) (Some latest));
      eexists; (split; [reflexivity | repeat constructor]). }
  assert (H3 : forall ids n,
             Forall (fun s => score (recommendation s) = 65)
               (fst ((if true && negb true
                      then forceOverride pkg tv latest pm else ret []) ids n))).
  { intros ids0 n0. constructor. }
  assert (H4 : forall ids n,
             Forall (fun s => score (recommendation s) = 85)
               (fst ((if (0 <? List.length ws)%nat
                      then
                        if (1 <? List.length (findWorkspacesUsingPackage ws pkg))%nat
                        then unifyWorkspaces path_join pkg tv (Some latest)
                               (findWorkspacesUsingPackage ws pkg)
                        else ret []
                      else ret []) ids n))).
  { intros ids0 n0. destruct (0 <? List.length ws)%nat; [|constructor].
    destruct (1 <? List.length (findWorkspacesUsingPackage ws pkg))%nat; repeat constructor. }
  destruct (truthy_bool (allowMajorUpgrade constraints) || (strategy =? "aggressive")).
  - unfold bind_result at 1. cbn [generateId ret bind fst snd].
    match goal with
    | |- context [Utils.bind_result ?m2
                    (fun s2 => Utils.bind ?m3 (fun s3 => Utils.bind ?m4 _))] =>
        destruct (other_scores m2 m3 m4
                    [ {| sol_id := ids n; forIssue := pkg;
                         title := Js.cat ["升级 "; pkg; " 到最新版本"];
                         description :=
                           Js.cat ["将 "; pkg; " 从 "; Js.or_default (Some current) "未安装";
                                   " 升级到 "; latest];
                         steps := generateUpgradeSteps pkg latest true
                                    (is_defined (lookup (devDependencies pj) pkg)) pm;
                         risk := {| level := high;
                                    factors := ["主版本升级可能包含破坏性变更"];
                                    mitigations := ["运行测试套件"; "检查 changelog"] |};
                         compatibility :=
                           {| breakingChanges := true; affectedPackages := [pkg];
                              testingRequired := ["unit tests"; "integration tests"] |};
                         recommendation :=
                           {| score := 60; reasons := ["最新版本"; "但包含主版本升级"] |};
                         estimatedEffort := moderate |} ]
                    ids (S n) H2 H3 H4) as (rest & Hrest & Hscores)
    end.
    exists rest. split; [exact Hscores|]. eexists. split; [exact Hrest|]. repeat split.
  - unfold bind_result at 1. cbn [ret fst snd].
    match goal with
    | |- context [Utils.bind_result ?m2
                    (fun s2 => Utils.bind ?m3 (fun s3 => Utils.bind ?m4 _))] =>
        destruct (other_scores m2 m3 m4 [] ids n H2 H3 H4)
          as (rest & Hrest & Hscores)
    end.
    exists rest. split; [exact Hscores|]. exact Hrest.
Qed.

(** X25, witness: react 17 is required, react 18 is the latest. *)
Lemma major_upgrade_needs_permission_witness :
  let packageJson := Samples.manifest "app" (Some [("react", "^17.0.2")]) None in
  let doc := {| dist_tags := [("latest", "18.2.0")] |} in
  let offer strategy allow :=
    run (generatePackageSolutions (fun dir f => Js.cat [dir; "/"; f]) "react" None
           packageJson [] "npm" strategy {| allowMajorUpgrade := allow |} (Some doc))
        Samples.ids 0 in
  (exists rest,
     offer "balanced" None = Js.Ret rest /\
     Forall (fun s => score (recommendation s) = 75 \/ score (recommendation s) = 65 \/
                      score (recommendation s) = 85) rest) /\
  (exists up rest,
     offer "aggressive" None = Js.Ret (up :: rest) /\ score (recommendation up) = 60) /\
  (exists up rest,
     offer "conservative" (Some true) = Js.Ret (up :: rest) /\
     score (recommendation up) = 60).
Proof.
  intros packageJson doc offer. subst offer. cbv beta.
  split; [|split].
  - destruct (major_upgrade_needs_permission (fun dir f => Js.cat [dir; "/"; f]) "react" None
                packageJson [] "npm" "balanced" {| allowMajorUpgrade := None |} doc
                "^17.0.2" "18.2.0" Samples.ids 0 eq_refl eq_refl eq_refl)
      as (rest & Hs & H).
    exists rest. split; [exact H | exact Hs].
  - destruct (major_upgrade_needs_permission (fun dir f => Js.cat [dir; "/"; f]) "react" None
                packageJson [] "npm" "aggressive" {| allowMajorUpgrade := None |} doc
                "^17.0.2" "18.2.0" Samples.ids 0 eq_refl eq_refl eq_refl)
      as (rest & _ & up & H & _ & Hup & _).
    exists up, rest. split; [exact H | exact Hup].
  - destruct (major_upgrade_needs_permission (fun dir f => Js.cat [dir; "/"; f]) "react" None
                packageJson [] "npm" "conservative" {| allowMajorUpgrade := Some true |} doc
                "^17.0.2" "18.2.0" Samples.ids 0 eq_refl eq_refl eq_refl)
      as (rest & _ & up & H & _ & Hup & _).
    exists up, rest. split; [exact H | exact Hup].
Defined.

Lemma strategy_general pj ws pm strategy :
  (strategy =? "aggressive") = false ->
  generateGeneralSolutions pj ws pm strategy
  = generateGeneralSolutions pj ws pm "balanced".
Proof. intros H. unfold generateGeneralSolutions. now rewrite H. Qed.

Lemma strategy_package path_join pkg tv pj ws pm strategy c info :
  (strategy =? "aggressive") = false ->
  generatePackageSolutions path_join pkg tv pj ws pm strategy c info
  = generatePackageSolutions path_join pkg tv pj ws pm "balanced" c info.
Proof.
  intros H. unfold generatePackageSolutions. cbv zeta.
  destruct (match info with
            | Some doc => Js.get "latest" (dist_tags doc)
            | None => None
            end) as [latest|]; [|reflexivity].
  unfold upgradeToLatest. rewrite H. reflexivity.
Qed.

(** X26.  Of the three strategies only "aggressive" changes what
    suggest_solutions answers: with any two strategies other than
    "aggressive" (an absent one counts as "balanced"), and the rest of the
    input the same, the answers are the same, for general advice and for a
    target package alike. *)
Theorem conservative_is_balanced :
  forall (path_join : string -> string -> string)
         (package version : option string) (constraints : option Constraints)
         (strategy1 strategy2 : option string)
         (packageJson : option PackageJson) (pm : string) (workspaces : list WorkspaceInfo)
         (packageInfo : option RegistryPackageDocument) (ids : nat -> string) (n : nat),
    Js.or_default strategy1 "balanced" <> "aggressive" ->
    Js.or_default strategy2 "balanced" <> "aggressive" ->
    run (suggestSolutions path_join
           {| targetPackage := package; targetVersion := version;
              strategy := strategy1; constraints := constraints |}
           packageJson pm workspaces packageInfo) ids n
    = run (suggestSolutions path_join
             {| targetPackage := package; targetVersion := version;
                strategy := strategy2; constraints := constraints |}
             packageJson pm workspaces packageInfo) ids n.
Proof.
  intros path_join package version constraints s1 s2 [pj|] pm ws info ids n H1 H2;
    [|reflexivity].
  apply String.eqb_neq in H1, H2.
  unfold run, suggestSolutions. cbv zeta.
  cbn [targetPackage targetVersion SuggestSolutionsTool.strategy
       SuggestSolutionsTool.constraints].
  rewrite (strategy_general pj ws pm _ H1), (strategy_general pj ws pm _ H2).
  destruct package as [p|]; [|reflexivity].
  destruct (Js.truthy p); [|reflexivity].
  now rewrite (strategy_package _ _ _ _ _ _ _ _ _ H1), (strategy_package _ _ _ _ _ _ _ _ _ H2).
Qed.

(** X26, witness: "conservative" against the default. *)
Lemma conservative_is_balanced_witness :
  let packageJson := Samples.manifest "app" (Some [("react", "^17.0.2")]) None in
  let doc := {| dist_tags := [("latest", "18.2.0")] |} in
  let answer strategy :=
    run (suggestSolutions (fun dir f => Js.cat [dir; "/"; f])
           {| targetPackage := Some "react"; targetVersion := Some "17.0.2";
              strategy := strategy; constraints := None |}
           (Some packageJson) "npm" [] (Some doc)) Samples.ids 0 in
  answer (Some "conservative") = answer None.
Proof.
  intros packageJson doc answer.
  apply (conservative_is_balanced (fun dir f => Js.cat [dir; "/"; f]) (Some "react")
           (Some "17.0.2") None (Some "conservative") None (Some packageJson) "npm" []
           (Some doc) Samples.ids 0); discriminate.
Defined.

End Strategies.

(* ===================================================================== *)
(** * The reading of peer dependency problems *)
(* ===================================================================== *)

Section PeerProblems.
Import Utils Loops Types DetectConflicts PeerNotions.
Local Open Scope gen_scope.

Lemma push_capture_false text r : Js.push_capture false text r = r.
Proof. destruct r as [[caps rest]|]; reflexivity. Qed.

Lemma match_here_lit l re s :
  Js.match_here false (Js.lit l ++ re) (l ++ s) = Js.match_here false re s.
Proof.
  induction l as [|c l IH]; [reflexivity|].
  cbn [Js.lit app append Js.match_here Js.it_quant Js.it_atom Js.it_capture Js.accepts].
  rewrite Ascii.eqb_refl, push_capture_false. exact IH.
Qed.

Lemma match_here_lit_miss c l re s :
  match s with
  | String d _ => d <> c
  | EmptyString => True
  end ->
  Js.match_here false (Js.lit (String c l) ++ re) s = None.
Proof.
  intros H. destruct s as [|d s]; [reflexivity|].
  cbn [Js.lit app Js.match_here Js.it_quant Js.it_atom Js.it_capture Js.accepts].
  destruct (Ascii.eqb_spec d c); [contradiction | reflexivity].
Qed.

Lemma match_here_group re s :
  Js.match_here false (group :: re) s
  = Js.repeat_atom (Js.accepts false Js.Dot) (Js.match_here false re) true "" 1 s.
Proof. reflexivity. Qed.

(** A greedy run that no longer run can replace. *)
Lemma repeat_atom_stops ok k capture b : forall taken lo,
  (forall b1 b2, b = (b1 ++ b2)%string -> b1 <> "" ->
                 forallb ok (list_ascii_of_string b1) = true -> k b2 = None) ->
  Js.repeat_atom ok k capture taken lo b
  = match lo with
    | 0 => Js.push_capture capture taken (k b)
    | S _ => None
    end.
Proof.
  induction b as [|c b IH]; intros taken lo Hlater; [reflexivity|].
  cbn [Js.repeat_atom]. destruct (ok c) eqn:Hc; [|reflexivity].
  rewrite IH.
  - destruct (pred lo); [|reflexivity].
    rewrite (Hlater (String c "") b eq_refl); [reflexivity | discriminate |].
    cbn. now rewrite Hc.
  - intros b1 b2 -> Hne Hok. apply (Hlater (String c b1) b2 eq_refl); [discriminate|].
    cbn. now rewrite Hc.
Qed.

Lemma repeat_atom_split ok k capture a : forall taken lo b r,
  forallb ok (list_ascii_of_string a) = true ->
  lo <= String.length a ->
  k b = Some r ->
  (forall b1 b2, b = (b1 ++ b2)%string -> b1 <> "" ->
                 forallb ok (list_ascii_of_string b1) = true -> k b2 = None) ->
  Js.repeat_atom ok k capture taken lo (a ++ b)
  = Js.push_capture capture (taken ++ a) (Some r).
Proof.
  induction a as [|c a IH]; intros taken lo b r Hok Hlo Hk Hlater.
  - simpl in Hlo. assert (lo = 0) by lia. subst lo.
    cbn [append]. rewrite repeat_atom_stops by exact Hlater.
    now rewrite Hk, string_app_nil_r.
  - simpl in Hok. apply andb_prop in Hok as [Hc Hok].
    cbn [append Js.repeat_atom]. rewrite Hc.
    rewrite (IH (taken ++ String c "")%string (pred lo) b r Hok) by (simpl in Hlo; auto; lia).
    rewrite string_app_assoc. now destruct r as [caps rest].
Qed.

Lemma head_of_suffix c a : forall b1 b2,
  a = (b1 ++ b2)%string -> ~ In c (list_ascii_of_string a) ->
  match b2 with
  | String d _ => d <> c
  | EmptyString => True
  end.
Proof.
  intros b1 b2 -> Hno. destruct b2 as [|d b2]; [exact I|].
  intros ->. apply Hno. clear Hno.
  induction b1 as [|x b1 IH]; simpl; auto.
Qed.

Lemma not_in_app c a b :
  ~ In c (list_ascii_of_string a) -> ~ In c (list_ascii_of_string b) ->
  ~ In c (list_ascii_of_string (a ++ b)).
Proof.
  intros Ha Hb. induction a as [|x a IH]; simpl in *; [exact Hb|].
  intros [H|H]; [apply Ha; now left | apply IH; auto].
Qed.

(** Where a character can stand in a text that begins with a part
    without it. *)
Lemma suffix_after c a : forall b1 b2 rest,
  (a ++ rest)%string = (b1 ++ b2)%string -> ~ In c (list_ascii_of_string a) ->
  match b2 with
  | String d _ => d <> c
  | EmptyString => True
  end \/ exists r1, rest = (r1 ++ b2)%string.
Proof.
  induction a as [|x a IH]; intros b1 b2 rest Hb Hno.
  - right. exists b1. exact Hb.
  - destruct b1 as [|y b1].
    + left. cbn [append] in Hb. subst b2. intros ->. apply Hno. now left.
    + cbn [append] in Hb. injection Hb as _ Hb.
      apply (IH b1 b2 rest Hb). intros H. apply Hno. now right.
Qed.

Lemma not_in_suffix c a b : ~ In c (list_ascii_of_string (a ++ b)) ->
  ~ In c (list_ascii_of_string b).
Proof.
  intros H Hb. apply H. clear H. induction a as [|x a IH]; simpl; auto.
Qed.

Lemma repeat_atom_none ok k capture s : forall taken lo,
  (forall b1 b2, s = (b1 ++ b2)%string -> k b2 = None) ->
  Js.repeat_atom ok k capture taken lo s = None.
Proof.
  induction s as [|c s IH]; intros taken lo Hk.
  - cbn [Js.repeat_atom]. destruct lo; [|reflexivity].
    now rewrite (Hk "" "" eq_refl).
  - cbn [Js.repeat_atom].
    rewrite IH by (intros b1 b2 ->; apply (Hk (String c b1) b2 eq_refl)).
    destruct (ok c); (destruct lo; [|reflexivity]);
      now rewrite (Hk "" (String c s) eq_refl).
Qed.

(** A run followed by a literal finds nothing in a text without the
    literal's first character. *)
Lemma group_then_lit_miss c l re s :
  ~ In c (list_ascii_of_string s) ->
  Js.match_here false (group :: Js.lit (String c l) ++ re) s = None.
Proof.
  intros Hno. rewrite match_here_group. apply repeat_atom_none.
  intros b1 b2 ->. apply match_here_lit_miss.
  apply not_in_suffix in Hno. destruct b2 as [|d b2]; [exact I|].
  intros ->. apply Hno. now left.
Qed.

Lemma matched_all s : Js.matched s "" = s.
Proof.
  pose proof (matched_app s "") as H. now rewrite string_app_nil_r in H.
Qed.

Lemma search_here ic re s caps rest :
  Js.match_here ic re s = Some (caps, rest) ->
  Js.search ic re s = Some (Js.matched s rest :: caps).
Proof. intros H. destruct s; cbn [Js.search]; now rewrite H. Qed.

(** The pattern of the problem lines on a line whose parts can be told
    apart. *)
Lemma peerMissingRe_reads peer range requiredBy :
  readableParts (peer, range, requiredBy) ->
  Js.search false peerMissingRe (missingPeerLine peer range requiredBy)
  = Some [missingPeerLine peer range requiredBy; peer; range; requiredBy].
Proof.
  intros (Hp & Hr & Hh & Lp & Lr & Lh & Ar & Ch).
  set (sep := ", required by ").
  assert (Hline : missingPeerLine peer range requiredBy
                  = ("peer dep missing: "
                     ++ (peer ++ "@" ++ range ++ sep ++ requiredBy))%string).
  { unfold missingPeerLine, Js.cat. reflexivity. }
  assert (Hhost : Js.match_here false (Js.lit sep ++ [group]) (sep ++ requiredBy)
                  = Some ([requiredBy], "")).
  { rewrite match_here_lit, match_here_group.
    apply (run_to_end _ requiredBy "" 1 Lh). destruct requiredBy; [contradiction|simpl; lia]. }
  assert (Hrange : Js.match_here false (group :: Js.lit sep ++ [group])
                     (range ++ sep ++ requiredBy)
                   = Some ([range; requiredBy], "")).
  { rewrite match_here_group.
    rewrite (repeat_atom_split _ _ true range "" 1 (sep ++ requiredBy) ([requiredBy], "")
               Lr); [reflexivity | | exact Hhost |].
    - destruct range; [contradiction | simpl; lia].
    - intros b1 b2 Hb Hne _. destruct b1 as [|x b1]; [contradiction|].
      injection Hb as _ Hb.
      apply (match_here_lit_miss "," " required by " [group]).
      apply (head_of_suffix "," (" required by " ++ requiredBy) b1 b2 Hb).
      apply not_in_app; [|exact Ch].
      cbn. intros H. repeat (destruct H as [H|H]; [discriminate H|]). exact H. }
  assert (Hpeer : Js.match_here false
                    (group :: Js.lit "@" ++ group :: Js.lit sep ++ [group])
                    (peer ++ "@" ++ range ++ sep ++ requiredBy)
                  = Some ([peer; range; requiredBy], "")).
  { rewrite match_here_group.
    rewrite (repeat_atom_split _ _ true peer "" 1 ("@" ++ (range ++ sep ++ requiredBy))
               ([range; requiredBy], "") Lp); [reflexivity | | |].
    - destruct peer; [contradiction | simpl; lia].
    - rewrite match_here_lit. exact Hrange.
    - intros b1 b2 Hb Hne _. destruct b1 as [|x b1]; [contradiction|].
      injection Hb as _ Hb.
      assert (Hrs : ~ In "@"%char (list_ascii_of_string (range ++ sep))).
      { apply not_in_app; [exact Ar|].
        cbn. intros H. repeat (destruct H as [H|H]; [discriminate H|]). exact H. }
      assert (Hb' : ((range ++ sep) ++ requiredBy)%string = (b1 ++ b2)%string)
        by (rewrite string_app_assoc; exact Hb).
      destruct (suffix_after "@" _ b1 b2 requiredBy Hb' Hrs) as [Hhead|[r1 Hsuffix]].
      + apply (match_here_lit_miss "@" "" (group :: Js.lit sep ++ [group])).
        exact Hhead.
      + destruct b2 as [|d b2]; [reflexivity|].
        destruct (Ascii.eqb_spec d "@") as [->|Hd].
        * change (String "@" b2) with ("@" ++ b2)%string. rewrite match_here_lit.
          apply (group_then_lit_miss "," " required by " [group]).
          rewrite Hsuffix in Ch. apply not_in_suffix in Ch.
          intros H. apply Ch. now right.
        * apply (match_here_lit_miss "@" "" (group :: Js.lit sep ++ [group])).
          exact Hd. }
  rewrite Hline.
  set (rest := (peer ++ "@" ++ range ++ sep ++ requiredBy)%string) in *.
  assert (Hwhole : Js.match_here false peerMissingRe ("peer dep missing: " ++ rest)
                   = Some ([peer; range; requiredBy], "")).
  { unfold peerMissingRe.
    change ([group] ++ Js.lit "@" ++ [group] ++ Js.lit ", required by " ++ [group])
      with (group :: Js.lit "@" ++ group :: Js.lit sep ++ [group]).
    rewrite match_here_lit. exact Hpeer. }
  rewrite (search_here _ _ _ _ _ Hwhole). now rewrite matched_all.
Qed.

Lemma peerProblemIssue_reads parts ids n :
  readableParts parts ->
  exists i, peerProblemIssue (lineOf parts) ids n = ([i], S n) /\ reports parts i.
Proof.
  destruct parts as [[peer range] requiredBy]. intros H.
  unfold peerProblemIssue, lineOf. rewrite (peerMissingRe_reads _ _ _ H).
  eexists. split; [reflexivity|]. repeat split.
Qed.

Lemma problem_lines_loop parts : forall ids n,
  Forall readableParts parts ->
  Forall2 reports parts (fst (for_push peerProblemIssue (map lineOf parts) ids n)).
Proof.
  induction parts as [|x parts IH]; intros ids n Hall; [constructor|].
  inversion Hall as [|? ? Hx Hrest]; subst.
  cbn [map]. rewrite for_push_cons.
  destruct (peerProblemIssue_reads x ids n Hx) as (i & -> & Hi).
  cbn [fst snd app]. constructor; [exact Hi | apply IH, Hrest].
Qed.

(** X27.  The problem lines of npm's listing are read part by part.  When
    every problem that [npm ls --json] lists is a line
    [peer dep missing: P@R, required by H] whose parts can be told apart
    (none is empty or holds a line break, [R] holds no [@], [H] holds no
    comma; [P] may be a scoped name and [H] may carry a version after an
    [@]), the check reports one warning per
    line, in the order of the lines and before the warnings found on the
    error output: its package is [P], its message the line, its detail names
    host [H], peer [P] and required range [R], and its only affected path is
    [H]. *)
Theorem npm_problem_lines_are_read :
  forall (parts : list (string * string * string)) (data : NpmLsOutput)
         (result : ExecResult) (ids : nat -> string) (n : nat),
    Forall readableParts parts ->
    stdout_json result = Some data ->
    problems data = Some (map lineOf parts) ->
    exists read warned,
      run (detectPeerDependencyIssues "npm" result) ids n = read ++ warned /\
      Forall2 reports parts read /\
      map message warned
      = (if Js.truthy (stderr result)
         then Js.match_all true peerWarningRe (stderr result) else []).
Proof.
  intros parts data result ids n Hall Hout Hproblems.
  unfold run, detectPeerDependencyIssues. cbn [peerListCommand String.eqb Ascii.eqb Bool.eqb].
  rewrite Hout. destruct data as [ps deps]. cbn [problems] in Hproblems. subst ps.
  unfold bind, ret.
  pose proof (problem_lines_loop parts ids n Hall) as Hread.
  destruct (for_push peerProblemIssue (map lineOf parts) ids n) as [read n1].
  cbn [fst] in Hread.
  destruct (Js.truthy (stderr result)).
  - pose proof (peerWarningIssue_loop (Js.match_all true peerWarningRe (stderr result))
                  ids n1) as [Hm _].
    destruct (for_push peerWarningIssue _ ids n1) as [warned n2]. cbn [fst] in *.
    exists read, warned. auto.
  - exists read, []. cbn [fst]. auto.
Qed.

End PeerProblems.

Section PeerProblemSamples.
Import Utils Loops Types DetectConflicts PeerNotions.

(** X27, witness: npm lists one missing peer of a scoped name, required by
    a package given with its version. *)
Lemma npm_problem_lines_are_read_witness :
  let parts := [("@types/react", ">=16", "react-dom@18.2.0")] in
  let data := {| problems := Some (map lineOf parts); ls_dependencies := None |} in
  let result := {| stdout_json := Some data; stderr := "" |} in
  exists read warned,
    run (detectPeerDependencyIssues "npm" result) Samples.ids 0 = read ++ warned /\
    Forall2 reports parts read /\
    map message warned
    = (if Js.truthy (stderr result)
       then Js.match_all true peerWarningRe (stderr result) else []).
Proof.
  intros parts data result.
  apply (npm_problem_lines_are_read parts data result Samples.ids 0).
  - repeat constructor; try discriminate; cbn;
      intros H; repeat (destruct H as [H|H]; [discriminate H|]); exact H.
  - reflexivity.
  - reflexivity.
Defined.

End PeerProblemSamples.
